(** * lightning-exchange: the matching engine, its order book and its queues

    A shallow embedding of the Go packages [domain], [orderbook] and
    [matching], followed by the properties of the specification that were
    checked against it.

    Conventions of the embedding.
    - An [int64] is a [Z]; arithmetic that the engine performs on order and
      level counters is wrapped with [wrap64], a [uint32] semaphore with
      [wrap32u], the [uint64] trade counter with [wrap64u].
    - A [*domain.Order] is an address into [heap]: orders are shared between
      the submitter, the id index of the book and the FIFO of a price level,
      and [Fill] / [Cancel] mutate the one shared object.
    - A [container/list] is a Rocq list of (element handle, value) pairs; the
      [*list.Element] an order stores in [ListElement] is the handle.
    - The price levels of a bucket are owned by the bucket.  A
      [*PriceLevel_] is represented by the [Price] of the level it points to
      (a field that never changes once the level exists); the level itself
      is stored in slot [Price & bucketMask] of its bucket.  The doubly
      linked chain threaded through [NextPrice] / [PrevPrice] is the list
      [chain] of those prices, head first.
    - The red-black tree of buckets is a finite map ordered by the tree's
      comparator; a [*Bucket] is represented by its [bucketID]. *)

From Stdlib Require Import ZArith Lia Bool.
From stdpp Require Import base option list gmap strings pretty sorting.

Local Open Scope Z_scope.

(** ** Machine integers *)

Definition wrap64 (z : Z) : Z := (z + 2 ^ 63) mod 2 ^ 64 - 2 ^ 63.
Definition wrap64u (z : Z) : Z := z mod 2 ^ 64.
Definition wrap32u (z : Z) : Z := z mod 2 ^ 32.

Definition int64_range (z : Z) : Prop := - 2 ^ 63 <= z < 2 ^ 63.

(** ** package domain: order.go *)

Definition SideBuy : Z := 0.
Definition SideSell : Z := 1.

Definition OrderTypeLimit : Z := 0.
Definition OrderTypeMarket : Z := 1.

Definition OrderStatusPending : Z := 0.
Definition OrderStatusPartialFilled : Z := 1.
Definition OrderStatusFilled : Z := 2.
Definition OrderStatusCancelled : Z := 3.

Module Order.

Record t := mk {
  ID : string;
  Price : Z;
  Quantity : Z;
  Filled : Z;
  Side : Z;
  Type_ : Z;
  Status : Z;
  ListElement : option nat;
  Symbol : string;
  UserID : string;
  Timestamp : Z
}.

(** The zero value [Order{}], what the pool's [New] hands out. *)
Definition zero : t :=
  mk EmptyString 0 0 0 0 0 0 None EmptyString EmptyString 0.

Definition with_Filled (v : Z) (o : t) : t :=
  mk (ID o) (Price o) (Quantity o) v (Side o) (Type_ o) (Status o)
     (ListElement o) (Symbol o) (UserID o) (Timestamp o).

Definition with_Status (v : Z) (o : t) : t :=
  mk (ID o) (Price o) (Quantity o) (Filled o) (Side o) (Type_ o) v
     (ListElement o) (Symbol o) (UserID o) (Timestamp o).

Definition with_ListElement (v : option nat) (o : t) : t :=
  mk (ID o) (Price o) (Quantity o) (Filled o) (Side o) (Type_ o) (Status o)
     v (Symbol o) (UserID o) (Timestamp o).

(** [NewLimitOrder], on the object the pool returned; [now] is the reading
    of [time.Now()].  [ListElement] is not assigned by the constructor. *)
Definition NewLimitOrder (pooled : t) (now : Z)
    (id symbol userID : string) (side price quantity : Z) : t :=
  mk id price quantity 0 side OrderTypeLimit OrderStatusPending
     (ListElement pooled) symbol userID now.

Definition IsFilled (o : t) : bool := Quantity o <=? Filled o.

Definition RemainingQuantity (o : t) : Z := wrap64 (Quantity o - Filled o).

Definition Fill (quantity : Z) (o : t) : t :=
  let o1 := with_Filled (wrap64 (Filled o + quantity)) o in
  if IsFilled o1 then with_Status OrderStatusFilled o1
  else with_Status OrderStatusPartialFilled o1.

Definition Cancel (o : t) : t := with_Status OrderStatusCancelled o.

End Order.

(** ** package domain: trade.go *)

Module Trade.

Record t := mk {
  Price : Z;
  Quantity : Z;
  Timestamp : Z;
  Symbol : string;
  IsBuyerMaker : bool;
  ID : string;
  BuyOrderID : string;
  SellOrderID : string;
  BuyUserID : string;
  SellUserID : string
}.

Definition NewTrade (now : Z) (id symbol : string) (price quantity : Z)
    (buyOrder sellOrder : Order.t) : t :=
  mk price quantity now symbol
     (Order.Timestamp buyOrder <? Order.Timestamp sellOrder)
     id (Order.ID buyOrder) (Order.ID sellOrder)
     (Order.UserID buyOrder) (Order.UserID sellOrder).

End Trade.

(** ** The memory shared by the submitters and the engine *)

Module Mem.

Record t := mk {
  heap : gmap nat Order.t;   (* the Order objects, by address *)
  next_addr : nat;           (* next address the allocator hands out *)
  next_elem : nat;           (* next list.Element handle *)
  now : Z                    (* the reading time.Now() returns *)
}.

Definition empty : t := mk ∅ 0%nat 0%nat 0.

(** Reading through a pointer; an address nothing was stored at holds the
    zero Order. *)
Definition load (m : t) (a : nat) : Order.t := default Order.zero (heap m !! a).

Definition store (a : nat) (o : Order.t) (m : t) : t :=
  mk (<[a := o]> (heap m)) (next_addr m) (next_elem m) (now m).

Definition update (a : nat) (f : Order.t → Order.t) (m : t) : t :=
  store a (f (load m a)) m.

(** A fresh [list.Element]. *)
Definition new_elem (m : t) : nat * t :=
  (next_elem m, mk (heap m) (next_addr m) (S (next_elem m)) (now m)).

(** [domain.NewLimitOrder]: the pool is never refilled by the engine, so
    [orderPool.Get()] is a fresh zero Order. *)
Definition NewLimitOrder (id symbol userID : string) (side price quantity : Z)
    (m : t) : nat * t :=
  let a := next_addr m in
  (a, mk (<[a := Order.NewLimitOrder Order.zero (now m) id symbol userID side price quantity]> (heap m))
         (S a) (next_elem m) (now m)).

(** Placing an arbitrary Order object in memory (a submitter that fills the
    struct by hand, as the market orders of the specification require). *)
Definition alloc (o : Order.t) (m : t) : nat * t :=
  let a := next_addr m in
  (a, mk (<[a := o]> (heap m)) (S a) (next_elem m) (now m)).

End Mem.

(** ** package orderbook: the price level *)

Module PriceLevel_.

Record t := mk {
  Price : Z;
  Orders : list (nat * nat);   (* FIFO: (element handle, order address) *)
  Volume : Z
}.

(** [list.PushBack] *)
Definition PushBack (e : nat) (a : nat) (l : t) : t :=
  mk (Price l) (Orders l ++ [(e, a)]) (Volume l).

(** [list.Remove]: unlinks the element when it belongs to this list. *)
Definition RemoveElem (e : nat) (l : t) : t :=
  mk (Price l) (filter (λ x, x.1 ≠ e) (Orders l)) (Volume l).

Definition with_Volume (v : Z) (l : t) : t := mk (Price l) (Orders l) v.

End PriceLevel_.

(** [make([]PriceLevel_, 0, cap)]: [runtime.makeslice] panics ("cap out of
    range") when [cap] is negative or the slice would take more than
    [maxAlloc] bytes, which is 2^48 on the 64-bit platforms.  A
    [PriceLevel_] is five words, 40 bytes.  An allocation the runtime
    admits is taken to succeed. *)
Definition maxAlloc : Z := 2 ^ 48.

Definition PriceLevel_size : Z := 40.

Definition makeslice_ok (elemSize cap : Z) : bool :=
  (0 <=? cap) && (elemSize * cap <=? maxAlloc).

(** ** package orderbook: price_tree_sharded.go *)

Definition isBetter (isBuy : bool) (new existing : Z) : bool :=
  if isBuy then existing <? new else new <? existing.

Module Bucket.

Record t := mk {
  bucketID : Z;
  levels : gmap Z PriceLevel_.t;   (* the array, nil slots absent *)
  chain : list Z;                   (* the linked chain, best first *)
  size : Z;
  isBuy : bool;
  bucketSize : Z;
  bucketMask : Z
}.

Definition bestPrice (b : t) : option Z := head (chain b).

Definition NewBucket (bucketID : Z) (isBuy : bool) (bucketSize : Z) : t :=
  mk bucketID ∅ [] 0 isBuy bucketSize (bucketSize - 1).

Definition isBetterPrice (b : t) (newPrice existingPrice : Z) : bool :=
  isBetter (isBuy b) newPrice existingPrice.

(** The walk of [Insert] along the chain: the new level goes in front of
    the first level it is better than, or at the end. *)
Fixpoint splice (isBuy : bool) (p : Z) (c : list Z) : list Z :=
  match c with
  | [] => [p]
  | q :: rest =>
      if isBetter isBuy p q then p :: q :: rest
      else q :: splice isBuy p rest
  end.

(** Unlinking one level from the chain. *)
Fixpoint unlink (p : Z) (c : list Z) : list Z :=
  match c with
  | [] => []
  | q :: rest => if Z.eqb p q then rest else q :: unlink p rest
  end.

Definition with_levels (ls : gmap Z PriceLevel_.t) (b : t) : t :=
  mk (bucketID b) ls (chain b) (size b) (isBuy b) (bucketSize b) (bucketMask b).

Definition Insert (price : Z) (level : PriceLevel_.t) (b : t) : t :=
  let index := Z.land price (bucketMask b) in
  mk (bucketID b) (<[index := level]> (levels b))
     (splice (isBuy b) (PriceLevel_.Price level) (chain b))
     (size b + 1) (isBuy b) (bucketSize b) (bucketMask b).

Definition Remove (price : Z) (b : t) : t :=
  let index := Z.land price (bucketMask b) in
  match levels b !! index with
  | None => b
  | Some level =>
      mk (bucketID b) (delete index (levels b))
         (unlink (PriceLevel_.Price level) (chain b))
         (size b - 1) (isBuy b) (bucketSize b) (bucketMask b)
  end.

(** [updateBestPrice] has an empty body: the head of the chain is the best. *)
Definition updateBestPrice (b : t) : t := b.

End Bucket.

Module ShardedPriceTree.

Record t := mk {
  buckets : gmap Z Bucket.t;
  bestBucket : option Z;
  bestPrice : option Z;
  isBuy : bool;
  bucketSize : Z
}.

Definition NewShardedPriceTree (isBuy : bool) (bucketSize : Z) : t :=
  mk ∅ None None isBuy bucketSize.

Definition isBetterBucket (spt : t) (newBucketID existingBucketID : Z) : bool :=
  isBetter (isBuy spt) newBucketID existingBucketID.

(** [rbt.Tree.Left]: the first node in the order of the comparator, which
    puts the greatest bucket id first for bids and the least for asks. *)
Definition first_of (isBuy : bool) (kv : Z * Bucket.t)
    (acc : option (Z * Bucket.t)) : option (Z * Bucket.t) :=
  match acc with
  | None => Some kv
  | Some kv' => if isBetter isBuy kv.1 kv'.1 then Some kv else acc
  end.

Definition Left (isBuy : bool) (m : gmap Z Bucket.t) : option (Z * Bucket.t) :=
  foldr (first_of isBuy) None (map_to_list m).

Definition with_best (bb bp : option Z) (spt : t) : t :=
  mk (buckets spt) bb bp (isBuy spt) (bucketSize spt).

Definition with_buckets (bs : gmap Z Bucket.t) (spt : t) : t :=
  mk bs (bestBucket spt) (bestPrice spt) (isBuy spt) (bucketSize spt).

Definition updateBestPriceFromTree (spt : t) : t :=
  match Left (isBuy spt) (buckets spt) with
  | None => with_best None None spt
  | Some (k, b) => with_best (Some k) (Bucket.bestPrice b) spt
  end.

Definition updateBestPrice (bucketID : Z) (bucket : Bucket.t) (spt : t) : t :=
  match bestBucket spt with
  | None => with_best (Some bucketID) (Bucket.bestPrice bucket) spt
  | Some best =>
      if isBetterBucket spt bucketID best
      then with_best (Some bucketID) (Bucket.bestPrice bucket) spt
      else if Z.eqb bucketID best
      then with_best (bestBucket spt) (Bucket.bestPrice bucket) spt
      else spt
  end.

Definition Insert (price : Z) (level : PriceLevel_.t) (spt : t) : t :=
  let bucketID := Z.quot price (bucketSize spt) in
  let bucket :=
    match buckets spt !! bucketID with
    | Some b => b
    | None => Bucket.NewBucket bucketID (isBuy spt) (bucketSize spt)
    end in
  let bucket := Bucket.Insert price level bucket in
  updateBestPrice bucketID bucket (with_buckets (<[bucketID := bucket]> (buckets spt)) spt).

Definition Remove (price : Z) (spt : t) : t :=
  let bucketID := Z.quot price (bucketSize spt) in
  match buckets spt !! bucketID with
  | None => spt
  | Some bucket =>
      let bucket := Bucket.Remove price bucket in
      if Z.eqb (Bucket.size bucket) 0 then
        let spt := with_buckets (delete bucketID (buckets spt)) spt in
        if decide (bestBucket spt = Some bucketID)
        then updateBestPriceFromTree (with_best None None spt)
        else spt
      else
        let bucket := Bucket.updateBestPrice bucket in
        let spt := with_buckets (<[bucketID := bucket]> (buckets spt)) spt in
        match bestPrice spt with
        | Some bp => if Z.eqb bp price then updateBestPriceFromTree spt else spt
        | None => spt
        end
  end.

Definition GetBestPrice (spt : t) : option Z := bestPrice spt.

(** Following a [*PriceLevel_]. *)
Definition level_at (spt : t) (price : Z) : option PriceLevel_.t :=
  b ← buckets spt !! Z.quot price (bucketSize spt);
  Bucket.levels b !! Z.land price (Bucket.bucketMask b).

(** [rbt.Tree.Iterator]: the nodes in the order of the comparator, the
    greatest bucket id first for bids and the least first for asks. *)
Definition comes_first (isBuy : bool) (x y : Z * Bucket.t) : Prop :=
  if isBuy then y.1 <= x.1 else x.1 <= y.1.

#[global] Instance comes_first_dec isBuy x y : Decision (comes_first isBuy x y) :=
  match isBuy as b return Decision (comes_first b x y) with
  | true => decide (y.1 <= x.1)
  | false => decide (x.1 <= y.1)
  end.

Definition Iterator (spt : t) : list (Z * Bucket.t) :=
  merge_sort (comes_first (isBuy spt)) (map_to_list (buckets spt)).

End ShardedPriceTree.

(** ** package orderbook: price_tree_factory.go *)

Module ShardedPriceTreeAdapter.

Import ShardedPriceTree.

(** The adapter holds one [*ShardedPriceTree]; it is represented by the
    tree itself. *)
Definition NewShardedPriceTreeFromInterface (descending : bool) (bucketSize : Z) : t :=
  NewShardedPriceTree descending bucketSize.

Definition Insert (order : nat) (s : t) (m : Mem.t) : t * Mem.t :=
  let o := Mem.load m order in
  let bucketID := Z.quot (Order.Price o) (bucketSize s) in
  let bucket :=
    match buckets s !! bucketID with
    | Some b => b
    | None => Bucket.NewBucket bucketID (isBuy s) (bucketSize s)
    end in
  let index := Z.land (Order.Price o) (Bucket.bucketMask bucket) in
  let '(priceLevel, bucket) :=
    match Bucket.levels bucket !! index with
    | Some l => (l, bucket)
    | None =>
        let l := PriceLevel_.mk (Order.Price o) [] 0 in
        (l, Bucket.Insert (Order.Price o) l bucket)
    end in
  let '(elem, m) := Mem.new_elem m in
  let priceLevel := PriceLevel_.PushBack elem order priceLevel in
  let m := Mem.update order (Order.with_ListElement (Some elem)) m in
  let priceLevel :=
    PriceLevel_.with_Volume
      (wrap64 (PriceLevel_.Volume priceLevel
               + Order.RemainingQuantity (Mem.load m order))) priceLevel in
  let bucket := Bucket.with_levels (<[index := priceLevel]> (Bucket.levels bucket)) bucket in
  let s := with_buckets (<[bucketID := bucket]> (buckets s)) s in
  let s :=
    match bestBucket s with
    | None => with_best (Some bucketID) (Bucket.bestPrice bucket) s
    | Some best =>
        if isBetterBucket s bucketID best
        then with_best (Some bucketID) (Bucket.bestPrice bucket) s
        else if Z.eqb bucketID best
        then with_best (bestBucket s) (Bucket.bestPrice bucket) s
        else s
    end in
  (s, m).

Definition Remove (order : nat) (s : t) (m : Mem.t) : t * Mem.t :=
  let o := Mem.load m order in
  let bucketID := Z.quot (Order.Price o) (bucketSize s) in
  match buckets s !! bucketID with
  | None => (s, m)
  | Some bucket =>
      let index := Z.land (Order.Price o) (Bucket.bucketMask bucket) in
      match Bucket.levels bucket !! index with
      | None => (s, m)
      | Some priceLevel =>
          let '(priceLevel, m) :=
            match Order.ListElement o with
            | Some elem =>
                let priceLevel := PriceLevel_.RemoveElem elem priceLevel in
                let m := Mem.update order (Order.with_ListElement None) m in
                (PriceLevel_.with_Volume
                   (wrap64 (PriceLevel_.Volume priceLevel
                            - Order.RemainingQuantity (Mem.load m order)))
                   priceLevel, m)
            | None => (priceLevel, m)
            end in
          let bucket := Bucket.with_levels (<[index := priceLevel]> (Bucket.levels bucket)) bucket in
          let s := with_buckets (<[bucketID := bucket]> (buckets s)) s in
          if Nat.eqb (length (PriceLevel_.Orders priceLevel)) 0
          then (ShardedPriceTree.Remove (Order.Price o) s, m)
          else (s, m)
      end
  end.

(** [GetBestPrice] reads the [Price] field through the cached pointer. *)
Definition GetBestPrice (s : t) : Z :=
  match ShardedPriceTree.GetBestPrice s with
  | None => 0
  | Some p => p
  end.

Definition GetBestLevel (s : t) : option PriceLevel_.t :=
  p ← ShardedPriceTree.GetBestPrice s; level_at s p.

Definition GetBestOrders (s : t) : list nat :=
  match GetBestLevel s with
  | None => []
  | Some l => (PriceLevel_.Orders l).*2
  end.

Definition GetLevel (price : Z) (s : t) : option PriceLevel_.t := level_at s price.

(** The inner loop of [GetDepth]: from [current] along [NextPrice], while
    [count < maxLevels]; [count] is the length of [result]. *)
Fixpoint walk_chain (bucket : Bucket.t) (current : list Z) (maxLevels : Z)
    (result : list PriceLevel_.t) : list PriceLevel_.t :=
  match current with
  | [] => result
  | p :: next =>
      if Z.of_nat (length result) <? maxLevels then
        match Bucket.levels bucket !! Z.land p (Bucket.bucketMask bucket) with
        | Some l => walk_chain bucket next maxLevels (result ++ [l])
        | None => result
        end
      else result
  end.

(** The outer loop of [GetDepth], over the iterator of the tree. *)
Fixpoint walk_buckets (it : list (Z * Bucket.t)) (maxLevels : Z)
    (result : list PriceLevel_.t) : list PriceLevel_.t :=
  match it with
  | [] => result
  | (_, bucket) :: rest =>
      if Z.of_nat (length result) <? maxLevels then
        walk_buckets rest maxLevels
          (walk_chain bucket (Bucket.chain bucket) maxLevels result)
      else result
  end.

(** [GetDepth]: [make] with a capacity the runtime refuses panics, which is
    [None]. *)
Definition GetDepth (maxLevels : Z) (s : t) : option (list PriceLevel_.t) :=
  if (maxLevels <=? 0) || bool_decide (buckets s = ∅) then Some []
  else if makeslice_ok PriceLevel_size maxLevels
  then Some (walk_buckets (Iterator s) maxLevels [])
  else None.

Definition IsEmpty (s : t) : bool := bool_decide (buckets s = ∅).

(** [Size] adds [len(bucket.levels)] over the buckets; [levels] is an array
    of 128 slots, whose [len] is 128 whatever the slots hold. *)
Definition Size (s : t) : Z :=
  foldl (λ count _, count + 128) 0 (Iterator s).

End ShardedPriceTreeAdapter.

(** ** package orderbook: the HashMap + list price tree

    The tree owns its levels, by price; a [*PriceLevel_] is again the
    [Price] of the level, and the chain through [NextPrice] / [PrevPrice]
    is the list [chain], best first. *)

Module HashMapListPriceTree.

Record t := mk {
  levels : gmap Z PriceLevel_.t;
  chain : list Z;
  descending : bool
}.

Definition bestPrice (pt : t) : option Z := head (chain pt).

Definition NewHashMapListPriceTree (descending : bool) : t := mk ∅ [] descending.

Definition NewPriceTree (descending : bool) : t := NewHashMapListPriceTree descending.

Definition isBetterPrice (pt : t) (price1 price2 : Z) : bool :=
  if descending pt then price2 <? price1 else price1 <? price2.

(** The walk of [insertPriceLevel]: the new level becomes the head when the
    chain is empty or it is better than the head; otherwise it goes in
    front of the first level it is better than, or at the end. *)
Fixpoint link (pt : t) (p : Z) (c : list Z) : list Z :=
  match c with
  | [] => [p]
  | q :: rest =>
      if isBetterPrice pt p q then p :: q :: rest
      else q :: link pt p rest
  end.

Definition insertPriceLevel (newLevel : PriceLevel_.t) (pt : t) : t :=
  mk (levels pt) (link pt (PriceLevel_.Price newLevel) (chain pt)) (descending pt).

(** [removePriceLevel]: the level leaves the map and the chain. *)
Fixpoint unlink (p : Z) (c : list Z) : list Z :=
  match c with
  | [] => []
  | q :: rest => if Z.eqb p q then rest else q :: unlink p rest
  end.

Definition removePriceLevel (level : PriceLevel_.t) (pt : t) : t :=
  mk (delete (PriceLevel_.Price level) (levels pt))
     (unlink (PriceLevel_.Price level) (chain pt)) (descending pt).

Definition with_levels (ls : gmap Z PriceLevel_.t) (pt : t) : t :=
  mk ls (chain pt) (descending pt).

Definition Insert (order : nat) (pt : t) (m : Mem.t) : t * Mem.t :=
  let o := Mem.load m order in
  let '(level, pt) :=
    match levels pt !! Order.Price o with
    | Some l => (l, pt)
    | None =>
        let l := PriceLevel_.mk (Order.Price o) [] 0 in
        (l, insertPriceLevel l (with_levels (<[Order.Price o := l]> (levels pt)) pt))
    end in
  let '(elem, m) := Mem.new_elem m in
  let level := PriceLevel_.PushBack elem order level in
  let m := Mem.update order (Order.with_ListElement (Some elem)) m in
  let level :=
    PriceLevel_.with_Volume
      (wrap64 (PriceLevel_.Volume level + Order.RemainingQuantity (Mem.load m order)))
      level in
  (with_levels (<[Order.Price o := level]> (levels pt)) pt, m).

Definition Remove (order : nat) (pt : t) (m : Mem.t) : t * Mem.t :=
  let o := Mem.load m order in
  match levels pt !! Order.Price o with
  | None => (pt, m)
  | Some level =>
      let '(level, m) :=
        match Order.ListElement o with
        | Some elem =>
            let level := PriceLevel_.RemoveElem elem level in
            let m := Mem.update order (Order.with_ListElement None) m in
            (PriceLevel_.with_Volume
               (wrap64 (PriceLevel_.Volume level
                        - Order.RemainingQuantity (Mem.load m order)))
               level, m)
        | None => (level, m)
        end in
      let pt := with_levels (<[Order.Price o := level]> (levels pt)) pt in
      if Nat.eqb (length (PriceLevel_.Orders level)) 0
      then (removePriceLevel level pt, m)
      else (pt, m)
  end.

Definition GetBestLevel (pt : t) : option PriceLevel_.t :=
  p ← bestPrice pt; levels pt !! p.

Definition GetBestPrice (pt : t) : Z :=
  match GetBestLevel pt with
  | None => 0
  | Some l => PriceLevel_.Price l
  end.

Definition GetBestOrders (pt : t) : list nat :=
  match GetBestLevel pt with
  | None => []
  | Some l => (PriceLevel_.Orders l).*2
  end.

Definition GetLevel (price : Z) (pt : t) : option PriceLevel_.t := levels pt !! price.

(** The loop of [GetDepth]: from [current] along [NextPrice], while
    [len(depth) < maxLevels]. *)
Fixpoint walk (pt : t) (current : list Z) (maxLevels : Z)
    (depth : list PriceLevel_.t) : list PriceLevel_.t :=
  match current with
  | [] => depth
  | p :: next =>
      if Z.of_nat (length depth) <? maxLevels then
        match levels pt !! p with
        | Some l => walk pt next maxLevels (depth ++ [l])
        | None => depth
        end
      else depth
  end.

(** [GetDepth]: [make] with a capacity the runtime refuses, negative or too
    large, panics, which is [None]. *)
Definition GetDepth (maxLevels : Z) (pt : t) : option (list PriceLevel_.t) :=
  match bestPrice pt with
  | None => Some []
  | Some _ =>
      if makeslice_ok PriceLevel_size maxLevels
      then Some (walk pt (chain pt) maxLevels [])
      else None
  end.

Definition IsEmpty (pt : t) : bool :=
  match bestPrice pt with None => true | Some _ => false end.

Definition Size (pt : t) : Z := Z.of_nat (size (levels pt)).

End HashMapListPriceTree.

(** ** package orderbook: orderbook.go *)

Module OrderBook.

Record t := mk {
  symbol : string;
  bids : ShardedPriceTree.t;
  asks : ShardedPriceTree.t;
  orders : gmap string nat
}.

Definition NewOrderBook (symbol : string) : t :=
  mk symbol
     (ShardedPriceTreeAdapter.NewShardedPriceTreeFromInterface true 128)
     (ShardedPriceTreeAdapter.NewShardedPriceTreeFromInterface false 128)
     ∅.

Definition AddOrder (order : nat) (ob : t) (m : Mem.t) : t * Mem.t :=
  let o := Mem.load m order in
  let orders' := <[Order.ID o := order]> (orders ob) in
  if Z.eqb (Order.Side o) SideBuy then
    let '(bids', m) := ShardedPriceTreeAdapter.Insert order (bids ob) m in
    (mk (symbol ob) bids' (asks ob) orders', m)
  else
    let '(asks', m) := ShardedPriceTreeAdapter.Insert order (asks ob) m in
    (mk (symbol ob) (bids ob) asks' orders', m).

Definition CancelOrder (orderID : string) (ob : t) (m : Mem.t) : t * Mem.t :=
  match orders ob !! orderID with
  | None => (ob, m)
  | Some order =>
      let o := Mem.load m order in
      let '(ob, m) :=
        if Z.eqb (Order.Side o) SideBuy then
          let '(bids', m) := ShardedPriceTreeAdapter.Remove order (bids ob) m in
          (mk (symbol ob) bids' (asks ob) (orders ob), m)
        else
          let '(asks', m) := ShardedPriceTreeAdapter.Remove order (asks ob) m in
          (mk (symbol ob) (bids ob) asks' (orders ob), m) in
      (mk (symbol ob) (bids ob) (asks ob) (delete orderID (orders ob)),
       Mem.update order Order.Cancel m)
  end.

Definition GetBestBid (ob : t) : Z := ShardedPriceTreeAdapter.GetBestPrice (bids ob).
Definition GetBestAsk (ob : t) : Z := ShardedPriceTreeAdapter.GetBestPrice (asks ob).

Definition GetBestBuyLevel (ob : t) : option PriceLevel_.t :=
  ShardedPriceTreeAdapter.GetBestLevel (bids ob).
Definition GetBestSellLevel (ob : t) : option PriceLevel_.t :=
  ShardedPriceTreeAdapter.GetBestLevel (asks ob).

(** The exported [PriceLevel]: price, quantity, number of orders. *)
Record PriceLevel := mkPriceLevel {
  Price : Z;
  Quantity : Z;
  Orders : Z
}.

Definition export (level : PriceLevel_.t) : PriceLevel :=
  mkPriceLevel (PriceLevel_.Price level) (PriceLevel_.Volume level)
    (Z.of_nat (length (PriceLevel_.Orders level))).

(** [GetDepth] panics when one of the two ladders does; the two slices of
    the result are made with the lengths of the depths just read. *)
Definition GetDepth (levels : Z) (ob : t) : option (list PriceLevel * list PriceLevel) :=
  match ShardedPriceTreeAdapter.GetDepth levels (bids ob) with
  | None => None
  | Some bidLevels =>
      match ShardedPriceTreeAdapter.GetDepth levels (asks ob) with
      | None => None
      | Some askLevels => Some (export <$> bidLevels, export <$> askLevels)
      end
  end.

Definition GetBestBuyOrders (ob : t) : list nat :=
  ShardedPriceTreeAdapter.GetBestOrders (bids ob).
Definition GetBestSellOrders (ob : t) : list nat :=
  ShardedPriceTreeAdapter.GetBestOrders (asks ob).

End OrderBook.

(** ** package matching: id_generator.go *)

Module IDGenerator.

Record t := mk { prefix : string; counter : Z }.

Definition NewIDGenerator (prefix : string) : t := mk prefix 0.

Definition Next (g : t) : string * t :=
  let count := wrap64u (counter g + 1) in
  (prefix g +:+ pretty (Z.to_N count), mk (prefix g) count).

End IDGenerator.

(** ** package matching: the ring buffers

    The queues are embedded as one thread sees them.  A semaphore is its
    counter; [semacquire] on a zero counter does not return, which the
    embedding renders as [None], as it does a panic. *)

Definition semacquire (s : Z) : option Z :=
  if Z.eqb s 0 then None else Some (wrap32u (s - 1)).

Definition semrelease (s : Z) : Z := wrap32u (s + 1).

(** The constructor's loop [for i := 0; i < size; i++ { semrelease(&s) }]. *)
Fixpoint release_times (n : nat) (s : Z) : Z :=
  match n with
  | O => s
  | S n' => release_times n' (semrelease s)
  end.

Module RingBuffer.
Section WithItem.

Context {T : Type}.

Record t := mk {
  buffer : list (option T);
  mask : Z;
  writeSeq : Z;
  readSeq : Z;
  emptySlots : Z;
  fullSlots : Z
}.

(** [NewRingBufferSemaphoreBatchSafe] and [NewTradeRingBufferBatchSafe]:
    the same body, at element types [*domain.Order] and [*domain.Trade].
    [make] panics on a negative length; memory is taken to be unbounded. *)
Definition New (size : Z) : option t :=
  if negb (Z.eqb (Z.land size (wrap64 (size - 1))) 0) then None
  else if Z.ltb size 0 then None
  else Some (mk (replicate (Z.to_nat size) None) (wrap64 (size - 1)) 0 0
                (release_times (Z.to_nat size) 0) 0).

(** Writing slot [index] of the slice; out of range panics. *)
Definition set_slot (index : Z) (x : T) (buf : list (option T)) : option (list (option T)) :=
  if (0 <=? index) && (index <? Z.of_nat (length buf))
  then Some (<[Z.to_nat index := Some x]> buf) else None.

Definition get_slot (index : Z) (buf : list (option T)) : option (option T) :=
  if 0 <=? index then buf !! Z.to_nat index else None.

Definition Publish (item : T) (rb : t) : option t :=
  e ← semacquire (emptySlots rb);
  let w := wrap64 (writeSeq rb + 1) in
  let seq := wrap64 (w - 1) in
  let index := Z.land seq (mask rb) in
  buf ← set_slot index item (buffer rb);
  Some (mk buf (mask rb) w (readSeq rb) e (semrelease (fullSlots rb))).

(** One acquire-read-release round of the consumer. *)
Definition take (rb : t) : option (option T * t) :=
  f ← semacquire (fullSlots rb);
  let r := wrap64 (readSeq rb + 1) in
  let seq := wrap64 (r - 1) in
  let index := Z.land seq (mask rb) in
  x ← get_slot index (buffer rb);
  Some (x, mk (buffer rb) (mask rb) (writeSeq rb) r (semrelease (emptySlots rb)) f).

Record Consumer := mkConsumer {
  localCache : list (option T);
  cacheStart : Z;
  cacheEnd : Z
}.

Definition NewConsumer : Consumer := mkConsumer (replicate 128 None) 0 0.

Fixpoint fill_more (n : nat) (acquired : Z) (cache : list (option T)) (rb : t)
    : option (Z * list (option T) * t) :=
  match n with
  | O => Some (acquired, cache, rb)
  | S n' =>
      '(x, rb) ← take rb;
      fill_more n' (acquired + 1) (<[Z.to_nat acquired := x]> cache) rb
  end.

Definition fillCacheSafe (cb : Consumer) (rb : t) : option (Consumer * t) :=
  '(x, rb) ← take rb;
  let cache := <[0%nat := x]> (localCache cb) in
  let maxBatch := 128 in
  let available := wrap64 (writeSeq rb - readSeq rb) in
  let available := if maxBatch - 1 <? available then maxBatch - 1 else available in
  '(acquired, cache, rb) ← fill_more (Z.to_nat available) 1 cache rb;
  Some (mkConsumer cache 0 acquired, rb).

Definition Consume (cb : Consumer) (rb : t) : option (option T * Consumer * t) :=
  if cacheStart cb <? cacheEnd cb then
    x ← get_slot (cacheStart cb) (localCache cb);
    Some (x, mkConsumer (localCache cb) (cacheStart cb + 1) (cacheEnd cb), rb)
  else
    '(cb, rb) ← fillCacheSafe cb rb;
    x ← get_slot (cacheStart cb) (localCache cb);
    Some (x, mkConsumer (localCache cb) (cacheStart cb + 1) (cacheEnd cb), rb).

(** The loop of [tryFillCache].  No other thread runs between the load of
    [fullSlots] and the compare-and-swap, which therefore succeeds. *)
Fixpoint try_more (n : nat) (acquired : Z) (cache : list (option T)) (rb : t)
    : option (Z * list (option T) * t) :=
  match n with
  | O => Some (acquired, cache, rb)
  | S n' =>
      let slots := fullSlots rb in
      if Z.eqb slots 0 then Some (acquired, cache, rb) else
      let f := wrap32u (slots - 1) in
      let r := wrap64 (readSeq rb + 1) in
      let seq := wrap64 (r - 1) in
      let index := Z.land seq (mask rb) in
      x ← get_slot index (buffer rb);
      let cache := <[Z.to_nat acquired := x]> cache in
      let rb := mk (buffer rb) (mask rb) (writeSeq rb) r (semrelease (emptySlots rb)) f in
      try_more n' (acquired + 1) cache rb
  end.

Definition tryFillCache (cb : Consumer) (rb : t) : option (bool * Consumer * t) :=
  let available := wrap64 (writeSeq rb - readSeq rb) in
  if Z.eqb available 0 then Some (false, cb, rb) else
  let maxBatch := 128 in
  let available := if maxBatch <? available then maxBatch else available in
  '(acquired, cache, rb) ← try_more (Z.to_nat available) 0 (localCache cb) rb;
  if Z.eqb acquired 0 then Some (false, mkConsumer cache (cacheStart cb) (cacheEnd cb), rb)
  else Some (true, mkConsumer cache 0 acquired, rb).

(** [TryConsume] returns the item and [true], or [nil] and [false]. *)
Definition TryConsume (cb : Consumer) (rb : t) : option (option T * bool * Consumer * t) :=
  if cacheStart cb <? cacheEnd cb then
    x ← get_slot (cacheStart cb) (localCache cb);
    Some (x, true, mkConsumer (localCache cb) (cacheStart cb + 1) (cacheEnd cb), rb)
  else
    '(ok, cb, rb) ← tryFillCache cb rb;
    if ok : bool then
      x ← get_slot (cacheStart cb) (localCache cb);
      Some (x, true, mkConsumer (localCache cb) (cacheStart cb + 1) (cacheEnd cb), rb)
    else Some (None, false, cb, rb).

End WithItem.
Arguments t : clear implicits.
Arguments Consumer : clear implicits.
End RingBuffer.

Definition NewRingBufferSemaphoreBatchSafe (size : Z) : option (RingBuffer.t nat) :=
  RingBuffer.New size.

Definition NewTradeRingBufferBatchSafe (size : Z) : option (RingBuffer.t Trade.t) :=
  RingBuffer.New size.

(** ** package matching: engine.go *)

Module MatchingEngine.

Record t := mk {
  symbol : string;
  orderBook : OrderBook.t;
  orderBuffer : RingBuffer.t nat;
  cancelChan : list string;
  tradeBuffer : RingBuffer.t Trade.t;
  tradeIDGen : IDGenerator.t
}.

Definition NewMatchingEngine (symbol : string) : option t :=
  ob ← NewRingBufferSemaphoreBatchSafe 65536;
  tb ← NewTradeRingBufferBatchSafe 65536;
  Some (mk symbol (OrderBook.NewOrderBook symbol) ob [] tb
           (IDGenerator.NewIDGenerator "T")).

Definition with_orderBook (ob : OrderBook.t) (me : t) : t :=
  mk (symbol me) ob (orderBuffer me) (cancelChan me) (tradeBuffer me) (tradeIDGen me).

Definition with_tradeIDGen (g : IDGenerator.t) (me : t) : t :=
  mk (symbol me) (orderBook me) (orderBuffer me) (cancelChan me) (tradeBuffer me) g.

Definition with_orderBuffer (rb : RingBuffer.t nat) (me : t) : t :=
  mk (symbol me) (orderBook me) rb (cancelChan me) (tradeBuffer me) (tradeIDGen me).

Definition with_tradeBuffer (rb : RingBuffer.t Trade.t) (me : t) : t :=
  mk (symbol me) (orderBook me) (orderBuffer me) (cancelChan me) rb (tradeIDGen me).

(** [SubmitOrder] returns nothing; [None] is a submitter that stays blocked. *)
Definition SubmitOrder (order : nat) (me : t) : option t :=
  rb ← RingBuffer.Publish order (orderBuffer me);
  Some (with_orderBuffer rb me).

Definition executeTrade (buyOrder sellOrder : nat) (price : Z) (me : t) (m : Mem.t)
    : Trade.t * t * Mem.t :=
  let quantity :=
    Z.min (Order.RemainingQuantity (Mem.load m buyOrder))
          (Order.RemainingQuantity (Mem.load m sellOrder)) in
  let m := Mem.update buyOrder (Order.Fill quantity) m in
  let m := Mem.update sellOrder (Order.Fill quantity) m in
  let '(tradeID, g) := IDGenerator.Next (tradeIDGen me) in
  let trade :=
    Trade.NewTrade (Mem.now m) tradeID (Order.Symbol (Mem.load m buyOrder))
      price quantity (Mem.load m buyOrder) (Mem.load m sellOrder) in
  (trade, with_tradeIDGen g me, m).

Definition cancel (orderID : string) (me : t) (m : Mem.t) : t * Mem.t :=
  let '(ob, m) := OrderBook.CancelOrder orderID (orderBook me) m in
  (with_orderBook ob me, m).

(** The loop of [matchBuyOrder]; [fuel] bounds the number of iterations
    and [None] is a loop that has not finished within it. *)
Fixpoint matchBuyOrder_loop (fuel : nat) (buyOrder : nat) (trades : list Trade.t)
    (me : t) (m : Mem.t) : option (list Trade.t * t * Mem.t) :=
  match fuel with
  | O => None
  | S fuel' =>
      let b := Mem.load m buyOrder in
      if Order.IsFilled b then Some (trades, me, m) else
      let bestAsk := OrderBook.GetBestAsk (orderBook me) in
      if Z.eqb bestAsk 0
         || (Z.eqb (Order.Type_ b) OrderTypeLimit && (Order.Price b <? bestAsk))
      then Some (trades, me, m) else
      match OrderBook.GetBestSellLevel (orderBook me) with
      | None => Some (trades, me, m)
      | Some bestLevel =>
          match PriceLevel_.Orders bestLevel with
          | [] => Some (trades, me, m)
          | (_, sellOrder) :: _ =>
              let '(trade, me, m) := executeTrade buyOrder sellOrder bestAsk me m in
              let trades := trades ++ [trade] in
              let '(me, m) :=
                if Order.IsFilled (Mem.load m sellOrder)
                then cancel (Order.ID (Mem.load m sellOrder)) me m
                else (me, m) in
              matchBuyOrder_loop fuel' buyOrder trades me m
          end
      end
  end.

Definition matchBuyOrder (fuel : nat) (buyOrder : nat) (me : t) (m : Mem.t) :=
  matchBuyOrder_loop fuel buyOrder [] me m.

Fixpoint matchSellOrder_loop (fuel : nat) (sellOrder : nat) (trades : list Trade.t)
    (me : t) (m : Mem.t) : option (list Trade.t * t * Mem.t) :=
  match fuel with
  | O => None
  | S fuel' =>
      let s := Mem.load m sellOrder in
      if Order.IsFilled s then Some (trades, me, m) else
      let bestBid := OrderBook.GetBestBid (orderBook me) in
      if Z.eqb bestBid 0
         || (Z.eqb (Order.Type_ s) OrderTypeLimit && (bestBid <? Order.Price s))
      then Some (trades, me, m) else
      match OrderBook.GetBestBuyLevel (orderBook me) with
      | None => Some (trades, me, m)
      | Some bestLevel =>
          match PriceLevel_.Orders bestLevel with
          | [] => Some (trades, me, m)
          | (_, buyOrder) :: _ =>
              let '(trade, me, m) := executeTrade buyOrder sellOrder bestBid me m in
              let trades := trades ++ [trade] in
              let '(me, m) :=
                if Order.IsFilled (Mem.load m buyOrder)
                then cancel (Order.ID (Mem.load m buyOrder)) me m
                else (me, m) in
              matchSellOrder_loop fuel' sellOrder trades me m
          end
      end
  end.

Definition matchSellOrder (fuel : nat) (sellOrder : nat) (me : t) (m : Mem.t) :=
  matchSellOrder_loop fuel sellOrder [] me m.

Definition processOrder (fuel : nat) (order : nat) (me : t) (m : Mem.t)
    : option (list Trade.t * t * Mem.t) :=
  '(trades, me, m) ←
    (if Z.eqb (Order.Side (Mem.load m order)) SideBuy
     then matchBuyOrder fuel order me m
     else matchSellOrder fuel order me m);
  let o := Mem.load m order in
  if negb (Order.IsFilled o) && Z.eqb (Order.Type_ o) OrderTypeLimit then
    let '(ob, m) := OrderBook.AddOrder order (orderBook me) m in
    Some (trades, with_orderBook ob me, m)
  else Some (trades, me, m).

(** [CancelOrder]: the request is sent on the channel of capacity 1000; the
    sender stays blocked while the channel is full. *)
Definition with_cancelChan (c : list string) (me : t) : t :=
  mk (symbol me) (orderBook me) (orderBuffer me) c (tradeBuffer me) (tradeIDGen me).

Definition CancelOrder (orderID : string) (me : t) : option t :=
  if (length (cancelChan me) <? 1000)%nat
  then Some (with_cancelChan (cancelChan me ++ [orderID]) me)
  else None.

Fixpoint publish_all (trades : list Trade.t) (rb : RingBuffer.t Trade.t)
    : option (RingBuffer.t Trade.t) :=
  match trades with
  | [] => Some rb
  | trade :: rest => rb ← RingBuffer.Publish trade rb; publish_all rest rb
  end.

(** One turn of the loop of [Start], as the matching thread runs it: a
    pending cancel request is served first; otherwise the next order is
    consumed, processed, and its trades are published.  The stop channel is
    not part of the embedding. *)
Definition turn (fuel : nat) (cb : RingBuffer.Consumer nat) (me : t) (m : Mem.t)
    : option (RingBuffer.Consumer nat * t * Mem.t) :=
  match cancelChan me with
  | orderID :: rest =>
      let '(me, m) := cancel orderID (with_cancelChan rest me) m in
      Some (cb, me, m)
  | [] =>
      '(x, cb, rb) ← RingBuffer.Consume cb (orderBuffer me);
      order ← x;
      '(trades, me, m) ← processOrder fuel order (with_orderBuffer rb me) m;
      tb ← publish_all trades (tradeBuffer me);
      Some (cb, with_tradeBuffer tb me, m)
  end.

End MatchingEngine.

(** [ExchangeEngine]: the map from symbol to engine, as one thread sees it.
    The [*MatchingEngine] stored in the map is represented by the engine it
    points to, kept in the map; [Start] launches the matching thread, whose
    loop is [MatchingEngine.turn]. *)
Module ExchangeEngine.

Record t := mk { engines : gmap string MatchingEngine.t }.

Definition NewExchangeEngine : t := mk ∅.

Definition GetEngine (symbol : string) (e : t) : option (MatchingEngine.t * t) :=
  match engines e !! symbol with
  | Some engine => Some (engine, e)
  | None =>
      engine ← MatchingEngine.NewMatchingEngine symbol;
      Some (engine, mk (<[symbol := engine]> (engines e)))
  end.

Definition SubmitOrder (order : nat) (e : t) (m : Mem.t) : option t :=
  let symbol := Order.Symbol (Mem.load m order) in
  '(engine, e) ← GetEngine symbol e;
  engine ← MatchingEngine.SubmitOrder order engine;
  Some (mk (<[symbol := engine]> (engines e))).

Definition CancelOrder (symbol orderID : string) (e : t) : option t :=
  '(engine, e) ← GetEngine symbol e;
  engine ← MatchingEngine.CancelOrder orderID engine;
  Some (mk (<[symbol := engine]> (engines e))).

End ExchangeEngine.

(** ** Observations and scenarios

    The functions of this section are not part of the engine: they read a
    state the way a test would, and replay the concrete scenarios of the
    specification on a fresh engine. *)

(** The quantity still open on every order of a FIFO, in queue order. *)
Definition fifo_remaining (m : Mem.t) (l : PriceLevel_.t) : list (string * Z) :=
  (λ x, (Order.ID (Mem.load m x.2), Order.RemainingQuantity (Mem.load m x.2)))
    <$> PriceLevel_.Orders l.

Definition sum_remaining (m : Mem.t) (l : PriceLevel_.t) : Z :=
  foldr Z.add 0 ((λ x, Order.RemainingQuantity (Mem.load m x.2)) <$> PriceLevel_.Orders l).

(** Every level stored in a ladder. *)
Definition levels_of (s : ShardedPriceTree.t) : list PriceLevel_.t :=
  (map_to_list (ShardedPriceTree.buckets s)).*2
    ≫= (λ b, (map_to_list (Bucket.levels b)).*2).

Module Scenario.

Abbreviation state := (list Trade.t * MatchingEngine.t * Mem.t)%type.

Definition start : option state :=
  me ← MatchingEngine.NewMatchingEngine "BTCUSDT";
  Some ([], me, Mem.empty).

(** The new engine itself; the constructor does not panic at capacity
    65536, so the second argument of [default] is never used. *)
Definition engine : MatchingEngine.t :=
  default
    (MatchingEngine.mk "BTCUSDT" (OrderBook.NewOrderBook "BTCUSDT")
       (RingBuffer.mk [] 0 0 0 0 0) [] (RingBuffer.mk [] 0 0 0 0 0)
       (IDGenerator.NewIDGenerator "T"))
    (MatchingEngine.NewMatchingEngine "BTCUSDT").

(** A producer creates a limit order; the matching thread processes it.
    Sixteen iterations are more than any scenario below needs. *)
Definition limit (id : string) (side price quantity : Z) (st : option state)
    : option state :=
  '(trades, me, m) ← st;
  let '(order, m) := Mem.NewLimitOrder id "BTCUSDT" "user" side price quantity m in
  '(new, me, m) ← MatchingEngine.processOrder 16 order me m;
  Some (trades ++ new, me, m).

Definition book (st : option state) : option OrderBook.t :=
  '(_, me, _) ← st; Some (MatchingEngine.orderBook me).

Definition trades (st : option state) : option (list (string * string * Z * Z)) :=
  match st with
  | Some (ts, _, _) =>
      Some ((λ t, (Trade.BuyOrderID t, Trade.SellOrderID t, Trade.Price t, Trade.Quantity t))
              <$> ts)
  | None => None
  end.

Definition ask_level (price : Z) (st : option state) : option PriceLevel_.t :=
  ob ← book st; ShardedPriceTreeAdapter.GetLevel price (OrderBook.asks ob).

Definition ask_fifo (price : Z) (st : option state) : option (list (string * Z)) :=
  '(_, _, m) ← st; l ← ask_level price st; Some (fifo_remaining m l).

Definition order_at (a : nat) (st : option state) : option Order.t :=
  '(_, _, m) ← st; Some (Mem.load m a).

(** Scenario 1: a resting sell is fully crossed. *)
Definition single_match : option state :=
  limit "B1" SideBuy 50000 100 (limit "S1" SideSell 50000 100 start).

(** Scenario 2: a resting sell of 100 is hit for 40. *)
Definition partial_fill : option state :=
  limit "B1" SideBuy 50000 40 (limit "S1" SideSell 50000 100 start).

(** Scenario 5: three sells at one price, then a buy of 15. *)
Definition time_priority : option state :=
  limit "BUY" SideBuy 50000 15
    (limit "C" SideSell 50000 10
       (limit "B" SideSell 50000 10
          (limit "A" SideSell 50000 10 start))).

End Scenario.

(** * Specification vocabulary

    The predicates in which the properties below are stated. *)

(** ** The order of a ladder *)

Definition better (isBuy : bool) (a b : Z) : Prop := isBetter isBuy a b = true.

(** [l] is one of the price levels of the ladder. *)
Definition level_in (s : ShardedPriceTree.t) (l : PriceLevel_.t) : Prop :=
  ∃ id b i, ShardedPriceTree.buckets s !! id = Some b ∧ Bucket.levels b !! i = Some l.

(** ** Well-formed ladders *)

Record bucket_shape (isBuy : bool) (id : Z) (b : Bucket.t) : Prop := {
  bk_id : Bucket.bucketID b = id;
  bk_buy : Bucket.isBuy b = isBuy;
  bk_bucketSize : Bucket.bucketSize b = 128;
  bk_mask : Bucket.bucketMask b = 127;
  bk_size : Bucket.size b = Z.of_nat (length (Bucket.chain b));
  bk_sorted : StronglySorted (better isBuy) (Bucket.chain b);
  bk_chain : ∀ p, p ∈ Bucket.chain b →
      ∃ l, Bucket.levels b !! Z.land p 127 = Some l ∧ PriceLevel_.Price l = p;
  bk_levels : ∀ i l, Bucket.levels b !! i = Some l →
      0 < PriceLevel_.Price l ∧ Z.quot (PriceLevel_.Price l) 128 = id
      ∧ i = Z.land (PriceLevel_.Price l) 127 ∧ PriceLevel_.Price l ∈ Bucket.chain b
}.

(** The cached best pointers are what [updateBestPriceFromTree] would store. *)
Definition best_of (isBuy : bool) (m : gmap Z Bucket.t) : option Z * option Z :=
  match ShardedPriceTree.Left isBuy m with
  | None => (None, None)
  | Some (k, b) => (Some k, Bucket.bestPrice b)
  end.

Record tree_shape (s : ShardedPriceTree.t) : Prop := {
  tr_bucketSize : ShardedPriceTree.bucketSize s = 128;
  tr_buckets : ∀ id b, ShardedPriceTree.buckets s !! id = Some b →
      bucket_shape (ShardedPriceTree.isBuy s) id b ∧ Bucket.chain b ≠ [];
  tr_best : (ShardedPriceTree.bestBucket s, ShardedPriceTree.bestPrice s)
            = best_of (ShardedPriceTree.isBuy s) (ShardedPriceTree.buckets s)
}.

Record tree_ok (s : ShardedPriceTree.t) : Prop := {
  tr_shape : tree_shape s;
  tr_fifo : ∀ l, level_in s l → PriceLevel_.Orders l ≠ []
}.

Definition level_in_bucket (b : Bucket.t) (l : PriceLevel_.t) : Prop :=
  ∃ i, Bucket.levels b !! i = Some l.

(** The level of price [p] once the element [(h, a)], with [r] still open,
    has been pushed on it. *)
Definition pushed (s : ShardedPriceTree.t) (p : Z) (h a : nat) (r : Z) : PriceLevel_.t :=
  match ShardedPriceTree.level_at s p with
  | Some l => PriceLevel_.mk (PriceLevel_.Price l) (PriceLevel_.Orders l ++ [(h, a)])
                (wrap64 (PriceLevel_.Volume l + r))
  | None => PriceLevel_.mk p [(h, a)] (wrap64 (0 + r))
  end.

(** The level an order leaves, and the memory, after the unlinking that
    [Remove] performs when the order carries a list element. *)
Definition unlinked (l : PriceLevel_.t) (o : Order.t) : PriceLevel_.t :=
  match Order.ListElement o with
  | Some e =>
      PriceLevel_.mk (PriceLevel_.Price l) (filter (λ x, x.1 ≠ e) (PriceLevel_.Orders l))
        (wrap64 (PriceLevel_.Volume l - Order.RemainingQuantity o))
  | None => l
  end.

Definition unlinked_mem (a : nat) (m : Mem.t) : Mem.t :=
  match Order.ListElement (Mem.load m a) with
  | Some _ => Mem.update a (Order.with_ListElement None) m
  | None => m
  end.

(** The ladders an engine can build: from the empty ladder, by inserting
    and removing orders whose price is positive.  The memory is arbitrary at
    every step, which covers whatever the engine did to the orders between
    two operations on the ladder. *)
Inductive ladder_reach (descending : bool) : ShardedPriceTree.t → Prop :=
  | reach_new :
      ladder_reach descending
        (ShardedPriceTreeAdapter.NewShardedPriceTreeFromInterface descending 128)
  | reach_insert s m a :
      ladder_reach descending s → 0 < Order.Price (Mem.load m a) →
      ladder_reach descending (ShardedPriceTreeAdapter.Insert a s m).1
  | reach_remove s m a :
      ladder_reach descending s → 0 < Order.Price (Mem.load m a) →
      ladder_reach descending (ShardedPriceTreeAdapter.Remove a s m).1.

(** The resting orders of a ladder, level by level. *)
Definition resting_orders (s : ShardedPriceTree.t) : list (nat * nat) :=
  levels_of s ≫= PriceLevel_.Orders.

(** ** Well-formed books *)

Definition level_wf (m : Mem.t) (l : PriceLevel_.t) : Prop :=
  int64_range (PriceLevel_.Volume l)
  ∧ ∀ h a, (h, a) ∈ PriceLevel_.Orders l → (h < Mem.next_elem m)%nat.

Record book_wf (ob : OrderBook.t) (m : Mem.t) : Prop := {
  wf_bids : tree_ok (OrderBook.bids ob);
  wf_bids_buy : ShardedPriceTree.isBuy (OrderBook.bids ob) = true;
  wf_asks : tree_ok (OrderBook.asks ob);
  wf_asks_buy : ShardedPriceTree.isBuy (OrderBook.asks ob) = false;
  wf_levels : ∀ l, level_in (OrderBook.bids ob) l ∨ level_in (OrderBook.asks ob) l →
                   level_wf m l
}.

(** ** Queues and submissions *)

Definition is_power_of_two (n : Z) : Prop := ∃ k, 0 <= k ∧ n = 2 ^ k.

(** What the specification calls a malformed order for an engine of the
    given symbol. *)
Definition malformed (symbol : string) (o : Order.t) : bool :=
  (Order.Quantity o <=? 0)
  || (Z.eqb (Order.Type_ o) OrderTypeLimit && (Order.Price o <=? 0))
  || negb (Z.eqb (Order.Side o) SideBuy || Z.eqb (Order.Side o) SideSell)
  || negb (Z.eqb (Order.Type_ o) OrderTypeLimit || Z.eqb (Order.Type_ o) OrderTypeMarket)
  || negb (String.eqb (Order.Symbol o) symbol).

(** The order the matching thread consumes first after [order] was
    submitted to a new engine. *)
Definition first_consumed (symbol : string) (order : nat) : option (option nat) :=
  me ← MatchingEngine.NewMatchingEngine symbol;
  me ← MatchingEngine.SubmitOrder order me;
  '(x, _, _) ← RingBuffer.Consume RingBuffer.NewConsumer (MatchingEngine.orderBuffer me);
  Some x.

(** ** Well-formed engines *)

Definition side_of (ob : OrderBook.t) (isBuy : bool) : ShardedPriceTree.t :=
  if isBuy then OrderBook.bids ob else OrderBook.asks ob.

Definition set_side (isBuy : bool) (s : ShardedPriceTree.t) (ob : OrderBook.t) : OrderBook.t :=
  if isBuy
  then OrderBook.mk (OrderBook.symbol ob) s (OrderBook.asks ob) (OrderBook.orders ob)
  else OrderBook.mk (OrderBook.symbol ob) (OrderBook.bids ob) s (OrderBook.orders ob).

Definition set_orders (ix : gmap string nat) (ob : OrderBook.t) : OrderBook.t :=
  OrderBook.mk (OrderBook.symbol ob) (OrderBook.bids ob) (OrderBook.asks ob) ix.

(** The order at address [a] rests on side [isBuy], in level [l], under the
    list element [h]. *)
Definition rests (ob : OrderBook.t) (isBuy : bool) (l : PriceLevel_.t) (h a : nat) : Prop :=
  level_in (side_of ob isBuy) l ∧ (h, a) ∈ PriceLevel_.Orders l.

Definition resting (ob : OrderBook.t) (a : nat) : Prop :=
  ∃ isBuy l h, rests ob isBuy l h a.

(** What holds of a resting order.  [full] names the one order that may be
    completely filled: the order the matching loop has just traded against
    and not yet removed. *)
Record order_ok (ob : OrderBook.t) (m : Mem.t) (full : option nat)
    (isBuy : bool) (l : PriceLevel_.t) (h a : nat) : Prop := {
  ok_price : Order.Price (Mem.load m a) = PriceLevel_.Price l;
  ok_side : Z.eqb (Order.Side (Mem.load m a)) SideBuy = isBuy;
  ok_elem : Order.ListElement (Mem.load m a) = Some h;
  ok_filled : 0 <= Order.Filled (Mem.load m a) <= Order.Quantity (Mem.load m a);
  ok_open : full ≠ Some a → Order.Filled (Mem.load m a) < Order.Quantity (Mem.load m a);
  ok_quantity : Order.Quantity (Mem.load m a) < 2 ^ 63;
  ok_index : OrderBook.orders ob !! Order.ID (Mem.load m a) = Some a
}.

Record engine_inv_ex (full : option nat) (ob : OrderBook.t) (m : Mem.t) : Prop := {
  inv_wf : book_wf ob m;
  inv_orders : ∀ isBuy l h a, rests ob isBuy l h a → order_ok ob m full isBuy l h a;
  inv_nodup : ∀ isBuy l, level_in (side_of ob isBuy) l → NoDup (PriceLevel_.Orders l).*1;
  inv_index : ∀ id a, OrderBook.orders ob !! id = Some a →
                      resting ob a ∧ Order.ID (Mem.load m a) = id
}.

Definition engine_inv : OrderBook.t → Mem.t → Prop := engine_inv_ex None.

(** What is asked of an order handed to [processOrder]: its id is not in
    the index, its counters are those of an order in range, and a limit
    order has a positive price. *)
Record incoming_ok (ob : OrderBook.t) (m : Mem.t) (a : nat) : Prop := {
  in_id : OrderBook.orders ob !! Order.ID (Mem.load m a) = None;
  in_filled : 0 <= Order.Filled (Mem.load m a);
  in_quantity : Order.Quantity (Mem.load m a) < 2 ^ 63;
  in_price : Order.Type_ (Mem.load m a) = OrderTypeLimit → 0 < Order.Price (Mem.load m a)
}.

(** What one iteration that trades leaves behind, for the incoming order
    [b] and the resting order [s] it met. *)
Record step_ok (me : MatchingEngine.t) (m : Mem.t) (b s : nat) (trade : Trade.t)
    (me2 : MatchingEngine.t) (m2 : Mem.t) : Prop := {
  st_quantity : Trade.Quantity trade
                = Z.min (Order.RemainingQuantity (Mem.load m b))
                        (Order.RemainingQuantity (Mem.load m s));
  st_price : Trade.Price trade = Order.Price (Mem.load m s);
  st_positive : 0 < Trade.Quantity trade;
  st_incoming : Order.Filled (Mem.load m2 b)
                = Order.Filled (Mem.load m b) + Trade.Quantity trade;
  st_resting : Order.Filled (Mem.load m2 s)
               = Order.Filled (Mem.load m s) + Trade.Quantity trade;
  st_inv : engine_inv (MatchingEngine.orderBook me2) m2;
  st_in : incoming_ok (MatchingEngine.orderBook me2) m2 b;
  st_sub : ∀ a, resting (MatchingEngine.orderBook me2) a
                → resting (MatchingEngine.orderBook me) a;
  st_progress : Order.IsFilled (Mem.load m2 b) = true
                ∨ ¬ resting (MatchingEngine.orderBook me2) s;
  st_same : Order.ID (Mem.load m2 b) = Order.ID (Mem.load m b)
            ∧ Order.Price (Mem.load m2 b) = Order.Price (Mem.load m b)
            ∧ Order.Quantity (Mem.load m2 b) = Order.Quantity (Mem.load m b)
            ∧ Order.Side (Mem.load m2 b) = Order.Side (Mem.load m b)
            ∧ Order.Type_ (Mem.load m2 b) = Order.Type_ (Mem.load m b)
            ∧ Order.ListElement (Mem.load m2 b) = Order.ListElement (Mem.load m b)
}.

(** The addresses of the orders resting in the book. *)
Definition resting_set (ob : OrderBook.t) : gset nat :=
  list_to_set ((resting_orders (OrderBook.bids ob) ++ resting_orders (OrderBook.asks ob)).*2).

(** What a finished matching loop leaves behind. *)
Record loop_ok (me : MatchingEngine.t) (m : Mem.t) (b : nat)
    (me' : MatchingEngine.t) (m' : Mem.t) : Prop := {
  lp_inv : engine_inv (MatchingEngine.orderBook me') m';
  lp_in : incoming_ok (MatchingEngine.orderBook me') m' b;
  lp_sub : ∀ a, resting (MatchingEngine.orderBook me') a
                → resting (MatchingEngine.orderBook me) a;
  lp_same : Order.ID (Mem.load m' b) = Order.ID (Mem.load m b)
            ∧ Order.Price (Mem.load m' b) = Order.Price (Mem.load m b)
            ∧ Order.Quantity (Mem.load m' b) = Order.Quantity (Mem.load m b)
            ∧ Order.Side (Mem.load m' b) = Order.Side (Mem.load m b)
            ∧ Order.Type_ (Mem.load m' b) = Order.Type_ (Mem.load m b)
            ∧ Order.ListElement (Mem.load m' b) = Order.ListElement (Mem.load m b)
}.

(** The states an engine reaches from a new engine under valid input: every
    order it processes arrives well formed ([incoming_ok]: its id is not in
    the index, 0 <= filled, quantity < 2^63, and a limit order has a
    positive price), and nobody but the engine writes to a resting order.
    The code checks none of this: [SubmitOrder] and [processOrder] take any
    order, and the states reached through other orders are not
    [valid_reach] states.  The steps: a new engine; a memory changed by the
    producers; an order processed; a cancel request served. *)
Inductive valid_reach : MatchingEngine.t → Mem.t → Prop :=
  | er_new symbol me m :
      MatchingEngine.NewMatchingEngine symbol = Some me → valid_reach me m
  | er_mem me m m' :
      valid_reach me m →
      Mem.next_elem m' = Mem.next_elem m →
      (∀ a, resting (MatchingEngine.orderBook me) a → Mem.load m' a = Mem.load m a) →
      valid_reach me m'
  | er_process fuel b me m trades me' m' :
      valid_reach me m → incoming_ok (MatchingEngine.orderBook me) m b →
      MatchingEngine.processOrder fuel b me m = Some (trades, me', m') →
      valid_reach me' m'
  | er_cancel orderID me m :
      valid_reach me m →
      valid_reach (MatchingEngine.cancel orderID me m).1 (MatchingEngine.cancel orderID me m).2.

(** * More specification vocabulary

    The predicates in which the further properties are stated. *)

(** ** What matching leaves alone *)

(** Two states of one order that differ at most in what matching writes:
    [Filled], [Status] and [ListElement]. *)
Definition same_order (o o' : Order.t) : Prop :=
  Order.ID o' = Order.ID o ∧ Order.Price o' = Order.Price o
  ∧ Order.Quantity o' = Order.Quantity o ∧ Order.Side o' = Order.Side o
  ∧ Order.Type_ o' = Order.Type_ o ∧ Order.Symbol o' = Order.Symbol o
  ∧ Order.UserID o' = Order.UserID o ∧ Order.Timestamp o' = Order.Timestamp o.

(** Every price of a level of [ob'] is the price of a level of [ob] on the
    same side. *)
Definition prices_within (ob' ob : OrderBook.t) : Prop :=
  ∀ isBuy x, level_in (side_of ob' isBuy) x →
    ∃ x0, level_in (side_of ob isBuy) x0 ∧ PriceLevel_.Price x0 = PriceLevel_.Price x.

(** The bids and the asks do not cross. *)
Definition uncrossed (ob : OrderBook.t) : Prop :=
  ∀ lb la, level_in (OrderBook.bids ob) lb → level_in (OrderBook.asks ob) la →
    PriceLevel_.Price lb < PriceLevel_.Price la.

(** What one trading iteration leaves of the engine and the memory, beside
    [step_ok]. *)
Record step_frame (me : MatchingEngine.t) (m : Mem.t) (b s : nat) (trade : Trade.t)
    (me2 : MatchingEngine.t) (m2 : Mem.t) : Prop := {
  sf_levels : prices_within (MatchingEngine.orderBook me2) (MatchingEngine.orderBook me);
  sf_static : ∀ a, same_order (Mem.load m a) (Mem.load m2 a);
  sf_others : ∀ a, a ≠ b → a ≠ s → Mem.load m2 a = Mem.load m a;
  sf_rests : ∀ isBuy x h a, rests (MatchingEngine.orderBook me2) isBuy x h a →
               ∃ x0, rests (MatchingEngine.orderBook me) isBuy x0 h a;
  sf_side : ∀ isBuy l h, rests (MatchingEngine.orderBook me) isBuy l h s →
              side_of (MatchingEngine.orderBook me2) (negb isBuy)
              = side_of (MatchingEngine.orderBook me) (negb isBuy);
  sf_id : Trade.ID trade = (IDGenerator.Next (MatchingEngine.tradeIDGen me)).1;
  sf_gen : MatchingEngine.tradeIDGen me2 = (IDGenerator.Next (MatchingEngine.tradeIDGen me)).2;
  sf_engine : MatchingEngine.symbol me2 = MatchingEngine.symbol me
              ∧ MatchingEngine.orderBuffer me2 = MatchingEngine.orderBuffer me
              ∧ MatchingEngine.cancelChan me2 = MatchingEngine.cancelChan me
              ∧ MatchingEngine.tradeBuffer me2 = MatchingEngine.tradeBuffer me;
  sf_book : OrderBook.symbol (MatchingEngine.orderBook me2)
            = OrderBook.symbol (MatchingEngine.orderBook me)
}.

(** The ids of [n] trades made in a row, starting from generator [g]. *)
Fixpoint next_ids (n : nat) (g : IDGenerator.t) : list string :=
  match n with
  | O => []
  | S n' => (IDGenerator.Next g).1 :: next_ids n' (IDGenerator.Next g).2
  end.

Fixpoint advance (n : nat) (g : IDGenerator.t) : IDGenerator.t :=
  match n with
  | O => g
  | S n' => advance n' (IDGenerator.Next g).2
  end.

(** What a finished matching loop leaves behind, beside [loop_ok]: [new]
    are the trades it made for the incoming order [b], and [opp] is the
    side it matched against. *)
Record loop_frame (me : MatchingEngine.t) (m : Mem.t) (b : nat) (opp : bool)
    (new : list Trade.t) (me' : MatchingEngine.t) (m' : Mem.t) : Prop := {
  lf_levels : prices_within (MatchingEngine.orderBook me') (MatchingEngine.orderBook me);
  lf_static : ∀ a, same_order (Mem.load m a) (Mem.load m' a);
  lf_others : ∀ a, a ≠ b → (∀ l h, ¬ rests (MatchingEngine.orderBook me) opp l h a) →
                   Mem.load m' a = Mem.load m a;
  lf_rests : ∀ isBuy x h a, rests (MatchingEngine.orderBook me') isBuy x h a →
               ∃ x0, rests (MatchingEngine.orderBook me) isBuy x0 h a;
  lf_side : side_of (MatchingEngine.orderBook me') (negb opp)
            = side_of (MatchingEngine.orderBook me) (negb opp);
  lf_filled : Order.Filled (Mem.load m' b)
              = Order.Filled (Mem.load m b) + foldr Z.add 0 (Trade.Quantity <$> new);
  lf_positive : Forall (λ t, 0 < Trade.Quantity t ∧ 0 < Trade.Price t) new;
  lf_ids : Trade.ID <$> new = next_ids (length new) (MatchingEngine.tradeIDGen me);
  lf_gen : MatchingEngine.tradeIDGen me' = advance (length new) (MatchingEngine.tradeIDGen me);
  lf_engine : MatchingEngine.symbol me' = MatchingEngine.symbol me
              ∧ MatchingEngine.orderBuffer me' = MatchingEngine.orderBuffer me
              ∧ MatchingEngine.cancelChan me' = MatchingEngine.cancelChan me
              ∧ MatchingEngine.tradeBuffer me' = MatchingEngine.tradeBuffer me;
  lf_book : OrderBook.symbol (MatchingEngine.orderBook me')
            = OrderBook.symbol (MatchingEngine.orderBook me)
}.

Definition trade_of (isBuy : bool) (o : Order.t) (t : Trade.t) : Prop :=
  0 < Trade.Quantity t ∧ 0 < Trade.Price t
  ∧ (if isBuy then Trade.BuyOrderID t else Trade.SellOrderID t) = Order.ID o
  ∧ (Order.Type_ o = OrderTypeLimit →
     if isBuy then Trade.Price t <= Order.Price o else Order.Price o <= Trade.Price t).

(** What [processOrder] returns and leaves behind. *)
Record process_ok (b : nat) (me : MatchingEngine.t) (m : Mem.t)
    (trades : list Trade.t) (me' : MatchingEngine.t) (m' : Mem.t) : Prop := {
  po_inv : engine_inv (MatchingEngine.orderBook me') m';
  po_static : ∀ a, same_order (Mem.load m a) (Mem.load m' a);
  po_others : ∀ a, a ≠ b →
                (∀ l h, ¬ rests (MatchingEngine.orderBook me)
                          (negb (Order.Side (Mem.load m b) =? SideBuy)) l h a) →
                Mem.load m' a = Mem.load m a;
  po_own : let isBuy := Order.Side (Mem.load m b) =? SideBuy in
           ∀ l, level_in (side_of (MatchingEngine.orderBook me) isBuy) l →
             ∃ l', level_in (side_of (MatchingEngine.orderBook me') isBuy) l'
                   ∧ PriceLevel_.Price l' = PriceLevel_.Price l
                   ∧ (PriceLevel_.Orders l' = PriceLevel_.Orders l
                      ∨ ∃ h, PriceLevel_.Price l = Order.Price (Mem.load m b)
                             ∧ PriceLevel_.Orders l' = PriceLevel_.Orders l ++ [(h, b)]);
  po_filled : Order.Filled (Mem.load m' b)
              = Order.Filled (Mem.load m b) + foldr Z.add 0 (Trade.Quantity <$> trades);
  po_trades : Forall (trade_of (Order.Side (Mem.load m b) =? SideBuy) (Mem.load m b)) trades;
  po_ids : Trade.ID <$> trades = next_ids (length trades) (MatchingEngine.tradeIDGen me);
  po_gen : MatchingEngine.tradeIDGen me'
           = advance (length trades) (MatchingEngine.tradeIDGen me);
  po_engine : MatchingEngine.symbol me' = MatchingEngine.symbol me
              ∧ MatchingEngine.orderBuffer me' = MatchingEngine.orderBuffer me
              ∧ MatchingEngine.cancelChan me' = MatchingEngine.cancelChan me
              ∧ MatchingEngine.tradeBuffer me' = MatchingEngine.tradeBuffer me;
  po_exit : let isBuy := Order.Side (Mem.load m b) =? SideBuy in
            let opp := ShardedPriceTreeAdapter.GetBestPrice
                         (side_of (MatchingEngine.orderBook me') (negb isBuy)) in
            Order.IsFilled (Mem.load m' b) = true ∨ opp = 0
            ∨ (Order.Type_ (Mem.load m b) = OrderTypeLimit
               ∧ if isBuy then Order.Price (Mem.load m b) < opp
                 else opp < Order.Price (Mem.load m b));
  po_bound : Order.Filled (Mem.load m b) <= Order.Quantity (Mem.load m b) →
             Order.Filled (Mem.load m' b) <= Order.Quantity (Mem.load m b);
  po_resting : ∀ a, resting (MatchingEngine.orderBook me') a →
                    resting (MatchingEngine.orderBook me) a
                    ∨ (a = b ∧ Order.Type_ (Mem.load m b) = OrderTypeLimit
                       ∧ Order.IsFilled (Mem.load m' b) = false);
  po_uncrossed : uncrossed (MatchingEngine.orderBook me) →
                 uncrossed (MatchingEngine.orderBook me')
}.

(** What holds of every [valid_reach] state of an engine, beside
    [engine_inv]. *)
Record engine_more (me : MatchingEngine.t) (m : Mem.t) : Prop := {
  em_uncrossed : uncrossed (MatchingEngine.orderBook me);
  em_limit : ∀ a, resting (MatchingEngine.orderBook me) a →
                  Order.Type_ (Mem.load m a) = OrderTypeLimit;
  em_gen : IDGenerator.prefix (MatchingEngine.tradeIDGen me) = "T"
           ∧ 0 <= IDGenerator.counter (MatchingEngine.tradeIDGen me) < 2 ^ 64
}.

(** ** Queues as lists *)

(** The ring buffer of [size] slots holds the items [q], oldest first. *)
Record rb_holds {T} (size : Z) (q : list T) (rb : RingBuffer.t T) : Prop := {
  rh_size : is_power_of_two size ∧ size < 2 ^ 32;
  rh_mask : RingBuffer.mask rb = size - 1;
  rh_len : Z.of_nat (length (RingBuffer.buffer rb)) = size;
  rh_read : 0 <= RingBuffer.readSeq rb;
  rh_write : RingBuffer.writeSeq rb = RingBuffer.readSeq rb + Z.of_nat (length q);
  rh_range : RingBuffer.writeSeq rb < 2 ^ 63;
  rh_count : Z.of_nat (length q) <= size;
  rh_full : RingBuffer.fullSlots rb = Z.of_nat (length q);
  rh_empty : RingBuffer.emptySlots rb = size - Z.of_nat (length q);
  rh_items : ∀ (i : nat) x, q !! i = Some x →
      RingBuffer.buffer rb !! Z.to_nat ((RingBuffer.readSeq rb + Z.of_nat i) mod size)
      = Some (Some x)
}.

(** The consumer's local cache holds the items [c], oldest first. *)
Record cache_holds {T} (c : list T) (cb : RingBuffer.Consumer T) : Prop := {
  ch_len : length (RingBuffer.localCache cb) = 128%nat;
  ch_start : 0 <= RingBuffer.cacheStart cb;
  ch_end : RingBuffer.cacheEnd cb = RingBuffer.cacheStart cb + Z.of_nat (length c);
  ch_bound : RingBuffer.cacheEnd cb <= 128;
  ch_items : ∀ (i : nat) x, c !! i = Some x →
      RingBuffer.localCache cb !! Z.to_nat (RingBuffer.cacheStart cb + Z.of_nat i)
      = Some (Some x)
}.

(** Publishing a list of items, one by one. *)
Fixpoint publish_list {T} (xs : list T) (rb : RingBuffer.t T) : option (RingBuffer.t T) :=
  match xs with
  | [] => Some rb
  | x :: rest => rb ← RingBuffer.Publish x rb; publish_list rest rb
  end.

(** Consuming [n] times in a row. *)
Fixpoint consume_n {T} (n : nat) (cb : RingBuffer.Consumer T) (rb : RingBuffer.t T)
    : option (list (option T) * RingBuffer.Consumer T * RingBuffer.t T) :=
  match n with
  | O => Some ([], cb, rb)
  | S n' =>
      '(x, cb, rb) ← RingBuffer.Consume cb rb;
      '(xs, cb, rb) ← consume_n n' cb rb;
      Some (x :: xs, cb, rb)
  end.

(** ** Depth *)

(** The levels of a bucket along its chain. *)
Definition chain_levels (b : Bucket.t) : list PriceLevel_.t :=
  omap (λ p, Bucket.levels b !! Z.land p (Bucket.bucketMask b)) (Bucket.chain b).

(** All the levels of a ladder, bucket after bucket in the order of the
    iterator, each bucket along its chain. *)
Definition depth_order (s : ShardedPriceTree.t) : list PriceLevel_.t :=
  ShardedPriceTree.Iterator s ≫= (λ kb, chain_levels kb.2).

(** [x] has priority over [y] on a side: a higher price on the bid side, a
    lower price on the ask side. *)
Definition price_before (isBuy : bool) (x y : PriceLevel_.t) : Prop :=
  better isBuy (PriceLevel_.Price x) (PriceLevel_.Price y).

(** The 128-wide price ranges in which a ladder has a level, by number. *)
Definition price_ranges (s : ShardedPriceTree.t) : gset Z :=
  list_to_set ((λ l, Z.quot (PriceLevel_.Price l) 128) <$> levels_of s).

(** ** The HashMap + list price tree *)

Record hm_ok (pt : HashMapListPriceTree.t) : Prop := {
  hm_sorted : StronglySorted (better (HashMapListPriceTree.descending pt))
                (HashMapListPriceTree.chain pt);
  hm_chain : ∀ p, p ∈ HashMapListPriceTree.chain pt
                  ↔ is_Some (HashMapListPriceTree.levels pt !! p);
  hm_levels : ∀ p l, HashMapListPriceTree.levels pt !! p = Some l →
                     PriceLevel_.Price l = p ∧ PriceLevel_.Orders l ≠ []
}.

(** The trees a user of [HashMapListPriceTree] can build. *)
Inductive hm_reach (descending : bool) : HashMapListPriceTree.t → Prop :=
  | hm_new :
      hm_reach descending (HashMapListPriceTree.NewHashMapListPriceTree descending)
  | hm_insert pt m a :
      hm_reach descending pt →
      hm_reach descending (HashMapListPriceTree.Insert a pt m).1
  | hm_remove pt m a :
      hm_reach descending pt →
      hm_reach descending (HashMapListPriceTree.Remove a pt m).1.

(** The level of price [p] once the element [(h, a)], with [r] still open,
    has been pushed on it. *)
Definition hm_pushed (pt : HashMapListPriceTree.t) (p : Z) (h a : nat) (r : Z) : PriceLevel_.t :=
  match HashMapListPriceTree.levels pt !! p with
  | Some l => PriceLevel_.mk (PriceLevel_.Price l) (PriceLevel_.Orders l ++ [(h, a)])
                (wrap64 (PriceLevel_.Volume l + r))
  | None => PriceLevel_.mk p [(h, a)] (wrap64 (0 + r))
  end.

(** The levels of the tree along its chain. *)
Definition hm_depth_order (pt : HashMapListPriceTree.t) : list PriceLevel_.t :=
  omap (λ p, HashMapListPriceTree.levels pt !! p) (HashMapListPriceTree.chain pt).

(** ** The two price trees side by side *)

(** A sharded tree and a HashMap + list tree that went through the same
    insertions and removals, of orders of positive price. *)
Inductive same_ladder (descending : bool) :
    ShardedPriceTree.t → HashMapListPriceTree.t → Prop :=
  | same_new :
      same_ladder descending
        (ShardedPriceTreeAdapter.NewShardedPriceTreeFromInterface descending 128)
        (HashMapListPriceTree.NewHashMapListPriceTree descending)
  | same_insert s pt m a :
      same_ladder descending s pt → 0 < Order.Price (Mem.load m a) →
      same_ladder descending (ShardedPriceTreeAdapter.Insert a s m).1
        (HashMapListPriceTree.Insert a pt m).1
  | same_remove s pt m a :
      same_ladder descending s pt → 0 < Order.Price (Mem.load m a) →
      same_ladder descending (ShardedPriceTreeAdapter.Remove a s m).1
        (HashMapListPriceTree.Remove a pt m).1.

(** The two trees hold the same levels. *)
Record agree (s : ShardedPriceTree.t) (pt : HashMapListPriceTree.t) : Prop := {
  ag_tree : tree_ok s;
  ag_hm : hm_ok pt;
  ag_side : ShardedPriceTree.isBuy s = HashMapListPriceTree.descending pt;
  ag_levels : ∀ p, 0 < p →
      ShardedPriceTree.level_at s p = HashMapListPriceTree.levels pt !! p;
  ag_pos : ∀ p, is_Some (HashMapListPriceTree.levels pt !! p) → 0 < p
}.

(** ** The exchange *)

(** The states of an exchange: engines are created on demand, orders and
    cancel requests are submitted, and the matching thread of an engine
    takes a turn. *)
Inductive exchange_reach : ExchangeEngine.t → Prop :=
  | ex_new : exchange_reach ExchangeEngine.NewExchangeEngine
  | ex_get symbol e me e' :
      exchange_reach e → ExchangeEngine.GetEngine symbol e = Some (me, e') →
      exchange_reach e'
  | ex_submit order m e e' :
      exchange_reach e → ExchangeEngine.SubmitOrder order e m = Some e' →
      exchange_reach e'
  | ex_cancel symbol orderID e e' :
      exchange_reach e → ExchangeEngine.CancelOrder symbol orderID e = Some e' →
      exchange_reach e'
  | ex_turn symbol e me fuel cb m cb' me' m' :
      exchange_reach e → ExchangeEngine.engines e !! symbol = Some me →
      MatchingEngine.turn fuel cb me m = Some (cb', me', m') →
      exchange_reach (ExchangeEngine.mk (<[symbol := me']> (ExchangeEngine.engines e))).

(** ** The fills of a matching loop *)

(** The exit test of a matching loop on the best price of the opposite
    side: nothing rests there, or the limit of the incoming order [o] does
    not reach it. *)
Definition stops (isBuy : bool) (ob : OrderBook.t) (o : Order.t) : bool :=
  if isBuy
  then Z.eqb (OrderBook.GetBestAsk ob) 0
       || (Z.eqb (Order.Type_ o) OrderTypeLimit && (Order.Price o <? OrderBook.GetBestAsk ob))
  else Z.eqb (OrderBook.GetBestBid ob) 0
       || (Z.eqb (Order.Type_ o) OrderTypeLimit && (OrderBook.GetBestBid ob <? Order.Price o)).

(** What the specification says of one fill: [m] is the memory before the
    fill of the incoming order [b] against the resting order [s], [trade]
    the trade emitted, [m1] the memory after [executeTrade]. *)
Definition fill_ok (b : nat) (m : Mem.t) (s : nat) (trade : Trade.t) (m1 : Mem.t) : Prop :=
  Trade.Quantity trade
  = Z.min (Order.RemainingQuantity (Mem.load m b)) (Order.RemainingQuantity (Mem.load m s))
  ∧ Trade.Price trade = Order.Price (Mem.load m s)
  ∧ Order.Filled (Mem.load m1 b) = Order.Filled (Mem.load m b) + Trade.Quantity trade
  ∧ Order.Filled (Mem.load m1 s) = Order.Filled (Mem.load m s) + Trade.Quantity trade.

(** The fills of a matching loop, one per iteration that trades, as the
    code makes them: the loop reads the best level [lvl] of the opposite
    side and its front order [s], [executeTrade] emits [trade], and the
    resting order is cancelled out of the book when the trade filled it.
    [fills P b isBuy me m trades me' m'] runs these iterations from the
    state [(me, m)] to the state [(me', m')], emits [trades] in this order,
    and [P] holds of every fill. *)
Inductive fills (P : Mem.t → nat → Trade.t → Mem.t → Prop) (b : nat) (isBuy : bool) :
    MatchingEngine.t → Mem.t → list Trade.t → MatchingEngine.t → Mem.t → Prop :=
  | fills_nil me m : fills P b isBuy me m [] me m
  | fills_cons me m lvl h s rest trade me1 m1 trades me' m' :
      (if isBuy then OrderBook.GetBestSellLevel (MatchingEngine.orderBook me)
       else OrderBook.GetBestBuyLevel (MatchingEngine.orderBook me)) = Some lvl →
      PriceLevel_.Orders lvl = (h, s) :: rest →
      (if isBuy
       then MatchingEngine.executeTrade b s
              (OrderBook.GetBestAsk (MatchingEngine.orderBook me)) me m
       else MatchingEngine.executeTrade s b
              (OrderBook.GetBestBid (MatchingEngine.orderBook me)) me m)
      = (trade, me1, m1) →
      P m s trade m1 →
      fills P b isBuy
        (if Order.IsFilled (Mem.load m1 s)
         then MatchingEngine.cancel (Order.ID (Mem.load m1 s)) me1 m1 else (me1, m1)).1
        (if Order.IsFilled (Mem.load m1 s)
         then MatchingEngine.cancel (Order.ID (Mem.load m1 s)) me1 m1 else (me1, m1)).2
        trades me' m' →
      fills P b isBuy me m (trade :: trades) me' m'.

(** ** Concrete inputs

    States and orders at which the properties below are instantiated. *)

(** An ask ladder across a bucket boundary: 127, 128 and 300 are inserted,
    then the best level 127 and with it its bucket are removed. *)
Definition boundary_orders : Mem.t :=
  (Mem.NewLimitOrder "c" "BTCUSDT" "u" SideSell 300 5
     (Mem.NewLimitOrder "b" "BTCUSDT" "u" SideSell 128 5
        (Mem.NewLimitOrder "a" "BTCUSDT" "u" SideSell 127 5 Mem.empty).2).2).2.

Definition boundary_ladder : ShardedPriceTree.t * Mem.t :=
  let insert a (st : ShardedPriceTree.t * Mem.t) :=
    ShardedPriceTreeAdapter.Insert a st.1 st.2 in
  let st :=
    insert 2%nat
      (insert 1%nat
         (insert 0%nat
            (ShardedPriceTreeAdapter.NewShardedPriceTreeFromInterface false 128,
             boundary_orders))) in
  ShardedPriceTreeAdapter.Remove 0 st.1 st.2.

(** A book with two resting sells, and a third order placed in memory. *)
Definition round_trip_book : OrderBook.t * Mem.t :=
  let add a (st : OrderBook.t * Mem.t) := OrderBook.AddOrder a st.1 st.2 in
  let m :=
    (Mem.NewLimitOrder "S3" "BTCUSDT" "u" SideSell 50000 7
       (Mem.NewLimitOrder "S2" "BTCUSDT" "u" SideSell 50100 5
          (Mem.NewLimitOrder "S1" "BTCUSDT" "u" SideSell 50000 5 Mem.empty).2).2).2 in
  add 1%nat (add 0%nat (OrderBook.NewOrderBook "BTCUSDT", m)).

Definition zero_quantity_order : nat * Mem.t :=
  Mem.NewLimitOrder "Z" "BTCUSDT" "u" SideBuy 50000 0 Mem.empty.

(** An order for another symbol, submitted to the BTCUSDT engine. *)
Definition foreign_order : Order.t :=
  Order.mk "E1" 50000 100 0 SideSell OrderTypeLimit OrderStatusPending None
    "ETHUSDT" "user" 0.

(** The engine after [foreign_order] was submitted and the matching thread
    took one turn. *)
Definition foreign_order_run : option (MatchingEngine.t * Mem.t) :=
  let '(order, m) := Mem.alloc foreign_order Mem.empty in
  me ← MatchingEngine.NewMatchingEngine "BTCUSDT";
  me ← MatchingEngine.SubmitOrder order me;
  '(_, me, m) ← MatchingEngine.turn 16 RingBuffer.NewConsumer me m;
  Some (me, m).

(** A book holding the sell S1 (100 at 50000), with the buy B1 (40 at 50000)
    created but not yet processed: addresses 0 and 1. *)
Definition one_resting_sell : MatchingEngine.t * Mem.t :=
  let m :=
    (Mem.NewLimitOrder "B1" "BTCUSDT" "u2" SideBuy 50000 40
       (Mem.NewLimitOrder "S1" "BTCUSDT" "u1" SideSell 50000 100 Mem.empty).2).2 in
  let st := OrderBook.AddOrder 0 (OrderBook.NewOrderBook "BTCUSDT") m in
  (MatchingEngine.with_orderBook st.1 Scenario.engine, st.2).

(** A market buy of 25 in memory, and the new engine. *)
Definition market_buy : Order.t :=
  Order.mk "M1" 0 25 0 SideBuy OrderTypeMarket OrderStatusPending None "BTCUSDT" "u" 0.

Definition market_buy_state : MatchingEngine.t * Mem.t :=
  (MatchingEngine.with_orderBook (OrderBook.NewOrderBook "BTCUSDT") Scenario.engine,
   (Mem.alloc market_buy Mem.empty).2).

(** Two resting sells, S1 of 100 at 50000 and S2 of 50 at 50100, and the
    buy B1 of 120 at 50100 created but not yet processed: addresses 0, 1
    and 2. *)
Definition two_asks : MatchingEngine.t * Mem.t :=
  let m :=
    (Mem.NewLimitOrder "B1" "BTCUSDT" "u3" SideBuy 50100 120
       (Mem.NewLimitOrder "S2" "BTCUSDT" "u2" SideSell 50100 50
          (Mem.NewLimitOrder "S1" "BTCUSDT" "u1" SideSell 50000 100 Mem.empty).2).2).2 in
  let st := OrderBook.AddOrder 0 (OrderBook.NewOrderBook "BTCUSDT") m in
  let st := OrderBook.AddOrder 1 st.1 st.2 in
  (MatchingEngine.with_orderBook st.1 Scenario.engine, st.2).

(** [two_asks] after B1 was processed. *)
Definition two_asks_run : list Trade.t * MatchingEngine.t * Mem.t :=
  default ([], two_asks.1, two_asks.2)
    (MatchingEngine.processOrder 16 2 two_asks.1 two_asks.2).

(** A new engine after the sell S1 of 100 at 50000 and then the buy B0 of
    40 at 49000 were processed; the two do not cross. *)
Definition quiet_orders : Mem.t :=
  (Mem.NewLimitOrder "B0" "BTCUSDT" "u2" SideBuy 49000 40
     (Mem.NewLimitOrder "S1" "BTCUSDT" "u1" SideSell 50000 100 Mem.empty).2).2.

Definition quiet_first : list Trade.t * MatchingEngine.t * Mem.t :=
  default ([], Scenario.engine, quiet_orders)
    (MatchingEngine.processOrder 16 0 Scenario.engine quiet_orders).

Definition quiet_book : list Trade.t * MatchingEngine.t * Mem.t :=
  default quiet_first
    (MatchingEngine.processOrder 16 1 quiet_first.1.2 quiet_first.2).

(** The ask level at 50000 of [quiet_book]. *)
Definition quiet_ask_level : PriceLevel_.t :=
  default (PriceLevel_.mk 0 [] 0)
    (ShardedPriceTreeAdapter.GetLevel 50000
       (OrderBook.asks (MatchingEngine.orderBook quiet_book.1.2))).

(** A resting buy B0 of 40 at 49000, and the buy B1 of 10 at the same
    price created but not yet processed: addresses 0 and 1. *)
Definition joining_buy : MatchingEngine.t * Mem.t :=
  let m :=
    (Mem.NewLimitOrder "B1" "BTCUSDT" "u2" SideBuy 49000 10
       (Mem.NewLimitOrder "B0" "BTCUSDT" "u1" SideBuy 49000 40 Mem.empty).2).2 in
  let st := OrderBook.AddOrder 0 (OrderBook.NewOrderBook "BTCUSDT") m in
  (MatchingEngine.with_orderBook st.1 Scenario.engine, st.2).

Definition joining_buy_run : list Trade.t * MatchingEngine.t * Mem.t :=
  default ([], joining_buy.1, joining_buy.2)
    (MatchingEngine.processOrder 16 1 joining_buy.1 joining_buy.2).

(** The bid level at 49000 of [joining_buy]. *)
Definition joining_level : PriceLevel_.t :=
  default (PriceLevel_.mk 0 [] 0)
    (ShardedPriceTreeAdapter.GetLevel 49000
       (OrderBook.bids (MatchingEngine.orderBook joining_buy.1))).

(** A ring buffer of four slots, and the same after 7 was published. *)
Definition small_queue : RingBuffer.t nat :=
  default (RingBuffer.mk [] 0 0 0 0 0) (RingBuffer.New 4).

Definition small_queue_one : RingBuffer.t nat :=
  default small_queue (RingBuffer.Publish 7%nat small_queue).

(** A bid ladder of the HashMap + list tree: 127, 128 and 300 are inserted,
    then the order at 300, the best one, is removed. *)
Definition hash_ladder : HashMapListPriceTree.t * Mem.t :=
  let insert a (st : HashMapListPriceTree.t * Mem.t) :=
    HashMapListPriceTree.Insert a st.1 st.2 in
  let st :=
    insert 2%nat
      (insert 1%nat
         (insert 0%nat (HashMapListPriceTree.NewHashMapListPriceTree true, boundary_orders))) in
  HashMapListPriceTree.Remove 2 st.1 st.2.

(** The HashMap + list tree that goes through the steps of
    [boundary_ladder]. *)
Definition boundary_hash_ladder : HashMapListPriceTree.t * Mem.t :=
  let insert a (st : HashMapListPriceTree.t * Mem.t) :=
    HashMapListPriceTree.Insert a st.1 st.2 in
  let st :=
    insert 2%nat
      (insert 1%nat
         (insert 0%nat (HashMapListPriceTree.NewHashMapListPriceTree false, boundary_orders))) in
  HashMapListPriceTree.Remove 0 st.1 st.2.

(** [two_asks] after B1 was submitted to the engine. *)
Definition two_asks_submitted : MatchingEngine.t :=
  default two_asks.1 (MatchingEngine.SubmitOrder 2 two_asks.1).

(** What [processOrder] makes of B1 on [two_asks_submitted]. *)
Definition two_asks_turn : list Trade.t * MatchingEngine.t * Mem.t :=
  default ([], two_asks_submitted, two_asks.2)
    (MatchingEngine.processOrder 16 2 two_asks_submitted two_asks.2).

(** A new exchange after the order B1 of [two_asks] was submitted to it. *)
Definition first_submission : ExchangeEngine.t :=
  default ExchangeEngine.NewExchangeEngine
    (ExchangeEngine.SubmitOrder 2 ExchangeEngine.NewExchangeEngine two_asks.2).

(** * Properties *)

(** ** Arithmetic of machine integers and of the price split *)

Lemma wrap64_range z : int64_range (wrap64 z).
Proof. unfold int64_range, wrap64. pose proof (Z.mod_pos_bound (z + 2 ^ 63) (2 ^ 64)). lia. Qed.

Lemma wrap64_id z : int64_range z → wrap64 z = z.
Proof. unfold int64_range, wrap64. intros H. rewrite Z.mod_small; lia. Qed.

Lemma wrap64_add_sub v r : int64_range v → wrap64 (wrap64 (v + r) - r) = v.
Proof.
  intros Hv. unfold wrap64.
  replace ((v + r + 2 ^ 63) mod 2 ^ 64 - 2 ^ 63 - r + 2 ^ 63)
    with ((v + r + 2 ^ 63) mod 2 ^ 64 - r) by lia.
  rewrite Zminus_mod_idemp_l.
  replace (v + r + 2 ^ 63 - r) with (v + 2 ^ 63) by lia.
  unfold int64_range in Hv. rewrite Z.mod_small; lia.
Qed.

Lemma land_127 p : Z.land p 127 = p mod 128.
Proof. change 127 with (Z.ones 7). rewrite Z.land_ones by lia. reflexivity. Qed.

Lemma price_split p : 0 <= p → p = 128 * Z.quot p 128 + Z.land p 127.
Proof.
  intros Hp. rewrite land_127, Z.quot_div_nonneg by lia. apply Z.div_mod. lia.
Qed.

Lemma price_split_inj p q :
  0 <= p → 0 <= q → Z.quot p 128 = Z.quot q 128 → Z.land p 127 = Z.land q 127 → p = q.
Proof. intros Hp Hq H1 H2. rewrite (price_split p Hp), (price_split q Hq). lia. Qed.

Lemma better_irrefl isBuy a : ¬ better isBuy a a.
Proof. unfold better, isBetter. destruct isBuy; lia. Qed.

Lemma better_trans isBuy a b c : better isBuy a b → better isBuy b c → better isBuy a c.
Proof. unfold better, isBetter. destruct isBuy; lia. Qed.

Lemma better_asym isBuy a b : better isBuy a b → better isBuy b a → False.
Proof. unfold better, isBetter. destruct isBuy; lia. Qed.

Lemma not_better_total isBuy a b :
  isBetter isBuy a b = false → a ≠ b → better isBuy b a.
Proof. unfold better, isBetter. destruct isBuy; lia. Qed.

Lemma better_quot isBuy p q :
  better isBuy (Z.quot p 128) (Z.quot q 128) → better isBuy p q.
Proof.
  unfold better, isBetter. destruct isBuy; intros H.
  - apply Z.ltb_lt. apply Z.ltb_lt in H.
    destruct (Z_lt_le_dec q p) as [|Hle]; [done|].
    pose proof (Z.quot_le_mono p q 128 ltac:(lia) Hle). lia.
  - apply Z.ltb_lt. apply Z.ltb_lt in H.
    destruct (Z_lt_le_dec p q) as [|Hle]; [done|].
    pose proof (Z.quot_le_mono q p 128 ltac:(lia) Hle). lia.
Qed.

(** ** The chain of a bucket *)

Section chain.
Variable isBuy : bool.

Lemma elem_of_splice p c x : x ∈ Bucket.splice isBuy p c ↔ x = p ∨ x ∈ c.
Proof.
  induction c as [|q c IH]; simpl.
  - rewrite list_elem_of_singleton. set_solver.
  - destruct (isBetter isBuy p q); rewrite !elem_of_cons; [tauto|].
    rewrite IH. tauto.
Qed.

Lemma length_splice p c : length (Bucket.splice isBuy p c) = S (length c).
Proof. induction c as [|q c IH]; simpl; [done|]. destruct (isBetter isBuy p q); simpl; lia. Qed.

Lemma splice_sorted p c :
  StronglySorted (better isBuy) c → p ∉ c →
  StronglySorted (better isBuy) (Bucket.splice isBuy p c).
Proof.
  induction c as [|q c IH]; simpl; intros Hs Hp.
  - repeat constructor.
  - apply StronglySorted_cons in Hs as [Hq Hs].
    apply not_elem_of_cons in Hp as [Hpq Hp].
    destruct (isBetter isBuy p q) eqn:E.
    + apply StronglySorted_cons. split; [|by apply StronglySorted_cons].
      constructor; [done|]. eapply Forall_impl; [done|].
      intros y Hy. by eapply better_trans.
    + apply StronglySorted_cons. split; [|by apply IH].
      apply Forall_forall. intros y Hy. apply elem_of_splice in Hy as [->|Hy].
      * by apply not_better_total.
      * by eapply Forall_forall in Hq.
Qed.

Lemma unlink_splice p c : p ∉ c → Bucket.unlink p (Bucket.splice isBuy p c) = c.
Proof.
  induction c as [|q c IH]; simpl; intros Hp.
  - by rewrite Z.eqb_refl.
  - apply not_elem_of_cons in Hp as [Hpq Hp].
    destruct (isBetter isBuy p q); simpl.
    + by rewrite Z.eqb_refl.
    + destruct (Z.eqb_spec p q); [done|]. by rewrite IH.
Qed.

Lemma elem_of_unlink p c x : NoDup c → x ∈ Bucket.unlink p c ↔ x ∈ c ∧ x ≠ p.
Proof.
  induction c as [|q c IH]; simpl; intros Hnd.
  - set_solver.
  - apply NoDup_cons in Hnd as [Hq Hnd].
    destruct (Z.eqb_spec p q) as [->|Hne].
    + rewrite elem_of_cons. split; [|naive_solver].
      intros Hx. split; [by right|]. by intros ->.
    + rewrite !elem_of_cons, IH by done. naive_solver.
Qed.

Lemma unlink_subseteq p c : Bucket.unlink p c ⊆ c.
Proof.
  induction c as [|q c IH]; simpl; [done|].
  destruct (Z.eqb p q); set_solver.
Qed.

Lemma unlink_sorted p c :
  StronglySorted (better isBuy) c → StronglySorted (better isBuy) (Bucket.unlink p c).
Proof.
  induction c as [|q c IH]; simpl; intros Hs; [done|].
  apply StronglySorted_cons in Hs as [Hq Hs].
  destruct (Z.eqb p q); [done|].
  apply StronglySorted_cons. split; [|by apply IH].
  apply Forall_forall. intros y Hy. apply unlink_subseteq in Hy.
  by eapply Forall_forall in Hq.
Qed.

Lemma length_unlink p c : p ∈ c → Z.of_nat (length (Bucket.unlink p c)) = Z.of_nat (length c) - 1.
Proof.
  induction c as [|q c IH]; simpl; intros Hp; [by apply elem_of_nil in Hp|].
  destruct (Z.eqb_spec p q); [lia|].
  apply elem_of_cons in Hp as [?|Hp]; [done|]. simpl. rewrite Nat2Z.inj_succ, IH by done. lia.
Qed.

Lemma head_unlink p c q : head c = Some q → q ≠ p → head (Bucket.unlink p c) = Some q.
Proof.
  destruct c as [|r c]; simpl; [done|]. intros [= ->] Hne.
  destruct (Z.eqb_spec p q); [congruence|done].
Qed.

Lemma sorted_NoDup c : StronglySorted (better isBuy) c → NoDup c.
Proof.
  induction 1 as [|x c Hs IH Hx]; constructor; [|done].
  intros Hin. eapply Forall_forall in Hx; [|done]. by apply better_irrefl in Hx.
Qed.

Lemma sorted_head_best c q x :
  StronglySorted (better isBuy) c → head c = Some q → x ∈ c → isBetter isBuy x q = false.
Proof.
  destruct c as [|r c]; simpl; [done|]. intros Hs [= ->] Hx.
  apply StronglySorted_cons in Hs as [Hq _].
  apply elem_of_cons in Hx as [->|Hx].
  - apply not_true_is_false. apply better_irrefl.
  - eapply Forall_forall in Hq; [|done]. apply not_true_is_false.
    intros H. by eapply better_asym.
Qed.

Lemma sorted_unique c1 c2 :
  StronglySorted (better isBuy) c1 → StronglySorted (better isBuy) c2 →
  (∀ x, x ∈ c1 ↔ x ∈ c2) → c1 = c2.
Proof.
  intros H1 H2 Heq. apply (StronglySorted_unique_strong (better isBuy)); [|done..|].
  - intros x1 x2 _ _ Ha Hb. destruct (better_asym _ _ _ Ha Hb).
  - apply NoDup_Permutation; auto using sorted_NoDup.
Qed.
End chain.

(** ** The first bucket of the ordered map *)

Section first_bucket.
Variable isBuy : bool.
Import ShardedPriceTree.

Lemma first_of_foldr (l : list (Z * Bucket.t)) :
  match foldr (first_of isBuy) None l with
  | None => l = []
  | Some kv => kv ∈ l ∧ ∀ kv', kv' ∈ l → isBetter isBuy kv'.1 kv.1 = false
  end.
Proof.
  induction l as [|x l IH]; simpl; [done|].
  destruct (foldr (first_of isBuy) None l) as [kv|]; simpl.
  - destruct IH as [Hin Hbest].
    destruct (isBetter isBuy x.1 kv.1) eqn:E.
    + split; [by left|]. intros kv' [->|Hkv']%elem_of_cons.
      * apply not_true_is_false. apply better_irrefl.
      * apply not_true_is_false. intros Hb.
        specialize (Hbest _ Hkv'). apply not_true_iff_false in Hbest. apply Hbest.
        by eapply better_trans.
    + split; [by right|]. intros kv' [->|Hkv']%elem_of_cons; auto.
  - subst l. split; [by left|]. intros kv' ->%list_elem_of_singleton.
    apply not_true_is_false. apply better_irrefl.
Qed.

Lemma Left_None (m : gmap Z Bucket.t) : Left isBuy m = None ↔ m = ∅.
Proof.
  unfold Left. pose proof (first_of_foldr (map_to_list m)) as H.
  destruct (foldr _ _ _) as [kv|].
  - split; [done|]. intros ->. rewrite map_to_list_empty in H.
    destruct H as [H _]. by apply elem_of_nil in H.
  - split; [|done]. intros _. by apply map_to_list_empty_iff.
Qed.

Lemma Left_Some (m : gmap Z Bucket.t) k b :
  Left isBuy m = Some (k, b) ↔
  m !! k = Some b ∧ ∀ k', is_Some (m !! k') → isBetter isBuy k' k = false.
Proof.
  unfold Left. pose proof (first_of_foldr (map_to_list m)) as H.
  destruct (foldr _ _ _) as [[k0 b0]|].
  - destruct H as [Hin Hbest]. apply elem_of_map_to_list in Hin.
    assert (Hb0 : ∀ k', is_Some (m !! k') → isBetter isBuy k' k0 = false).
    { intros k' [b' Hk']. apply (Hbest (k', b')). by apply elem_of_map_to_list. }
    split.
    + intros [= <- <-]. done.
    + intros [Hk Hb]. assert (k = k0) as ->.
      { destruct (decide (k = k0)) as [|Hne]; [done|].
        pose proof (Hb k0 ltac:(eauto)) as H1. pose proof (Hb0 k ltac:(eauto)) as H2.
        pose proof (not_better_total _ _ _ H1 ltac:(congruence)) as H3.
        unfold better in H3. congruence. }
      congruence.
  - subst. split; [done|]. intros [Hk _].
    apply map_to_list_empty_iff in H. subst m. by rewrite lookup_empty in Hk.
Qed.

Lemma Left_is_Some (m : gmap Z Bucket.t) : m ≠ ∅ → is_Some (Left isBuy m).
Proof.
  intros Hne. destruct (Left isBuy m) eqn:E; [eauto|]. by apply Left_None in E.
Qed.
End first_bucket.

Lemma new_tree_ok isBuy : tree_ok (ShardedPriceTree.NewShardedPriceTree isBuy 128).
Proof.
  split; [split|]; simpl; try done.
  intros l (id & b & i & H & _). simpl in H. by rewrite lookup_empty in H.
Qed.

Section shape_facts.
Import ShardedPriceTree.
Context (s : t) (Hs : tree_shape s).

Lemma level_in_at l : level_in s l ↔ 0 < PriceLevel_.Price l ∧ level_at s (PriceLevel_.Price l) = Some l.
Proof.
  unfold level_at. rewrite (tr_bucketSize _ Hs). split.
  - intros (id & b & i & Hb & Hl).
    pose proof (tr_buckets _ Hs _ _ Hb) as [Hok _].
    destruct (bk_levels _ _ _ Hok _ _ Hl) as (Hpos & Hq & Hi & _).
    split; [done|]. rewrite Hq, Hb. simpl. rewrite (bk_mask _ _ _ Hok). by rewrite <- Hi.
  - intros [_ H]. destruct (buckets s !! _) as [b|] eqn:Hb; [|done]. simpl in H.
    by exists (Z.quot (PriceLevel_.Price l) 128), b, (Z.land (PriceLevel_.Price l) (Bucket.bucketMask b)).
Qed.

Lemma level_in_inj l1 l2 :
  level_in s l1 → level_in s l2 → PriceLevel_.Price l1 = PriceLevel_.Price l2 → l1 = l2.
Proof.
  intros [_ H1]%level_in_at [_ H2]%level_in_at Heq. rewrite Heq in H1. congruence.
Qed.

Lemma level_at_price p l : 0 < p → level_at s p = Some l → PriceLevel_.Price l = p ∧ level_in s l.
Proof.
  unfold level_at. rewrite (tr_bucketSize _ Hs). intros Hp H.
  destruct (buckets s !! _) as [b|] eqn:Hb; [|done]. simpl in H.
  pose proof (tr_buckets _ Hs _ _ Hb) as [Hok _]. rewrite (bk_mask _ _ _ Hok) in H.
  destruct (bk_levels _ _ _ Hok _ _ H) as (Hpos & Hq & Hi & _).
  split; [|by eexists _, _, _]. apply price_split_inj; lia.
Qed.

Lemma best_bucket_nonempty : buckets s ≠ ∅ →
  ∃ k b p, Left (isBuy s) (buckets s) = Some (k, b) ∧ bestBucket s = Some k
           ∧ bestPrice s = Some p ∧ head (Bucket.chain b) = Some p.
Proof.
  intros Hne. destruct (Left_is_Some (isBuy s) _ Hne) as [[k b] HL].
  pose proof (tr_best _ Hs) as Hbest. unfold best_of in Hbest. rewrite HL in Hbest.
  injection Hbest as Hbb Hbp.
  apply Left_Some in HL as HL'. destruct HL' as [Hk _].
  pose proof (tr_buckets _ Hs _ _ Hk) as [_ Hc].
  unfold Bucket.bestPrice in Hbp. destruct (Bucket.chain b) as [|p c] eqn:Ec; [done|].
  exists k, b, p. by rewrite Ec.
Qed.

Lemma best_empty : buckets s = ∅ → bestBucket s = None ∧ bestPrice s = None.
Proof.
  intros He. pose proof (tr_best _ Hs) as Hbest. unfold best_of in Hbest.
  rewrite He in Hbest. unfold Left in Hbest. rewrite map_to_list_empty in Hbest.
  simpl in Hbest. by injection Hbest.
Qed.
End shape_facts.

Lemma level_in_alt s l :
  level_in s l ↔ ∃ id b, ShardedPriceTree.buckets s !! id = Some b ∧ level_in_bucket b l.
Proof. unfold level_in, level_in_bucket. naive_solver. Qed.

Section first_bucket_updates.
Variable isBuy : bool.
Import ShardedPriceTree.

Lemma Left_insert (m : gmap Z Bucket.t) id b' :
  Left isBuy (<[id := b']> m) =
  match Left isBuy m with
  | None => Some (id, b')
  | Some (k, b0) =>
      if isBetter isBuy id k then Some (id, b')
      else if Z.eqb id k then Some (id, b') else Some (k, b0)
  end.
Proof.
  destruct (Left isBuy m) as [[k b0]|] eqn:E.
  - apply Left_Some in E as [Hk Hbest].
    destruct (isBetter isBuy id k) eqn:Hb; [|destruct (Z.eqb_spec id k) as [->|Hne]];
      apply Left_Some.
    + split; [by rewrite lookup_insert_eq|]. intros k' Hk'.
      destruct (decide (k' = id)) as [->|Hne].
      * apply not_true_is_false, better_irrefl.
      * rewrite lookup_insert_ne in Hk' by done. apply Hbest in Hk'.
        apply not_true_is_false. intros Hc. apply not_true_iff_false in Hk'. apply Hk'.
        by eapply better_trans.
    + split; [by rewrite lookup_insert_eq|]. intros k' Hk'.
      destruct (decide (k' = k)) as [->|Hne]; [done|].
      rewrite lookup_insert_ne in Hk' by done. by apply Hbest.
    + split; [by rewrite lookup_insert_ne|]. intros k' Hk'.
      destruct (decide (k' = id)) as [->|Hne']; [done|].
      rewrite lookup_insert_ne in Hk' by done. by apply Hbest.
  - apply Left_None in E as ->. apply Left_Some.
    split; [by rewrite lookup_insert_eq|]. intros k' [x Hk'].
    apply lookup_insert_Some in Hk' as [[<- _]|[_ Hk']]; [|by rewrite lookup_empty in Hk'].
    apply not_true_is_false, better_irrefl.
Qed.

Lemma Left_delete (m : gmap Z Bucket.t) id k b0 :
  Left isBuy m = Some (k, b0) → k ≠ id → Left isBuy (delete id m) = Some (k, b0).
Proof.
  intros [Hk Hbest]%Left_Some Hne. apply Left_Some.
  split; [by rewrite lookup_delete_ne|]. intros k' [x Hk'].
  apply lookup_delete_Some in Hk' as [_ Hk']. apply Hbest. eauto.
Qed.
End first_bucket_updates.

(** ** Buckets under the operations of the ladder *)

Section bucket_steps.
Variables (isBuy : bool) (id : Z).

Lemma NewBucket_shape : bucket_shape isBuy id (Bucket.NewBucket id isBuy 128).
Proof.
  split; simpl; try done.
  - constructor.
  - intros p Hp. by apply elem_of_nil in Hp.
Qed.

Lemma shape_set_level b i l l' :
  bucket_shape isBuy id b → Bucket.levels b !! i = Some l →
  PriceLevel_.Price l' = PriceLevel_.Price l →
  bucket_shape isBuy id (Bucket.with_levels (<[i := l']> (Bucket.levels b)) b).
Proof.
  intros [Hid Hbuy Hbs Hmask Hsize Hsorted Hchain Hlevels] Hl Hp. pose proof (Hlevels _ _ Hl) as (Hpos & Hq & Hi & Hc).
  split; simpl; try done.
  - intros p Hpc. destruct (Hchain _ Hpc) as (l1 & Hl1 & Hp1).
    destruct (decide (i = Z.land p 127)) as [->|Hne].
    + exists l'. rewrite lookup_insert_eq. split; [done|]. congruence.
    + exists l1. by rewrite lookup_insert_ne.
  - intros j l1 [[<- <-]|[Hne Hj]]%lookup_insert_Some; [|by apply Hlevels].
    rewrite Hp. done.
Qed.

Lemma shape_Insert b p l :
  bucket_shape isBuy id b → Bucket.levels b !! Z.land p 127 = None →
  0 < p → Z.quot p 128 = id → PriceLevel_.Price l = p →
  bucket_shape isBuy id (Bucket.Insert p l b).
Proof.
  intros [Hid Hbuy Hbs Hmask Hsize Hsorted Hchain Hlevels] Hnone Hpos Hq Hp.
  assert (Hnotin : p ∉ Bucket.chain b).
  { intros Hin. destruct (Hchain _ Hin) as (l1 & Hl1 & _). congruence. }
  unfold Bucket.Insert. rewrite Hmask, Hbuy, Hp.
  split; simpl; try done.
  - rewrite length_splice, Hsize. lia.
  - by apply splice_sorted.
  - intros q [->|Hqc]%elem_of_splice.
    + exists l. by rewrite lookup_insert_eq.
    + destruct (Hchain _ Hqc) as (l1 & Hl1 & Hp1). exists l1. split; [|done].
      rewrite lookup_insert_ne; [done|]. intros Heq. rewrite Heq in Hnone. congruence.
  - intros j l1 [[<- <-]|[Hne Hj]]%lookup_insert_Some.
    + rewrite Hp. repeat split; try done. apply elem_of_splice. by left.
    + destruct (Hlevels _ _ Hj) as (? & ? & ? & ?). repeat split; try done.
      apply elem_of_splice. by right.
Qed.

Lemma shape_Remove b p l :
  bucket_shape isBuy id b → Bucket.levels b !! Z.land p 127 = Some l →
  bucket_shape isBuy id (Bucket.Remove p b)
  ∧ Bucket.levels (Bucket.Remove p b) = delete (Z.land p 127) (Bucket.levels b)
  ∧ Bucket.chain (Bucket.Remove p b) = Bucket.unlink (PriceLevel_.Price l) (Bucket.chain b).
Proof.
  intros [Hid Hbuy Hbs Hmask Hsize Hsorted Hchain Hlevels] Hl. unfold Bucket.Remove. rewrite Hmask, Hl.
  destruct (Hlevels _ _ Hl) as (Hpos & Hq & Hi & Hc).
  pose proof (sorted_NoDup _ _ Hsorted) as Hnd.
  split; [|done]. split; simpl; try done.
  - rewrite length_unlink, Hsize by done. lia.
  - by apply unlink_sorted.
  - intros q [Hqc Hne]%elem_of_unlink; [|done].
    destruct (Hchain _ Hqc) as (l1 & Hl1 & Hp1). exists l1. split; [|done].
    rewrite lookup_delete_ne; [done|]. intros Heq. rewrite Heq in Hl. congruence.
  - intros j l1 [Hne Hj]%lookup_delete_Some.
    destruct (Hlevels _ _ Hj) as (? & ? & ? & ?). repeat split; try done.
    apply elem_of_unlink; [done|]. split; [done|]. intros Heq. apply Hne. congruence.
Qed.
End bucket_steps.

(** ** Ladders under the operations of the sharded tree *)

Section tree_steps.
Import ShardedPriceTree.

Lemma updateBestPriceFromTree_best s :
  let s' := updateBestPriceFromTree s in
  (bestBucket s', bestPrice s') = best_of (isBuy s) (buckets s)
  ∧ buckets s' = buckets s ∧ isBuy s' = isBuy s ∧ bucketSize s' = bucketSize s.
Proof.
  unfold updateBestPriceFromTree, best_of.
  destruct (Left (isBuy s) (buckets s)) as [[k b]|]; simpl; done.
Qed.

Lemma best_in_tree s k b :
  tree_shape s → Left (isBuy s) (buckets s) = Some (k, b) →
  bestBucket s = Some k ∧ bestPrice s = head (Bucket.chain b).
Proof.
  intros Hs HL. pose proof (tr_best _ Hs) as Hb. unfold best_of in Hb.
  rewrite HL in Hb. by injection Hb.
Qed.

(** Storing a bucket and refreshing the cache as [Insert] does. *)
Lemma put_shape s id b' :
  tree_shape s → bucket_shape (isBuy s) id b' → Bucket.chain b' ≠ [] →
  tree_shape (updateBestPrice id b' (with_buckets (<[id := b']> (buckets s)) s)).
Proof.
  intros Hs Hb' Hne.
  assert (Hbk : ∀ i b, <[id := b']> (buckets s) !! i = Some b →
                       bucket_shape (isBuy s) i b ∧ Bucket.chain b ≠ []).
  { intros i b [[<- <-]|[_ Hi]]%lookup_insert_Some; [done|]. by apply (tr_buckets _ Hs). }
  pose proof (tr_bucketSize _ Hs) as Hsz.
  pose proof (Left_insert (isBuy s) (buckets s) id b') as HL.
  unfold updateBestPrice, isBetterBucket. cbn.
  destruct (Left (isBuy s) (buckets s)) as [[k b0]|] eqn:E.
  - destruct (best_in_tree _ _ _ Hs E) as [Hbb Hbp]. rewrite Hbb.
    destruct (isBetter (isBuy s) id k) eqn:Hbet; [|destruct (Z.eqb id k) eqn:Heq].
    + split; simpl; try done. unfold best_of. by rewrite HL.
    + apply Z.eqb_eq in Heq. subst k.
      split; simpl; try done. unfold best_of. by rewrite HL.
    + split; simpl; try done. unfold best_of. by rewrite HL, Hbb, Hbp.
  - pose proof (tr_best _ Hs) as Hb. unfold best_of in Hb. rewrite E in Hb.
    injection Hb as Hbb Hbp. rewrite Hbb.
    split; simpl; try done. unfold best_of. by rewrite HL.
Qed.

(** Replacing a bucket by one with the same chain. *)
Lemma set_bucket_shape s id b b1 :
  tree_shape s → buckets s !! id = Some b →
  bucket_shape (isBuy s) id b1 → Bucket.chain b1 = Bucket.chain b →
  tree_shape (with_buckets (<[id := b1]> (buckets s)) s).
Proof.
  intros Hs Hb Hb1 Hc.
  pose proof (tr_buckets _ Hs _ _ Hb) as [_ Hne].
  split; simpl.
  - apply (tr_bucketSize _ Hs).
  - intros i x [[<- <-]|[_ Hi]]%lookup_insert_Some; [by rewrite Hc|]. by apply (tr_buckets _ Hs).
  - unfold best_of. rewrite Left_insert.
    destruct (Left (isBuy s) (buckets s)) as [[k b0]|] eqn:E.
    + destruct (best_in_tree _ _ _ Hs E) as [Hbb Hbp]. rewrite Hbb, Hbp.
      apply Left_Some in E as [Hk Hbest].
      rewrite (Hbest id) by eauto.
      destruct (Z.eqb_spec id k) as [->|Hneq]; [|done].
      unfold Bucket.bestPrice. rewrite Hc. congruence.
    + apply Left_None in E. rewrite E in Hb. by rewrite lookup_empty in Hb.
Qed.

Lemma level_in_set_bucket s id b1 x :
  level_in (with_buckets (<[id := b1]> (buckets s)) s) x ↔
  level_in_bucket b1 x
  ∨ ∃ id' b, id' ≠ id ∧ buckets s !! id' = Some b ∧ level_in_bucket b x.
Proof.
  rewrite level_in_alt. simpl. split.
  - intros (i & b & [[<- <-]|[Hne Hi]]%lookup_insert_Some & Hx); [by left|].
    right. exists i, b. done.
  - intros [Hx|(i & b & Hne & Hi & Hx)].
    + exists id, b1. by rewrite lookup_insert_eq.
    + exists i, b. by rewrite lookup_insert_ne.
Qed.

Lemma level_in_split s id b x :
  buckets s !! id = Some b →
  level_in s x ↔
  level_in_bucket b x
  ∨ ∃ id' b', id' ≠ id ∧ buckets s !! id' = Some b' ∧ level_in_bucket b' x.
Proof.
  intros Hb. rewrite level_in_alt. split.
  - intros (i & b' & Hi & Hx). destruct (decide (i = id)) as [->|Hne].
    + left. congruence.
    + right. by exists i, b'.
  - intros [Hx|(i & b' & Hne & Hi & Hx)]; eauto.
Qed.

Lemma Remove_shape s p b l :
  tree_shape s → buckets s !! Z.quot p 128 = Some b →
  Bucket.levels b !! Z.land p 127 = Some l → PriceLevel_.Price l = p →
  let s' := Remove p s in
  tree_shape s' ∧ isBuy s' = isBuy s ∧ ∀ x, level_in s' x ↔ level_in s x ∧ x ≠ l.
Proof.
  intros Hs Hb Hl Hp.
  pose proof (tr_buckets _ Hs _ _ Hb) as [Hbs Hne].
  destruct (shape_Remove _ _ _ _ _ Hbs Hl) as (Hbs' & Hlv' & Hch').
  rewrite Hp in Hch'.
  pose proof (sorted_NoDup _ _ (bk_sorted _ _ _ Hbs)) as Hnd.
  assert (Hslot : ∀ i x, Bucket.levels b !! i = Some x → x = l ↔ i = Z.land p 127).
  { intros i x Hi. destruct (bk_levels _ _ _ Hbs _ _ Hi) as (Hpos & Hq & Hix & _).
    split; [intros ->; congruence|]. intros Heq. rewrite Heq in Hi. congruence. }
  assert (Hrest : ∀ x, level_in_bucket (Bucket.Remove p b) x ↔ level_in_bucket b x ∧ x ≠ l).
  { intros x. unfold level_in_bucket. rewrite Hlv'. split.
    - intros (i & [Hi Hx]%lookup_delete_Some). split; [eauto|].
      intros Heq. apply (Hslot _ _ Hx) in Heq. done.
    - intros [(i & Hi) Hx]. exists i. apply lookup_delete_Some. split; [|done].
      intros Heq. apply Hx. by apply (Hslot _ _ Hi). }
  assert (Hother : ∀ id' b' x, id' ≠ Z.quot p 128 → buckets s !! id' = Some b' →
                                level_in_bucket b' x → x ≠ l).
  { intros id' b' x Hid Hb' (i & Hi) ->.
    pose proof (tr_buckets _ Hs _ _ Hb') as [Hbs'' _].
    destruct (bk_levels _ _ _ Hbs'' _ _ Hi) as (_ & Hq & _). congruence. }
  pose proof (bk_size _ _ _ Hbs') as Hsize.
  destruct (Left_is_Some (isBuy s) (buckets s)) as [[k b0] HL].
  { intros He. rewrite He in Hb. by rewrite lookup_empty in Hb. }
  destruct (best_in_tree _ _ _ Hs HL) as [Hbb Hbp].
  unfold Remove. rewrite (tr_bucketSize _ Hs), Hb. simpl.
  destruct (Z.eqb_spec (Bucket.size (Bucket.Remove p b)) 0) as [Hz|Hnz].
  - (* the bucket is emptied and leaves the map *)
    assert (Hnil : Bucket.chain (Bucket.Remove p b) = []).
    { destruct (Bucket.chain (Bucket.Remove p b)); [done|]. simpl in Hsize. lia. }
    assert (Hlv : ∀ x, level_in_bucket b x → x = l).
    { intros x (i & Hi). destruct (bk_levels _ _ _ Hbs _ _ Hi) as (_ & _ & Hix & Hc).
      destruct (decide (PriceLevel_.Price x = p)) as [Hxp|Hxp].
      - apply (Hslot _ _ Hi). congruence.
      - assert (PriceLevel_.Price x ∈ Bucket.chain (Bucket.Remove p b)) as Hin.
        { rewrite Hch'. by apply elem_of_unlink. }
        rewrite Hnil in Hin. by apply elem_of_nil in Hin. }
    assert (Hlevels : ∀ s0, buckets s0 = delete (Z.quot p 128) (buckets s) →
                            ∀ x, level_in s0 x ↔ level_in s x ∧ x ≠ l).
    { intros s0 Hs0 x. rewrite (level_in_split s _ _ x Hb), level_in_alt, Hs0. split.
      - intros (i & b' & [Hi Hb']%lookup_delete_Some & Hx). split; [right; by exists i, b'|].
        by eapply Hother.
      - intros [[Hx|(i & b' & Hi & Hb' & Hx)] Hxl]; [by apply Hlv in Hx|].
        exists i, b'. by rewrite lookup_delete_ne. }
    assert (Hbk : ∀ i x, delete (Z.quot p 128) (buckets s) !! i = Some x →
                         bucket_shape (isBuy s) i x ∧ Bucket.chain x ≠ []).
    { intros i x [_ Hi]%lookup_delete_Some. by apply (tr_buckets _ Hs). }
    destruct (decide (bestBucket s = Some (Z.quot p 128))) as [Hbest|Hbest].
    + match goal with |- context [updateBestPriceFromTree ?s0] =>
        destruct (updateBestPriceFromTree_best s0) as (H1 & H2 & H3 & H4) end.
      simpl in *. refine (conj (Build_tree_shape _ _ _ _) (conj _ _)).
      * rewrite H4. apply (tr_bucketSize _ Hs).
      * rewrite H2, H3. done.
      * rewrite H1, H2, H3. done.
      * done.
      * by apply Hlevels.
    + refine (conj (Build_tree_shape _ _ _ _) (conj _ _)); simpl.
      * apply (tr_bucketSize _ Hs).
      * done.
      * rewrite Hbb, Hbp. unfold best_of.
        erewrite Left_delete; [done..|]. congruence.
      * done.
      * by apply Hlevels.
  - (* the bucket keeps other levels *)
    assert (Hne' : Bucket.chain (Bucket.Remove p b) ≠ []).
    { intros Hnil. rewrite Hnil in Hsize. simpl in Hsize. lia. }
    assert (Hlevels : ∀ s0,
              buckets s0 = <[Z.quot p 128 := Bucket.Remove p b]> (buckets s) →
              ∀ x, level_in s0 x ↔ level_in s x ∧ x ≠ l).
    { intros s0 Hs0 x. rewrite (level_in_split s _ _ x Hb), level_in_alt, Hs0. split.
      - intros (i & b' & [[<- <-]|[Hi Hb']]%lookup_insert_Some & Hx).
        + apply Hrest in Hx as [Hx Hxl]. split; [by left|done].
        + split; [right; by exists i, b'|]. by eapply Hother.
      - intros [[Hx|(i & b' & Hi & Hb' & Hx)] Hxl].
        + eexists _, _. rewrite lookup_insert_eq. split; [done|]. by apply Hrest.
        + exists i, b'. by rewrite lookup_insert_ne. }
    assert (Hbk : ∀ i x, <[Z.quot p 128 := Bucket.Remove p b]> (buckets s) !! i = Some x →
                         bucket_shape (isBuy s) i x ∧ Bucket.chain x ≠ []).
    { intros i x [[<- <-]|[_ Hi]]%lookup_insert_Some; [done|]. by apply (tr_buckets _ Hs). }
    unfold Bucket.updateBestPrice. rewrite Hbp.
    apply Left_Some in HL as HL'. destruct HL' as [Hk Hkbest].
    pose proof (tr_buckets _ Hs _ _ Hk) as [_ Hne0].
    destruct (Bucket.chain b0) as [|bp c0] eqn:Ec0; [done|]. simpl.
    destruct (Z.eqb_spec bp p) as [->|Hbp_ne].
    + match goal with |- context [updateBestPriceFromTree ?s0] =>
        destruct (updateBestPriceFromTree_best s0) as (H1 & H2 & H3 & H4) end.
      simpl in *. refine (conj (Build_tree_shape _ _ _ _) (conj _ _)).
      * rewrite H4. apply (tr_bucketSize _ Hs).
      * rewrite H2, H3. done.
      * rewrite H1, H2, H3. done.
      * done.
      * by apply Hlevels.
    + refine (conj (Build_tree_shape _ _ _ _) (conj _ _)); simpl.
      * apply (tr_bucketSize _ Hs).
      * done.
      * rewrite Hbb. unfold best_of. rewrite Left_insert, HL.
        rewrite (Hkbest (Z.quot p 128)) by eauto.
        destruct (Z.eqb_spec (Z.quot p 128) k) as [Heq|Hneq].
        2:{ rewrite Hbp. unfold Bucket.bestPrice. by rewrite Ec0. }
        rewrite Hbp. f_equal; [congruence|]. unfold Bucket.bestPrice. rewrite Hch'.
        assert (b0 = b) as -> by congruence.
        symmetry. apply head_unlink; [by rewrite Ec0|done].
      * done.
      * by apply Hlevels.
Qed.
End tree_steps.

(** ** Memory *)

Lemma load_update_eq m a f : Mem.load (Mem.update a f m) a = f (Mem.load m a).
Proof. unfold Mem.load, Mem.update, Mem.store. simpl. by rewrite lookup_insert_eq. Qed.

Lemma load_update_ne m a a' f : a ≠ a' → Mem.load (Mem.update a f m) a' = Mem.load m a'.
Proof. intros H. unfold Mem.load, Mem.update, Mem.store. simpl. by rewrite lookup_insert_ne. Qed.

Lemma load_new_elem m a : Mem.load (Mem.new_elem m).2 a = Mem.load m a.
Proof. done. Qed.

(** ** The adapter: what [Insert] and [Remove] do to a well-formed ladder *)

Section adapter_steps.
Import ShardedPriceTree.

Lemma level_in_ext s1 s2 x : buckets s1 = buckets s2 → level_in s1 x ↔ level_in s2 x.
Proof. unfold level_in. by intros ->. Qed.

Lemma updateBestPrice_fields id b s :
  buckets (updateBestPrice id b s) = buckets s
  ∧ isBuy (updateBestPrice id b s) = isBuy s.
Proof.
  unfold updateBestPrice. destruct (bestBucket s); [|done].
  destruct (isBetterBucket s id z); [done|]. by destruct (id =? z).
Qed.

Lemma level_at_None s p :
  tree_shape s → 0 < p → level_at s p = None → ∀ x, level_in s x → PriceLevel_.Price x ≠ p.
Proof.
  intros Hs Hp Hn x Hx Heq. apply (level_in_at _ Hs) in Hx as [_ Hx]. congruence.
Qed.

(** Storing bucket [b2] under [id] and refreshing the cache, when [b2]
    holds the levels [old] held (or none, for a new bucket) except that
    the level of price [p] is now [l']. *)
Lemma put_ok s id b2 (old : option Bucket.t) p l' :
  tree_ok s → 0 < p → Z.quot p 128 = id →
  buckets s !! id = old →
  bucket_shape (isBuy s) id b2 → Bucket.chain b2 ≠ [] →
  PriceLevel_.Price l' = p → PriceLevel_.Orders l' ≠ [] →
  (∀ x, level_in_bucket b2 x ↔
        x = l' ∨ (∃ b, old = Some b ∧ level_in_bucket b x ∧ PriceLevel_.Price x ≠ p)) →
  let s' := updateBestPrice id b2 (with_buckets (<[id := b2]> (buckets s)) s) in
  tree_ok s' ∧ isBuy s' = isBuy s
  ∧ ∀ x, level_in s' x ↔ x = l' ∨ (level_in s x ∧ level_at s p ≠ Some x).
Proof.
  intros [Hs Hf] Hp Hid Hold Hb2 Hne Hl' Ho' Hlv s'.
  destruct (updateBestPrice_fields id b2 (with_buckets (<[id := b2]> (buckets s)) s))
    as [Hbk Hbuy].
  assert (Hin : ∀ x, level_in s' x ↔ x = l' ∨ (level_in s x ∧ level_at s p ≠ Some x)).
  { intros x. rewrite (level_in_ext s' (with_buckets (<[id := b2]> (buckets s)) s)) by done.
    rewrite level_in_set_bucket, Hlv. split.
    - intros [[->|(b & Hb & Hx & Hxp)]|(i & b & Hi & Hb & Hx)]; [by left|right..].
      + split; [apply level_in_alt; exists id, b; split; [congruence|done]|].
        intros Hat. apply (level_at_price _ Hs) in Hat as [? _]; done.
      + split; [apply level_in_alt; by exists i, b|].
        intros Hat. destruct Hx as (j & Hj).
        destruct (tr_buckets _ Hs _ _ Hb) as [Hbs _].
        destruct (bk_levels _ _ _ Hbs _ _ Hj) as (_ & Hq & _).
        apply (level_at_price _ Hs) in Hat as [Hat _]; [|done]. congruence.
    - intros [->|[Hx Hat]]; [by left; left|].
      apply level_in_alt in Hx as (i & b & Hb & Hx).
      destruct (decide (i = id)) as [->|Hi].
      + left. right. exists b. split; [congruence|]. split; [done|].
        intros Hxp. apply Hat. rewrite <- Hxp. apply (level_in_at _ Hs).
        apply level_in_alt. by exists id, b.
      + right. by exists i, b. }
  split; [split|split]; try done.
  - by apply put_shape.
  - intros x [->|[Hx _]]%Hin; [done|]. by apply Hf.
Qed.

Lemma remaining_with_ListElement e o :
  Order.RemainingQuantity (Order.with_ListElement e o) = Order.RemainingQuantity o.
Proof. done. Qed.

(** [Insert], with its branches named. *)
Lemma Insert_unfold a s m :
  ShardedPriceTreeAdapter.Insert a s m =
  let o := Mem.load m a in
  let p := Order.Price o in
  let id := Z.quot p (bucketSize s) in
  let b0 := default (Bucket.NewBucket id (isBuy s) (bucketSize s)) (buckets s !! id) in
  let idx := Z.land p (Bucket.bucketMask b0) in
  let b1 := match Bucket.levels b0 !! idx with
            | Some _ => b0
            | None => Bucket.Insert p (PriceLevel_.mk p [] 0) b0
            end in
  let l := default (PriceLevel_.mk p [] 0) (Bucket.levels b0 !! idx) in
  let h := Mem.next_elem m in
  let l' := PriceLevel_.mk (PriceLevel_.Price l) (PriceLevel_.Orders l ++ [(h, a)])
              (wrap64 (PriceLevel_.Volume l + Order.RemainingQuantity o)) in
  let b2 := Bucket.with_levels (<[idx := l']> (Bucket.levels b1)) b1 in
  (updateBestPrice id b2 (with_buckets (<[id := b2]> (buckets s)) s),
   Mem.update a (Order.with_ListElement (Some h)) (Mem.new_elem m).2).
Proof.
  unfold ShardedPriceTreeAdapter.Insert. cbv zeta.
  destruct (buckets s !! Z.quot (Order.Price (Mem.load m a)) (bucketSize s)) as [b|];
    cbn [from_option id].
  - destruct (Bucket.levels b !! Z.land (Order.Price (Mem.load m a)) (Bucket.bucketMask b))
      as [l|]; cbn -[wrap64 Mem.update];
      rewrite load_update_eq, remaining_with_ListElement; reflexivity.
  - cbn [Bucket.NewBucket Bucket.levels]. rewrite !lookup_empty.
    cbn -[wrap64 Mem.update].
    rewrite load_update_eq, remaining_with_ListElement; reflexivity.
Qed.

Lemma Insert_spec a s m :
  tree_ok s → 0 < Order.Price (Mem.load m a) →
  let o := Mem.load m a in
  let l0 := pushed s (Order.Price o) (Mem.next_elem m) a (Order.RemainingQuantity o) in
  ∃ s', ShardedPriceTreeAdapter.Insert a s m
        = (s', Mem.update a (Order.with_ListElement (Some (Mem.next_elem m))) (Mem.new_elem m).2)
    ∧ tree_ok s' ∧ isBuy s' = isBuy s
    ∧ PriceLevel_.Price l0 = Order.Price o
    ∧ ∀ x, level_in s' x ↔ x = l0 ∨ (level_in s x ∧ level_at s (Order.Price o) ≠ Some x).
Proof.
  intros Hok Hp. cbv zeta. pose proof (tr_shape _ Hok) as Hs.
  rewrite Insert_unfold. cbv zeta.
  set (o := Mem.load m a) in *. set (p := Order.Price o) in *. set (h := Mem.next_elem m).
  set (l0 := pushed s p h a (Order.RemainingQuantity o)).
  assert (Hl0 : l0 = pushed s p h a (Order.RemainingQuantity o)) by done. clearbody l0.
  unfold pushed, level_at in Hl0. rewrite (tr_bucketSize _ Hs) in *.
  eexists. split; [reflexivity|].
  destruct (buckets s !! Z.quot p 128) as [b|] eqn:Hb; simpl in Hl0; cbn [from_option id].
  - destruct (tr_buckets _ Hs _ _ Hb) as [Hbs Hne].
    rewrite (bk_mask _ _ _ Hbs) in *.
    destruct (Bucket.levels b !! Z.land p 127) as [l|] eqn:Hl; cbn [from_option id].
    + (* the level exists *)
      destruct (bk_levels _ _ _ Hbs _ _ Hl) as (Hlpos & Hlq & Hli & Hlc).
      assert (Hlp : PriceLevel_.Price l = p).
      { apply price_split_inj; [lia|lia|done|congruence]. }
      rewrite <- Hl0.
      assert (Hl0p : PriceLevel_.Price l0 = p) by (by subst l0).
      refine ((λ H, conj (proj1 H) (conj (proj1 (proj2 H)) (conj Hl0p (proj2 (proj2 H))))) _).
      apply (put_ok s _ _ (Some b) p l0); try done.
      * eapply shape_set_level; [done..|]. by rewrite Hlp.
      * subst l0. simpl. by destruct (PriceLevel_.Orders l).
      * intros x. unfold level_in_bucket. simpl. split.
        -- intros (i & [[_ <-]|[Hi Hx]]%lookup_insert_Some); [by left|]. right.
           exists b. split; [done|]. split; [eauto|].
           intros Hxp. destruct (bk_levels _ _ _ Hbs _ _ Hx) as (_ & _ & Hxi & _). congruence.
        -- intros [->|(b' & [= <-] & (i & Hx) & Hxp)].
           ++ eexists. by rewrite lookup_insert_eq.
           ++ exists i. rewrite lookup_insert_ne; [done|].
              intros <-. rewrite Hl in Hx. congruence.
    + (* a new level in an existing bucket *)
      cbn [PriceLevel_.Price PriceLevel_.Orders PriceLevel_.Volume app]. rewrite <- Hl0.
      assert (Hl0p : PriceLevel_.Price l0 = p) by (by subst l0).
      refine ((λ H, conj (proj1 H) (conj (proj1 (proj2 H)) (conj Hl0p (proj2 (proj2 H))))) _).
      pose proof (shape_Insert _ _ _ p (PriceLevel_.mk p [] 0) Hbs Hl Hp eq_refl eq_refl) as Hsh.
      assert (Hl1 : Bucket.levels (Bucket.Insert p (PriceLevel_.mk p [] 0) b) !! Z.land p 127
                    = Some (PriceLevel_.mk p [] 0)).
      { unfold Bucket.Insert. simpl. rewrite (bk_mask _ _ _ Hbs). by rewrite lookup_insert_eq. }
      apply (put_ok s _ _ (Some b) p l0); try done.
      * eapply shape_set_level; [done..|]. done.
      * simpl. intros Hnil.
        pose proof (length_splice (Bucket.isBuy b) p (Bucket.chain b)) as Hlen.
        rewrite Hnil in Hlen. done.
      * by subst l0.
      * intros x. unfold level_in_bucket. simpl. rewrite (bk_mask _ _ _ Hbs).
        rewrite insert_insert_eq. split.
        -- intros (i & [[_ <-]|[Hi Hx]]%lookup_insert_Some); [by left|]. right.
           exists b. split; [done|]. split; [eauto|].
           intros Hxp. destruct (bk_levels _ _ _ Hbs _ _ Hx) as (_ & _ & Hxi & _). congruence.
        -- intros [->|(b' & [= <-] & (i & Hx) & Hxp)].
           ++ eexists. by rewrite lookup_insert_eq.
           ++ exists i. rewrite lookup_insert_ne; [done|].
              intros <-. rewrite Hl in Hx. congruence.
  - (* a new bucket *)
    cbn [Bucket.NewBucket Bucket.levels Bucket.bucketMask]. rewrite lookup_empty.
    replace (128 - 1) with 127 by done. cbn [from_option id].
    cbn [PriceLevel_.Price PriceLevel_.Orders PriceLevel_.Volume app]. rewrite <- Hl0.
    assert (Hl0p : PriceLevel_.Price l0 = p) by (by subst l0).
    refine ((λ H, conj (proj1 H) (conj (proj1 (proj2 H)) (conj Hl0p (proj2 (proj2 H))))) _).
    pose proof (shape_Insert (isBuy s) _ _ p (PriceLevel_.mk p [] 0)
                  (NewBucket_shape (isBuy s) (Z.quot p 128))
                  (lookup_empty _) Hp eq_refl eq_refl) as Hsh.
    apply (put_ok s _ _ None p l0); try done.
    + eapply (shape_set_level _ _ _ _ (PriceLevel_.mk p [] 0)); [done| |done].
      unfold Bucket.Insert. cbn [Bucket.levels Bucket.bucketMask Bucket.NewBucket].
      change (128 - 1) with 127. by rewrite lookup_insert_eq.
    + by subst l0.
    + intros x. unfold level_in_bucket, Bucket.Insert.
      cbn [Bucket.levels Bucket.bucketMask Bucket.NewBucket Bucket.with_levels].
      change (128 - 1) with 127. rewrite insert_insert_eq. split.
      * intros (i & [[_ <-]|[Hi Hx]]%lookup_insert_Some); [by left|].
        by rewrite lookup_empty in Hx.
      * intros [->|(b' & [=] & _)]. eexists. by rewrite lookup_insert_eq.
Qed.
End adapter_steps.

Section adapter_remove.
Import ShardedPriceTree.

Lemma level_in_set_level s id b i l l' x :
  tree_shape s → buckets s !! id = Some b → Bucket.levels b !! i = Some l →
  level_in (with_buckets (<[id := Bucket.with_levels (<[i := l']> (Bucket.levels b)) b]>
                            (buckets s)) s) x
  ↔ x = l' ∨ (level_in s x ∧ x ≠ l).
Proof.
  intros Hs Hb Hl. destruct (tr_buckets _ Hs _ _ Hb) as [Hbs _].
  rewrite level_in_set_bucket, (level_in_split s _ _ x Hb).
  unfold level_in_bucket at 1. simpl.
  assert (Hslot : ∀ j y, Bucket.levels b !! j = Some y → y = l ↔ j = i).
  { intros j y Hj. destruct (bk_levels _ _ _ Hbs _ _ Hj) as (_ & _ & Hjy & _).
    destruct (bk_levels _ _ _ Hbs _ _ Hl) as (_ & _ & Hil & _).
    split; [intros ->; congruence|]. intros Heq. rewrite Heq in Hj. congruence. }
  assert (Hother : ∀ id' b' y, id' ≠ id → buckets s !! id' = Some b' →
                                level_in_bucket b' y → y ≠ l).
  { intros id' b' y Hid Hb' (j & Hj) ->.
    destruct (tr_buckets _ Hs _ _ Hb') as [Hbs' _].
    destruct (bk_levels _ _ _ Hbs' _ _ Hj) as (_ & Hq & _).
    destruct (bk_levels _ _ _ Hbs _ _ Hl) as (_ & Hq' & _). congruence. }
  split.
  - intros [(j & [[_ <-]|[Hj Hx]]%lookup_insert_Some)|(id' & b' & Hid & Hb' & Hx)].
    + by left.
    + right. split; [left; by exists j|]. intros Heq. apply (Hslot _ _ Hx) in Heq. done.
    + right. split; [right; by exists id', b'|]. by eapply Hother.
  - intros [->|[[(j & Hj)|(id' & b' & Hid & Hb' & Hx)] Hne]].
    + left. exists i. by rewrite lookup_insert_eq.
    + left. exists j. rewrite lookup_insert_ne; [done|].
      intros Heq. apply Hne. by apply (Hslot _ _ Hj).
    + right. by exists id', b'.
Qed.

Lemma Remove_spec a s m :
  tree_ok s → 0 < Order.Price (Mem.load m a) →
  let o := Mem.load m a in
  match level_at s (Order.Price o) with
  | None => ShardedPriceTreeAdapter.Remove a s m = (s, m)
  | Some l =>
      ∃ s', ShardedPriceTreeAdapter.Remove a s m = (s', unlinked_mem a m)
        ∧ tree_ok s' ∧ isBuy s' = isBuy s
        ∧ ∀ x, level_in s' x ↔
               (x = unlinked l o ∧ PriceLevel_.Orders x ≠ []) ∨ (level_in s x ∧ x ≠ l)
  end.
Proof.
  intros Hok Hp. cbv zeta. pose proof (tr_shape _ Hok) as Hs.
  unfold ShardedPriceTreeAdapter.Remove, level_at, unlinked_mem. cbv zeta.
  set (o := Mem.load m a) in *. set (p := Order.Price o) in *.
  rewrite (tr_bucketSize _ Hs).
  destruct (buckets s !! Z.quot p 128) as [b|] eqn:Hb; [|done]. simpl.
  destruct (tr_buckets _ Hs _ _ Hb) as [Hbs Hne].
  rewrite (bk_mask _ _ _ Hbs).
  destruct (Bucket.levels b !! Z.land p 127) as [l|] eqn:Hl; [|done].
  destruct (bk_levels _ _ _ Hbs _ _ Hl) as (Hlpos & Hlq & Hli & Hlc).
  assert (Hlp : PriceLevel_.Price l = p).
  { apply price_split_inj; [lia|lia|done|congruence]. }
  set (l' := unlinked l o).
  assert (Hl' : l' = unlinked l o) by done. clearbody l'.
  assert (Hl'p : PriceLevel_.Price l' = p).
  { subst l'. unfold unlinked. by destruct (Order.ListElement o). }
  set (b1 := Bucket.with_levels (<[Z.land p 127 := l']> (Bucket.levels b)) b).
  set (s1 := with_buckets (<[Z.quot p 128 := b1]> (buckets s)) s).
  assert (Hgoal :
    ∃ s', (if Nat.eqb (length (PriceLevel_.Orders l')) 0
           then ShardedPriceTree.Remove p s1 else s1) = s'
      ∧ tree_ok s' ∧ isBuy s' = isBuy s
      ∧ ∀ x, level_in s' x ↔ (x = l' ∧ PriceLevel_.Orders x ≠ []) ∨ (level_in s x ∧ x ≠ l)).
  { assert (Hb1 : bucket_shape (isBuy s) (Z.quot p 128) b1).
    { eapply shape_set_level; [done..|]. congruence. }
    assert (Hs1 : tree_shape s1) by (by eapply set_bucket_shape).
    assert (Hin1 : ∀ x, level_in s1 x ↔ x = l' ∨ (level_in s x ∧ x ≠ l)).
    { intros x. by apply level_in_set_level. }
    assert (Hpx : ∀ x, level_in s x → x ≠ l → x ≠ l').
    { intros x Hx Hxl ->. apply Hxl. apply (level_in_inj _ Hs); [done| |congruence].
      apply level_in_alt. exists (Z.quot p 128), b. split; [done|]. by eexists. }
    eexists. split; [reflexivity|].
    destruct (Nat.eqb_spec (length (PriceLevel_.Orders l')) 0) as [Hz|Hnz].
    - apply length_zero_iff_nil in Hz.
      destruct (Remove_shape s1 p b1 l' Hs1) as (Hs' & Hbuy & Hin'); try done.
      { subst s1. simpl. by rewrite lookup_insert_eq. }
      { subst b1. simpl. by rewrite lookup_insert_eq. }
      assert (Hin : ∀ x, level_in (Remove p s1) x ↔
                (x = l' ∧ PriceLevel_.Orders x ≠ []) ∨ (level_in s x ∧ x ≠ l)).
      { intros x. rewrite Hin', Hin1. split.
        - intros [[->|H] Hx]; [done|by right].
        - intros [[-> H]|[Hx Hxl]]; [done|]. split; [by right|]. by apply Hpx. }
      split; [split; [done|]|split; [done|done]].
      intros x [[-> H]|[Hx _]]%Hin; [done|]. by apply (tr_fifo _ Hok).
    - assert (Hnil : PriceLevel_.Orders l' ≠ []).
      { intros Hnil. rewrite Hnil in Hnz. done. }
      assert (Hin : ∀ x, level_in s1 x ↔
                (x = l' ∧ PriceLevel_.Orders x ≠ []) ∨ (level_in s x ∧ x ≠ l)).
      { intros x. rewrite Hin1. split.
        - intros [->|H]; [by left|by right].
        - intros [[-> _]|H]; [by left|by right]. }
      split; [split; [done|]|split; [done|done]].
      intros x [[-> H]|[Hx _]]%Hin; [done|]. by apply (tr_fifo _ Hok). }
  destruct Hgoal as (s' & Hs' & Hrest). exists s'. split; [|done].
  rewrite <- Hs'. subst s1 b1 l'. unfold unlinked. fold o.
  destruct (Order.ListElement o) as [e|] eqn:He; cbn -[wrap64 Mem.update].
  - rewrite load_update_eq, remaining_with_ListElement. fold o. fold p.
    match goal with |- context [Nat.eqb ?x 0] => destruct (Nat.eqb x 0) end; reflexivity.
  - fold p.
    match goal with |- context [Nat.eqb ?x 0] => destruct (Nat.eqb x 0) end; reflexivity.
Qed.
End adapter_remove.

Lemma elem_of_levels_of s l : l ∈ levels_of s ↔ level_in s l.
Proof.
  unfold levels_of, level_in. rewrite list_elem_of_bind. split.
  - intros (b & Hl & Hb).
    apply list_elem_of_fmap in Hl as ([i l'] & -> & Hl).
    apply list_elem_of_fmap in Hb as ([id b'] & -> & Hb).
    apply elem_of_map_to_list in Hl, Hb. by exists id, b', i.
  - intros (id & b & i & Hb & Hl). exists b. split.
    + apply list_elem_of_fmap. exists (i, l). split; [done|]. by apply elem_of_map_to_list.
    + apply list_elem_of_fmap. exists (id, b). split; [done|]. by apply elem_of_map_to_list.
Qed.

(** ** Best price of a ladder *)

Lemma ladder_reach_ok descending s :
  ladder_reach descending s → tree_ok s ∧ ShardedPriceTree.isBuy s = descending.
Proof.
  induction 1 as [|s m a _ [IH1 IH2] Hp|s m a _ [IH1 IH2] Hp].
  - split; [apply new_tree_ok|done].
  - destruct (Insert_spec a s m IH1 Hp) as (s' & -> & Hok & Hbuy & _). simpl.
    split; [done|congruence].
  - pose proof (Remove_spec a s m IH1 Hp) as H. cbv zeta in H.
    destruct (ShardedPriceTree.level_at s _) as [l|].
    + destruct H as (s' & -> & Hok & Hbuy & _). simpl. split; [done|congruence].
    + rewrite H. done.
Qed.

Lemma best_price_of_tree_ok s :
  tree_ok s →
  (resting_orders s = [] → ShardedPriceTreeAdapter.GetBestPrice s = 0)
  ∧ (resting_orders s ≠ [] →
       (∃ l, l ∈ levels_of s ∧ PriceLevel_.Orders l ≠ []
             ∧ PriceLevel_.Price l = ShardedPriceTreeAdapter.GetBestPrice s)
       ∧ ∀ l, l ∈ levels_of s → PriceLevel_.Orders l ≠ [] →
              if ShardedPriceTree.isBuy s
              then PriceLevel_.Price l <= ShardedPriceTreeAdapter.GetBestPrice s
              else ShardedPriceTreeAdapter.GetBestPrice s <= PriceLevel_.Price l).
Proof.
  intros [Hs Hf].
  unfold ShardedPriceTreeAdapter.GetBestPrice, ShardedPriceTree.GetBestPrice.
  destruct (decide (ShardedPriceTree.buckets s = ∅)) as [He|Hne].
  - destruct (best_empty _ Hs He) as [_ ->]. split; [done|].
    intros Hr. exfalso. apply Hr. unfold resting_orders, levels_of.
    rewrite He, map_to_list_empty. done.
  - destruct (best_bucket_nonempty _ Hs Hne) as (k & b & p & HL & Hbb & Hbp & Hhd).
    apply Left_Some in HL as [Hk Hbest].
    destruct (tr_buckets _ Hs _ _ Hk) as [Hbs _].
    assert (Hpc : p ∈ Bucket.chain b).
    { destruct (Bucket.chain b); simplify_eq/=. by left. }
    destruct (bk_chain _ _ _ Hbs _ Hpc) as (lp & Hlp & Hlpp).
    assert (Hin : level_in s lp) by (by exists k, b, (Z.land p 127)).
    rewrite Hbp. split.
    + intros Hr. exfalso. apply (Hf _ Hin).
      destruct (PriceLevel_.Orders lp) as [|x xs] eqn:E; [done|].
      assert (x ∈ resting_orders s) as Hx.
      { unfold resting_orders. apply list_elem_of_bind. exists lp.
        split; [rewrite E; by left|]. by apply elem_of_levels_of. }
      rewrite Hr in Hx. by apply elem_of_nil in Hx.
    + intros _. split.
      * exists lp. split; [by apply elem_of_levels_of|]. split; [by apply Hf|done].
      * intros l Hl%elem_of_levels_of _. destruct Hl as (id & b' & i & Hb' & Hl).
        destruct (tr_buckets _ Hs _ _ Hb') as [Hbs' _].
        destruct (bk_levels _ _ _ Hbs' _ _ Hl) as (_ & Hq & _ & Hc).
        destruct (bk_levels _ _ _ Hbs _ _ Hlp) as (_ & Hqp & _).
        rewrite Hlpp in Hqp.
        assert (Hnb : isBetter (ShardedPriceTree.isBuy s) (PriceLevel_.Price l) p = false).
        { destruct (decide (id = k)) as [->|Hidk].
          - assert (b' = b) as -> by congruence.
            eapply sorted_head_best; [apply (bk_sorted _ _ _ Hbs)|done..].
          - apply not_true_is_false. intros Hbt.
            pose proof (Hbest id ltac:(eauto)) as Hidb.
            destruct (isBetter (ShardedPriceTree.isBuy s) k id) eqn:Hkid.
            + assert (better (ShardedPriceTree.isBuy s) p (PriceLevel_.Price l)) as Hpl.
              { apply better_quot. by rewrite Hq, Hqp. }
              by eapply better_asym.
            + apply Hidk. unfold isBetter in *. destruct (ShardedPriceTree.isBuy s); lia. }
        unfold isBetter in Hnb. destruct (ShardedPriceTree.isBuy s); lia.
Qed.

(** ** A well-formed ladder is determined by its levels *)

Section canonical.
Import ShardedPriceTree.

Lemma bucket_of_level s l id b i :
  tree_shape s → buckets s !! id = Some b → Bucket.levels b !! i = Some l →
  id = Z.quot (PriceLevel_.Price l) 128 ∧ i = Z.land (PriceLevel_.Price l) 127.
Proof.
  intros Hs Hb Hl. destruct (tr_buckets _ Hs _ _ Hb) as [Hbs _].
  destruct (bk_levels _ _ _ Hbs _ _ Hl) as (_ & Hq & Hi & _). done.
Qed.

Lemma levels_transfer s1 s2 id b1 b2 i l :
  tree_shape s1 → tree_shape s2 → (∀ x, level_in s1 x → level_in s2 x) →
  buckets s1 !! id = Some b1 → buckets s2 !! id = Some b2 →
  Bucket.levels b1 !! i = Some l → Bucket.levels b2 !! i = Some l.
Proof.
  intros Hs1 Hs2 Hsub Hb1 Hb2 Hl.
  destruct (bucket_of_level _ _ _ _ _ Hs1 Hb1 Hl) as [Hid Hi].
  destruct (Hsub l ltac:(by exists id, b1, i)) as (id' & b' & i' & Hb' & Hl').
  destruct (bucket_of_level _ _ _ _ _ Hs2 Hb' Hl') as [Hid' Hi'].
  congruence.
Qed.

Lemma bucket_transfer s1 s2 id b1 :
  tree_shape s1 → tree_shape s2 → (∀ x, level_in s1 x → level_in s2 x) →
  buckets s1 !! id = Some b1 → is_Some (buckets s2 !! id).
Proof.
  intros Hs1 Hs2 Hsub Hb1. destruct (tr_buckets _ Hs1 _ _ Hb1) as [Hbs Hne].
  destruct (Bucket.chain b1) as [|p c] eqn:Ec; [done|].
  destruct (bk_chain _ _ _ Hbs p) as (l & Hl & Hp); [rewrite Ec; by left|].
  destruct (bucket_of_level _ _ _ _ _ Hs1 Hb1 Hl) as [Hid Hi].
  destruct (Hsub l ltac:(by exists id, b1, (Z.land p 127))) as (id' & b' & i' & Hb' & Hl').
  destruct (bucket_of_level _ _ _ _ _ Hs2 Hb' Hl') as [Hid' Hi'].
  exists b'. congruence.
Qed.

Lemma bucket_canonical isBuy id b1 b2 :
  bucket_shape isBuy id b1 → bucket_shape isBuy id b2 →
  Bucket.levels b1 = Bucket.levels b2 → b1 = b2.
Proof.
  intros H1 H2 Hl.
  assert (Hc : Bucket.chain b1 = Bucket.chain b2).
  { apply (sorted_unique isBuy); [apply (bk_sorted _ _ _ H1)|apply (bk_sorted _ _ _ H2)|].
    intros p. split; intros Hp.
    - destruct (bk_chain _ _ _ H1 _ Hp) as (l & Hlp & <-). rewrite Hl in Hlp.
      by destruct (bk_levels _ _ _ H2 _ _ Hlp) as (_ & _ & _ & ?).
    - destruct (bk_chain _ _ _ H2 _ Hp) as (l & Hlp & <-). rewrite <- Hl in Hlp.
      by destruct (bk_levels _ _ _ H1 _ _ Hlp) as (_ & _ & _ & ?). }
  pose proof (bk_size _ _ _ H1) as Hz1. pose proof (bk_size _ _ _ H2) as Hz2.
  destruct H1 as [Hid1 Hbuy1 Hbs1 Hm1 _ _ _ _], H2 as [Hid2 Hbuy2 Hbs2 Hm2 _ _ _ _].
  destruct b1, b2; simpl in *; subst; f_equal; congruence.
Qed.

Lemma tree_canonical s1 s2 :
  tree_shape s1 → tree_shape s2 → isBuy s1 = isBuy s2 →
  (∀ x, level_in s1 x ↔ level_in s2 x) → s1 = s2.
Proof.
  intros Hs1 Hs2 Hbuy Hlv.
  assert (Hbk : buckets s1 = buckets s2).
  { apply map_eq. intros id.
    destruct (buckets s1 !! id) as [b1|] eqn:E1, (buckets s2 !! id) as [b2|] eqn:E2;
      try done.
    - f_equal. destruct (tr_buckets _ Hs1 _ _ E1) as [Hb1 _].
      destruct (tr_buckets _ Hs2 _ _ E2) as [Hb2 _]. rewrite <- Hbuy in Hb2.
      eapply bucket_canonical; [done..|]. apply map_eq. intros i.
      destruct (Bucket.levels b1 !! i) as [l1|] eqn:F1.
      + symmetry. eapply (levels_transfer s1 s2); [done|done|naive_solver|done|done|done].
      + destruct (Bucket.levels b2 !! i) as [l2|] eqn:F2; [|done].
        rewrite <- F1. eapply (levels_transfer s2 s1); [done|done|naive_solver|done|done|done].
    - destruct (bucket_transfer s1 s2 id b1) as [? ?]; [done|done|naive_solver|done|congruence].
    - destruct (bucket_transfer s2 s1 id b2) as [? ?]; [done|done|naive_solver|done|congruence]. }
  pose proof (tr_best _ Hs1) as Hb1. pose proof (tr_best _ Hs2) as Hb2.
  pose proof (tr_bucketSize _ Hs1) as Hz1. pose proof (tr_bucketSize _ Hs2) as Hz2.
  rewrite <- Hbk, <- Hbuy, <- Hb1 in Hb2.
  destruct s1, s2; simpl in *. simplify_eq. done.
Qed.
End canonical.

Lemma filter_fresh_handle (h a : nat) (l : list (nat * nat)) :
  (∀ h' a', (h', a') ∈ l → h' ≠ h) → filter (λ x, x.1 ≠ h) (l ++ [(h, a)]) = l.
Proof.
  intros Hl. rewrite filter_app, filter_singleton_False by (simpl; tauto).
  rewrite app_nil_r.
  induction l as [|[h' a'] l IH]; [done|].
  rewrite filter_cons_True.
  - f_equal. apply IH. intros h'' a'' Hin. apply (Hl h'' a''). by right.
  - simpl. apply (Hl h' a'). by left.
Qed.

(** Inserting an order in a ladder and removing it again. *)
Lemma Insert_Remove_id a s m :
  tree_ok s → (∀ l, level_in s l → level_wf m l) →
  0 < Order.Price (Mem.load m a) →
  let '(s1, m1) := ShardedPriceTreeAdapter.Insert a s m in
  (ShardedPriceTreeAdapter.Remove a s1 m1).1 = s.
Proof.
  intros Hok Hwf Hp.
  destruct (Insert_spec a s m Hok Hp) as (s1 & -> & Hok1 & Hbuy1 & Hl0p & Hin1).
  cbv zeta in *.
  set (o := Mem.load m a) in *. set (p := Order.Price o) in *. set (h := Mem.next_elem m) in *.
  set (m1 := Mem.update a (Order.with_ListElement (Some h)) (Mem.new_elem m).2).
  assert (Ho1 : Mem.load m1 a = Order.with_ListElement (Some h) o).
  { unfold m1. by rewrite load_update_eq. }
  pose proof (Remove_spec a s1 m1 Hok1) as Hrem. cbv zeta in Hrem.
  rewrite Ho1 in Hrem. change (Order.Price (Order.with_ListElement (Some h) o)) with p in Hrem.
  specialize (Hrem Hp).
  set (l0 := pushed s p h a (Order.RemainingQuantity o)) in *.
  assert (Hat1 : ShardedPriceTree.level_at s1 p = Some l0).
  { rewrite <- Hl0p. apply (level_in_at _ (tr_shape _ Hok1)). apply Hin1. by left. }
  rewrite Hat1 in Hrem. destruct Hrem as (s2 & -> & Hok2 & Hbuy2 & Hin2). simpl.
  symmetry. apply tree_canonical; [apply Hok|apply Hok2|congruence|].
  assert (Hne0 : ∀ x, level_in s x → ShardedPriceTree.level_at s p ≠ Some x → x ≠ l0).
  { intros x Hx Hat ->. apply Hat. rewrite <- Hl0p. by apply (level_in_at _ (tr_shape _ Hok)). }
  intros x. rewrite Hin2. unfold unlinked. simpl.
  change (Order.RemainingQuantity (Order.with_ListElement (Some h) o))
    with (Order.RemainingQuantity o).
  destruct (ShardedPriceTree.level_at s p) as [l|] eqn:Hat.
  - destruct (level_at_price _ (tr_shape _ Hok) _ _ Hp Hat) as [Hlp Hlin].
    destruct (Hwf _ Hlin) as [Hvol Hfresh].
    assert (Hback : {| PriceLevel_.Price := PriceLevel_.Price l0;
                       PriceLevel_.Orders := filter (λ y, y.1 ≠ h) (PriceLevel_.Orders l0);
                       PriceLevel_.Volume :=
                         wrap64 (PriceLevel_.Volume l0 - Order.RemainingQuantity o) |} = l).
    { unfold l0, pushed. rewrite Hat. simpl.
      rewrite filter_fresh_handle, wrap64_add_sub by (try done; intros h' a' Hh'%Hfresh; lia).
      by destruct l. }
    rewrite Hback. split.
    + intros Hx. destruct (decide (PriceLevel_.Price x = p)) as [Hxp|Hxp].
      * assert (x = l) as ->.
        { apply (level_in_at _ (tr_shape _ Hok)) in Hx as [_ Hx]. congruence. }
        left. split; [done|]. by apply (tr_fifo _ Hok).
      * assert (Hxl : x ≠ l) by congruence.
        right. split; [apply Hin1; right; split; [done|congruence]|].
        apply Hne0; [done|congruence].
    + intros [[-> _]|[[->|[Hx _]]%Hin1 Hxl]]; done.
  - split.
    + intros Hx. right. split; [apply Hin1; right; split; [done|congruence]|].
      by apply Hne0.
    + intros [[-> Hne]|[[->|[Hx _]]%Hin1 Hxl]]; [|done..].
      exfalso. apply Hne. unfold l0, pushed. rewrite Hat. simpl.
      rewrite filter_cons_False by (simpl; tauto). done.
Qed.

(** ** Adding and cancelling *)

Lemma new_book_wf symbol m : book_wf (OrderBook.NewOrderBook symbol) m.
Proof.
  split; simpl; try apply new_tree_ok; try done.
  intros l [(id & b & i & H & _)|(id & b & i & H & _)]; simpl in H; by rewrite lookup_empty in H.
Qed.

Lemma level_wf_pushed s m a :
  (∀ l, level_in s l → level_wf m l) →
  level_wf (Mem.update a (Order.with_ListElement (Some (Mem.next_elem m))) (Mem.new_elem m).2)
    (pushed s (Order.Price (Mem.load m a)) (Mem.next_elem m) a
       (Order.RemainingQuantity (Mem.load m a))).
Proof.
  intros Hwf. unfold pushed.
  destruct (ShardedPriceTree.level_at s _) as [l|] eqn:Hat; split; simpl;
    try apply wrap64_range.
  - intros h' a' [Hin|Hin%list_elem_of_singleton]%elem_of_app; [|simplify_eq; lia].
    assert (Hl : level_in s l).
    { unfold ShardedPriceTree.level_at in Hat.
      destruct (ShardedPriceTree.buckets s !! _) as [b|] eqn:Hb; [|done].
      by eexists _, _, _. }
    destruct (Hwf _ Hl) as [_ Hh]. specialize (Hh _ _ Hin). lia.
  - intros h' a' Hin%list_elem_of_singleton. simplify_eq. lia.
Qed.

Lemma level_wf_mono m m' l :
  (Mem.next_elem m <= Mem.next_elem m')%nat → level_wf m l → level_wf m' l.
Proof. intros Hle [Hv Hh]. split; [done|]. intros h a Hin. specialize (Hh _ _ Hin). lia. Qed.

Lemma AddOrder_wf a ob m :
  book_wf ob m → 0 < Order.Price (Mem.load m a) →
  book_wf (OrderBook.AddOrder a ob m).1 (OrderBook.AddOrder a ob m).2.
Proof.
  intros [Hb Hbb Ha Hab Hl] Hp. unfold OrderBook.AddOrder.
  destruct (Order.Side (Mem.load m a) =? SideBuy).
  - destruct (Insert_spec a (OrderBook.bids ob) m Hb Hp) as (s' & -> & Hok & Hbuy & _ & Hin).
    simpl. split; simpl; try done; [congruence|].
    intros l [[->|[Hx _]]%Hin|Hx].
    + apply level_wf_pushed. auto.
    + eapply level_wf_mono; [|apply Hl; by left]. simpl. lia.
    + eapply level_wf_mono; [|apply Hl; by right]. simpl. lia.
  - destruct (Insert_spec a (OrderBook.asks ob) m Ha Hp) as (s' & -> & Hok & Hbuy & _ & Hin).
    simpl. split; simpl; try done; [congruence|].
    intros l [Hx|[->|[Hx _]]%Hin].
    + eapply level_wf_mono; [|apply Hl; by left]. simpl. lia.
    + apply level_wf_pushed. auto.
    + eapply level_wf_mono; [|apply Hl; by right]. simpl. lia.
Qed.

(** ** Ring buffers *)

Lemma release_times_closed n s :
  0 <= s < 2 ^ 32 → release_times n s = wrap32u (s + Z.of_nat n).
Proof.
  revert s. induction n as [|n IH]; intros s Hs.
  - simpl. unfold wrap32u. rewrite Z.add_0_r, Z.mod_small; lia.
  - cbn [release_times]. rewrite IH.
    + unfold semrelease, wrap32u. rewrite Zplus_mod_idemp_l. f_equal. lia.
    + unfold semrelease, wrap32u. apply Z.mod_pos_bound. lia.
Qed.

Lemma land_pred_power_of_two k : 0 <= k → Z.land (2 ^ k) (2 ^ k - 1) = 0.
Proof.
  intros Hk. replace (2 ^ k - 1) with (Z.ones k) by (rewrite Z.ones_equiv; lia).
  rewrite Z.land_ones by done. apply Z_mod_same_full.
Qed.

Lemma land_pred_zero n : 0 < n → Z.land n (n - 1) = 0 → is_power_of_two n.
Proof.
  intros Hn Hland. exists (Z.log2 n). split; [apply Z.log2_nonneg|].
  destruct (Z.log2_spec n Hn) as [Hlo Hhi].
  destruct (decide (n = 2 ^ Z.log2 n)) as [|Hne]; [done|]. exfalso.
  assert (Hlog : Z.log2 (n - 1) = Z.log2 n).
  { apply Z.log2_unique; [apply Z.log2_nonneg|]. rewrite <- Z.add_1_r in Hhi. lia. }
  assert (Hb1 : Z.testbit n (Z.log2 n) = true) by (by apply Z.bit_log2).
  assert (Hb2 : Z.testbit (n - 1) (Z.log2 n) = true).
  { rewrite <- Hlog. apply Z.bit_log2.
    pose proof (Z.pow_pos_nonneg 2 (Z.log2 n) ltac:(lia) (Z.log2_nonneg n)). lia. }
  pose proof (Z.land_spec n (n - 1) (Z.log2 n)) as Hs.
  rewrite Hland, Hb1, Hb2, Z.bits_0 in Hs. done.
Qed.

(** For a capacity between 1 and 2^32 - 1 the constructors behave as the
    panic message says: they panic exactly when the capacity is not a power
    of two, and otherwise the empty-slot semaphore counts the capacity. *)
Lemma New_positive {T} (size : Z) :
  0 < size < 2 ^ 32 →
  (@RingBuffer.New T size = None ↔ ¬ is_power_of_two size)
  ∧ ∀ rb, @RingBuffer.New T size = Some rb →
          RingBuffer.emptySlots rb = size ∧ RingBuffer.fullSlots rb = 0
          ∧ length (RingBuffer.buffer rb) = Z.to_nat size.
Proof.
  intros Hsz. unfold RingBuffer.New.
  assert (Hw : wrap64 (size - 1) = size - 1).
  { apply wrap64_id. unfold int64_range. lia. }
  rewrite Hw. destruct (Z.ltb_spec size 0) as [|_]; [lia|].
  destruct (Z.eqb_spec (Z.land size (size - 1)) 0) as [Hz|Hnz]; simpl.
  - split.
    + split; [done|]. intros Hnp. exfalso. apply Hnp. apply land_pred_zero; [lia|done].
    + intros rb [= <-]. simpl. rewrite release_times_closed by lia.
      unfold wrap32u. rewrite Z.add_0_l, Z2Nat.id, Z.mod_small, length_replicate by lia. done.
  - split; [|done]. split; [|done]. intros _ (k & Hk & ->).
    apply Hnz. by apply land_pred_power_of_two.
Qed.

(** ** Orders *)

Lemma remaining_exact o :
  0 <= Order.Filled o <= Order.Quantity o → Order.Quantity o < 2 ^ 63 →
  Order.RemainingQuantity o = Order.Quantity o - Order.Filled o.
Proof. intros H1 H2. apply wrap64_id. unfold int64_range. lia. Qed.

Lemma Fill_fields q o :
  Order.ID (Order.Fill q o) = Order.ID o
  ∧ Order.Price (Order.Fill q o) = Order.Price o
  ∧ Order.Quantity (Order.Fill q o) = Order.Quantity o
  ∧ Order.Side (Order.Fill q o) = Order.Side o
  ∧ Order.Type_ (Order.Fill q o) = Order.Type_ o
  ∧ Order.ListElement (Order.Fill q o) = Order.ListElement o
  ∧ Order.Filled (Order.Fill q o) = wrap64 (Order.Filled o + q).
Proof. unfold Order.Fill. by destruct (Order.IsFilled _). Qed.

Lemma Fill_status q o :
  Order.Status (Order.Fill q o)
  = if Order.Quantity o <=? wrap64 (Order.Filled o + q)
    then OrderStatusFilled else OrderStatusPartialFilled.
Proof. unfold Order.Fill, Order.IsFilled. simpl. by destruct (_ <=? _). Qed.

Lemma Fill_filled_exact q o :
  0 <= Order.Filled o → 0 <= q → Order.Filled o + q <= Order.Quantity o →
  Order.Quantity o < 2 ^ 63 →
  Order.Filled (Order.Fill q o) = Order.Filled o + q.
Proof.
  intros. destruct (Fill_fields q o) as (_ & _ & _ & _ & _ & _ & ->).
  apply wrap64_id. unfold int64_range. lia.
Qed.

(** ** The two sides of the book *)

Lemma AddOrder_eq a ob m :
  OrderBook.AddOrder a ob m =
  let isBuy := Z.eqb (Order.Side (Mem.load m a)) SideBuy in
  let sm := ShardedPriceTreeAdapter.Insert a (side_of ob isBuy) m in
  (set_side isBuy sm.1
     (set_orders (<[Order.ID (Mem.load m a) := a]> (OrderBook.orders ob)) ob), sm.2).
Proof.
  unfold OrderBook.AddOrder. cbv zeta.
  destruct (Order.Side (Mem.load m a) =? SideBuy); simpl;
    by destruct (ShardedPriceTreeAdapter.Insert _ _ _).
Qed.

Lemma CancelOrder_eq id a ob m :
  OrderBook.orders ob !! id = Some a →
  OrderBook.CancelOrder id ob m =
  let isBuy := Z.eqb (Order.Side (Mem.load m a)) SideBuy in
  let sm := ShardedPriceTreeAdapter.Remove a (side_of ob isBuy) m in
  (set_orders (delete id (OrderBook.orders ob)) (set_side isBuy sm.1 ob),
   Mem.update a Order.Cancel sm.2).
Proof.
  intros Hid. unfold OrderBook.CancelOrder. rewrite Hid. cbv zeta.
  destruct (Order.Side (Mem.load m a) =? SideBuy); simpl;
    by destruct (ShardedPriceTreeAdapter.Remove _ _ _).
Qed.

Lemma CancelOrder_unknown id ob m :
  OrderBook.orders ob !! id = None → OrderBook.CancelOrder id ob m = (ob, m).
Proof. intros Hid. unfold OrderBook.CancelOrder. by rewrite Hid. Qed.

Lemma side_of_set_side isBuy isBuy' s ob :
  side_of (set_side isBuy s ob) isBuy' = if Bool.eqb isBuy isBuy' then s else side_of ob isBuy'.
Proof. by destruct isBuy, isBuy'. Qed.

Lemma side_of_set_orders ix ob isBuy : side_of (set_orders ix ob) isBuy = side_of ob isBuy.
Proof. by destruct isBuy. Qed.

Lemma orders_set_side isBuy s ob : OrderBook.orders (set_side isBuy s ob) = OrderBook.orders ob.
Proof. by destruct isBuy. Qed.

Lemma book_wf_side ob m isBuy :
  book_wf ob m →
  tree_ok (side_of ob isBuy) ∧ ShardedPriceTree.isBuy (side_of ob isBuy) = isBuy
  ∧ ∀ l, level_in (side_of ob isBuy) l → level_wf m l.
Proof.
  intros [Hb Hbb Ha Hab Hl]. destruct isBuy; simpl.
  - split; [done|]. split; [done|]. intros l Hin. apply Hl. by left.
  - split; [done|]. split; [done|]. intros l Hin. apply Hl. by right.
Qed.

Lemma book_wf_intro ob m :
  (∀ isBuy, tree_ok (side_of ob isBuy) ∧ ShardedPriceTree.isBuy (side_of ob isBuy) = isBuy
            ∧ ∀ l, level_in (side_of ob isBuy) l → level_wf m l) →
  book_wf ob m.
Proof.
  intros H. destruct (H true) as (H1 & H2 & H3), (H false) as (H4 & H5 & H6).
  split; try done. intros l [Hl|Hl]; auto.
Qed.

Lemma level_in_pos s l : tree_shape s → level_in s l → 0 < PriceLevel_.Price l.
Proof. intros Hs Hl. by apply (level_in_at _ Hs) in Hl as [? _]. Qed.

(** ** The invariant under changes of the memory *)

Lemma resting_index f ob m a :
  engine_inv_ex f ob m → resting ob a →
  OrderBook.orders ob !! Order.ID (Mem.load m a) = Some a.
Proof. intros Hinv (isBuy & l & h & Hr). apply (ok_index _ _ _ _ _ _ _ (inv_orders _ _ _ Hinv _ _ _ _ Hr)). Qed.

Lemma incoming_not_resting f ob m b :
  engine_inv_ex f ob m → incoming_ok ob m b → ¬ resting ob b.
Proof.
  intros Hinv Hin Hr. pose proof (resting_index _ _ _ _ Hinv Hr) as H.
  rewrite (in_id _ _ _ Hin) in H. done.
Qed.

Lemma inv_mem_change f f' ob m m' :
  engine_inv_ex f ob m →
  Mem.next_elem m' = Mem.next_elem m →
  (∀ isBuy l h a, rests ob isBuy l h a →
     order_ok ob m f isBuy l h a → order_ok ob m' f' isBuy l h a) →
  engine_inv_ex f' ob m'.
Proof.
  intros [Hwf Ho Hn Hi] Hne Hok. split.
  - apply book_wf_intro. intros isBuy.
    destruct (book_wf_side _ _ isBuy Hwf) as (H1 & H2 & H3).
    split; [done|]. split; [done|]. intros l Hl. destruct (H3 _ Hl) as [Hv Hh].
    split; [done|]. intros h a Hin. rewrite Hne. by apply (Hh h a).
  - intros isBuy l h a Hr. apply Hok; [done|]. by apply Ho.
  - done.
  - intros id a Hid. destruct (Hi _ _ Hid) as [Hr Hida]. split; [done|].
    destruct Hr as (isBuy & l & h & Hr).
    pose proof (ok_index _ _ _ _ _ _ _ (Hok _ _ _ _ Hr (Ho _ _ _ _ Hr))) as H1.
    pose proof (ok_index _ _ _ _ _ _ _ (Ho _ _ _ _ Hr)) as H2.
    destruct (Hi _ _ H1) as [_ H3]. congruence.
Qed.

(** Writing to an order that does not rest in the book. *)
Lemma inv_update_other f ob m b g :
  engine_inv_ex f ob m → ¬ resting ob b → engine_inv_ex f ob (Mem.update b g m).
Proof.
  intros Hinv Hb. eapply inv_mem_change; [done|done|].
  intros isBuy l h a Hr [H1 H2 H3 H4 H5 H6 H7].
  assert (Hne : b ≠ a) by (intros ->; apply Hb; by exists isBuy, l, h).
  split; rewrite load_update_ne by done; done.
Qed.

(** Filling part of a resting order. *)
Lemma inv_fill_resting ob m isBuy l h s q :
  engine_inv ob m → rests ob isBuy l h s →
  0 <= q <= Order.Quantity (Mem.load m s) - Order.Filled (Mem.load m s) →
  engine_inv_ex (Some s) ob (Mem.update s (Order.Fill q) m).
Proof.
  intros Hinv Hs Hq. eapply inv_mem_change; [done|done|].
  intros isBuy' l' h' a Hr [H1 H2 H3 H4 H5 H6 H7].
  destruct (decide (a = s)) as [->|Hne].
  - destruct (Fill_fields q (Mem.load m s)) as (E1 & E2 & E3 & E4 & E5 & E6 & E7).
    split; rewrite load_update_eq; rewrite ?E1, ?E2, ?E3, ?E4, ?E6; try done.
    rewrite Fill_filled_exact; lia.
  - split; rewrite load_update_ne by done; try done. intros _. by apply H5.
Qed.

Lemma inv_ex_close s ob m :
  engine_inv_ex (Some s) ob m →
  Order.Filled (Mem.load m s) < Order.Quantity (Mem.load m s) →
  engine_inv ob m.
Proof.
  intros Hinv Hopen. eapply inv_mem_change; [done|done|].
  intros isBuy l h a Hr [H1 H2 H3 H4 H5 H6 H7]. split; try done.
  intros _. destruct (decide (a = s)) as [->|Hne]; [done|]. apply H5. congruence.
Qed.

Lemma inv_ex_open s ob m : engine_inv ob m → engine_inv_ex (Some s) ob m.
Proof.
  intros Hinv. eapply inv_mem_change; [done|done|].
  intros isBuy l h a Hr [H1 H2 H3 H4 H5 H6 H7]. split; try done.
  intros _. by apply H5.
Qed.

Lemma NoDup_fst_filter (P : nat * nat → Prop) `{∀ x, Decision (P x)} (l : list (nat * nat)) :
  NoDup l.*1 → NoDup (filter P l).*1.
Proof.
  induction l as [|x l IH]; [done|]. rewrite fmap_cons. intros [Hx Hl]%NoDup_cons.
  rewrite filter_cons. destruct (decide (P x)); [|by apply IH].
  rewrite fmap_cons. apply NoDup_cons. split; [|by apply IH].
  intros Hin. apply Hx. apply list_elem_of_fmap in Hin as (y & -> & Hy).
  apply list_elem_of_fmap. exists y. split; [done|]. by apply list_elem_of_filter in Hy as [_ ?].
Qed.

Lemma NoDup_fst_inj (l : list (nat * nat)) h a a' :
  NoDup l.*1 → (h, a) ∈ l → (h, a') ∈ l → a = a'.
Proof.
  induction l as [|[h0 a0] l IH]; [by intros _ ?%elem_of_nil|].
  rewrite fmap_cons. intros [Hx Hl]%NoDup_cons [E1|H1]%elem_of_cons [E2|H2]%elem_of_cons;
    simplify_eq; try done.
  - exfalso. apply Hx. apply list_elem_of_fmap. by exists (h0, a').
  - exfalso. apply Hx. apply list_elem_of_fmap. by exists (h0, a).
  - by apply IH.
Qed.

(** ** Cancelling a resting order *)

Lemma CancelOrder_spec f id a ob m :
  engine_inv_ex f ob m → OrderBook.orders ob !! id = Some a →
  (∀ s, f = Some s → s = a) →
  ∃ ob' m', OrderBook.CancelOrder id ob m = (ob', m')
    ∧ engine_inv ob' m'
    ∧ OrderBook.orders ob' = delete id (OrderBook.orders ob)
    ∧ OrderBook.symbol ob' = OrderBook.symbol ob
    ∧ (∀ a', a' ≠ a → Mem.load m' a' = Mem.load m a')
    ∧ Mem.load m' a = Order.Cancel (Order.with_ListElement None (Mem.load m a))
    ∧ ¬ resting ob' a
    ∧ (∀ a', resting ob' a' → resting ob a')
    ∧ (∀ isBuy x h' a', rests ob' isBuy x h' a' →
         ∃ x0, rests ob isBuy x0 h' a'
               ∧ PriceLevel_.Price x0 = PriceLevel_.Price x
               ∧ ∀ k, PriceLevel_.Orders x0 !! 0%nat = Some k →
                      k.2 ≠ a → PriceLevel_.Orders x !! 0%nat = Some k).
Proof.
  intros Hinv Hid Hf.
  destruct (inv_index _ _ _ Hinv _ _ Hid) as [(isBuy & l & h & Hl & Hha) Hida].
  pose proof (inv_orders _ _ _ Hinv _ _ _ _ (conj Hl Hha)) as [Hp Hsd He Hfl Hop Hq Hix].
  destruct (book_wf_side _ _ isBuy (inv_wf _ _ _ Hinv)) as (Hok & Hbuy & Hwf).
  pose proof (level_in_pos _ _ (tr_shape _ Hok) Hl) as Hpos.
  rewrite (CancelOrder_eq _ _ _ _ Hid). cbv zeta. rewrite Hsd.
  pose proof (Remove_spec a (side_of ob isBuy) m Hok ltac:(lia)) as Hrem. cbv zeta in Hrem.
  assert (Hat : ShardedPriceTree.level_at (side_of ob isBuy) (Order.Price (Mem.load m a)) = Some l).
  { rewrite Hp. by apply (level_in_at _ (tr_shape _ Hok)). }
  rewrite Hat in Hrem. destruct Hrem as (s' & Hrm & Hok' & Hbuy' & Hin').
  rewrite Hrm. cbn [fst snd].
  unfold unlinked_mem in *. unfold unlinked in Hin'. rewrite He in *.
  set (l' := {| PriceLevel_.Price := PriceLevel_.Price l;
                PriceLevel_.Orders := filter (λ x, x.1 ≠ h) (PriceLevel_.Orders l);
                PriceLevel_.Volume :=
                  wrap64 (PriceLevel_.Volume l - Order.RemainingQuantity (Mem.load m a)) |}) in *.
  set (m' := Mem.update a Order.Cancel (Mem.update a (Order.with_ListElement None) m)).
  set (ob' := set_orders (delete id (OrderBook.orders ob)) (set_side isBuy s' ob)).
  assert (Hload : ∀ a', a' ≠ a → Mem.load m' a' = Mem.load m a').
  { intros a' Hne. unfold m'. by rewrite !load_update_ne. }
  assert (Hside : ∀ isBuy', side_of ob' isBuy'
                    = if Bool.eqb isBuy isBuy' then s' else side_of ob isBuy').
  { intros isBuy'. unfold ob'. by rewrite side_of_set_orders, side_of_set_side. }
  (* every order resting afterwards rested before, at the same price, and is not [a] *)
  assert (Hback : ∀ isBuy' x h' a', rests ob' isBuy' x h' a' →
            a' ≠ a ∧ ∃ x0, rests ob isBuy' x0 h' a'
               ∧ PriceLevel_.Price x0 = PriceLevel_.Price x
               ∧ ∀ k, PriceLevel_.Orders x0 !! 0%nat = Some k →
                      k.2 ≠ a → PriceLevel_.Orders x !! 0%nat = Some k).
  { intros isBuy' x h' a' [Hx Hin]. rewrite Hside in Hx.
    assert (Hcase : ∃ x0, rests ob isBuy' x0 h' a'
               ∧ PriceLevel_.Price x0 = PriceLevel_.Price x
               ∧ (isBuy' = isBuy → x0 = l → h' ≠ h)
               ∧ ∀ k, PriceLevel_.Orders x0 !! 0%nat = Some k →
                      k.2 ≠ a → PriceLevel_.Orders x !! 0%nat = Some k).
    { destruct (Bool.eqb isBuy isBuy') eqn:Eb.
      - apply Bool.eqb_prop in Eb as <-.
        apply Hin' in Hx as [[-> Hne]|[Hx Hxl]].
        + simpl in Hin. apply list_elem_of_filter in Hin as [Hh' Hin]. simpl in Hh'.
          exists l. split; [done|]. split; [done|]. split; [done|].
          intros [kh ka] Hk Hka. simpl in *.
          destruct (PriceLevel_.Orders l) as [|k0 rest] eqn:El; [done|].
          simpl in Hk. injection Hk as ->.
          rewrite filter_cons_True; [done|]. simpl. intros Hkh. subst kh. apply Hka.
          eapply (NoDup_fst_inj ((h, ka) :: rest)); [rewrite <- El; by eapply inv_nodup| |].
          * left.
          * done.
        + exists x. split; [done|]. split; [done|]. split; [congruence|done].
      - exists x. split; [done|]. split; [done|]. split; [|done].
        intros ->. by rewrite Bool.eqb_reflx in Eb. }
    destruct Hcase as (x0 & Hr0 & Hpx & Hneq & Hfront). split; [|by exists x0].
    intros ->.
    pose proof (inv_orders _ _ _ Hinv _ _ _ _ Hr0) as [Hp0 Hsd0 He0 _ _ _ _].
    assert (isBuy' = isBuy) as -> by congruence.
    apply (Hneq eq_refl); [|congruence].
    destruct Hr0 as [Hx0 _]. apply (level_in_inj _ (tr_shape _ Hok)); [done..|congruence]. }
  exists ob', m'. split; [done|].
  assert (Hinv' : engine_inv ob' m').
  { split.
    - apply book_wf_intro. intros isBuy'. rewrite Hside.
      destruct (book_wf_side _ _ isBuy' (inv_wf _ _ _ Hinv)) as (Hok0 & Hbuy0 & Hwf0).
      destruct (Bool.eqb isBuy isBuy') eqn:Eb; [|done].
      apply Bool.eqb_prop in Eb as <-.
      split; [done|]. split; [congruence|].
      intros x [[-> Hne]|[Hx _]]%Hin'; [|by apply Hwf].
      destruct (Hwf _ Hl) as [_ Hh]. split; [apply wrap64_range|].
      intros h' a' [_ Hin]%list_elem_of_filter. by apply (Hh h' a').
    - intros isBuy' x h' a' Hr.
      destruct (Hback _ _ _ _ Hr) as (Hne & x0 & Hr0 & Hpx & _).
      pose proof (inv_orders _ _ _ Hinv _ _ _ _ Hr0) as [H1 H2 H3 H4 H5 H6 H7].
      split; rewrite Hload by done; try done.
      + congruence.
      + intros _. apply H5. intros Heq. apply Hf in Heq. congruence.
      + unfold ob'. cbn [OrderBook.orders set_orders].
        rewrite lookup_delete_ne; [done|]. intros Heq. rewrite <- Heq in H7. congruence.
    - intros isBuy' x Hx. rewrite Hside in Hx.
      destruct (Bool.eqb isBuy isBuy') eqn:Eb; [|by eapply inv_nodup].
      apply Bool.eqb_prop in Eb as <-.
      apply Hin' in Hx as [[-> Hne]|[Hx _]]; [|by eapply inv_nodup].
      simpl. apply NoDup_fst_filter. by eapply inv_nodup.
    - intros id2 a2 Hid2. unfold ob' in Hid2.
      cbn [OrderBook.orders set_orders] in Hid2.
      apply lookup_delete_Some in Hid2 as [Hne2 Hid2].
      destruct (inv_index _ _ _ Hinv _ _ Hid2) as [(isBuy2 & x2 & h2 & Hx2 & Hin2) Hida2].
      assert (Ha2 : a2 ≠ a) by (intros ->; congruence).
      split; [|by rewrite Hload].
      destruct (Bool.eqb isBuy isBuy2) eqn:Eb.
      + apply Bool.eqb_prop in Eb as <-.
        destruct (decide (PriceLevel_.Price x2 = PriceLevel_.Price l)) as [Hxp|Hxp].
        * assert (x2 = l) as -> by (by apply (level_in_inj _ (tr_shape _ Hok))).
          assert (Hin2' : (h2, a2) ∈ PriceLevel_.Orders l').
          { simpl. apply list_elem_of_filter. split; [|done]. simpl. intros ->.
            apply Ha2. eapply NoDup_fst_inj; [by eapply inv_nodup|done..]. }
          exists isBuy, l', h2. split; [|done]. rewrite Hside, Bool.eqb_reflx.
          apply Hin'. left. split; [done|]. intros Hnil. rewrite Hnil in Hin2'.
          by apply elem_of_nil in Hin2'.
        * exists isBuy, x2, h2. split; [|done]. rewrite Hside, Bool.eqb_reflx.
          apply Hin'. right. split; [done|congruence].
      + exists isBuy2, x2, h2. split; [|done]. by rewrite Hside, Eb. }
  split; [done|]. split; [done|]. split; [by destruct isBuy|].
  split; [done|]. split; [unfold m'; by rewrite !load_update_eq|].
  split; [|split].
  - intros (isBuy' & x & h' & Hr). by destruct (Hback _ _ _ _ Hr) as [? _].
  - intros a' (isBuy' & x & h' & Hr).
    destruct (Hback _ _ _ _ Hr) as (_ & x0 & Hr0 & _). by exists isBuy', x0, h'.
  - intros isBuy' x h' a' Hr. by destruct (Hback _ _ _ _ Hr) as [_ ?].
Qed.

(** ** Adding an order *)

Lemma level_at_in s p l : ShardedPriceTree.level_at s p = Some l → level_in s l.
Proof.
  unfold ShardedPriceTree.level_at. intros H.
  destruct (ShardedPriceTree.buckets s !! _) as [b|] eqn:Hb; [|done]. by eexists _, _, _.
Qed.

Lemma AddOrder_spec b ob m :
  engine_inv ob m → incoming_ok ob m b →
  0 < Order.Price (Mem.load m b) →
  Order.Filled (Mem.load m b) < Order.Quantity (Mem.load m b) →
  ∃ ob' m' l, OrderBook.AddOrder b ob m = (ob', m')
    ∧ engine_inv ob' m'
    ∧ OrderBook.orders ob' = <[Order.ID (Mem.load m b) := b]> (OrderBook.orders ob)
    ∧ (∀ a', a' ≠ b → Mem.load m' a' = Mem.load m a')
    ∧ Mem.load m' b = Order.with_ListElement (Some (Mem.next_elem m)) (Mem.load m b)
    ∧ level_in (side_of ob' (Z.eqb (Order.Side (Mem.load m b)) SideBuy)) l
    ∧ PriceLevel_.Price l = Order.Price (Mem.load m b)
    ∧ last (PriceLevel_.Orders l) = Some (Mem.next_elem m, b).
Proof.
  intros Hinv Hin Hpos Hopen.
  pose proof (incoming_not_resting _ _ _ _ Hinv Hin) as Hnr.
  rewrite AddOrder_eq. cbv zeta.
  set (o := Mem.load m b) in *. set (isBuy := Order.Side o =? SideBuy).
  destruct (book_wf_side _ _ isBuy (inv_wf _ _ _ Hinv)) as (Hok & Hbuy & Hwf).
  destruct (Insert_spec b (side_of ob isBuy) m Hok Hpos) as (s' & Hins & Hok' & Hbuy' & Hl0p & Hin').
  fold o in Hins, Hl0p, Hin'. rewrite Hins. cbn [fst snd].
  set (h := Mem.next_elem m) in *. set (p := Order.Price o) in *.
  set (l0 := pushed (side_of ob isBuy) p h b (Order.RemainingQuantity o)) in *.
  set (m' := Mem.update b (Order.with_ListElement (Some h)) (Mem.new_elem m).2).
  set (ob' := set_side isBuy s' (set_orders (<[Order.ID o := b]> (OrderBook.orders ob)) ob)).
  assert (Hload : ∀ a', a' ≠ b → Mem.load m' a' = Mem.load m a').
  { intros a' Hne. unfold m'. by rewrite load_update_ne. }
  assert (Hloadb : Mem.load m' b = Order.with_ListElement (Some h) o).
  { unfold m'. by rewrite load_update_eq. }
  assert (Hside : ∀ isBuy', side_of ob' isBuy'
                    = if Bool.eqb isBuy isBuy' then s' else side_of ob isBuy').
  { intros isBuy'. unfold ob'. rewrite side_of_set_side, side_of_set_orders. done. }
  assert (Hix : OrderBook.orders ob' = <[Order.ID o := b]> (OrderBook.orders ob)).
  { unfold ob'. by rewrite orders_set_side. }
  (* the orders of the pushed level *)
  assert (Hl0 : ∀ h' a', (h', a') ∈ PriceLevel_.Orders l0 →
            (h' = h ∧ a' = b)
            ∨ ∃ l, level_in (side_of ob isBuy) l ∧ PriceLevel_.Price l = p
                   ∧ (h', a') ∈ PriceLevel_.Orders l).
  { intros h' a'. unfold l0, pushed.
    destruct (ShardedPriceTree.level_at (side_of ob isBuy) p) as [l|] eqn:Hat; simpl.
    - intros [Hi|Hi%list_elem_of_singleton]%elem_of_app; [|left; by simplify_eq].
      right. exists l. split; [by eapply level_at_in|].
      split; [|done]. by apply (level_at_price _ (tr_shape _ Hok)) in Hat as [? _].
    - intros Hi%list_elem_of_singleton. left. by simplify_eq. }
  assert (Hl0in : level_in s' l0) by (apply Hin'; by left).
  assert (Hl0last : last (PriceLevel_.Orders l0) = Some (h, b)).
  { unfold l0, pushed. destruct (ShardedPriceTree.level_at _ _); simpl; [|done].
    by rewrite last_snoc. }
  (* every order resting afterwards is the new one, or rested before *)
  assert (Hback : ∀ isBuy' x h' a', rests ob' isBuy' x h' a' →
            (isBuy' = isBuy ∧ x = l0 ∧ h' = h ∧ a' = b)
            ∨ ∃ x0, rests ob isBuy' x0 h' a' ∧ PriceLevel_.Price x0 = PriceLevel_.Price x).
  { intros isBuy' x h' a' [Hx Hi]. rewrite Hside in Hx.
    destruct (Bool.eqb isBuy isBuy') eqn:Eb.
    - apply Bool.eqb_prop in Eb as <-.
      apply Hin' in Hx as [->|[Hx _]].
      + destruct (Hl0 _ _ Hi) as [[-> ->]|(l & Hl & Hlp & Hli)]; [by left|].
        right. exists l. split; [done|congruence].
      + right. by exists x.
    - right. by exists x. }
  assert (Hfwd : ∀ a', resting ob a' → resting ob' a').
  { intros a' (isBuy' & x & h' & Hx & Hi). exists isBuy'.
    destruct (Bool.eqb isBuy isBuy') eqn:Eb.
    - apply Bool.eqb_prop in Eb as <-.
      destruct (decide (PriceLevel_.Price x = p)) as [Hxp|Hxp].
      + exists l0, h'. split; [by rewrite Hside, Bool.eqb_reflx|].
        assert (Hat : ShardedPriceTree.level_at (side_of ob isBuy) p = Some x).
        { rewrite <- Hxp. by apply (level_in_at _ (tr_shape _ Hok)). }
        unfold l0, pushed. rewrite Hat. simpl. apply elem_of_app. by left.
      + exists x, h'. split; [|done]. rewrite Hside, Bool.eqb_reflx. apply Hin'. right.
        split; [done|]. intros Hat.
        apply (level_at_price _ (tr_shape _ Hok)) in Hat as [? _]; done.
    - exists x, h'. split; [|done]. by rewrite Hside, Eb. }
  exists ob', m', l0. split; [done|].
  split; [|split; [done|split; [done|split; [done|split; [|done]]]]].
  2:{ by rewrite Hside, Bool.eqb_reflx. }
  split.
  - pose proof (AddOrder_wf b ob m (inv_wf _ _ _ Hinv) Hpos) as Hw.
    rewrite AddOrder_eq in Hw. cbv zeta in Hw. fold o isBuy in Hw. by rewrite Hins in Hw.
  - intros isBuy' x h' a' Hr.
    destruct (Hback _ _ _ _ Hr) as [(-> & -> & -> & ->)|(x0 & Hr0 & Hpx)].
    + pose proof (in_filled _ _ _ Hin) as Hf0. pose proof (in_quantity _ _ _ Hin) as Hq0.
      fold o in Hf0, Hq0.
      split; rewrite Hloadb; try done; simpl; try lia.
      rewrite Hix. by rewrite lookup_insert_eq.
    + pose proof (inv_orders _ _ _ Hinv _ _ _ _ Hr0) as [H1 H2 H3 H4 H5 H6 H7].
      assert (Hne : a' ≠ b). { intros ->. apply Hnr. by exists isBuy', x0, h'. }
      split; rewrite Hload by done; try done; [congruence|].
      rewrite Hix, lookup_insert_ne; [done|]. intros Heq.
      pose proof (in_id _ _ _ Hin) as Hnone. fold o in Hnone. rewrite Heq in Hnone. congruence.
  - intros isBuy' x Hx. rewrite Hside in Hx.
    destruct (Bool.eqb isBuy isBuy') eqn:Eb; [|by eapply inv_nodup].
    apply Bool.eqb_prop in Eb as <-.
    apply Hin' in Hx as [->|[Hx _]]; [|by eapply inv_nodup].
    unfold l0, pushed.
    destruct (ShardedPriceTree.level_at (side_of ob isBuy) p) as [l|] eqn:Hat; simpl.
    + pose proof (level_at_in _ _ _ Hat) as Hl.
      rewrite fmap_app. apply NoDup_app. split; [by eapply inv_nodup|].
      split; [|apply NoDup_singleton].
      intros h' Hh' ->%list_elem_of_singleton.
      apply list_elem_of_fmap in Hh' as ([h1 a1] & Heq & Hi). simpl in Heq. subst h1.
      destruct (Hwf _ Hl) as [_ Hfresh]. specialize (Hfresh _ _ Hi). unfold h in Hfresh. lia.
    + apply NoDup_singleton.
  - intros id a Hid. rewrite Hix in Hid.
    apply lookup_insert_Some in Hid as [[<- <-]|[Hne Hid]].
    + split; [|by rewrite Hloadb].
      exists isBuy, l0, h. split; [by rewrite Hside, Bool.eqb_reflx|].
      apply last_Some in Hl0last as (l1 & ->). apply elem_of_app. right. by left.
    + destruct (inv_index _ _ _ Hinv _ _ Hid) as [Hr Hida].
      split; [by apply Hfwd|]. rewrite Hload; [done|]. intros ->. by apply Hnr.
Qed.

(** ** The best level *)

Lemma best_level s :
  tree_ok s → ShardedPriceTreeAdapter.GetBestPrice s ≠ 0 →
  ∃ l, ShardedPriceTreeAdapter.GetBestLevel s = Some l ∧ level_in s l
       ∧ PriceLevel_.Price l = ShardedPriceTreeAdapter.GetBestPrice s
       ∧ PriceLevel_.Orders l ≠ [].
Proof.
  intros [Hs Hf] Hne.
  unfold ShardedPriceTreeAdapter.GetBestPrice, ShardedPriceTreeAdapter.GetBestLevel,
    ShardedPriceTree.GetBestPrice in *.
  destruct (decide (ShardedPriceTree.buckets s = ∅)) as [He|Hnemp].
  { destruct (best_empty _ Hs He) as [_ Hbp]. by rewrite Hbp in Hne. }
  destruct (best_bucket_nonempty _ Hs Hnemp) as (k & b & p & HL & Hbb & Hbp & Hhd).
  apply Left_Some in HL as [Hk _]. destruct (tr_buckets _ Hs _ _ Hk) as [Hbs _].
  assert (Hpc : p ∈ Bucket.chain b).
  { destruct (Bucket.chain b); simplify_eq/=. by left. }
  destruct (bk_chain _ _ _ Hbs _ Hpc) as (lp & Hlp & Hlpp).
  destruct (bk_levels _ _ _ Hbs _ _ Hlp) as (_ & Hq & _).
  assert (Hin : level_in s lp) by (by exists k, b, (Z.land p 127)).
  rewrite Hbp. simpl. exists lp. split; [|split; [done|split; [done|by apply Hf]]].
  rewrite <- Hlpp. by apply (level_in_at _ Hs).
Qed.

Lemma empty_ladder_best s :
  tree_ok s → ShardedPriceTree.buckets s = ∅ → ShardedPriceTreeAdapter.GetBestPrice s = 0.
Proof.
  intros [Hs _] He. unfold ShardedPriceTreeAdapter.GetBestPrice, ShardedPriceTree.GetBestPrice.
  by destruct (best_empty _ Hs He) as [_ ->].
Qed.

(** ** One trade *)

Lemma update_comm a b f g m :
  a ≠ b → Mem.update a f (Mem.update b g m) = Mem.update b g (Mem.update a f m).
Proof.
  intros Hne. unfold Mem.update at 1 3. rewrite (load_update_ne _ b a) by done.
  rewrite (load_update_ne _ a b) by done. unfold Mem.update, Mem.store. simpl.
  f_equal. by apply insert_insert_ne.
Qed.

Lemma executeTrade_spec x y price me m :
  x ≠ y →
  let q := Z.min (Order.RemainingQuantity (Mem.load m x))
                 (Order.RemainingQuantity (Mem.load m y)) in
  ∃ trade g, MatchingEngine.executeTrade x y price me m
             = (trade, MatchingEngine.with_tradeIDGen g me,
                Mem.update y (Order.Fill q) (Mem.update x (Order.Fill q) m))
    ∧ Trade.Quantity trade = q ∧ Trade.Price trade = price
    ∧ Trade.BuyOrderID trade = Order.ID (Mem.load m x)
    ∧ Trade.SellOrderID trade = Order.ID (Mem.load m y).
Proof.
  intros Hne q. unfold MatchingEngine.executeTrade. fold q.
  eexists _, _. split; [reflexivity|]. simpl.
  repeat (rewrite load_update_eq || rewrite load_update_ne by done).
  destruct (Fill_fields q (Mem.load m x)) as (Ex & _).
  destruct (Fill_fields q (Mem.load m y)) as (Ey & _).
  by rewrite Ex, Ey.
Qed.

(** The two orders of a trade after it: [b] is the incoming order and [s]
    the resting one. *)
Lemma fill_pair ob m b isBuy l h s :
  engine_inv ob m → incoming_ok ob m b → rests ob isBuy l h s →
  Order.IsFilled (Mem.load m b) = false →
  let q := Z.min (Order.RemainingQuantity (Mem.load m b))
                 (Order.RemainingQuantity (Mem.load m s)) in
  let m1 := Mem.update s (Order.Fill q) (Mem.update b (Order.Fill q) m) in
  s ≠ b ∧ 0 < q
  ∧ Mem.load m1 b = Order.Fill q (Mem.load m b)
  ∧ Mem.load m1 s = Order.Fill q (Mem.load m s)
  ∧ Order.Filled (Mem.load m1 b) = Order.Filled (Mem.load m b) + q
  ∧ Order.Filled (Mem.load m1 s) = Order.Filled (Mem.load m s) + q
  ∧ (Order.IsFilled (Mem.load m1 b) = true ∨ Order.IsFilled (Mem.load m1 s) = true)
  ∧ engine_inv_ex (Some s) ob m1
  ∧ incoming_ok ob m1 b.
Proof.
  intros Hinv Hin Hs Hopen q m1.
  pose proof (incoming_not_resting _ _ _ _ Hinv Hin) as Hnr.
  assert (Hne : s ≠ b) by (intros ->; apply Hnr; by exists isBuy, l, h).
  pose proof (inv_orders _ _ _ Hinv _ _ _ _ Hs) as [H1 H2 H3 H4 H5 H6 H7].
  specialize (H5 ltac:(done)).
  pose proof (in_filled _ _ _ Hin) as Hb1. pose proof (in_quantity _ _ _ Hin) as Hb2.
  unfold Order.IsFilled in Hopen. apply Z.leb_gt in Hopen.
  assert (Hrb : Order.RemainingQuantity (Mem.load m b)
                = Order.Quantity (Mem.load m b) - Order.Filled (Mem.load m b)).
  { apply remaining_exact; lia. }
  assert (Hrs : Order.RemainingQuantity (Mem.load m s)
                = Order.Quantity (Mem.load m s) - Order.Filled (Mem.load m s)).
  { apply remaining_exact; lia. }
  assert (Hq : 0 < q ∧ q <= Order.Quantity (Mem.load m b) - Order.Filled (Mem.load m b)
               ∧ q <= Order.Quantity (Mem.load m s) - Order.Filled (Mem.load m s)
               ∧ (q = Order.Quantity (Mem.load m b) - Order.Filled (Mem.load m b)
                  ∨ q = Order.Quantity (Mem.load m s) - Order.Filled (Mem.load m s))).
  { unfold q. rewrite Hrb, Hrs. lia. }
  destruct Hq as (Hq0 & Hqb & Hqs & Hqor).
  assert (Hlb : Mem.load m1 b = Order.Fill q (Mem.load m b)).
  { unfold m1. by rewrite load_update_ne, load_update_eq. }
  assert (Hls : Mem.load m1 s = Order.Fill q (Mem.load m s)).
  { unfold m1. by rewrite load_update_eq, load_update_ne. }
  assert (Hfb : Order.Filled (Mem.load m1 b) = Order.Filled (Mem.load m b) + q).
  { rewrite Hlb. apply Fill_filled_exact; lia. }
  assert (Hfs : Order.Filled (Mem.load m1 s) = Order.Filled (Mem.load m s) + q).
  { rewrite Hls. apply Fill_filled_exact; lia. }
  destruct (Fill_fields q (Mem.load m b)) as (Eb1 & Eb2 & Eb3 & Eb4 & Eb5 & Eb6 & Eb7).
  destruct (Fill_fields q (Mem.load m s)) as (Es1 & Es2 & Es3 & Es4 & Es5 & Es6 & Es7).
  split; [done|]. split; [done|]. split; [done|]. split; [done|].
  split; [done|]. split; [done|]. split.
  { unfold Order.IsFilled. rewrite Hfb, Hfs, Hlb, Hls, Eb3, Es3.
    destruct Hqor; [left|right]; apply Z.leb_le; lia. }
  split.
  - unfold m1. apply inv_fill_resting with isBuy l h; [|done|].
    + by apply inv_update_other.
    + rewrite load_update_ne by done. lia.
  - split; rewrite Hlb, ?Eb1, ?Eb2, ?Eb3, ?Eb5; try apply Hin.
    rewrite <- Hlb, Hfb. lia.
Qed.

(** Removing the resting order if the trade filled it. *)
Lemma settle ob m1 b isBuy l h s :
  engine_inv_ex (Some s) ob m1 → incoming_ok ob m1 b → rests ob isBuy l h s →
  ∃ ob2 m2,
    (if Order.IsFilled (Mem.load m1 s)
     then OrderBook.CancelOrder (Order.ID (Mem.load m1 s)) ob m1 else (ob, m1)) = (ob2, m2)
    ∧ engine_inv ob2 m2 ∧ incoming_ok ob2 m2 b
    ∧ Mem.load m2 b = Mem.load m1 b
    ∧ Order.Filled (Mem.load m2 s) = Order.Filled (Mem.load m1 s)
    ∧ (∀ a, resting ob2 a → resting ob a)
    ∧ (Order.IsFilled (Mem.load m1 s) = true → ¬ resting ob2 s)
    ∧ OrderBook.symbol ob2 = OrderBook.symbol ob.
Proof.
  intros Hinv Hin Hs.
  pose proof (incoming_not_resting _ _ _ _ Hinv Hin) as Hnr.
  assert (Hne : b ≠ s) by (intros ->; apply Hnr; by exists isBuy, l, h).
  destruct (Order.IsFilled (Mem.load m1 s)) eqn:Hfull.
  - pose proof (ok_index _ _ _ _ _ _ _ (inv_orders _ _ _ Hinv _ _ _ _ Hs)) as Hix.
    destruct (CancelOrder_spec _ _ _ _ _ Hinv Hix ltac:(by intros ? [= ->]))
      as (ob2 & m2 & Hc & Hinv2 & Hix2 & Hsym & Hld & Hlds & Hgone & Hsub & _).
    exists ob2, m2. split; [done|]. split; [done|].
    split; [|split; [by rewrite Hld|split; [by rewrite Hlds|done]]].
    split; rewrite Hld by done; try apply Hin.
    rewrite Hix2. apply lookup_delete_None. right. apply Hin.
  - exists ob, m1. split; [done|]. split; [|done].
    apply inv_ex_close with s; [done|]. unfold Order.IsFilled in Hfull. by apply Z.leb_gt.
Qed.

(** ** One iteration of the matching loops *)

Lemma with_orderBook_id me : MatchingEngine.with_orderBook (MatchingEngine.orderBook me) me = me.
Proof. by destruct me. Qed.

Lemma settle_engine ob2 m2 me1 m1 s :
  (if Order.IsFilled (Mem.load m1 s)
   then OrderBook.CancelOrder (Order.ID (Mem.load m1 s)) (MatchingEngine.orderBook me1) m1
   else (MatchingEngine.orderBook me1, m1)) = (ob2, m2) →
  (if Order.IsFilled (Mem.load m1 s)
   then MatchingEngine.cancel (Order.ID (Mem.load m1 s)) me1 m1
   else (me1, m1)) = (MatchingEngine.with_orderBook ob2 me1, m2).
Proof.
  unfold MatchingEngine.cancel. destruct (Order.IsFilled _).
  - by intros ->.
  - intros [= <- <-]. by rewrite with_orderBook_id.
Qed.

(** The part of an iteration that the two loops share. *)
Lemma trade_and_settle me m b isBuy l h s :
  engine_inv (MatchingEngine.orderBook me) m →
  incoming_ok (MatchingEngine.orderBook me) m b →
  rests (MatchingEngine.orderBook me) isBuy l h s →
  Order.IsFilled (Mem.load m b) = false →
  let q := Z.min (Order.RemainingQuantity (Mem.load m b))
                 (Order.RemainingQuantity (Mem.load m s)) in
  let m1 := Mem.update s (Order.Fill q) (Mem.update b (Order.Fill q) m) in
  ∀ trade g, Trade.Quantity trade = q → Trade.Price trade = PriceLevel_.Price l →
  ∃ ob2 m2,
    (if Order.IsFilled (Mem.load m1 s)
     then OrderBook.CancelOrder (Order.ID (Mem.load m1 s)) (MatchingEngine.orderBook me) m1
     else (MatchingEngine.orderBook me, m1)) = (ob2, m2)
    ∧ step_ok me m b s trade
        (MatchingEngine.with_orderBook ob2 (MatchingEngine.with_tradeIDGen g me)) m2.
Proof.
  intros Hinv Hin Hs Hopen q m1 trade g Htq Htp.
  destruct (fill_pair _ _ _ _ _ _ _ Hinv Hin Hs Hopen)
    as (Hne & Hq0 & Hlb & Hls & Hfb & Hfs & Hor & Hinv1 & Hin1).
  fold q in Hq0, Hlb, Hls, Hfb, Hfs, Hor, Hinv1, Hin1.
  fold m1 in Hlb, Hls, Hfb, Hfs, Hor, Hinv1, Hin1.
  destruct (settle _ _ _ _ _ _ _ Hinv1 Hin1 Hs)
    as (ob2 & m2 & Hc & Hinv2 & Hin2 & Hb2 & Hs2 & Hsub & Hgone & Hsym).
  exists ob2, m2. split; [done|].
  destruct (Fill_fields q (Mem.load m b)) as (E1 & E2 & E3 & E4 & E5 & E6 & _).
  split; cbn [MatchingEngine.orderBook MatchingEngine.with_orderBook
              MatchingEngine.with_tradeIDGen]; try done.
  - rewrite Htp. symmetry. apply (ok_price _ _ _ _ _ _ _ (inv_orders _ _ _ Hinv _ _ _ _ Hs)).
  - by rewrite Htq.
  - by rewrite Hb2, Hfb, Htq.
  - by rewrite Hs2, Hfs, Htq.
  - destruct Hor as [Hb|Hsf]; [left; by rewrite Hb2|right; by apply Hgone].
  - rewrite Hb2, Hlb. done.
Qed.

Lemma matchBuy_step b me m :
  engine_inv (MatchingEngine.orderBook me) m →
  incoming_ok (MatchingEngine.orderBook me) m b →
  Order.IsFilled (Mem.load m b) = false →
  Z.eqb (OrderBook.GetBestAsk (MatchingEngine.orderBook me)) 0
  || (Z.eqb (Order.Type_ (Mem.load m b)) OrderTypeLimit
      && (Order.Price (Mem.load m b) <? OrderBook.GetBestAsk (MatchingEngine.orderBook me)))
  = false →
  ∃ lvl h s rest trade me2 m2,
    OrderBook.GetBestSellLevel (MatchingEngine.orderBook me) = Some lvl
    ∧ PriceLevel_.Orders lvl = (h, s) :: rest
    ∧ rests (MatchingEngine.orderBook me) false lvl h s
    ∧ (∀ fuel trades,
         MatchingEngine.matchBuyOrder_loop (S fuel) b trades me m
         = MatchingEngine.matchBuyOrder_loop fuel b (trades ++ [trade]) me2 m2)
    ∧ Trade.BuyOrderID trade = Order.ID (Mem.load m b)
    ∧ Trade.SellOrderID trade = Order.ID (Mem.load m s)
    ∧ step_ok me m b s trade me2 m2.
Proof.
  intros Hinv Hin Hopen Hcross.
  apply orb_false_iff in Hcross as [Hz Hlim]. apply Z.eqb_neq in Hz.
  destruct (book_wf_side _ _ false (inv_wf _ _ _ Hinv)) as (Hok & _ & _).
  cbn [side_of] in Hok.
  destruct (best_level _ Hok Hz) as (lvl & Hlvl & Hlin & Hlp & Hne).
  destruct (PriceLevel_.Orders lvl) as [|[h s] rest] eqn:Eo; [done|].
  assert (Hs : rests (MatchingEngine.orderBook me) false lvl h s).
  { split; [done|]. rewrite Eo. by left. }
  pose proof (incoming_not_resting _ _ _ _ Hinv Hin) as Hnr.
  assert (Hbs : b ≠ s) by (intros ->; apply Hnr; by exists false, lvl, h).
  destruct (executeTrade_spec b s (OrderBook.GetBestAsk (MatchingEngine.orderBook me)) me m Hbs)
    as (trade & g & Hex & Htq & Htp & Hbid & Hsid).
  destruct (trade_and_settle me m b false lvl h s Hinv Hin Hs Hopen trade g Htq)
    as (ob2 & m2 & Hc & Hstep); [by rewrite Htp|].
  exists lvl, h, s, rest, trade, (MatchingEngine.with_orderBook ob2 (MatchingEngine.with_tradeIDGen g me)), m2.
  split; [done|]. split; [done|]. split; [done|]. split; [|done].
  intros fuel trades.
  cbn [MatchingEngine.matchBuyOrder_loop]. rewrite Hopen.
  apply Z.eqb_neq in Hz. rewrite Hz, Hlim. cbn [orb].
  unfold OrderBook.GetBestSellLevel, OrderBook.GetBestAsk in *. rewrite Hlvl, Eo, Hex.
  apply (settle_engine ob2 m2 (MatchingEngine.with_tradeIDGen g me)) in Hc.
  by rewrite Hc.
Qed.

Lemma matchSell_step b me m :
  engine_inv (MatchingEngine.orderBook me) m →
  incoming_ok (MatchingEngine.orderBook me) m b →
  Order.IsFilled (Mem.load m b) = false →
  Z.eqb (OrderBook.GetBestBid (MatchingEngine.orderBook me)) 0
  || (Z.eqb (Order.Type_ (Mem.load m b)) OrderTypeLimit
      && (OrderBook.GetBestBid (MatchingEngine.orderBook me) <? Order.Price (Mem.load m b)))
  = false →
  ∃ lvl h s rest trade me2 m2,
    OrderBook.GetBestBuyLevel (MatchingEngine.orderBook me) = Some lvl
    ∧ PriceLevel_.Orders lvl = (h, s) :: rest
    ∧ rests (MatchingEngine.orderBook me) true lvl h s
    ∧ (∀ fuel trades,
         MatchingEngine.matchSellOrder_loop (S fuel) b trades me m
         = MatchingEngine.matchSellOrder_loop fuel b (trades ++ [trade]) me2 m2)
    ∧ Trade.BuyOrderID trade = Order.ID (Mem.load m s)
    ∧ Trade.SellOrderID trade = Order.ID (Mem.load m b)
    ∧ step_ok me m b s trade me2 m2.
Proof.
  intros Hinv Hin Hopen Hcross.
  apply orb_false_iff in Hcross as [Hz Hlim]. apply Z.eqb_neq in Hz.
  destruct (book_wf_side _ _ true (inv_wf _ _ _ Hinv)) as (Hok & _ & _).
  cbn [side_of] in Hok.
  destruct (best_level _ Hok Hz) as (lvl & Hlvl & Hlin & Hlp & Hne).
  destruct (PriceLevel_.Orders lvl) as [|[h s] rest] eqn:Eo; [done|].
  assert (Hs : rests (MatchingEngine.orderBook me) true lvl h s).
  { split; [done|]. rewrite Eo. by left. }
  pose proof (incoming_not_resting _ _ _ _ Hinv Hin) as Hnr.
  assert (Hbs : s ≠ b) by (intros ->; apply Hnr; by exists true, lvl, h).
  destruct (executeTrade_spec s b (OrderBook.GetBestBid (MatchingEngine.orderBook me)) me m Hbs)
    as (trade & g & Hex & Htq & Htp & Hbid & Hsid).
  rewrite Z.min_comm in Htq, Hex. rewrite update_comm in Hex by done.
  destruct (trade_and_settle me m b true lvl h s Hinv Hin Hs Hopen trade g Htq)
    as (ob2 & m2 & Hc & Hstep); [by rewrite Htp|].
  exists lvl, h, s, rest, trade, (MatchingEngine.with_orderBook ob2 (MatchingEngine.with_tradeIDGen g me)), m2.
  split; [done|]. split; [done|]. split; [done|]. split; [|done].
  intros fuel trades.
  cbn [MatchingEngine.matchSellOrder_loop]. rewrite Hopen.
  apply Z.eqb_neq in Hz. rewrite Hz, Hlim. cbn [orb].
  unfold OrderBook.GetBestBuyLevel, OrderBook.GetBestBid in *. rewrite Hlvl, Eo, Hex.
  apply (settle_engine ob2 m2 (MatchingEngine.with_tradeIDGen g me)) in Hc.
  by rewrite Hc.
Qed.

Lemma elem_of_resting_set ob a : a ∈ resting_set ob ↔ resting ob a.
Proof.
  unfold resting_set, resting, rests, resting_orders.
  rewrite elem_of_list_to_set, list_elem_of_fmap. split.
  - intros ([h a'] & -> & Hin). simpl.
    apply elem_of_app in Hin as [Hin|Hin]; apply list_elem_of_bind in Hin as (l & Hl & Hlv);
      apply elem_of_levels_of in Hlv; [exists true|exists false]; by exists l, h.
  - intros (isBuy & l & h & Hl & Hin). exists (h, a). split; [done|].
    apply elem_of_app. destruct isBuy; [left|right];
      apply list_elem_of_bind; exists l; (split; [done|]); by apply elem_of_levels_of.
Qed.

Lemma resting_set_shrinks ob ob' s :
  (∀ a, resting ob' a → resting ob a) → resting ob s → ¬ resting ob' s →
  (size (resting_set ob') < size (resting_set ob))%nat.
Proof.
  intros Hsub Hs Hns. apply subset_size. split.
  - intros a. rewrite !elem_of_resting_set. apply Hsub.
  - intros Hrev. apply Hns. apply elem_of_resting_set, Hrev. by apply elem_of_resting_set.
Qed.

Lemma resting_set_mono ob ob' :
  (∀ a, resting ob' a → resting ob a) →
  (size (resting_set ob') <= size (resting_set ob))%nat.
Proof.
  intros Hsub. apply subseteq_size. intros a. rewrite !elem_of_resting_set. apply Hsub.
Qed.

Lemma resting_set_pos ob s : resting ob s → (0 < size (resting_set ob))%nat.
Proof.
  intros Hs%elem_of_resting_set.
  destruct (decide (size (resting_set ob) = 0%nat)) as [Hz|]; [|lia].
  apply size_empty_iff in Hz. rewrite Hz in Hs. by apply elem_of_empty in Hs.
Qed.

Lemma loop_ok_refl me m b :
  engine_inv (MatchingEngine.orderBook me) m → incoming_ok (MatchingEngine.orderBook me) m b →
  loop_ok me m b me m.
Proof. intros. by split. Qed.

Lemma loop_ok_step me m b s trade me2 m2 me' m' :
  step_ok me m b s trade me2 m2 → loop_ok me2 m2 b me' m' → loop_ok me m b me' m'.
Proof.
  intros Hst [H1 H2 H3 H4]. split; try done.
  - intros a Ha. apply (st_sub _ _ _ _ _ _ _ Hst). by apply H3.
  - destruct H4 as (E1 & E2 & E3 & E4 & E5 & E6).
    destruct (st_same _ _ _ _ _ _ _ Hst) as (F1 & F2 & F3 & F4 & F5 & F6).
    repeat split; congruence.
Qed.

(** ** The matching loops as a whole *)

Section loops.
Variable b : nat.

Lemma matchBuy_loop_ok fuel : ∀ trades me m r,
  engine_inv (MatchingEngine.orderBook me) m →
  incoming_ok (MatchingEngine.orderBook me) m b →
  MatchingEngine.matchBuyOrder_loop fuel b trades me m = Some r →
  loop_ok me m b r.1.2 r.2.
Proof.
  induction fuel as [|fuel IH]; intros trades me m r Hinv Hin Hr; [done|].
  destruct (Order.IsFilled (Mem.load m b)) eqn:Hopen.
  { cbn [MatchingEngine.matchBuyOrder_loop] in Hr. rewrite Hopen in Hr.
    injection Hr as <-. by apply loop_ok_refl. }
  destruct (Z.eqb (OrderBook.GetBestAsk (MatchingEngine.orderBook me)) 0
            || (Z.eqb (Order.Type_ (Mem.load m b)) OrderTypeLimit
                && (Order.Price (Mem.load m b)
                    <? OrderBook.GetBestAsk (MatchingEngine.orderBook me)))) eqn:Hcross.
  { cbn [MatchingEngine.matchBuyOrder_loop] in Hr. rewrite Hopen, Hcross in Hr.
    injection Hr as <-. by apply loop_ok_refl. }
  destruct (matchBuy_step b me m Hinv Hin Hopen Hcross)
    as (lvl & h & s & rest & trade & me2 & m2 & _ & _ & _ & Heq & _ & _ & Hst).
  rewrite Heq in Hr. eapply loop_ok_step; [done|].
  eapply IH; [apply Hst|apply Hst|done].
Qed.

Lemma matchSell_loop_ok fuel : ∀ trades me m r,
  engine_inv (MatchingEngine.orderBook me) m →
  incoming_ok (MatchingEngine.orderBook me) m b →
  MatchingEngine.matchSellOrder_loop fuel b trades me m = Some r →
  loop_ok me m b r.1.2 r.2.
Proof.
  induction fuel as [|fuel IH]; intros trades me m r Hinv Hin Hr; [done|].
  destruct (Order.IsFilled (Mem.load m b)) eqn:Hopen.
  { cbn [MatchingEngine.matchSellOrder_loop] in Hr. rewrite Hopen in Hr.
    injection Hr as <-. by apply loop_ok_refl. }
  destruct (Z.eqb (OrderBook.GetBestBid (MatchingEngine.orderBook me)) 0
            || (Z.eqb (Order.Type_ (Mem.load m b)) OrderTypeLimit
                && (OrderBook.GetBestBid (MatchingEngine.orderBook me)
                    <? Order.Price (Mem.load m b)))) eqn:Hcross.
  { cbn [MatchingEngine.matchSellOrder_loop] in Hr. rewrite Hopen, Hcross in Hr.
    injection Hr as <-. by apply loop_ok_refl. }
  destruct (matchSell_step b me m Hinv Hin Hopen Hcross)
    as (lvl & h & s & rest & trade & me2 & m2 & _ & _ & _ & Heq & _ & _ & Hst).
  rewrite Heq in Hr. eapply loop_ok_step; [done|].
  eapply IH; [apply Hst|apply Hst|done].
Qed.

(** With more fuel than there are resting orders, the loops finish. *)
Lemma matchBuy_loop_total fuel : ∀ trades me m,
  engine_inv (MatchingEngine.orderBook me) m →
  incoming_ok (MatchingEngine.orderBook me) m b →
  (size (resting_set (MatchingEngine.orderBook me)) < fuel)%nat
  ∨ (Order.IsFilled (Mem.load m b) = true ∧ (0 < fuel)%nat) →
  is_Some (MatchingEngine.matchBuyOrder_loop fuel b trades me m).
Proof.
  induction fuel as [|fuel IH]; intros trades me m Hinv Hin Hfuel; [lia|].
  destruct (Order.IsFilled (Mem.load m b)) eqn:Hopen.
  { cbn [MatchingEngine.matchBuyOrder_loop]. rewrite Hopen. eauto. }
  destruct Hfuel as [Hfuel|[? _]]; [|done].
  destruct (Z.eqb (OrderBook.GetBestAsk (MatchingEngine.orderBook me)) 0
            || (Z.eqb (Order.Type_ (Mem.load m b)) OrderTypeLimit
                && (Order.Price (Mem.load m b)
                    <? OrderBook.GetBestAsk (MatchingEngine.orderBook me)))) eqn:Hcross.
  { cbn [MatchingEngine.matchBuyOrder_loop]. rewrite Hopen, Hcross. eauto. }
  destruct (matchBuy_step b me m Hinv Hin Hopen Hcross)
    as (lvl & h & s & rest & trade & me2 & m2 & _ & _ & Hs & Heq & _ & _ & Hst).
  rewrite Heq. apply IH; [apply Hst..|].
  assert (Hrs : resting (MatchingEngine.orderBook me) s) by (by eexists _, _, _).
  pose proof (resting_set_pos _ _ Hrs).
  destruct (st_progress _ _ _ _ _ _ _ Hst) as [Hfull|Hgone].
  - right. split; [done|lia].
  - left. pose proof (resting_set_shrinks _ _ _ (st_sub _ _ _ _ _ _ _ Hst) Hrs Hgone). lia.
Qed.

Lemma matchSell_loop_total fuel : ∀ trades me m,
  engine_inv (MatchingEngine.orderBook me) m →
  incoming_ok (MatchingEngine.orderBook me) m b →
  (size (resting_set (MatchingEngine.orderBook me)) < fuel)%nat
  ∨ (Order.IsFilled (Mem.load m b) = true ∧ (0 < fuel)%nat) →
  is_Some (MatchingEngine.matchSellOrder_loop fuel b trades me m).
Proof.
  induction fuel as [|fuel IH]; intros trades me m Hinv Hin Hfuel; [lia|].
  destruct (Order.IsFilled (Mem.load m b)) eqn:Hopen.
  { cbn [MatchingEngine.matchSellOrder_loop]. rewrite Hopen. eauto. }
  destruct Hfuel as [Hfuel|[? _]]; [|done].
  destruct (Z.eqb (OrderBook.GetBestBid (MatchingEngine.orderBook me)) 0
            || (Z.eqb (Order.Type_ (Mem.load m b)) OrderTypeLimit
                && (OrderBook.GetBestBid (MatchingEngine.orderBook me)
                    <? Order.Price (Mem.load m b)))) eqn:Hcross.
  { cbn [MatchingEngine.matchSellOrder_loop]. rewrite Hopen, Hcross. eauto. }
  destruct (matchSell_step b me m Hinv Hin Hopen Hcross)
    as (lvl & h & s & rest & trade & me2 & m2 & _ & _ & Hs & Heq & _ & _ & Hst).
  rewrite Heq. apply IH; [apply Hst..|].
  assert (Hrs : resting (MatchingEngine.orderBook me) s) by (by eexists _, _, _).
  pose proof (resting_set_pos _ _ Hrs).
  destruct (st_progress _ _ _ _ _ _ _ Hst) as [Hfull|Hgone].
  - right. split; [done|lia].
  - left. pose proof (resting_set_shrinks _ _ _ (st_sub _ _ _ _ _ _ _ Hst) Hrs Hgone). lia.
Qed.
End loops.

(** ** Processing an order *)

Lemma new_book_inv symbol m : engine_inv (OrderBook.NewOrderBook symbol) m.
Proof.
  assert (Hno : ∀ isBuy l, ¬ level_in (side_of (OrderBook.NewOrderBook symbol) isBuy) l).
  { intros isBuy l (id & b & i & H & _). destruct isBuy; simpl in H; by rewrite lookup_empty in H. }
  split.
  - apply new_book_wf.
  - intros isBuy l h a [Hl _]. by apply Hno in Hl.
  - intros isBuy l Hl. by apply Hno in Hl.
  - intros id a H. simpl in H. by rewrite lookup_empty in H.
Qed.

Lemma AddOrder_inv b ob m :
  engine_inv ob m → incoming_ok ob m b →
  0 < Order.Price (Mem.load m b) →
  Order.Filled (Mem.load m b) < Order.Quantity (Mem.load m b) →
  engine_inv (OrderBook.AddOrder b ob m).1 (OrderBook.AddOrder b ob m).2.
Proof.
  intros Hinv Hin Hp Hopen.
  destruct (AddOrder_spec b ob m Hinv Hin Hp Hopen) as (ob' & m' & l & -> & Hinv' & _). done.
Qed.

Lemma CancelOrder_inv id ob m :
  engine_inv ob m →
  engine_inv (OrderBook.CancelOrder id ob m).1 (OrderBook.CancelOrder id ob m).2.
Proof.
  intros Hinv. destruct (OrderBook.orders ob !! id) as [a|] eqn:Hid.
  - destruct (CancelOrder_spec None id a ob m Hinv Hid ltac:(done))
      as (ob' & m' & -> & Hinv' & _). done.
  - by rewrite CancelOrder_unknown.
Qed.

Lemma processOrder_spec fuel b me m trades me' m' :
  engine_inv (MatchingEngine.orderBook me) m →
  incoming_ok (MatchingEngine.orderBook me) m b →
  MatchingEngine.processOrder fuel b me m = Some (trades, me', m') →
  engine_inv (MatchingEngine.orderBook me') m'
  ∧ (Order.Type_ (Mem.load m' b) = OrderTypeLimit →
     Order.IsFilled (Mem.load m' b) = false →
     ∃ l h,
       level_in (side_of (MatchingEngine.orderBook me')
                   (Z.eqb (Order.Side (Mem.load m' b)) SideBuy)) l
       ∧ PriceLevel_.Price l = Order.Price (Mem.load m' b)
       ∧ last (PriceLevel_.Orders l) = Some (h, b)
       ∧ OrderBook.orders (MatchingEngine.orderBook me') !! Order.ID (Mem.load m' b) = Some b)
  ∧ (Order.Type_ (Mem.load m' b) ≠ OrderTypeLimit →
     ¬ resting (MatchingEngine.orderBook me') b
     ∧ OrderBook.orders (MatchingEngine.orderBook me') !! Order.ID (Mem.load m' b) = None)
  ∧ (Order.ID (Mem.load m' b) = Order.ID (Mem.load m b)
     ∧ Order.Price (Mem.load m' b) = Order.Price (Mem.load m b)
     ∧ Order.Side (Mem.load m' b) = Order.Side (Mem.load m b)
     ∧ Order.Type_ (Mem.load m' b) = Order.Type_ (Mem.load m b)).
Proof.
  intros Hinv Hin Hp. unfold MatchingEngine.processOrder in Hp.
  assert (Hloop : ∃ r, (if Order.Side (Mem.load m b) =? SideBuy
                        then MatchingEngine.matchBuyOrder fuel b me m
                        else MatchingEngine.matchSellOrder fuel b me m) = Some r
                       ∧ loop_ok me m b r.1.2 r.2).
  { destruct (if Order.Side (Mem.load m b) =? SideBuy
              then MatchingEngine.matchBuyOrder fuel b me m
              else MatchingEngine.matchSellOrder fuel b me m) as [r|] eqn:E; [|done].
    exists r. split; [done|].
    destruct (Order.Side (Mem.load m b) =? SideBuy);
      [by eapply matchBuy_loop_ok|by eapply matchSell_loop_ok]. }
  destruct Hloop as ([[tr me1] m1] & Hr & Hok). rewrite Hr in Hp. simpl in Hp, Hok.
  destruct Hok as [Hinv1 Hin1 _ (Hsid & Hspr & _ & Hssd & Hsty & _)].
  destruct (negb (Order.IsFilled (Mem.load m1 b))
            && (Order.Type_ (Mem.load m1 b) =? OrderTypeLimit)) eqn:Hadd.
  - apply andb_true_iff in Hadd as [Hopen Hlim].
    apply negb_true_iff in Hopen. apply Z.eqb_eq in Hlim.
    assert (Hlt : Order.Filled (Mem.load m1 b) < Order.Quantity (Mem.load m1 b)).
    { unfold Order.IsFilled in Hopen. by apply Z.leb_gt. }
    destruct (AddOrder_spec b _ m1 Hinv1 Hin1 (in_price _ _ _ Hin1 Hlim) Hlt)
      as (ob' & m2 & l & Hadd & Hinv2 & Hix & _ & Hlb & Hl & Hlp & Hlast).
    rewrite Hadd in Hp. injection Hp as <- <- <-.
    cbn [MatchingEngine.orderBook MatchingEngine.with_orderBook].
    split; [done|]. rewrite Hlb. split; [|split].
    + intros _ _. exists l, (Mem.next_elem m1). split; [done|]. split; [done|].
      split; [done|]. rewrite Hix. apply lookup_insert_eq.
    + intros Hn. by destruct Hn.
    + done.
  - injection Hp as <- <- <-. split; [done|]. split; [|split].
    + intros Hlim Hopen. rewrite Hopen, Hlim in Hadd. done.
    + intros _. split; [by eapply incoming_not_resting|apply Hin1].
    + done.
Qed.

(** With more fuel than there are resting orders, [processOrder] returns. *)
Lemma processOrder_total fuel b me m :
  engine_inv (MatchingEngine.orderBook me) m →
  incoming_ok (MatchingEngine.orderBook me) m b →
  (size (resting_set (MatchingEngine.orderBook me)) < fuel)%nat →
  ∃ trades me' m', MatchingEngine.processOrder fuel b me m = Some (trades, me', m').
Proof.
  intros Hinv Hin Hfuel. unfold MatchingEngine.processOrder.
  assert (Hloop : is_Some (if Order.Side (Mem.load m b) =? SideBuy
                           then MatchingEngine.matchBuyOrder fuel b me m
                           else MatchingEngine.matchSellOrder fuel b me m)).
  { destruct (Order.Side (Mem.load m b) =? SideBuy);
      [apply matchBuy_loop_total|apply matchSell_loop_total]; auto. }
  destruct Hloop as [[[tr me1] m1] ->]. simpl.
  destruct (negb _ && _); [|by eauto].
  destruct (OrderBook.AddOrder b (MatchingEngine.orderBook me1) m1). by eauto.
Qed.

(** A market order meeting an empty opposite side. *)
Lemma market_order_no_counterparty fuel b me m :
  Order.Type_ (Mem.load m b) ≠ OrderTypeLimit →
  ShardedPriceTreeAdapter.GetBestPrice
    (side_of (MatchingEngine.orderBook me) (negb (Z.eqb (Order.Side (Mem.load m b)) SideBuy))) = 0 →
  MatchingEngine.processOrder (S fuel) b me m = Some ([], me, m).
Proof.
  intros Hty Hbest. apply Z.eqb_neq in Hty.
  unfold MatchingEngine.processOrder, MatchingEngine.matchBuyOrder, MatchingEngine.matchSellOrder.
  destruct (Order.Side (Mem.load m b) =? SideBuy); cbn [negb side_of] in Hbest;
    cbn [MatchingEngine.matchBuyOrder_loop MatchingEngine.matchSellOrder_loop];
    unfold OrderBook.GetBestAsk, OrderBook.GetBestBid; rewrite Hbest;
    destruct (Order.IsFilled (Mem.load m b)); simpl; rewrite Hty;
    rewrite ?andb_false_r; done.
Qed.

Lemma valid_reach_inv me m : valid_reach me m → engine_inv (MatchingEngine.orderBook me) m.
Proof.
  induction 1 as [symbol me m Hnew|me m m' _ IH Hne Hld|fuel b me m trades me' m' _ IH Hin Hp
                  |orderID me m _ IH].
  - unfold MatchingEngine.NewMatchingEngine in Hnew.
    destruct (NewRingBufferSemaphoreBatchSafe 65536); [|done].
    destruct (NewTradeRingBufferBatchSafe 65536); [|done].
    simpl in Hnew. injection Hnew as <-. apply new_book_inv.
  - eapply inv_mem_change; [done|done|].
    intros isBuy l h a Hr [H1 H2 H3 H4 H5 H6 H7].
    rewrite <- (Hld a) in * by (by exists isBuy, l, h). done.
  - by destruct (processOrder_spec _ _ _ _ _ _ _ IH Hin Hp) as [? _].
  - unfold MatchingEngine.cancel.
    pose proof (CancelOrder_inv orderID _ m IH) as H.
    by destruct (OrderBook.CancelOrder orderID (MatchingEngine.orderBook me) m).
Qed.

(** ** What matching leaves alone *)

Lemma same_order_refl o : same_order o o.
Proof. by repeat split. Qed.

Lemma same_order_trans o1 o2 o3 : same_order o1 o2 → same_order o2 o3 → same_order o1 o3.
Proof.
  intros (A1 & A2 & A3 & A4 & A5 & A6 & A7 & A8) (B1 & B2 & B3 & B4 & B5 & B6 & B7 & B8).
  repeat split; congruence.
Qed.

Lemma same_order_Fill q o : same_order o (Order.Fill q o).
Proof. unfold Order.Fill. repeat split; simpl; by destruct (Order.IsFilled _). Qed.

Lemma same_order_Cancel o : same_order o (Order.Cancel o).
Proof. by repeat split. Qed.

Lemma same_order_with_ListElement e o : same_order o (Order.with_ListElement e o).
Proof. by repeat split. Qed.

Lemma prices_within_refl ob : prices_within ob ob.
Proof. intros isBuy x Hx. by exists x. Qed.

Lemma prices_within_trans ob1 ob2 ob3 :
  prices_within ob3 ob2 → prices_within ob2 ob1 → prices_within ob3 ob1.
Proof.
  intros H32 H21 isBuy x Hx. destruct (H32 _ _ Hx) as (x2 & Hx2 & E2).
  destruct (H21 _ _ Hx2) as (x1 & Hx1 & E1). exists x1. split; [done|congruence].
Qed.

Lemma level_has_order f ob m isBuy x :
  engine_inv_ex f ob m → level_in (side_of ob isBuy) x →
  ∃ h a, rests ob isBuy x h a.
Proof.
  intros Hinv Hx.
  destruct (book_wf_side _ _ isBuy (inv_wf _ _ _ Hinv)) as ([_ Hf] & _ & _).
  specialize (Hf _ Hx). destruct (PriceLevel_.Orders x) as [|[h a] r] eqn:E; [done|].
  exists h, a. split; [done|]. rewrite E. by left.
Qed.

Lemma CancelOrder_frame f id a ob m :
  engine_inv_ex f ob m → OrderBook.orders ob !! id = Some a →
  (∀ s, f = Some s → s = a) →
  prices_within (OrderBook.CancelOrder id ob m).1 ob
  ∧ (∀ a', a' ≠ a → Mem.load (OrderBook.CancelOrder id ob m).2 a' = Mem.load m a')
  ∧ same_order (Mem.load m a) (Mem.load (OrderBook.CancelOrder id ob m).2 a)
  ∧ (∀ isBuy x h a', rests (OrderBook.CancelOrder id ob m).1 isBuy x h a' →
       ∃ x0, rests ob isBuy x0 h a')
  ∧ side_of (OrderBook.CancelOrder id ob m).1 (negb (Order.Side (Mem.load m a) =? SideBuy))
    = side_of ob (negb (Order.Side (Mem.load m a) =? SideBuy)).
Proof.
  intros Hinv Hid Hf.
  assert (Hside : side_of (OrderBook.CancelOrder id ob m).1
                    (negb (Order.Side (Mem.load m a) =? SideBuy))
                  = side_of ob (negb (Order.Side (Mem.load m a) =? SideBuy))).
  { rewrite (CancelOrder_eq id a) by done. cbv zeta. cbn [fst].
    rewrite side_of_set_orders, side_of_set_side.
    by destruct (Order.Side (Mem.load m a) =? SideBuy). }
  destruct (CancelOrder_spec f id a ob m Hinv Hid Hf)
    as (ob' & m' & Hc & Hinv' & _ & _ & Hld & Hlda & _ & _ & Hlv).
  rewrite Hc in *. cbn [fst snd] in *. split; [|split; [done|split; [|split; [|done]]]].
  - intros isBuy x Hx. destruct (level_has_order _ _ _ _ _ Hinv' Hx) as (h & a' & Hr).
    destruct (Hlv _ _ _ _ Hr) as (x0 & [Hx0 _] & E & _). by exists x0.
  - rewrite Hlda. by repeat split.
  - intros isBuy x h a' Hr. destruct (Hlv _ _ _ _ Hr) as (x0 & Hx0 & _). by exists x0.
Qed.

Lemma settle_frame ob m1 isBuy l h s ob2 m2 :
  engine_inv_ex (Some s) ob m1 → rests ob isBuy l h s →
  (if Order.IsFilled (Mem.load m1 s)
   then OrderBook.CancelOrder (Order.ID (Mem.load m1 s)) ob m1 else (ob, m1)) = (ob2, m2) →
  prices_within ob2 ob
  ∧ (∀ a, a ≠ s → Mem.load m2 a = Mem.load m1 a)
  ∧ same_order (Mem.load m1 s) (Mem.load m2 s)
  ∧ (∀ isBuy' x h' a, rests ob2 isBuy' x h' a → ∃ x0, rests ob isBuy' x0 h' a)
  ∧ side_of ob2 (negb isBuy) = side_of ob (negb isBuy).
Proof.
  intros Hinv Hs Hc. destruct (Order.IsFilled (Mem.load m1 s)).
  - pose proof (inv_orders _ _ _ Hinv _ _ _ _ Hs) as [_ Hsd _ _ _ _ Hix].
    destruct (CancelOrder_frame _ _ _ _ _ Hinv Hix ltac:(by intros ? [= ->]))
      as (H1 & H2 & H3 & H4 & H5).
    rewrite Hc, Hsd in *. done.
  - injection Hc as <- <-. split; [apply prices_within_refl|]. split; [done|].
    split; [apply same_order_refl|]. split; [|done]. intros isBuy' x h' a Hr. by exists x.
Qed.

Lemma trade_and_settle_frame me m b isBuy l h s :
  engine_inv (MatchingEngine.orderBook me) m →
  incoming_ok (MatchingEngine.orderBook me) m b →
  rests (MatchingEngine.orderBook me) isBuy l h s →
  Order.IsFilled (Mem.load m b) = false →
  let q := Z.min (Order.RemainingQuantity (Mem.load m b))
                 (Order.RemainingQuantity (Mem.load m s)) in
  let m1 := Mem.update s (Order.Fill q) (Mem.update b (Order.Fill q) m) in
  ∀ trade ob2 m2,
    Trade.ID trade = (IDGenerator.Next (MatchingEngine.tradeIDGen me)).1 →
    (if Order.IsFilled (Mem.load m1 s)
     then OrderBook.CancelOrder (Order.ID (Mem.load m1 s)) (MatchingEngine.orderBook me) m1
     else (MatchingEngine.orderBook me, m1)) = (ob2, m2) →
    step_frame me m b s trade
      (MatchingEngine.with_orderBook ob2
         (MatchingEngine.with_tradeIDGen (IDGenerator.Next (MatchingEngine.tradeIDGen me)).2 me))
      m2.
Proof.
  intros Hinv Hin Hs Hopen q m1 trade ob2 m2 Hid Hc.
  destruct (fill_pair _ _ _ _ _ _ _ Hinv Hin Hs Hopen)
    as (Hne & Hq0 & Hlb & Hls & Hfb & Hfs & Hor & Hinv1 & Hin1).
  fold q in Hlb, Hls, Hinv1. fold m1 in Hlb, Hls, Hinv1.
  destruct (settle_frame _ _ _ _ _ _ _ _ Hinv1 Hs Hc) as (Hlv & Hld & Hso & Hrs & Hsd).
  destruct (settle _ _ _ _ _ _ _ Hinv1 Hin1 Hs)
    as (ob2' & m2' & Hc' & _ & _ & _ & _ & _ & _ & Hsym).
  fold q in Hc'. fold m1 in Hc'. rewrite Hc in Hc'. injection Hc' as <- <-.
  split; cbn [MatchingEngine.orderBook MatchingEngine.with_orderBook
              MatchingEngine.with_tradeIDGen MatchingEngine.tradeIDGen
              MatchingEngine.symbol MatchingEngine.orderBuffer
              MatchingEngine.cancelChan MatchingEngine.tradeBuffer]; try done.
  - intros a. destruct (decide (a = s)) as [->|Has].
    + eapply same_order_trans; [|exact Hso]. rewrite Hls. apply same_order_Fill.
    + rewrite Hld by done. destruct (decide (a = b)) as [->|Hab].
      * rewrite Hlb. apply same_order_Fill.
      * unfold m1. rewrite !load_update_ne by done. apply same_order_refl.
  - intros a Hab Has. rewrite Hld by done. unfold m1. by rewrite !load_update_ne.
  - intros isBuy' l' h' [Hl' Hh'].
    assert (isBuy' = isBuy) as ->; [|done].
    pose proof (inv_orders _ _ _ Hinv _ _ _ _ Hs) as [_ E1 _ _ _ _ _].
    pose proof (inv_orders _ _ _ Hinv isBuy' l' h' s (conj Hl' Hh')) as [_ E2 _ _ _ _ _].
    congruence.
Qed.

Lemma Symbol_Fill q o : Order.Symbol (Order.Fill q o) = Order.Symbol o.
Proof. by destruct (same_order_Fill q o) as (_ & _ & _ & _ & _ & -> & _). Qed.

Lemma executeTrade_gen x y price me m :
  ∃ trade m1, MatchingEngine.executeTrade x y price me m
    = (trade, MatchingEngine.with_tradeIDGen (IDGenerator.Next (MatchingEngine.tradeIDGen me)).2 me,
       m1)
    ∧ Trade.ID trade = (IDGenerator.Next (MatchingEngine.tradeIDGen me)).1
    ∧ Trade.Symbol trade = Order.Symbol (Mem.load m x).
Proof.
  unfold MatchingEngine.executeTrade.
  destruct (IDGenerator.Next (MatchingEngine.tradeIDGen me)) as [tid g] eqn:E.
  eexists _, _. split; [reflexivity|]. split; [done|]. simpl.
  destruct (decide (x = y)) as [->|Hne].
  - by rewrite !load_update_eq, !Symbol_Fill.
  - by rewrite load_update_ne, load_update_eq, Symbol_Fill.
Qed.

(** ** One iteration, with its frame *)

Lemma executeTrade_both x y price me m :
  x ≠ y →
  let q := Z.min (Order.RemainingQuantity (Mem.load m x))
                 (Order.RemainingQuantity (Mem.load m y)) in
  ∃ trade, MatchingEngine.executeTrade x y price me m
             = (trade,
                MatchingEngine.with_tradeIDGen
                  (IDGenerator.Next (MatchingEngine.tradeIDGen me)).2 me,
                Mem.update y (Order.Fill q) (Mem.update x (Order.Fill q) m))
    ∧ Trade.Quantity trade = q ∧ Trade.Price trade = price
    ∧ Trade.BuyOrderID trade = Order.ID (Mem.load m x)
    ∧ Trade.SellOrderID trade = Order.ID (Mem.load m y)
    ∧ Trade.ID trade = (IDGenerator.Next (MatchingEngine.tradeIDGen me)).1.
Proof.
  intros Hne q.
  destruct (executeTrade_spec x y price me m Hne) as (trade & g & Hex & H1 & H2 & H3 & H4).
  destruct (executeTrade_gen x y price me m) as (trade' & m1' & Hex' & H5 & _).
  rewrite Hex in Hex'. injection Hex' as <- Hg <-.
  exists trade. rewrite Hex. split; [|done]. by rewrite Hg.
Qed.

Lemma matchBuy_step_frame b me m :
  engine_inv (MatchingEngine.orderBook me) m →
  incoming_ok (MatchingEngine.orderBook me) m b →
  Order.IsFilled (Mem.load m b) = false →
  Z.eqb (OrderBook.GetBestAsk (MatchingEngine.orderBook me)) 0
  || (Z.eqb (Order.Type_ (Mem.load m b)) OrderTypeLimit
      && (Order.Price (Mem.load m b) <? OrderBook.GetBestAsk (MatchingEngine.orderBook me)))
  = false →
  ∃ lvl h s rest trade me2 m2,
    OrderBook.GetBestSellLevel (MatchingEngine.orderBook me) = Some lvl
    ∧ PriceLevel_.Orders lvl = (h, s) :: rest
    ∧ rests (MatchingEngine.orderBook me) false lvl h s
    ∧ (∀ fuel trades,
         MatchingEngine.matchBuyOrder_loop (S fuel) b trades me m
         = MatchingEngine.matchBuyOrder_loop fuel b (trades ++ [trade]) me2 m2)
    ∧ Trade.BuyOrderID trade = Order.ID (Mem.load m b)
    ∧ Trade.SellOrderID trade = Order.ID (Mem.load m s)
    ∧ Trade.Price trade = OrderBook.GetBestAsk (MatchingEngine.orderBook me)
    ∧ step_ok me m b s trade me2 m2
    ∧ step_frame me m b s trade me2 m2.
Proof.
  intros Hinv Hin Hopen Hcross.
  apply orb_false_iff in Hcross as [Hz Hlim]. apply Z.eqb_neq in Hz.
  destruct (book_wf_side _ _ false (inv_wf _ _ _ Hinv)) as (Hok & _ & _).
  cbn [side_of] in Hok.
  destruct (best_level _ Hok Hz) as (lvl & Hlvl & Hlin & Hlp & Hne).
  destruct (PriceLevel_.Orders lvl) as [|[h s] rest] eqn:Eo; [done|].
  assert (Hs : rests (MatchingEngine.orderBook me) false lvl h s).
  { split; [done|]. rewrite Eo. by left. }
  pose proof (incoming_not_resting _ _ _ _ Hinv Hin) as Hnr.
  assert (Hbs : b ≠ s) by (intros ->; apply Hnr; by exists false, lvl, h).
  destruct (executeTrade_both b s (OrderBook.GetBestAsk (MatchingEngine.orderBook me)) me m Hbs)
    as (trade & Hex & Htq & Htp & Hbid & Hsid & Htid).
  set (g := (IDGenerator.Next (MatchingEngine.tradeIDGen me)).2) in *.
  destruct (trade_and_settle me m b false lvl h s Hinv Hin Hs Hopen trade g Htq)
    as (ob2 & m2 & Hc & Hstep); [by rewrite Htp|].
  pose proof (trade_and_settle_frame me m b false lvl h s Hinv Hin Hs Hopen trade ob2 m2 Htid Hc)
    as Hframe.
  exists lvl, h, s, rest, trade, (MatchingEngine.with_orderBook ob2 (MatchingEngine.with_tradeIDGen g me)), m2.
  split; [done|]. split; [done|]. split; [done|]. split; [|done].
  intros fuel trades.
  cbn [MatchingEngine.matchBuyOrder_loop]. rewrite Hopen.
  apply Z.eqb_neq in Hz. rewrite Hz, Hlim. cbn [orb].
  unfold OrderBook.GetBestSellLevel, OrderBook.GetBestAsk in *. rewrite Hlvl, Eo, Hex.
  apply (settle_engine ob2 m2 (MatchingEngine.with_tradeIDGen g me)) in Hc.
  by rewrite Hc.
Qed.

Lemma matchSell_step_frame b me m :
  engine_inv (MatchingEngine.orderBook me) m →
  incoming_ok (MatchingEngine.orderBook me) m b →
  Order.IsFilled (Mem.load m b) = false →
  Z.eqb (OrderBook.GetBestBid (MatchingEngine.orderBook me)) 0
  || (Z.eqb (Order.Type_ (Mem.load m b)) OrderTypeLimit
      && (OrderBook.GetBestBid (MatchingEngine.orderBook me) <? Order.Price (Mem.load m b)))
  = false →
  ∃ lvl h s rest trade me2 m2,
    OrderBook.GetBestBuyLevel (MatchingEngine.orderBook me) = Some lvl
    ∧ PriceLevel_.Orders lvl = (h, s) :: rest
    ∧ rests (MatchingEngine.orderBook me) true lvl h s
    ∧ (∀ fuel trades,
         MatchingEngine.matchSellOrder_loop (S fuel) b trades me m
         = MatchingEngine.matchSellOrder_loop fuel b (trades ++ [trade]) me2 m2)
    ∧ Trade.BuyOrderID trade = Order.ID (Mem.load m s)
    ∧ Trade.SellOrderID trade = Order.ID (Mem.load m b)
    ∧ Trade.Price trade = OrderBook.GetBestBid (MatchingEngine.orderBook me)
    ∧ step_ok me m b s trade me2 m2
    ∧ step_frame me m b s trade me2 m2.
Proof.
  intros Hinv Hin Hopen Hcross.
  apply orb_false_iff in Hcross as [Hz Hlim]. apply Z.eqb_neq in Hz.
  destruct (book_wf_side _ _ true (inv_wf _ _ _ Hinv)) as (Hok & _ & _).
  cbn [side_of] in Hok.
  destruct (best_level _ Hok Hz) as (lvl & Hlvl & Hlin & Hlp & Hne).
  destruct (PriceLevel_.Orders lvl) as [|[h s] rest] eqn:Eo; [done|].
  assert (Hs : rests (MatchingEngine.orderBook me) true lvl h s).
  { split; [done|]. rewrite Eo. by left. }
  pose proof (incoming_not_resting _ _ _ _ Hinv Hin) as Hnr.
  assert (Hbs : s ≠ b) by (intros ->; apply Hnr; by exists true, lvl, h).
  destruct (executeTrade_both s b (OrderBook.GetBestBid (MatchingEngine.orderBook me)) me m Hbs)
    as (trade & Hex & Htq & Htp & Hbid & Hsid & Htid).
  set (g := (IDGenerator.Next (MatchingEngine.tradeIDGen me)).2) in *.
  rewrite Z.min_comm in Htq, Hex. rewrite update_comm in Hex by done.
  destruct (trade_and_settle me m b true lvl h s Hinv Hin Hs Hopen trade g Htq)
    as (ob2 & m2 & Hc & Hstep); [by rewrite Htp|].
  pose proof (trade_and_settle_frame me m b true lvl h s Hinv Hin Hs Hopen trade ob2 m2 Htid Hc)
    as Hframe.
  exists lvl, h, s, rest, trade, (MatchingEngine.with_orderBook ob2 (MatchingEngine.with_tradeIDGen g me)), m2.
  split; [done|]. split; [done|]. split; [done|]. split; [|done].
  intros fuel trades.
  cbn [MatchingEngine.matchSellOrder_loop]. rewrite Hopen.
  apply Z.eqb_neq in Hz. rewrite Hz, Hlim. cbn [orb].
  unfold OrderBook.GetBestBuyLevel, OrderBook.GetBestBid in *. rewrite Hlvl, Eo, Hex.
  apply (settle_engine ob2 m2 (MatchingEngine.with_tradeIDGen g me)) in Hc.
  by rewrite Hc.
Qed.

(** ** The loops, with their frame *)

Lemma loop_frame_refl me m b opp : loop_frame me m b opp [] me m.
Proof.
  split; [apply prices_within_refl|intros a; apply same_order_refl|done| |done|simpl; lia
         |constructor|done|done|done|done].
  intros isBuy x h a Hr. by exists x.
Qed.

Lemma loop_frame_step me m b isBuy lvl h s trade me2 m2 new me' m' :
  engine_inv (MatchingEngine.orderBook me) m →
  rests (MatchingEngine.orderBook me) isBuy lvl h s →
  step_ok me m b s trade me2 m2 → step_frame me m b s trade me2 m2 →
  loop_frame me2 m2 b isBuy new me' m' → loop_frame me m b isBuy (trade :: new) me' m'.
Proof.
  intros Hinv Hs Hst Hsf Hlf.
  destruct Hst as [Hq Hp Hpos Hfb Hfs _ _ Hsub _ _].
  destruct Hsf as [S1 S2 S3 Sr Ss S4 S5 (S6 & S7 & S8 & S9) S10].
  destruct Hlf as [L1 L2 L3 Lr Ls L4 L5 L6 L7 (L8 & L9 & L10 & L11) L12].
  split.
  - by eapply prices_within_trans.
  - intros a. by eapply same_order_trans.
  - intros a Hab Hnr. rewrite L3; [|done|].
    + apply S3; [done|]. intros ->. by apply (Hnr lvl h).
    + intros l' h' Hr. destruct (Sr _ _ _ _ Hr) as (x0 & Hx0). by apply (Hnr x0 h').
  - intros isBuy' x h' a Hr. destruct (Lr _ _ _ _ Hr) as (x2 & Hx2). by apply Sr in Hx2.
  - rewrite Ls. by eapply Ss.
  - rewrite L4, Hfb, fmap_cons. cbn [foldr]. lia.
  - constructor; [|done]. split; [done|]. rewrite Hp.
    rewrite (ok_price _ _ _ _ _ _ _ (inv_orders _ _ _ Hinv _ _ _ _ Hs)).
    destruct (book_wf_side _ _ isBuy (inv_wf _ _ _ Hinv)) as ([Hsh _] & _ & _).
    eapply level_in_pos; [done|apply Hs].
  - rewrite fmap_cons. cbn [length next_ids]. by rewrite S4, L6, S5.
  - cbn [length advance]. by rewrite L7, S5.
  - repeat split; congruence.
  - congruence.
Qed.

Section loops_frame.
Variable b : nat.

Lemma matchBuy_loop_frame fuel : ∀ trades me m r,
  engine_inv (MatchingEngine.orderBook me) m →
  incoming_ok (MatchingEngine.orderBook me) m b →
  MatchingEngine.matchBuyOrder_loop fuel b trades me m = Some r →
  ∃ new, r.1.1 = trades ++ new
    ∧ loop_frame me m b false new r.1.2 r.2
    ∧ Forall (λ t, Trade.BuyOrderID t = Order.ID (Mem.load m b)
                   ∧ (Order.Type_ (Mem.load m b) = OrderTypeLimit →
                      Trade.Price t <= Order.Price (Mem.load m b))) new
    ∧ (Order.IsFilled (Mem.load r.2 b) = true
       ∨ OrderBook.GetBestAsk (MatchingEngine.orderBook r.1.2) = 0
       ∨ (Order.Type_ (Mem.load m b) = OrderTypeLimit
          ∧ Order.Price (Mem.load m b) < OrderBook.GetBestAsk (MatchingEngine.orderBook r.1.2)))
    ∧ (Order.Filled (Mem.load m b) <= Order.Quantity (Mem.load m b) →
       Order.Filled (Mem.load r.2 b) <= Order.Quantity (Mem.load m b)).
Proof.
  induction fuel as [|fuel IH]; intros trades me m r Hinv Hin Hr; [done|].
  destruct (Order.IsFilled (Mem.load m b)) eqn:Hopen.
  { cbn [MatchingEngine.matchBuyOrder_loop] in Hr. rewrite Hopen in Hr.
    injection Hr as <-. exists []. cbn [fst snd]. rewrite app_nil_r.
    split; [done|]. split; [apply loop_frame_refl|]. split; [constructor|]. split; [by left|done]. }
  destruct (Z.eqb (OrderBook.GetBestAsk (MatchingEngine.orderBook me)) 0
            || (Z.eqb (Order.Type_ (Mem.load m b)) OrderTypeLimit
                && (Order.Price (Mem.load m b)
                    <? OrderBook.GetBestAsk (MatchingEngine.orderBook me)))) eqn:Hcross.
  { cbn [MatchingEngine.matchBuyOrder_loop] in Hr. rewrite Hopen, Hcross in Hr.
    injection Hr as <-. exists []. cbn [fst snd]. rewrite app_nil_r.
    split; [done|]. split; [apply loop_frame_refl|]. split; [constructor|]. split; [right|done].
    apply orb_true_iff in Hcross as [Hz|Hl]; [left; by apply Z.eqb_eq|right].
    apply andb_true_iff in Hl as [Ht Hl]. split; [by apply Z.eqb_eq|by apply Z.ltb_lt]. }
  destruct (matchBuy_step_frame b me m Hinv Hin Hopen Hcross)
    as (lvl & h & s & rest & trade & me2 & m2 & _ & _ & Hs & Heq & Hbid & _ & Hpr & Hst & Hsf).
  rewrite Heq in Hr.
  destruct (IH _ _ _ _ (st_inv _ _ _ _ _ _ _ Hst) (st_in _ _ _ _ _ _ _ Hst) Hr)
    as (new & Hnew & Hlf & Hall & Hexit & Hbound).
  destruct (st_same _ _ _ _ _ _ _ Hst) as (Eid & Epr & Eqt & _ & Ety & _).
  rewrite Eid, Epr, Ety, Eqt in *.
  exists (trade :: new). split; [by rewrite Hnew, <- app_assoc|].
  split; [by eapply loop_frame_step|]. split; [|split; [done|]].
  2:{ intros Hle. apply Hbound.
      rewrite (st_incoming _ _ _ _ _ _ _ Hst), (st_quantity _ _ _ _ _ _ _ Hst).
      pose proof (in_filled _ _ _ Hin). pose proof (in_quantity _ _ _ Hin).
      rewrite (remaining_exact (Mem.load m b)) by lia. lia. }
  constructor; [|done]. split; [done|]. intros Hty.
  apply orb_false_iff in Hcross as [_ Hl]. apply Z.eqb_eq in Hty. rewrite Hty in Hl.
  cbn [andb] in Hl. apply Z.ltb_ge in Hl. by rewrite Hpr.
Qed.

Lemma matchSell_loop_frame fuel : ∀ trades me m r,
  engine_inv (MatchingEngine.orderBook me) m →
  incoming_ok (MatchingEngine.orderBook me) m b →
  MatchingEngine.matchSellOrder_loop fuel b trades me m = Some r →
  ∃ new, r.1.1 = trades ++ new
    ∧ loop_frame me m b true new r.1.2 r.2
    ∧ Forall (λ t, Trade.SellOrderID t = Order.ID (Mem.load m b)
                   ∧ (Order.Type_ (Mem.load m b) = OrderTypeLimit →
                      Order.Price (Mem.load m b) <= Trade.Price t)) new
    ∧ (Order.IsFilled (Mem.load r.2 b) = true
       ∨ OrderBook.GetBestBid (MatchingEngine.orderBook r.1.2) = 0
       ∨ (Order.Type_ (Mem.load m b) = OrderTypeLimit
          ∧ OrderBook.GetBestBid (MatchingEngine.orderBook r.1.2) < Order.Price (Mem.load m b)))
    ∧ (Order.Filled (Mem.load m b) <= Order.Quantity (Mem.load m b) →
       Order.Filled (Mem.load r.2 b) <= Order.Quantity (Mem.load m b)).
Proof.
  induction fuel as [|fuel IH]; intros trades me m r Hinv Hin Hr; [done|].
  destruct (Order.IsFilled (Mem.load m b)) eqn:Hopen.
  { cbn [MatchingEngine.matchSellOrder_loop] in Hr. rewrite Hopen in Hr.
    injection Hr as <-. exists []. cbn [fst snd]. rewrite app_nil_r.
    split; [done|]. split; [apply loop_frame_refl|]. split; [constructor|]. split; [by left|done]. }
  destruct (Z.eqb (OrderBook.GetBestBid (MatchingEngine.orderBook me)) 0
            || (Z.eqb (Order.Type_ (Mem.load m b)) OrderTypeLimit
                && (OrderBook.GetBestBid (MatchingEngine.orderBook me)
                    <? Order.Price (Mem.load m b)))) eqn:Hcross.
  { cbn [MatchingEngine.matchSellOrder_loop] in Hr. rewrite Hopen, Hcross in Hr.
    injection Hr as <-. exists []. cbn [fst snd]. rewrite app_nil_r.
    split; [done|]. split; [apply loop_frame_refl|]. split; [constructor|]. split; [right|done].
    apply orb_true_iff in Hcross as [Hz|Hl]; [left; by apply Z.eqb_eq|right].
    apply andb_true_iff in Hl as [Ht Hl]. split; [by apply Z.eqb_eq|by apply Z.ltb_lt]. }
  destruct (matchSell_step_frame b me m Hinv Hin Hopen Hcross)
    as (lvl & h & s & rest & trade & me2 & m2 & _ & _ & Hs & Heq & _ & Hsid & Hpr & Hst & Hsf).
  rewrite Heq in Hr.
  destruct (IH _ _ _ _ (st_inv _ _ _ _ _ _ _ Hst) (st_in _ _ _ _ _ _ _ Hst) Hr)
    as (new & Hnew & Hlf & Hall & Hexit & Hbound).
  destruct (st_same _ _ _ _ _ _ _ Hst) as (Eid & Epr & Eqt & _ & Ety & _).
  rewrite Eid, Epr, Ety, Eqt in *.
  exists (trade :: new). split; [by rewrite Hnew, <- app_assoc|].
  split; [by eapply loop_frame_step|]. split; [|split; [done|]].
  2:{ intros Hle. apply Hbound.
      rewrite (st_incoming _ _ _ _ _ _ _ Hst), (st_quantity _ _ _ _ _ _ _ Hst).
      pose proof (in_filled _ _ _ Hin). pose proof (in_quantity _ _ _ Hin).
      rewrite (remaining_exact (Mem.load m b)) by lia. lia. }
  constructor; [|done]. split; [done|]. intros Hty.
  apply orb_false_iff in Hcross as [_ Hl]. apply Z.eqb_eq in Hty. rewrite Hty in Hl.
  cbn [andb] in Hl. apply Z.ltb_ge in Hl. by rewrite Hpr.
Qed.

End loops_frame.

(** ** Processing an order, with its frame *)

Lemma best_bounds s x :
  tree_ok s → level_in s x →
  ShardedPriceTreeAdapter.GetBestPrice s ≠ 0
  ∧ if ShardedPriceTree.isBuy s
    then PriceLevel_.Price x <= ShardedPriceTreeAdapter.GetBestPrice s
    else ShardedPriceTreeAdapter.GetBestPrice s <= PriceLevel_.Price x.
Proof.
  intros Hok Hx. destruct (best_price_of_tree_ok s Hok) as [_ Hb].
  pose proof (tr_fifo _ Hok _ Hx) as Hne.
  assert (Hro : resting_orders s ≠ []).
  { unfold resting_orders. destruct (PriceLevel_.Orders x) as [|k r] eqn:E; [done|].
    intros Hnil. assert (Hk : k ∈ levels_of s ≫= PriceLevel_.Orders).
    { apply list_elem_of_bind. exists x. split; [rewrite E; by left|by apply elem_of_levels_of]. }
    rewrite Hnil in Hk. by apply elem_of_nil in Hk. }
  destruct (Hb Hro) as [(l & Hl & _ & Hlp) Hall]. split.
  - rewrite <- Hlp. apply elem_of_levels_of in Hl.
    pose proof (level_in_pos _ _ (tr_shape _ Hok) Hl). lia.
  - apply Hall; [by apply elem_of_levels_of|done].
Qed.

Lemma AddOrder_prices b ob m :
  engine_inv ob m → 0 < Order.Price (Mem.load m b) →
  ∀ isBuy x, level_in (side_of (OrderBook.AddOrder b ob m).1 isBuy) x →
    (isBuy = Z.eqb (Order.Side (Mem.load m b)) SideBuy
     ∧ PriceLevel_.Price x = Order.Price (Mem.load m b))
    ∨ level_in (side_of ob isBuy) x.
Proof.
  intros Hinv Hpos isBuy x. rewrite AddOrder_eq. cbv zeta. cbn [fst].
  set (sd := Order.Side (Mem.load m b) =? SideBuy).
  destruct (book_wf_side _ _ sd (inv_wf _ _ _ Hinv)) as (Hok & _ & _).
  destruct (Insert_spec b (side_of ob sd) m Hok Hpos) as (s' & Hins & _ & _ & Hlp & Hlv).
  rewrite Hins. cbn [fst]. rewrite side_of_set_side, side_of_set_orders.
  destruct (Bool.eqb sd isBuy) eqn:E.
  - apply eqb_prop in E. subst isBuy. intros Hx. apply Hlv in Hx as [->|[Hx _]].
    + left. split; [done|]. exact Hlp.
    + by right.
  - by right.
Qed.

Lemma prices_uncrossed ob ob' : prices_within ob' ob → uncrossed ob → uncrossed ob'.
Proof.
  intros Hw Hu lb la Hlb Hla.
  destruct (Hw true lb Hlb) as (lb0 & Hlb0 & <-).
  destruct (Hw false la Hla) as (la0 & Hla0 & <-). by apply Hu.
Qed.

(** The loop of the side of [b], whichever it is. *)
Lemma match_loop_frame fuel b me m r :
  engine_inv (MatchingEngine.orderBook me) m →
  incoming_ok (MatchingEngine.orderBook me) m b →
  (if Order.Side (Mem.load m b) =? SideBuy
   then MatchingEngine.matchBuyOrder fuel b me m
   else MatchingEngine.matchSellOrder fuel b me m) = Some r →
  let isBuy := Order.Side (Mem.load m b) =? SideBuy in
  let opp := ShardedPriceTreeAdapter.GetBestPrice
               (side_of (MatchingEngine.orderBook r.1.2) (negb isBuy)) in
  loop_ok me m b r.1.2 r.2
  ∧ loop_frame me m b (negb isBuy) r.1.1 r.1.2 r.2
  ∧ Forall (trade_of isBuy (Mem.load m b)) r.1.1
  ∧ (Order.IsFilled (Mem.load r.2 b) = true ∨ opp = 0
     ∨ (Order.Type_ (Mem.load m b) = OrderTypeLimit
        ∧ if isBuy then Order.Price (Mem.load m b) < opp
          else opp < Order.Price (Mem.load m b)))
  ∧ (Order.Filled (Mem.load m b) <= Order.Quantity (Mem.load m b) →
     Order.Filled (Mem.load r.2 b) <= Order.Quantity (Mem.load m b)).
Proof.
  intros Hinv Hin Hr isBuy opp. unfold opp, isBuy. clear opp isBuy.
  unfold MatchingEngine.matchBuyOrder, MatchingEngine.matchSellOrder in Hr.
  destruct (Order.Side (Mem.load m b) =? SideBuy); cbn [negb side_of].
  - split; [by eapply matchBuy_loop_ok|].
    destruct (matchBuy_loop_frame b fuel [] me m r Hinv Hin Hr) as (new & Hnew & Hlf & Hall & Hex & Hbd).
    simpl in Hnew. subst new. split; [done|]. split; [|done].
    apply Forall_forall. intros t Ht.
    pose proof (proj1 (Forall_forall _ _) Hall t Ht) as [H1 H2].
    pose proof (proj1 (Forall_forall _ _) (lf_positive _ _ _ _ _ _ _ Hlf) t Ht) as [H3 H4].
    by repeat split.
  - split; [by eapply matchSell_loop_ok|].
    destruct (matchSell_loop_frame b fuel [] me m r Hinv Hin Hr) as (new & Hnew & Hlf & Hall & Hex & Hbd).
    simpl in Hnew. subst new. split; [done|]. split; [|done].
    apply Forall_forall. intros t Ht.
    pose proof (proj1 (Forall_forall _ _) Hall t Ht) as [H1 H2].
    pose proof (proj1 (Forall_forall _ _) (lf_positive _ _ _ _ _ _ _ Hlf) t Ht) as [H3 H4].
    by repeat split.
Qed.

Lemma AddOrder_resting b ob m :
  engine_inv ob m → 0 < Order.Price (Mem.load m b) →
  ∀ a, resting (OrderBook.AddOrder b ob m).1 a → resting ob a ∨ a = b.
Proof.
  intros Hinv Hpos a (isBuy & x & h & Hx & Hh). revert Hx.
  rewrite AddOrder_eq. cbv zeta. cbn [fst].
  set (sd := Order.Side (Mem.load m b) =? SideBuy).
  destruct (book_wf_side _ _ sd (inv_wf _ _ _ Hinv)) as (Hok & _ & _).
  destruct (Insert_spec b (side_of ob sd) m Hok Hpos) as (s' & Hins & _ & _ & Hlp & Hlv).
  rewrite Hins. cbn [fst]. rewrite side_of_set_side, side_of_set_orders.
  destruct (Bool.eqb sd isBuy) eqn:E.
  - apply eqb_prop in E. subst isBuy. intros Hx. apply Hlv in Hx as [->|[Hx _]].
    + unfold pushed in Hh.
      destruct (ShardedPriceTree.level_at (side_of ob sd) (Order.Price (Mem.load m b)))
        as [l|] eqn:El; cbn [PriceLevel_.Orders] in Hh.
      * apply elem_of_app in Hh as [Hh|Hh].
        -- left. exists sd, l, h. split; [by eapply level_at_in|done].
        -- apply list_elem_of_singleton in Hh. injection Hh as _ ->. by right.
      * apply list_elem_of_singleton in Hh. injection Hh as _ ->. by right.
    + left. by exists sd, x, h.
  - intros Hx. left. by exists isBuy, x, h.
Qed.

Lemma AddOrder_other_side b ob m :
  side_of (OrderBook.AddOrder b ob m).1 (negb (Order.Side (Mem.load m b) =? SideBuy))
  = side_of ob (negb (Order.Side (Mem.load m b) =? SideBuy)).
Proof.
  rewrite AddOrder_eq. cbv zeta. cbn [fst]. rewrite side_of_set_side, side_of_set_orders.
  by destruct (Order.Side (Mem.load m b) =? SideBuy).
Qed.

Lemma AddOrder_keeps b ob m :
  engine_inv ob m → 0 < Order.Price (Mem.load m b) →
  let isBuy := Order.Side (Mem.load m b) =? SideBuy in
  ∀ l, level_in (side_of ob isBuy) l →
    ∃ l', level_in (side_of (OrderBook.AddOrder b ob m).1 isBuy) l'
          ∧ PriceLevel_.Price l' = PriceLevel_.Price l
          ∧ (PriceLevel_.Orders l' = PriceLevel_.Orders l
             ∨ (PriceLevel_.Price l = Order.Price (Mem.load m b)
                ∧ PriceLevel_.Orders l' = PriceLevel_.Orders l ++ [(Mem.next_elem m, b)])).
Proof.
  intros Hinv Hpos sd l Hl. rewrite AddOrder_eq. cbv zeta. cbn [fst]. fold sd.
  destruct (book_wf_side _ _ sd (inv_wf _ _ _ Hinv)) as (Hok & _ & _).
  destruct (Insert_spec b (side_of ob sd) m Hok Hpos) as (s' & Hins & _ & _ & Hlp & Hlv).
  rewrite Hins. cbn [fst]. rewrite side_of_set_side, side_of_set_orders.
  rewrite eqb_reflx.
  destruct (decide (PriceLevel_.Price l = Order.Price (Mem.load m b))) as [E|E].
  - assert (El : ShardedPriceTree.level_at (side_of ob sd) (Order.Price (Mem.load m b)) = Some l).
    { rewrite <- E. by apply (level_in_at _ (tr_shape _ Hok)). }
    eexists. split; [apply Hlv; by left|].
    unfold pushed. rewrite El. cbn [PriceLevel_.Price PriceLevel_.Orders].
    split; [done|]. right. done.
  - exists l. split; [|split; [done|by left]]. apply Hlv. right. split; [done|].
    intros El. by destruct (level_at_price _ (tr_shape _ Hok) _ _ Hpos El).
Qed.

Lemma uncrossed_sides ob :
  uncrossed ob ↔
  ∀ isBuy x y, level_in (side_of ob isBuy) x → level_in (side_of ob (negb isBuy)) y →
    if isBuy then PriceLevel_.Price x < PriceLevel_.Price y
    else PriceLevel_.Price y < PriceLevel_.Price x.
Proof.
  split.
  - intros Hu [] x y Hx Hy; cbn [negb side_of] in *; by apply Hu.
  - intros H lb la Hlb Hla. by apply (H true lb la).
Qed.

Lemma processOrder_frame fuel b me m trades me' m' :
  engine_inv (MatchingEngine.orderBook me) m →
  incoming_ok (MatchingEngine.orderBook me) m b →
  MatchingEngine.processOrder fuel b me m = Some (trades, me', m') →
  process_ok b me m trades me' m'.
Proof.
  intros Hinv Hin Hp.
  pose proof (processOrder_spec _ _ _ _ _ _ _ Hinv Hin Hp) as (Hinv' & _).
  unfold MatchingEngine.processOrder in Hp.
  destruct (if Order.Side (Mem.load m b) =? SideBuy
            then MatchingEngine.matchBuyOrder fuel b me m
            else MatchingEngine.matchSellOrder fuel b me m) as [[[tr me1] m1]|] eqn:Hr; [|done].
  destruct (match_loop_frame fuel b me m _ Hinv Hin Hr) as (Hok & Hlf & Hall & Hex & Hbound).
  cbn [fst snd] in Hok, Hlf, Hall, Hex, Hbound. simpl in Hp.
  destruct Hok as [Hinv1 Hin1 Hsub (Eid & Epr & Eq & Esd & Ety & _)].
  destruct Hlf as [L1 L2 L3 Lr Ls L4 L5 L6 L7 L8 L9].
  rewrite negb_involutive in Ls.
  set (sd := Order.Side (Mem.load m b) =? SideBuy) in *.
  destruct (negb (Order.IsFilled (Mem.load m1 b))
            && (Order.Type_ (Mem.load m1 b) =? OrderTypeLimit)) eqn:Hadd.
  - apply andb_true_iff in Hadd as [Hopen Hlim].
    apply negb_true_iff in Hopen. apply Z.eqb_eq in Hlim.
    assert (Hlt : Order.Filled (Mem.load m1 b) < Order.Quantity (Mem.load m1 b)).
    { unfold Order.IsFilled in Hopen. by apply Z.leb_gt. }
    pose proof (in_price _ _ _ Hin1 Hlim) as Hpos.
    destruct (AddOrder_spec b _ m1 Hinv1 Hin1 Hpos Hlt)
      as (ob' & m2 & l & Hadd & Hinv2 & Hix & Hld & Hlb & _).
    pose proof (AddOrder_resting b _ m1 Hinv1 Hpos) as Hres.
    pose proof (AddOrder_prices b _ m1 Hinv1 Hpos) as Hprices.
    pose proof (AddOrder_other_side b (MatchingEngine.orderBook me1) m1) as Hother.
    pose proof (AddOrder_keeps b _ m1 Hinv1 Hpos) as Hkeeps. cbv zeta in Hkeeps.
    rewrite Hadd in Hp, Hres, Hprices, Hother, Hkeeps.
    cbn [fst] in Hres, Hprices, Hother, Hkeeps.
    injection Hp as <- <- <-.
    cbn [MatchingEngine.orderBook MatchingEngine.with_orderBook MatchingEngine.tradeIDGen
         MatchingEngine.symbol MatchingEngine.orderBuffer MatchingEngine.cancelChan
         MatchingEngine.tradeBuffer] in *.
    rewrite Esd in Hother, Hprices, Hkeeps. fold sd in Hother, Hprices, Hkeeps.
    assert (Hfull : Order.IsFilled (Mem.load m2 b) = false) by (by rewrite Hlb).
    split.
    + done.
    + intros a. eapply same_order_trans; [apply L2|].
      destruct (decide (a = b)) as [->|Hne].
      * rewrite Hlb. apply same_order_with_ListElement.
      * rewrite Hld by done. apply same_order_refl.
    + fold sd. intros a Hab Hnr. rewrite Hld by done. by apply L3.
    + cbv zeta. fold sd. cbn [MatchingEngine.orderBook MatchingEngine.with_orderBook].
      intros l0 Hl0. rewrite <- Ls in Hl0.
      destruct (Hkeeps l0 Hl0) as (l' & H1 & H2 & H3). exists l'.
      split; [done|]. split; [done|]. destruct H3 as [H3|[H3 H4]]; [by left|right].
      exists (Mem.next_elem m1). by rewrite <- Epr.
    + by rewrite Hlb.
    + done.
    + done.
    + done.
    + done.
    + cbv zeta. fold sd. cbn [MatchingEngine.orderBook MatchingEngine.with_orderBook].
      rewrite Hother. rewrite Hfull. destruct Hex as [Hex|Hex]; [congruence|].
      by right.
    + by rewrite Hlb.
    + cbn [MatchingEngine.orderBook MatchingEngine.with_orderBook].
      intros a Ha. destruct (Hres a Ha) as [Hr1| ->]; [left; by apply Hsub|right].
      split; [done|]. split; [congruence|done].
    + cbn [MatchingEngine.orderBook MatchingEngine.with_orderBook].
      intros Hu. apply (prices_uncrossed _ _ L1) in Hu. apply uncrossed_sides.
      assert (Hnew : ∀ y, level_in (side_of (MatchingEngine.orderBook me1) (negb sd)) y →
                if sd then Order.Price (Mem.load m1 b) < PriceLevel_.Price y
                else PriceLevel_.Price y < Order.Price (Mem.load m1 b)).
      { intros y Hy.
        destruct (book_wf_side _ _ (negb sd) (inv_wf _ _ _ Hinv1)) as (Hoks & Hb & _).
        destruct (best_bounds _ _ Hoks Hy) as [Hnz Hbd]. rewrite Hb in Hbd.
        destruct Hex as [Hex|[Hex|[_ Hex]]]; [congruence|done|].
        rewrite Epr. destruct sd; cbn [negb] in *; lia. }
      intros isBuy x y Hx Hy.
      destruct (Bool.eqb isBuy sd) eqn:E.
      * apply eqb_prop in E. subst isBuy. rewrite Hother in Hy.
        apply Hprices in Hx as [[_ Hx]|Hx].
        -- rewrite Hx. by apply Hnew.
        -- by apply (proj1 (uncrossed_sides _) Hu sd).
      * assert (isBuy = negb sd) as -> by (by destruct isBuy, sd).
        rewrite Hother in Hx. rewrite negb_involutive in Hy.
        apply Hprices in Hy as [[_ Hy]|Hy].
        -- rewrite Hy. specialize (Hnew x Hx). by destruct sd.
        -- apply (proj1 (uncrossed_sides _) Hu (negb sd)); [done|by rewrite negb_involutive].
  - injection Hp as <- <- <-.
    split; [done|done|done| |done..| |by apply prices_uncrossed].
    + cbv zeta. fold sd. rewrite Ls. intros l0 Hl0. exists l0. split; [done|].
      split; [done|by left].
    + intros a Ha. left. by apply Hsub.
Qed.

(** ** Trade ids *)

Lemma Next_closed g :
  0 <= IDGenerator.counter g → IDGenerator.counter g + 1 < 2 ^ 64 →
  IDGenerator.Next g
  = (IDGenerator.prefix g +:+ pretty (Z.to_N (IDGenerator.counter g + 1)),
     IDGenerator.mk (IDGenerator.prefix g) (IDGenerator.counter g + 1)).
Proof.
  intros H0 H1. unfold IDGenerator.Next, wrap64u. by rewrite Z.mod_small by lia.
Qed.

Lemma next_ids_closed n : ∀ g,
  0 <= IDGenerator.counter g → IDGenerator.counter g + Z.of_nat n < 2 ^ 64 →
  next_ids n g
  = (λ i : nat, IDGenerator.prefix g +:+ pretty (Z.to_N (IDGenerator.counter g + Z.of_nat i)))
      <$> seq 1 n.
Proof.
  induction n as [|n IH]; intros g H0 H1; [done|].
  cbn [next_ids seq fmap list_fmap]. rewrite Next_closed by lia. cbn [fst snd]. f_equal.
  rewrite IH by (simpl; lia). simpl.
  rewrite <- (fmap_S_seq 1), <- list_fmap_compose. apply list_fmap_ext.
  intros i x _. simpl. do 3 f_equal. lia.
Qed.

Lemma advance_closed n : ∀ g,
  0 <= IDGenerator.counter g → IDGenerator.counter g + Z.of_nat n < 2 ^ 64 →
  advance n g = IDGenerator.mk (IDGenerator.prefix g) (IDGenerator.counter g + Z.of_nat n).
Proof.
  induction n as [|n IH]; intros g H0 H1.
  - simpl. destruct g. simpl. f_equal. lia.
  - cbn [advance]. rewrite Next_closed by lia. cbn [snd]. rewrite IH by (simpl; lia).
    simpl. f_equal. lia.
Qed.

Lemma next_ids_NoDup n g :
  0 <= IDGenerator.counter g → IDGenerator.counter g + Z.of_nat n < 2 ^ 64 →
  NoDup (next_ids n g).
Proof.
  intros H0 H1. rewrite next_ids_closed by done.
  apply NoDup_fmap_2_strong; [|apply NoDup_seq].
  intros i j Hi Hj Heq. apply elem_of_seq in Hi, Hj.
  apply (inj (String.app _)) in Heq. apply (inj pretty) in Heq. lia.
Qed.

(** ** The states of an engine *)

Lemma advance_range n : ∀ g,
  0 <= IDGenerator.counter g < 2 ^ 64 →
  IDGenerator.prefix (advance n g) = IDGenerator.prefix g
  ∧ 0 <= IDGenerator.counter (advance n g) < 2 ^ 64.
Proof.
  induction n as [|n IH]; intros g Hg; [done|].
  cbn [advance]. destruct (IH (IDGenerator.Next g).2) as [-> H].
  - simpl. unfold wrap64u. apply Z.mod_pos_bound. lia.
  - done.
Qed.

Lemma cancel_frame orderID me m :
  engine_inv (MatchingEngine.orderBook me) m →
  let r := MatchingEngine.cancel orderID me m in
  prices_within (MatchingEngine.orderBook r.1) (MatchingEngine.orderBook me)
  ∧ (∀ a, resting (MatchingEngine.orderBook r.1) a → resting (MatchingEngine.orderBook me) a)
  ∧ (∀ a, same_order (Mem.load m a) (Mem.load r.2 a))
  ∧ MatchingEngine.tradeIDGen r.1 = MatchingEngine.tradeIDGen me.
Proof.
  intros Hinv. unfold MatchingEngine.cancel.
  destruct (OrderBook.orders (MatchingEngine.orderBook me) !! orderID) as [a|] eqn:Hid.
  - destruct (CancelOrder_frame None _ _ _ _ Hinv Hid ltac:(done)) as (H1 & H2 & H3 & _).
    destruct (CancelOrder_spec None _ _ _ _ Hinv Hid ltac:(done))
      as (ob' & m' & Hc & _ & _ & _ & _ & _ & _ & Hsub & _).
    rewrite Hc in *. cbn [fst snd MatchingEngine.orderBook MatchingEngine.with_orderBook
                          MatchingEngine.tradeIDGen] in *.
    split; [done|]. split; [done|]. split; [|done].
    intros a'. destruct (decide (a' = a)) as [->|Hne]; [done|].
    rewrite H2 by done. apply same_order_refl.
  - rewrite CancelOrder_unknown by done. cbn [fst snd]. rewrite with_orderBook_id.
    split; [apply prices_within_refl|]. split; [done|]. split; [|done].
    intros a. apply same_order_refl.
Qed.

Lemma valid_reach_more me m : valid_reach me m → engine_more me m.
Proof.
  intros Hreach.
  induction Hreach as [symbol me m Hnew|me m m' Hr IH Hne Hld|fuel b me m trades me' m' Hr IH Hin Hp
                  |orderID me m Hr IH].
  - unfold MatchingEngine.NewMatchingEngine in Hnew.
    destruct (NewRingBufferSemaphoreBatchSafe 65536); [|done].
    destruct (NewTradeRingBufferBatchSafe 65536); [|done].
    simpl in Hnew. injection Hnew as <-.
    assert (Hno : ∀ isBuy l, ¬ level_in (side_of (OrderBook.NewOrderBook symbol) isBuy) l).
    { intros isBuy l (id & b & i & H & _). destruct isBuy; simpl in H; by rewrite lookup_empty in H. }
    split; cbn [MatchingEngine.orderBook MatchingEngine.tradeIDGen].
    + intros lb la Hlb _. by apply (Hno true) in Hlb.
    + intros a (isBuy & l & h & Hl & _). by apply Hno in Hl.
    + simpl. split; [done|lia].
  - destruct IH as [H1 H2 H3]. split; [done| |done].
    intros a Ha. rewrite Hld by done. by apply H2.
  - pose proof (valid_reach_inv _ _ Hr) as Hinv.
    pose proof (processOrder_frame _ _ _ _ _ _ _ Hinv Hin Hp) as Hpo.
    destruct IH as [H1 H2 [H3 H4]]. split; [by apply (po_uncrossed _ _ _ _ _ _ Hpo)| |].
    + intros a Ha. destruct (po_static _ _ _ _ _ _ Hpo a) as (_ & _ & _ & _ & -> & _).
      destruct (po_resting _ _ _ _ _ _ Hpo a Ha) as [Hold|(-> & Hty & _)]; [by apply H2|done].
    + rewrite (po_gen _ _ _ _ _ _ Hpo).
      destruct (advance_range (length trades) _ H4) as [-> ?]. done.
  - pose proof (valid_reach_inv _ _ Hr) as Hinv.
    destruct (cancel_frame orderID me m Hinv) as (C1 & C2 & C3 & C4).
    destruct IH as [H1 H2 H3]. split.
    + by eapply prices_uncrossed.
    + intros a Ha. destruct (C3 a) as (_ & _ & _ & _ & -> & _). by apply H2, C2.
    + by rewrite C4.
Qed.

Lemma incoming_ok_intro ob m a :
  OrderBook.orders ob !! Order.ID (Mem.load m a) = None →
  (0 <=? Order.Filled (Mem.load m a)) = true →
  (Order.Quantity (Mem.load m a) <? 2 ^ 63) = true →
  (0 <? Order.Price (Mem.load m a)) = true →
  incoming_ok ob m a.
Proof.
  intros H1 H2 H3 H4. split; [done|by apply Z.leb_le|by apply Z.ltb_lt|].
  intros _. by apply Z.ltb_lt.
Qed.

Lemma new_engine_some :
  MatchingEngine.NewMatchingEngine "BTCUSDT" = Some Scenario.engine.
Proof.
  unfold Scenario.engine.
  destruct (MatchingEngine.NewMatchingEngine "BTCUSDT") as [me|] eqn:E; [done|].
  assert (H : bool_decide (is_Some (MatchingEngine.NewMatchingEngine "BTCUSDT")) = true)
    by (vm_compute; reflexivity).
  rewrite E in H. apply bool_decide_eq_true in H. by destruct H.
Qed.

(** The result of [processOrder] when it has fuel enough. *)
Lemma processOrder_run fuel b me m :
  engine_inv (MatchingEngine.orderBook me) m →
  incoming_ok (MatchingEngine.orderBook me) m b →
  (size (resting_set (MatchingEngine.orderBook me)) <? fuel)%nat = true →
  let r := default ([], me, m) (MatchingEngine.processOrder fuel b me m) in
  MatchingEngine.processOrder fuel b me m = Some (r.1.1, r.1.2, r.2).
Proof.
  intros Hinv Hin Hfuel. apply Nat.ltb_lt in Hfuel.
  destruct (processOrder_total fuel b me m Hinv Hin Hfuel) as (tr & me' & m' & ->). done.
Qed.

Lemma two_asks_ready :
  engine_inv (MatchingEngine.orderBook two_asks.1) two_asks.2
  ∧ incoming_ok (MatchingEngine.orderBook two_asks.1) two_asks.2 2
  ∧ MatchingEngine.processOrder 16 2 two_asks.1 two_asks.2
    = Some (two_asks_run.1.1, two_asks_run.1.2, two_asks_run.2).
Proof.
  assert (H1 : engine_inv (MatchingEngine.orderBook two_asks.1) two_asks.2).
  { unfold two_asks. cbv zeta.
    cbn [fst snd MatchingEngine.orderBook MatchingEngine.with_orderBook].
    apply AddOrder_inv.
    + apply AddOrder_inv.
      * apply new_book_inv.
      * apply incoming_ok_intro; vm_compute; reflexivity.
      * vm_compute; reflexivity.
      * vm_compute; reflexivity.
    + apply incoming_ok_intro; vm_compute; reflexivity.
    + vm_compute; reflexivity.
    + vm_compute; reflexivity. }
  assert (H2 : incoming_ok (MatchingEngine.orderBook two_asks.1) two_asks.2 2)
    by (apply incoming_ok_intro; vm_compute; reflexivity).
  split; [done|]. split; [done|].
  apply processOrder_run; [done|done|vm_compute; reflexivity].
Qed.

Lemma quiet_book_reach : valid_reach quiet_book.1.2 quiet_book.2.
Proof.
  assert (H0 : valid_reach Scenario.engine quiet_orders).
  { apply er_new with "BTCUSDT". apply new_engine_some. }
  assert (H1 : valid_reach quiet_first.1.2 quiet_first.2).
  { apply er_process with 16%nat 0%nat Scenario.engine quiet_orders quiet_first.1.1; [done| |].
    - apply incoming_ok_intro; vm_compute; reflexivity.
    - apply processOrder_run; [by apply valid_reach_inv| |vm_compute; reflexivity].
      apply incoming_ok_intro; vm_compute; reflexivity. }
  apply er_process with 16%nat 1%nat quiet_first.1.2 quiet_first.2 quiet_book.1.1; [done| |].
  - apply incoming_ok_intro; vm_compute; reflexivity.
  - apply processOrder_run; [by apply valid_reach_inv| |vm_compute; reflexivity].
    apply incoming_ok_intro; vm_compute; reflexivity.
Qed.

Lemma joining_buy_ready :
  engine_inv (MatchingEngine.orderBook joining_buy.1) joining_buy.2
  ∧ incoming_ok (MatchingEngine.orderBook joining_buy.1) joining_buy.2 1
  ∧ MatchingEngine.processOrder 16 1 joining_buy.1 joining_buy.2
    = Some (joining_buy_run.1.1, joining_buy_run.1.2, joining_buy_run.2).
Proof.
  assert (H1 : engine_inv (MatchingEngine.orderBook joining_buy.1) joining_buy.2).
  { unfold joining_buy. cbv zeta.
    cbn [fst snd MatchingEngine.orderBook MatchingEngine.with_orderBook].
    apply AddOrder_inv.
    + apply new_book_inv.
    + apply incoming_ok_intro; vm_compute; reflexivity.
    + vm_compute; reflexivity.
    + vm_compute; reflexivity. }
  assert (H2 : incoming_ok (MatchingEngine.orderBook joining_buy.1) joining_buy.2 1)
    by (apply incoming_ok_intro; vm_compute; reflexivity).
  split; [done|]. split; [done|].
  apply processOrder_run; [done|done|vm_compute; reflexivity].
Qed.

(** ** Cancelling *)

Lemma CancelOrder_orders id ob m :
  OrderBook.orders (OrderBook.CancelOrder id ob m).1 = delete id (OrderBook.orders ob).
Proof.
  unfold OrderBook.CancelOrder.
  destruct (OrderBook.orders ob !! id) as [a|] eqn:E.
  - destruct (Order.Side (Mem.load m a) =? SideBuy).
    + by destruct (ShardedPriceTreeAdapter.Remove a (OrderBook.bids ob) m).
    + by destruct (ShardedPriceTreeAdapter.Remove a (OrderBook.asks ob) m).
  - cbn [fst]. symmetry. by apply delete_id.
Qed.

(** ** The ring buffers as queues *)

Lemma land_mask size a :
  is_power_of_two size → 0 <= a → Z.land a (size - 1) = a mod size.
Proof.
  intros (k & Hk & ->) Ha. rewrite <- Z.land_ones by done.
  by rewrite Z.ones_equiv, <- Z.sub_1_r.
Qed.

Lemma power_of_two_pos size : is_power_of_two size → 0 < size.
Proof. intros (k & Hk & ->). by apply Z.pow_pos_nonneg. Qed.

Lemma mod_distinct size r (i j : Z) :
  0 < size → 0 <= i < j → j - i < size → (r + i) mod size ≠ (r + j) mod size.
Proof.
  intros Hs Hij Hlt Heq.
  assert (H : (r + j - (r + i)) mod size = 0).
  { rewrite Zminus_mod, Heq, Z.sub_diag. by apply Z.mod_0_l, Z.neq_sym, Z.lt_neq. }
  replace (r + j - (r + i)) with (j - i) in H by lia.
  rewrite Z.mod_small in H by lia. lia.
Qed.

Lemma semacquire_pos s : 0 < s < 2 ^ 32 → semacquire s = Some (s - 1).
Proof.
  intros Hs. unfold semacquire, wrap32u.
  destruct (Z.eqb_spec s 0) as [->|_]; [lia|]. by rewrite Z.mod_small by lia.
Qed.

Lemma semrelease_small s : 0 <= s → s + 1 < 2 ^ 32 → semrelease s = s + 1.
Proof. intros H0 H1. unfold semrelease, wrap32u. by rewrite Z.mod_small by lia. Qed.

Section queue.
Context {T : Type}.
Implicit Types (rb : RingBuffer.t T) (cb : RingBuffer.Consumer T) (q c : list T).

Lemma New_holds size rb :
  0 < size < 2 ^ 32 → RingBuffer.New size = Some rb → rb_holds size [] rb.
Proof.
  intros Hs Hnew. destruct (New_positive (T:=T) size Hs) as [Hnone Hsome].
  destruct (Hsome rb Hnew) as (He & Hf & Hl).
  assert (Hpow : is_power_of_two size).
  { apply land_pred_zero; [lia|]. unfold RingBuffer.New in Hnew.
    rewrite (wrap64_id (size - 1)) in Hnew by (unfold int64_range; lia).
    destruct (Z.eqb_spec (Z.land size (size - 1)) 0); [done|]. done. }
  unfold RingBuffer.New in Hnew.
  destruct (negb _); [done|]. destruct (size <? 0); [done|]. injection Hnew as <-.
  cbn [RingBuffer.emptySlots RingBuffer.fullSlots RingBuffer.buffer] in *.
  split; cbn [RingBuffer.mask RingBuffer.buffer RingBuffer.readSeq RingBuffer.writeSeq
              RingBuffer.fullSlots RingBuffer.emptySlots length];
    rewrite ?length_replicate; try done; try lia.
  all: try (split; [done|lia]); try (apply wrap64_id; unfold int64_range; lia);
    try (rewrite He; lia).
Qed.

Lemma Publish_holds size q rb x :
  rb_holds size q rb → Z.of_nat (length q) < size → RingBuffer.writeSeq rb + 1 < 2 ^ 63 →
  ∃ rb', RingBuffer.Publish x rb = Some rb' ∧ rb_holds size (q ++ [x]) rb'
         ∧ RingBuffer.writeSeq rb' = RingBuffer.writeSeq rb + 1.
Proof.
  intros [[Hpow Hs32] Hmask Hlen Hr Hw Hrange Hcount Hfull Hempty Hitems] Hlt Hnowrap.
  pose proof (power_of_two_pos _ Hpow) as Hpos.
  unfold RingBuffer.Publish. rewrite Hempty, semacquire_pos by lia. cbn [mbind option_bind].
  rewrite (wrap64_id (RingBuffer.writeSeq rb + 1)) by (unfold int64_range; lia).
  replace (RingBuffer.writeSeq rb + 1 - 1) with (RingBuffer.writeSeq rb) by lia.
  rewrite (wrap64_id (RingBuffer.writeSeq rb)) by (unfold int64_range; lia).
  rewrite Hmask, land_mask by (done || lia).
  pose proof (Z.mod_pos_bound (RingBuffer.writeSeq rb) size Hpos) as Hidx.
  unfold RingBuffer.set_slot.
  replace ((0 <=? RingBuffer.writeSeq rb mod size)
           && (RingBuffer.writeSeq rb mod size <? Z.of_nat (length (RingBuffer.buffer rb))))
    with true by (symmetry; apply andb_true_iff; split; [apply Z.leb_le|apply Z.ltb_lt]; lia).
  cbn [mbind option_bind]. eexists. split; [reflexivity|]. split; [|done].
  split; cbn [RingBuffer.mask RingBuffer.buffer RingBuffer.readSeq RingBuffer.writeSeq
              RingBuffer.fullSlots RingBuffer.emptySlots]; rewrite ?length_app; cbn [length];
    try done; try lia.
  - by rewrite length_insert.
  - rewrite Hfull, semrelease_small by lia. lia.
  - intros i y Hi. destruct (decide (i = length q)) as [->|Hne].
    + rewrite lookup_app_r, Nat.sub_diag in Hi by lia. injection Hi as <-.
      rewrite <- Hw. apply list_lookup_insert_eq. lia.
    + assert (Hiq : (i < length q)%nat).
      { apply lookup_lt_Some in Hi. rewrite length_app in Hi. simpl in Hi. lia. }
      rewrite lookup_app_l in Hi by done.
      rewrite list_lookup_insert_ne; [by apply Hitems|].
      clear Hidx. rewrite Hw. intros Heq.
      pose proof (Z.mod_pos_bound (RingBuffer.readSeq rb + Z.of_nat i) size Hpos).
      pose proof (Z.mod_pos_bound (RingBuffer.readSeq rb + Z.of_nat (length q)) size Hpos).
      apply Z2Nat.inj in Heq; [|lia|lia].
      symmetry in Heq. revert Heq. apply mod_distinct; lia.
Qed.

Lemma Publish_full size q rb x :
  rb_holds size q rb → Z.of_nat (length q) = size → RingBuffer.Publish x rb = None.
Proof.
  intros [_ _ _ _ _ _ _ _ Hempty _] Hlen. unfold RingBuffer.Publish.
  rewrite Hempty, Hlen, Z.sub_diag. done.
Qed.

Lemma take_holds size q rb x :
  rb_holds size (x :: q) rb →
  ∃ rb', RingBuffer.take rb = Some (Some x, rb') ∧ rb_holds size q rb'
         ∧ RingBuffer.readSeq rb' = RingBuffer.readSeq rb + 1
         ∧ RingBuffer.writeSeq rb' = RingBuffer.writeSeq rb.
Proof.
  intros [[Hpow Hs32] Hmask Hlen Hr Hw Hrange Hcount Hfull Hempty Hitems].
  pose proof (power_of_two_pos _ Hpow) as Hpos. cbn [length] in *.
  unfold RingBuffer.take. rewrite Hfull, semacquire_pos by lia. cbn [mbind option_bind].
  rewrite (wrap64_id (RingBuffer.readSeq rb + 1)) by (unfold int64_range; lia).
  replace (RingBuffer.readSeq rb + 1 - 1) with (RingBuffer.readSeq rb) by lia.
  rewrite (wrap64_id (RingBuffer.readSeq rb)) by (unfold int64_range; lia).
  rewrite Hmask, land_mask by (done || lia).
  pose proof (Z.mod_pos_bound (RingBuffer.readSeq rb) size Hpos) as Hidx.
  unfold RingBuffer.get_slot.
  replace (0 <=? RingBuffer.readSeq rb mod size) with true by (symmetry; apply Z.leb_le; lia).
  pose proof (Hitems 0%nat x eq_refl) as H0. rewrite Z.add_0_r in H0. rewrite H0.
  cbn [mbind option_bind]. eexists. split; [reflexivity|]. split; [|done].
  split; cbn [RingBuffer.mask RingBuffer.buffer RingBuffer.readSeq RingBuffer.writeSeq
              RingBuffer.fullSlots RingBuffer.emptySlots]; try done; try lia.
  - rewrite Hempty, semrelease_small by lia. lia.
  - intros i y Hi. specialize (Hitems (S i) y Hi).
    replace (RingBuffer.readSeq rb + 1 + Z.of_nat i)
      with (RingBuffer.readSeq rb + Z.of_nat (S i)) by lia. done.
Qed.

Lemma take_empty size rb : rb_holds size [] rb → RingBuffer.take rb = None.
Proof.
  intros [_ _ _ _ _ _ _ Hfull _ _]. unfold RingBuffer.take. by rewrite Hfull.
Qed.

Lemma fill_more_holds size : ∀ q1 q2 rb (acquired : Z) cache,
  rb_holds size (q1 ++ q2) rb → 0 <= acquired → acquired + Z.of_nat (length q1) <= 128 →
  length cache = 128%nat →
  ∃ cache' rb',
    RingBuffer.fill_more (length q1) acquired cache rb
    = Some (acquired + Z.of_nat (length q1), cache', rb')
    ∧ rb_holds size q2 rb' ∧ length cache' = 128%nat
    ∧ (∀ j : nat, Z.of_nat j < acquired → cache' !! j = cache !! j)
    ∧ ∀ (i : nat) x, q1 !! i = Some x →
        cache' !! Z.to_nat (acquired + Z.of_nat i) = Some (Some x).
Proof.
  induction q1 as [|x q1 IH]; intros q2 rb acquired cache Hh Ha Hb Hc.
  - exists cache, rb. cbn [length RingBuffer.fill_more]. rewrite Z.add_0_r.
    split; [done|]. split; [done|]. split; [done|]. split; [done|]. intros i y Hi. done.
  - cbn [length] in *. destruct (take_holds size (q1 ++ q2) rb x Hh) as (rb1 & Ht & Hh1 & _).
    cbn [RingBuffer.fill_more]. rewrite Ht. cbn [mbind option_bind].
    destruct (IH q2 rb1 (acquired + 1) (<[Z.to_nat acquired := Some x]> cache) Hh1)
      as (cache' & rb' & Hf & Hh' & Hc' & Hold & Hnew); [lia|lia|by rewrite length_insert|].
    exists cache', rb'. rewrite Hf. split; [do 3 f_equal; lia|]. split; [done|].
    split; [done|]. split.
    + intros j Hj. rewrite Hold by lia. apply list_lookup_insert_ne. lia.
    + intros [|i] y Hi.
      * injection Hi as <-. rewrite Z.add_0_r, Hold by lia.
        apply list_lookup_insert_eq. lia.
      * replace (acquired + Z.of_nat (S i)) with (acquired + 1 + Z.of_nat i) by lia.
        by apply Hnew.
Qed.

Lemma fillCacheSafe_holds size q rb cb x :
  rb_holds size (x :: q) rb → length (RingBuffer.localCache cb) = 128%nat →
  ∃ cb' rb' c q',
    RingBuffer.fillCacheSafe cb rb = Some (cb', rb')
    ∧ cache_holds (x :: c) cb' ∧ RingBuffer.cacheStart cb' = 0
    ∧ rb_holds size q' rb' ∧ c ++ q' = q.
Proof.
  intros Hh Hc. destruct (take_holds size q rb x Hh) as (rb1 & Ht & Hh1 & Hr1 & Hw1).
  unfold RingBuffer.fillCacheSafe. rewrite Ht. cbn [mbind option_bind].
  pose proof (rh_write _ _ _ Hh1) as Hw. pose proof (rh_count _ _ _ Hh1) as Hcount.
  pose proof (rh_size _ _ _ Hh1) as [_ Hs32].
  replace (RingBuffer.writeSeq rb1 - RingBuffer.readSeq rb1) with (Z.of_nat (length q)) by lia.
  rewrite (wrap64_id (Z.of_nat (length q))) by (unfold int64_range; lia).
  set (n := if 128 - 1 <? Z.of_nat (length q) then 128 - 1 else Z.of_nat (length q)).
  assert (Hn : 0 <= n <= 127 ∧ n <= Z.of_nat (length q)).
  { unfold n. destruct (Z.ltb_spec (128 - 1) (Z.of_nat (length q))); lia. }
  assert (Hq : q = take (Z.to_nat n) q ++ drop (Z.to_nat n) q) by (by rewrite take_drop).
  assert (Hl : length (take (Z.to_nat n) q) = Z.to_nat n) by (rewrite length_take; lia).
  rewrite Hq in Hh1.
  destruct (fill_more_holds size _ _ rb1 1 (<[0%nat := Some x]> (RingBuffer.localCache cb)) Hh1)
    as (cache' & rb' & Hf & Hh' & Hc' & Hold & Hnew);
    [lia|lia|by rewrite length_insert|].
  rewrite Hl in Hf. rewrite Hf. cbn [mbind option_bind].
  eexists _, rb', (take (Z.to_nat n) q), (drop (Z.to_nat n) q).
  split; [reflexivity|]. split; [|split; [done|split; [done|by rewrite take_drop]]].
  split; cbn [RingBuffer.localCache RingBuffer.cacheStart RingBuffer.cacheEnd length];
    try done; try lia.
  intros [|i] y Hi.
  - injection Hi as <-. change (Z.to_nat (0 + Z.of_nat 0)) with 0%nat.
    rewrite (Hold 0%nat) by lia. apply list_lookup_insert_eq. lia.
  - specialize (Hnew i y Hi).
    replace (0 + Z.of_nat (S i)) with (1 + Z.of_nat i) by lia. done.
Qed.

Lemma Consume_holds size c q cb rb x rest :
  cache_holds c cb → rb_holds size q rb → c ++ q = x :: rest →
  ∃ cb' rb' c' q',
    RingBuffer.Consume cb rb = Some (Some x, cb', rb')
    ∧ cache_holds c' cb' ∧ rb_holds size q' rb' ∧ c' ++ q' = rest.
Proof.
  intros Hc Hq Hx. unfold RingBuffer.Consume.
  destruct c as [|y c].
  - simpl in Hx. subst q.
    pose proof (ch_end _ _ Hc) as He. cbn [length] in He.
    replace (RingBuffer.cacheStart cb <? RingBuffer.cacheEnd cb) with false
      by (symmetry; apply Z.ltb_ge; lia).
    destruct (fillCacheSafe_holds size rest rb cb x Hq (ch_len _ _ Hc))
      as (cb' & rb' & c' & q' & Hf & Hc' & Hs & Hq' & Hcq).
    rewrite Hf. cbn [mbind option_bind]. unfold RingBuffer.get_slot.
    pose proof (ch_items _ _ Hc' 0%nat x eq_refl) as H0.
    destruct Hc' as [G1 G2 G3 G4 G5]. rewrite Hs in *.
    change (Z.to_nat (0 + Z.of_nat 0)) with 0%nat in H0.
    change (0 <=? 0) with true. cbn iota. change (Z.to_nat 0) with 0%nat. rewrite H0.
    cbn [mbind option_bind].
    eexists _, rb', c', q'. split; [reflexivity|]. split; [|done].
    split; cbn [RingBuffer.localCache RingBuffer.cacheStart RingBuffer.cacheEnd length] in *;
      try done; try lia.
    intros i z Hi. specialize (G5 (S i) z Hi).
    replace (0 + 1 + Z.of_nat i) with (0 + Z.of_nat (S i)) by lia. done.
  - injection Hx as -> <-.
    destruct Hc as [G1 G2 G3 G4 G5]. cbn [length] in *.
    replace (RingBuffer.cacheStart cb <? RingBuffer.cacheEnd cb) with true
      by (symmetry; apply Z.ltb_lt; lia).
    unfold RingBuffer.get_slot.
    replace (0 <=? RingBuffer.cacheStart cb) with true by (symmetry; apply Z.leb_le; lia).
    pose proof (G5 0%nat x eq_refl) as H0. rewrite Z.add_0_r in H0. rewrite H0.
    cbn [mbind option_bind].
    eexists _, rb, c, q. split; [reflexivity|]. split; [|done].
    split; cbn [RingBuffer.localCache RingBuffer.cacheStart RingBuffer.cacheEnd length];
      try done; try lia.
    intros i z Hi. specialize (G5 (S i) z Hi).
    replace (RingBuffer.cacheStart cb + 1 + Z.of_nat i)
      with (RingBuffer.cacheStart cb + Z.of_nat (S i)) by lia. done.
Qed.

Lemma Consume_empty size cb rb :
  cache_holds [] cb → rb_holds size [] rb → RingBuffer.Consume cb rb = None.
Proof.
  intros Hc Hq. unfold RingBuffer.Consume.
  pose proof (ch_end _ _ Hc) as He. cbn [length] in He.
  replace (RingBuffer.cacheStart cb <? RingBuffer.cacheEnd cb) with false
    by (symmetry; apply Z.ltb_ge; lia).
  unfold RingBuffer.fillCacheSafe. by rewrite (take_empty size).
Qed.

Lemma NewConsumer_holds : cache_holds (T:=T) [] RingBuffer.NewConsumer.
Proof. split; simpl; try done; try lia. Qed.

End queue.

Section try_queue.
Context {T : Type}.
Implicit Types (rb : RingBuffer.t T) (cb : RingBuffer.Consumer T) (q c : list T).

Lemma try_more_step n acquired cache rb :
  RingBuffer.try_more (S n) acquired cache rb
  = if RingBuffer.fullSlots rb =? 0 then Some (acquired, cache, rb)
    else '(x, rb') ← RingBuffer.take rb;
         RingBuffer.try_more n (acquired + 1) (<[Z.to_nat acquired := x]> cache) rb'.
Proof.
  cbn [RingBuffer.try_more]. unfold RingBuffer.take, semacquire.
  destruct (RingBuffer.fullSlots rb =? 0); [done|]. cbn [mbind option_bind].
  by destruct (RingBuffer.get_slot _ _).
Qed.

Lemma try_more_holds size : ∀ q1 q2 rb (acquired : Z) cache,
  rb_holds size (q1 ++ q2) rb → 0 <= acquired → acquired + Z.of_nat (length q1) <= 128 →
  length cache = 128%nat →
  ∃ cache' rb',
    RingBuffer.try_more (length q1) acquired cache rb
    = Some (acquired + Z.of_nat (length q1), cache', rb')
    ∧ rb_holds size q2 rb' ∧ length cache' = 128%nat
    ∧ (∀ j : nat, Z.of_nat j < acquired → cache' !! j = cache !! j)
    ∧ ∀ (i : nat) x, q1 !! i = Some x →
        cache' !! Z.to_nat (acquired + Z.of_nat i) = Some (Some x).
Proof.
  induction q1 as [|x q1 IH]; intros q2 rb acquired cache Hh Ha Hb Hc.
  - exists cache, rb. cbn [length RingBuffer.try_more]. rewrite Z.add_0_r.
    split; [done|]. split; [done|]. split; [done|]. split; [done|]. intros i y Hi. done.
  - cbn [length] in *. destruct (take_holds size (q1 ++ q2) rb x Hh) as (rb1 & Ht & Hh1 & _).
    rewrite try_more_step, Ht.
    pose proof (rh_full _ _ _ Hh) as Hfull. rewrite <- app_comm_cons in Hfull.
    cbn [length] in Hfull.
    replace (RingBuffer.fullSlots rb =? 0) with false by (symmetry; apply Z.eqb_neq; lia).
    cbn [mbind option_bind].
    destruct (IH q2 rb1 (acquired + 1) (<[Z.to_nat acquired := Some x]> cache) Hh1)
      as (cache' & rb' & Hf & Hh' & Hc' & Hold & Hnew); [lia|lia|by rewrite length_insert|].
    exists cache', rb'. rewrite Hf. split; [do 3 f_equal; lia|]. split; [done|].
    split; [done|]. split.
    + intros j Hj. rewrite Hold by lia. apply list_lookup_insert_ne. lia.
    + intros [|i] y Hi.
      * injection Hi as <-. rewrite Z.add_0_r, Hold by lia.
        apply list_lookup_insert_eq. lia.
      * replace (acquired + Z.of_nat (S i)) with (acquired + 1 + Z.of_nat i) by lia.
        by apply Hnew.
Qed.

Lemma tryFillCache_holds size q rb cb x :
  rb_holds size (x :: q) rb → length (RingBuffer.localCache cb) = 128%nat →
  ∃ cb' rb' c q',
    RingBuffer.tryFillCache cb rb = Some (true, cb', rb')
    ∧ cache_holds (x :: c) cb' ∧ RingBuffer.cacheStart cb' = 0
    ∧ rb_holds size q' rb' ∧ c ++ q' = q.
Proof.
  intros Hh Hc. unfold RingBuffer.tryFillCache.
  pose proof (rh_write _ _ _ Hh) as Hw. pose proof (rh_count _ _ _ Hh) as Hcount.
  pose proof (rh_size _ _ _ Hh) as [_ Hs32]. cbn [length] in *.
  replace (RingBuffer.writeSeq rb - RingBuffer.readSeq rb) with (Z.of_nat (S (length q))) by lia.
  rewrite (wrap64_id (Z.of_nat (S (length q)))) by (unfold int64_range; lia).
  replace (Z.of_nat (S (length q)) =? 0) with false by (symmetry; apply Z.eqb_neq; lia).
  set (n := if 128 <? Z.of_nat (S (length q)) then 128 else Z.of_nat (S (length q))).
  assert (Hn : 1 <= n <= 128 ∧ n <= Z.of_nat (S (length q))).
  { unfold n. destruct (Z.ltb_spec 128 (Z.of_nat (S (length q)))); lia. }
  assert (Hq : x :: q = take (Z.to_nat n) (x :: q) ++ drop (Z.to_nat n) (x :: q))
    by (by rewrite take_drop).
  assert (Hl : length (take (Z.to_nat n) (x :: q)) = Z.to_nat n)
    by (rewrite length_take; cbn [length]; lia).
  rewrite Hq in Hh.
  destruct (try_more_holds size _ _ rb 0 (RingBuffer.localCache cb) Hh)
    as (cache' & rb' & Hf & Hh' & Hc' & Hold & Hnew); [lia|lia|done|].
  rewrite Hl in Hf. rewrite Hf. cbn [mbind option_bind].
  replace (0 + Z.of_nat (Z.to_nat n) =? 0) with false by (symmetry; apply Z.eqb_neq; lia).
  assert (Htk : take (Z.to_nat n) (x :: q) = x :: take (Z.to_nat n - 1) q).
  { destruct (Z.to_nat n) as [|k] eqn:E; [lia|]. simpl. by rewrite Nat.sub_0_r. }
  eexists _, rb', (take (Z.to_nat n - 1) q), (drop (Z.to_nat n) (x :: q)).
  split; [reflexivity|]. split; [|split; [done|split; [done|]]].
  - split; cbn [RingBuffer.localCache RingBuffer.cacheStart RingBuffer.cacheEnd length];
      try done; try lia.
    + rewrite length_take. lia.
    + intros i y Hi. rewrite <- Htk in Hi. by apply Hnew.
  - destruct (Z.to_nat n) as [|k] eqn:E; [lia|]. simpl. rewrite Nat.sub_0_r. apply take_drop.
Qed.

Lemma TryConsume_holds size c q cb rb x rest :
  cache_holds c cb → rb_holds size q rb → c ++ q = x :: rest →
  ∃ cb' rb' c' q',
    RingBuffer.TryConsume cb rb = Some (Some x, true, cb', rb')
    ∧ cache_holds c' cb' ∧ rb_holds size q' rb' ∧ c' ++ q' = rest.
Proof.
  intros Hc Hq Hx. unfold RingBuffer.TryConsume.
  destruct c as [|y c].
  - simpl in Hx. subst q.
    pose proof (ch_end _ _ Hc) as He. cbn [length] in He.
    replace (RingBuffer.cacheStart cb <? RingBuffer.cacheEnd cb) with false
      by (symmetry; apply Z.ltb_ge; lia).
    destruct (tryFillCache_holds size rest rb cb x Hq (ch_len _ _ Hc))
      as (cb' & rb' & c' & q' & Hf & Hc' & Hs & Hq' & Hcq).
    rewrite Hf. cbn [mbind option_bind]. unfold RingBuffer.get_slot.
    pose proof (ch_items _ _ Hc' 0%nat x eq_refl) as H0.
    destruct Hc' as [G1 G2 G3 G4 G5]. rewrite Hs in *.
    change (Z.to_nat (0 + Z.of_nat 0)) with 0%nat in H0.
    change (0 <=? 0) with true. cbn iota. change (Z.to_nat 0) with 0%nat. rewrite H0.
    cbn [mbind option_bind].
    eexists _, rb', c', q'. split; [reflexivity|]. split; [|done].
    split; cbn [RingBuffer.localCache RingBuffer.cacheStart RingBuffer.cacheEnd length] in *;
      try done; try lia.
    intros i z Hi. specialize (G5 (S i) z Hi).
    replace (0 + 1 + Z.of_nat i) with (0 + Z.of_nat (S i)) by lia. done.
  - injection Hx as -> <-.
    destruct Hc as [G1 G2 G3 G4 G5]. cbn [length] in *.
    replace (RingBuffer.cacheStart cb <? RingBuffer.cacheEnd cb) with true
      by (symmetry; apply Z.ltb_lt; lia).
    unfold RingBuffer.get_slot.
    replace (0 <=? RingBuffer.cacheStart cb) with true by (symmetry; apply Z.leb_le; lia).
    pose proof (G5 0%nat x eq_refl) as H0. rewrite Z.add_0_r in H0. rewrite H0.
    cbn [mbind option_bind].
    eexists _, rb, c, q. split; [reflexivity|]. split; [|done].
    split; cbn [RingBuffer.localCache RingBuffer.cacheStart RingBuffer.cacheEnd length];
      try done; try lia.
    intros i z Hi. specialize (G5 (S i) z Hi).
    replace (RingBuffer.cacheStart cb + 1 + Z.of_nat i)
      with (RingBuffer.cacheStart cb + Z.of_nat (S i)) by lia. done.
Qed.

Lemma TryConsume_empty size cb rb :
  cache_holds [] cb → rb_holds size [] rb →
  RingBuffer.TryConsume cb rb = Some (None, false, cb, rb).
Proof.
  intros Hc Hq. unfold RingBuffer.TryConsume.
  pose proof (ch_end _ _ Hc) as He. cbn [length] in He.
  replace (RingBuffer.cacheStart cb <? RingBuffer.cacheEnd cb) with false
    by (symmetry; apply Z.ltb_ge; lia).
  unfold RingBuffer.tryFillCache.
  pose proof (rh_write _ _ _ Hq) as Hw. cbn [length] in Hw.
  replace (RingBuffer.writeSeq rb - RingBuffer.readSeq rb) with 0 by lia.
  done.
Qed.

Lemma publish_list_holds size : ∀ xs q rb,
  rb_holds size q rb → Z.of_nat (length q) + Z.of_nat (length xs) <= size →
  RingBuffer.writeSeq rb + Z.of_nat (length xs) < 2 ^ 63 →
  ∃ rb', publish_list xs rb = Some rb' ∧ rb_holds size (q ++ xs) rb'.
Proof.
  induction xs as [|x xs IH]; intros q rb Hh Hlen Hw.
  - exists rb. by rewrite app_nil_r.
  - cbn [length publish_list] in *.
    destruct (Publish_holds size q rb x Hh) as (rb1 & Hp & Hh1 & Hw1); [lia|lia|].
    rewrite Hp. cbn [mbind option_bind].
    destruct (IH (q ++ [x]) rb1 Hh1) as (rb' & Hpl & Hh').
    + rewrite length_app. cbn [length]. lia.
    + lia.
    + exists rb'. split; [done|]. by rewrite <- app_assoc in Hh'.
Qed.

Lemma consume_n_holds size : ∀ xs c q cb rb rest,
  cache_holds c cb → rb_holds size q rb → c ++ q = xs ++ rest →
  ∃ cb' rb' c' q',
    consume_n (length xs) cb rb = Some (Some <$> xs, cb', rb')
    ∧ cache_holds c' cb' ∧ rb_holds size q' rb' ∧ c' ++ q' = rest.
Proof.
  induction xs as [|x xs IH]; intros c q cb rb rest Hc Hq Hx.
  - exists cb, rb, c, q. done.
  - cbn [length consume_n].
    destruct (Consume_holds size c q cb rb x (xs ++ rest) Hc Hq Hx)
      as (cb1 & rb1 & c1 & q1 & Hcons & Hc1 & Hq1 & Hx1).
    rewrite Hcons. cbn [mbind option_bind].
    destruct (IH c1 q1 cb1 rb1 rest Hc1 Hq1 Hx1) as (cb' & rb' & c' & q' & Hn & Hc' & Hq' & Hr).
    rewrite Hn. cbn [mbind option_bind]. by exists cb', rb', c', q'.
Qed.

End try_queue.

Lemma small_queue_holds : rb_holds 4 [] small_queue.
Proof. apply New_holds; [lia|]. vm_compute. reflexivity. Qed.

Lemma small_queue_one_holds : rb_holds 4 [7%nat] small_queue_one.
Proof.
  destruct (Publish_holds 4 [] small_queue 7%nat small_queue_holds) as (rb' & Hp & Hh & _).
  - simpl. lia.
  - vm_compute. reflexivity.
  - unfold small_queue_one. rewrite Hp. exact Hh.
Qed.

(** ** Depth *)

Lemma walk_chain_take b n : ∀ c result,
  (∀ p, p ∈ c → is_Some (Bucket.levels b !! Z.land p (Bucket.bucketMask b))) →
  ShardedPriceTreeAdapter.walk_chain b c n result
  = result ++ take (Z.to_nat n - length result)
                (omap (λ p, Bucket.levels b !! Z.land p (Bucket.bucketMask b)) c).
Proof.
  induction c as [|p c IH]; intros result Hc.
  - simpl. by rewrite take_nil, app_nil_r.
  - cbn [ShardedPriceTreeAdapter.walk_chain omap list_omap].
    destruct (Hc p ltac:(by left)) as [l Hl]. rewrite Hl.
    destruct (Z.ltb_spec (Z.of_nat (length result)) n) as [Hlt|Hge].
    + rewrite IH by (intros q Hq; apply Hc; by right).
      rewrite length_app. cbn [length].
      replace (Z.to_nat n - length result)%nat
        with (S (Z.to_nat n - (length result + 1)))%nat by lia.
      cbn [take]. by rewrite <- app_assoc.
    + replace (Z.to_nat n - length result)%nat with 0%nat by lia.
      by rewrite take_0, app_nil_r.
Qed.

Lemma walk_buckets_take n : ∀ it result,
  (∀ kb p, kb ∈ it → p ∈ Bucket.chain kb.2 →
     is_Some (Bucket.levels kb.2 !! Z.land p (Bucket.bucketMask kb.2))) →
  ShardedPriceTreeAdapter.walk_buckets it n result
  = result ++ take (Z.to_nat n - length result) (it ≫= (λ kb, chain_levels kb.2)).
Proof.
  induction it as [|[k b] it IH]; intros result Hit.
  - simpl. by rewrite take_nil, app_nil_r.
  - cbn [ShardedPriceTreeAdapter.walk_buckets].
    destruct (Z.ltb_spec (Z.of_nat (length result)) n) as [Hlt|Hge].
    + rewrite IH by (intros kb p Hkb; apply Hit; by right).
      rewrite walk_chain_take by (intros p Hp; apply (Hit (k, b)); [by left|done]).
      fold (chain_levels b). rewrite bind_cons. cbn [snd].
      rewrite <- app_assoc. f_equal. rewrite take_app. f_equal.
      rewrite length_app, length_take. f_equal. lia.
    + replace (Z.to_nat n - length result)%nat with 0%nat by lia.
      by rewrite take_0, app_nil_r.
Qed.

#[local] Instance comes_first_trans isBuy : Transitive (ShardedPriceTree.comes_first isBuy).
Proof. intros x y z. unfold ShardedPriceTree.comes_first. destruct isBuy; lia. Qed.

#[local] Instance comes_first_total isBuy : Total (ShardedPriceTree.comes_first isBuy).
Proof. intros x y. unfold ShardedPriceTree.comes_first. destruct isBuy; lia. Qed.

Lemma Iterator_perm s :
  ShardedPriceTree.Iterator s ≡ₚ map_to_list (ShardedPriceTree.buckets s).
Proof. apply merge_sort_Permutation. Qed.

Lemma elem_of_Iterator s k b :
  (k, b) ∈ ShardedPriceTree.Iterator s ↔ ShardedPriceTree.buckets s !! k = Some b.
Proof. rewrite Iterator_perm. apply elem_of_map_to_list. Qed.

(** The iterator meets the bucket ids in strict order. *)
Lemma Iterator_sorted s :
  StronglySorted (λ x y, better (ShardedPriceTree.isBuy s) x.1 y.1) (ShardedPriceTree.Iterator s).
Proof.
  pose proof (StronglySorted_merge_sort (ShardedPriceTree.comes_first (ShardedPriceTree.isBuy s))
                (map_to_list (ShardedPriceTree.buckets s))) as Hs.
  fold (ShardedPriceTree.Iterator s) in Hs.
  assert (Hnd : NoDup (ShardedPriceTree.Iterator s).*1).
  { rewrite Iterator_perm. apply NoDup_fst_map_to_list. }
  induction Hs as [|x l Hl IH Hall]; [constructor|].
  rewrite fmap_cons in Hnd. apply NoDup_cons in Hnd as [Hx Hnd].
  constructor; [by apply IH|].
  apply Forall_forall. intros y Hy.
  pose proof (proj1 (Forall_forall _ _) Hall y Hy) as Hxy.
  assert (Hne : x.1 ≠ y.1).
  { intros Heq. apply Hx. rewrite Heq. apply list_elem_of_fmap. by exists y. }
  unfold better, isBetter, ShardedPriceTree.comes_first in *.
  destruct (ShardedPriceTree.isBuy s); apply Z.ltb_lt; lia.
Qed.

Lemma chain_levels_spec isBuy id b :
  bucket_shape isBuy id b →
  StronglySorted (price_before isBuy) (chain_levels b)
  ∧ length (chain_levels b) = length (Bucket.chain b)
  ∧ ∀ l, l ∈ chain_levels b ↔ level_in_bucket b l.
Proof.
  intros [Hid Hbuy Hbs Hmask Hsize Hsorted Hchain Hlevels]. unfold chain_levels. rewrite Hmask.
  assert (Hstep : ∀ c, (∀ p, p ∈ c → p ∈ Bucket.chain b) → StronglySorted (better isBuy) c →
    StronglySorted (price_before isBuy) (omap (λ p, Bucket.levels b !! Z.land p 127) c)
    ∧ length (omap (λ p, Bucket.levels b !! Z.land p 127) c) = length c
    ∧ ∀ l, l ∈ omap (λ p, Bucket.levels b !! Z.land p 127) c ↔
           ∃ p, p ∈ c ∧ Bucket.levels b !! Z.land p 127 = Some l).
  { intros c Hsub Hs. split; [|split].
    - induction Hs as [|p c Hs IH Hall]; [constructor|].
      destruct (Hchain p (Hsub p ltac:(by left))) as (l & Hl & Hlp).
      cbn [omap list_omap]. rewrite Hl. constructor.
      + apply IH. intros q Hq. apply Hsub. by right.
      + apply Forall_forall. intros l' Hl'. apply list_elem_of_omap in Hl' as (q & Hq & Hlq).
        destruct (Hchain q (Hsub q ltac:(by right))) as (l2 & Hl2 & Hl2p).
        rewrite Hlq in Hl2. injection Hl2 as <-.
        unfold price_before. rewrite Hlp, Hl2p.
        by apply (proj1 (Forall_forall _ _) Hall).
    - clear Hs. induction c as [|p c IH]; [done|].
      destruct (Hchain p (Hsub p ltac:(by left))) as (l & Hl & Hlp).
      cbn [omap list_omap]. rewrite Hl. cbn [length]. f_equal.
      apply IH. intros q Hq. apply Hsub. by right.
    - intros l. apply list_elem_of_omap. }
  destruct (Hstep (Bucket.chain b) ltac:(done) Hsorted) as (H1 & H2 & H3).
  split; [done|]. split; [done|]. intros l. rewrite H3. split.
  - intros (p & _ & Hl). by exists (Z.land p 127).
  - intros [i Hl]. destruct (Hlevels i l Hl) as (_ & _ & -> & Hin).
    by exists (PriceLevel_.Price l).
Qed.

Lemma depth_order_spec s :
  tree_shape s →
  StronglySorted (price_before (ShardedPriceTree.isBuy s)) (depth_order s)
  ∧ ∀ l, l ∈ depth_order s ↔ level_in s l.
Proof.
  intros Hsh. unfold depth_order.
  assert (Hsub : ∀ kb, kb ∈ ShardedPriceTree.Iterator s →
            ShardedPriceTree.buckets s !! kb.1 = Some kb.2).
  { intros [k b] Hkb. by apply elem_of_Iterator. }
  split.
  - pose proof (Iterator_sorted s) as Hs.
    induction Hs as [|[k b] it Hs IH Hall]; [constructor|].
    rewrite bind_cons. cbn [snd].
    destruct (tr_buckets _ Hsh k b (Hsub (k, b) ltac:(by left))) as [Hb _].
    destruct (chain_levels_spec _ _ _ Hb) as (Hcs & _ & Hce).
    apply StronglySorted_app_2; [|done|].
    + intros x1 x2 Hx1 Hx2. apply Hce in Hx1 as [i1 Hx1].
      apply list_elem_of_bind in Hx2 as ([k2 b2] & Hx2 & Hkb2). cbn [snd] in Hx2.
      destruct (tr_buckets _ Hsh k2 b2 (Hsub (k2, b2) ltac:(by right))) as [Hb2 _].
      apply (chain_levels_spec _ _ _ Hb2) in Hx2 as [i2 Hx2].
      destruct (bk_levels _ _ _ Hb _ _ Hx1) as (_ & Hq1 & _).
      destruct (bk_levels _ _ _ Hb2 _ _ Hx2) as (_ & Hq2 & _).
      unfold price_before. apply better_quot. rewrite Hq1, Hq2.
      apply (proj1 (Forall_forall _ _) Hall (k2, b2) Hkb2).
    + apply IH. intros kb Hkb. apply Hsub. by right.
  - intros l. rewrite list_elem_of_bind. split.
    + intros ([k b] & Hl & Hkb). cbn [snd] in Hl.
      pose proof (Hsub _ Hkb) as Hk. cbn [fst snd] in Hk.
      destruct (tr_buckets _ Hsh k b Hk) as [Hb _].
      apply (chain_levels_spec _ _ _ Hb) in Hl as [i Hl]. by exists k, b, i.
    + intros (k & b & i & Hk & Hl). exists (k, b). cbn [snd].
      destruct (tr_buckets _ Hsh k b Hk) as [Hb _].
      split; [apply (chain_levels_spec _ _ _ Hb); by exists i|by apply elem_of_Iterator].
Qed.

Lemma GetDepth_take n s :
  tree_shape s →
  ShardedPriceTreeAdapter.GetDepth n s
  = if (0 <? n) && negb (ShardedPriceTreeAdapter.IsEmpty s)
       && negb (makeslice_ok PriceLevel_size n)
    then None else Some (take (Z.to_nat n) (depth_order s)).
Proof.
  intros Hsh. unfold ShardedPriceTreeAdapter.GetDepth, ShardedPriceTreeAdapter.IsEmpty.
  destruct (Z.leb_spec n 0) as [Hn|Hn]; cbn [orb].
  { replace (0 <? n) with false by (symmetry; apply Z.ltb_ge; lia). cbn [andb].
    replace (Z.to_nat n) with 0%nat by lia. by rewrite take_0. }
  replace (0 <? n) with true by (symmetry; apply Z.ltb_lt; lia). cbn [andb].
  case_bool_decide as He; cbn [negb andb].
  - unfold depth_order, ShardedPriceTree.Iterator. rewrite He, map_to_list_empty.
    change (merge_sort _ []) with (@nil (Z * Bucket.t)). cbn [mbind list_bind].
    by rewrite take_nil.
  - destruct (makeslice_ok PriceLevel_size n); cbn [negb]; [|done].
    rewrite walk_buckets_take.
    + cbn [length app]. by rewrite Nat.sub_0_r.
    + intros [k b] p Hkb Hp. cbn [snd] in *. apply elem_of_Iterator in Hkb.
      destruct (tr_buckets _ Hsh k b Hkb) as [Hb _].
      destruct (bk_chain _ _ _ Hb p Hp) as (l & Hl & _). rewrite (bk_mask _ _ _ Hb). by exists l.
Qed.

(** [GetDepth] panics or returns the first levels of [depth_order]. *)
Lemma GetDepth_cases n s :
  tree_shape s →
  (ShardedPriceTreeAdapter.GetDepth n s = None
   ∧ 0 < n ∧ ShardedPriceTreeAdapter.IsEmpty s = false ∧ maxAlloc < PriceLevel_size * n)
  ∨ (ShardedPriceTreeAdapter.GetDepth n s = Some (take (Z.to_nat n) (depth_order s))
     ∧ ¬ (0 < n ∧ ShardedPriceTreeAdapter.IsEmpty s = false
          ∧ maxAlloc < PriceLevel_size * n)).
Proof.
  intros Hsh. rewrite (GetDepth_take n s Hsh). unfold makeslice_ok.
  destruct (Z.ltb_spec 0 n) as [Hn|Hn]; cbn [andb]; [|right; split; [done|lia]].
  destruct (ShardedPriceTreeAdapter.IsEmpty s); cbn [negb andb];
    [right; split; [done|by intros (_ & ? & _)]|].
  replace (0 <=? n) with true by (symmetry; apply Z.leb_le; lia). cbn [andb].
  destruct (Z.leb_spec (PriceLevel_size * n) maxAlloc) as [Hle|Hgt]; cbn [negb].
  - right. split; [done|]. intros (_ & _ & ?). lia.
  - left. done.
Qed.

Lemma boundary_ladder_reach : ladder_reach false boundary_ladder.1.
Proof.
  unfold boundary_ladder. cbv zeta.
  apply reach_remove; [|vm_compute; reflexivity].
  apply reach_insert; [|vm_compute; reflexivity].
  apply reach_insert; [|vm_compute; reflexivity].
  apply reach_insert; [|vm_compute; reflexivity].
  apply reach_new.
Qed.

Lemma head_depth_order s :
  tree_ok s → head (depth_order s) = ShardedPriceTreeAdapter.GetBestLevel s.
Proof.
  intros Hok. destruct (depth_order_spec s (tr_shape _ Hok)) as [Hs He].
  destruct (depth_order s) as [|l0 rest] eqn:E.
  - cbn [head]. unfold ShardedPriceTreeAdapter.GetBestLevel, ShardedPriceTree.GetBestPrice.
    destruct (decide (ShardedPriceTree.buckets s = ∅)) as [Hemp|Hne].
    + by destruct (best_empty _ (tr_shape _ Hok) Hemp) as [_ ->].
    + destruct (best_bucket_nonempty _ (tr_shape _ Hok) Hne) as (k & b & p & HL & _ & _ & Hhd).
      apply Left_Some in HL as [Hk _].
      destruct (tr_buckets _ (tr_shape _ Hok) _ _ Hk) as [Hb _].
      assert (Hp : p ∈ Bucket.chain b) by (destruct (Bucket.chain b); simplify_eq/=; by left).
      destruct (bk_chain _ _ _ Hb _ Hp) as (l & Hl & _).
      assert (Hin : level_in s l) by (by exists k, b, (Z.land p 127)).
      apply He in Hin. by apply elem_of_nil in Hin.
  - cbn [head]. assert (Hl0 : level_in s l0) by (apply He; by left).
    destruct (best_bounds _ _ Hok Hl0) as [Hnz Hbd].
    destruct (best_level _ Hok Hnz) as (lb & Hlb & Hin & Hp & _). rewrite Hlb. f_equal.
    apply He in Hin. apply elem_of_cons in Hin as [->|Hin]; [done|].
    apply StronglySorted_cons in Hs as [Hall _].
    pose proof (proj1 (Forall_forall _ _) Hall lb Hin) as Hlt.
    unfold price_before, better, isBetter in Hlt. rewrite Hp in Hlt.
    destruct (ShardedPriceTree.isBuy s); apply Z.ltb_lt in Hlt; lia.
Qed.

Lemma Size_buckets s :
  ShardedPriceTreeAdapter.Size s = 128 * Z.of_nat (size (ShardedPriceTree.buckets s)).
Proof.
  unfold ShardedPriceTreeAdapter.Size.
  rewrite <- length_map_to_list, <- (Permutation_length (Iterator_perm s)).
  assert (H : ∀ (it : list (Z * Bucket.t)) acc,
            foldl (λ count _, count + 128) acc it = acc + 128 * Z.of_nat (length it)).
  { induction it as [|x it IH]; intros acc; [simpl; lia|].
    cbn [foldl length]. rewrite IH. lia. }
  rewrite H. lia.
Qed.

Lemma price_ranges_dom s :
  tree_shape s → price_ranges s = dom (ShardedPriceTree.buckets s).
Proof.
  intros Hsh. apply set_eq. intros k. unfold price_ranges.
  rewrite elem_of_list_to_set, list_elem_of_fmap, elem_of_dom. split.
  - intros (l & -> & Hl). apply elem_of_levels_of in Hl as (id & b & i & Hid & Hi).
    destruct (tr_buckets _ Hsh _ _ Hid) as [Hb _].
    destruct (bk_levels _ _ _ Hb _ _ Hi) as (_ & -> & _). by exists b.
  - intros [b Hk]. destruct (tr_buckets _ Hsh _ _ Hk) as [Hb Hne].
    destruct (Bucket.chain b) as [|p c] eqn:E; [done|].
    destruct (bk_chain _ _ _ Hb p ltac:(rewrite E; by left)) as (l & Hl & Hlp).
    destruct (bk_levels _ _ _ Hb _ _ Hl) as (_ & Hq & _).
    exists l. split; [done|]. apply elem_of_levels_of. by exists k, b, (Z.land p 127).
Qed.

Lemma StronglySorted_weaken {A} (R R' : relation A) l :
  (∀ x y, R x y → R' x y) → StronglySorted R l → StronglySorted R' l.
Proof.
  intros HR. induction 1 as [|x l Hs IH Hall]; constructor; [done|].
  eapply Forall_impl; [exact Hall|]. intros y. apply HR.
Qed.

Lemma export_sorted isBuy d :
  StronglySorted (price_before isBuy) d →
  StronglySorted (λ x y, better isBuy (OrderBook.Price x) (OrderBook.Price y))
    (OrderBook.export <$> d).
Proof.
  induction 1 as [|x d Hs IH Hall]; [constructor|].
  rewrite fmap_cons. constructor; [done|].
  apply Forall_fmap. eapply Forall_impl; [exact Hall|]. intros y Hy. exact Hy.
Qed.

(** ** The HashMap + list price tree *)

Lemma link_splice pt p c :
  HashMapListPriceTree.link pt p c = Bucket.splice (HashMapListPriceTree.descending pt) p c.
Proof. induction c as [|q c IH]; [done|]. simpl. by rewrite IH. Qed.

Lemma hm_unlink_unlink p c : HashMapListPriceTree.unlink p c = Bucket.unlink p c.
Proof. induction c as [|q c IH]; [done|]. simpl. by rewrite IH. Qed.

Lemma hm_new_ok descending :
  hm_ok (HashMapListPriceTree.NewHashMapListPriceTree descending).
Proof.
  split; simpl.
  - constructor.
  - intros p. rewrite lookup_empty. split; [by intros ?%elem_of_nil|by intros [? ?]].
  - intros p l. by rewrite lookup_empty.
Qed.

Lemma hm_Insert_spec a pt m :
  let o := Mem.load m a in
  let l0 := hm_pushed pt (Order.Price o) (Mem.next_elem m) a (Order.RemainingQuantity o) in
  HashMapListPriceTree.Insert a pt m
  = (HashMapListPriceTree.mk
       (<[Order.Price o := l0]> (HashMapListPriceTree.levels pt))
       (match HashMapListPriceTree.levels pt !! Order.Price o with
        | Some _ => HashMapListPriceTree.chain pt
        | None => Bucket.splice (HashMapListPriceTree.descending pt) (Order.Price o)
                    (HashMapListPriceTree.chain pt)
        end)
       (HashMapListPriceTree.descending pt),
     Mem.update a (Order.with_ListElement (Some (Mem.next_elem m))) (Mem.new_elem m).2).
Proof.
  intros o l0. unfold HashMapListPriceTree.Insert, l0, hm_pushed. fold o.
  destruct (HashMapListPriceTree.levels pt !! Order.Price o) as [l|] eqn:E;
    cbn [Mem.new_elem]; rewrite load_update_eq;
    change (Mem.load {| Mem.heap := Mem.heap m; Mem.next_addr := Mem.next_addr m;
                        Mem.next_elem := S (Mem.next_elem m); Mem.now := Mem.now m |} a)
      with (Mem.load m a); fold o; rewrite remaining_with_ListElement.
  - done.
  - unfold HashMapListPriceTree.with_levels, HashMapListPriceTree.insertPriceLevel.
    cbn [HashMapListPriceTree.levels HashMapListPriceTree.chain HashMapListPriceTree.descending
         PriceLevel_.PushBack PriceLevel_.with_Volume PriceLevel_.Price PriceLevel_.Orders
         PriceLevel_.Volume app].
    rewrite insert_insert_eq, link_splice. done.
Qed.

Lemma hm_Insert_ok a pt m : hm_ok pt → hm_ok (HashMapListPriceTree.Insert a pt m).1.
Proof.
  intros [Hs Hc Hl]. rewrite hm_Insert_spec. cbv zeta. cbn [fst].
  set (p := Order.Price (Mem.load m a)).
  set (l0 := hm_pushed pt p (Mem.next_elem m) a (Order.RemainingQuantity (Mem.load m a))).
  assert (Hl0 : PriceLevel_.Price l0 = p ∧ PriceLevel_.Orders l0 ≠ []).
  { unfold l0, hm_pushed. destruct (HashMapListPriceTree.levels pt !! p) as [l|] eqn:E.
    - destruct (Hl _ _ E) as [-> _]. split; [done|]. simpl. by destruct (PriceLevel_.Orders l).
    - done. }
  split; cbn [HashMapListPriceTree.levels HashMapListPriceTree.chain
              HashMapListPriceTree.descending].
  - destruct (HashMapListPriceTree.levels pt !! p) eqn:E; [done|].
    apply splice_sorted; [done|]. rewrite Hc, E. by intros [? ?].
  - intros q. destruct (decide (q = p)) as [->|Hne].
    + rewrite lookup_insert_eq. split; [by eexists|]. intros _.
      destruct (HashMapListPriceTree.levels pt !! p) eqn:E.
      * apply Hc. by rewrite E.
      * apply elem_of_splice. by left.
    + rewrite lookup_insert_ne by done. rewrite <- Hc.
      destruct (HashMapListPriceTree.levels pt !! p) eqn:E; [done|].
      rewrite elem_of_splice. naive_solver.
  - intros q l. destruct (decide (q = p)) as [->|Hne].
    + rewrite lookup_insert_eq. by intros [= <-].
    + rewrite lookup_insert_ne by done. apply Hl.
Qed.

Lemma hm_Remove_spec a pt m :
  hm_ok pt →
  let o := Mem.load m a in
  match HashMapListPriceTree.levels pt !! Order.Price o with
  | None => HashMapListPriceTree.Remove a pt m = (pt, m)
  | Some l =>
      HashMapListPriceTree.Remove a pt m
      = (if Nat.eqb (length (PriceLevel_.Orders (unlinked l o))) 0
         then HashMapListPriceTree.mk
                (delete (Order.Price o) (HashMapListPriceTree.levels pt))
                (Bucket.unlink (Order.Price o) (HashMapListPriceTree.chain pt))
                (HashMapListPriceTree.descending pt)
         else HashMapListPriceTree.mk
                (<[Order.Price o := unlinked l o]> (HashMapListPriceTree.levels pt))
                (HashMapListPriceTree.chain pt) (HashMapListPriceTree.descending pt),
         unlinked_mem a m)
  end.
Proof.
  intros [Hs Hc Hl] o. unfold HashMapListPriceTree.Remove. fold o.
  destruct (HashMapListPriceTree.levels pt !! Order.Price o) as [l|] eqn:E; [|done].
  destruct (Hl _ _ E) as [Hp _].
  unfold unlinked, unlinked_mem. fold o.
  destruct (Order.ListElement o) as [e|] eqn:Ee.
  - rewrite load_update_eq. fold o. rewrite remaining_with_ListElement.
    cbn [PriceLevel_.RemoveElem PriceLevel_.with_Volume PriceLevel_.Price PriceLevel_.Orders
         PriceLevel_.Volume].
    destruct (Nat.eqb _ 0); [|done].
    unfold HashMapListPriceTree.removePriceLevel, HashMapListPriceTree.with_levels.
    cbn [HashMapListPriceTree.levels HashMapListPriceTree.chain HashMapListPriceTree.descending
         PriceLevel_.Price].
    change (PriceLevel_.Price (PriceLevel_.with_Volume _ (PriceLevel_.RemoveElem e l)))
      with (PriceLevel_.Price l).
    rewrite Hp, delete_insert_eq, hm_unlink_unlink. done.
  - destruct (Nat.eqb _ 0); [|done].
    unfold HashMapListPriceTree.removePriceLevel, HashMapListPriceTree.with_levels.
    cbn [HashMapListPriceTree.levels HashMapListPriceTree.chain HashMapListPriceTree.descending].
    rewrite Hp, delete_insert_eq, hm_unlink_unlink. done.
Qed.

Lemma hm_Remove_ok a pt m : hm_ok pt → hm_ok (HashMapListPriceTree.Remove a pt m).1.
Proof.
  intros Hok. pose proof (hm_Remove_spec a pt m Hok) as Hr. cbv zeta in Hr.
  destruct Hok as [Hs Hc Hl].
  set (p := Order.Price (Mem.load m a)) in *.
  destruct (HashMapListPriceTree.levels pt !! p) as [l|] eqn:E; rewrite Hr; [|done].
  cbn [fst]. destruct (Hl _ _ E) as [Hp Hne].
  assert (Hup : PriceLevel_.Price (unlinked l (Mem.load m a)) = p).
  { unfold unlinked. by destruct (Order.ListElement _). }
  destruct (Nat.eqb_spec (length (PriceLevel_.Orders (unlinked l (Mem.load m a)))) 0) as [Hz|Hnz].
  - split; cbn [HashMapListPriceTree.levels HashMapListPriceTree.chain
                HashMapListPriceTree.descending].
    + by apply unlink_sorted.
    + intros q. rewrite (elem_of_unlink p) by (by eapply sorted_NoDup).
      rewrite Hc. destruct (decide (q = p)) as [->|Hq].
      * rewrite lookup_delete_eq. split; [by intros [_ ?]|by intros [? ?]].
      * rewrite lookup_delete_ne by done. naive_solver.
    + intros q l'. intros [_ Hq]%lookup_delete_Some. by apply Hl.
  - split; cbn [HashMapListPriceTree.levels HashMapListPriceTree.chain
                HashMapListPriceTree.descending]; [done| |].
    + intros q. rewrite Hc. destruct (decide (q = p)) as [->|Hq].
      * rewrite lookup_insert_eq, E. split; by eexists.
      * by rewrite lookup_insert_ne.
    + intros q l'. destruct (decide (q = p)) as [->|Hq].
      * rewrite lookup_insert_eq. intros [= <-]. split; [done|].
        intros Hnil. by rewrite Hnil in Hnz.
      * rewrite lookup_insert_ne by done. apply Hl.
Qed.

Lemma hm_reach_ok descending pt :
  hm_reach descending pt → hm_ok pt ∧ HashMapListPriceTree.descending pt = descending.
Proof.
  induction 1 as [|pt m a _ [IH1 IH2]|pt m a _ [IH1 IH2]].
  - split; [apply hm_new_ok|done].
  - split; [by apply hm_Insert_ok|]. by rewrite hm_Insert_spec.
  - split; [by apply hm_Remove_ok|].
    pose proof (hm_Remove_spec a pt m IH1) as Hr. cbv zeta in Hr.
    destruct (HashMapListPriceTree.levels pt !! Order.Price (Mem.load m a)); rewrite Hr; [|done].
    cbn [fst]. by destruct (Nat.eqb _ 0).
Qed.

Lemma hm_walk_take pt n : ∀ c depth,
  (∀ p, p ∈ c → is_Some (HashMapListPriceTree.levels pt !! p)) →
  HashMapListPriceTree.walk pt c n depth
  = depth ++ take (Z.to_nat n - length depth)
               (omap (λ p, HashMapListPriceTree.levels pt !! p) c).
Proof.
  induction c as [|p c IH]; intros depth Hc.
  - simpl. by rewrite take_nil, app_nil_r.
  - cbn [HashMapListPriceTree.walk omap list_omap].
    destruct (Hc p) as [l Hl]; [by left|]. rewrite Hl.
    destruct (Z.ltb_spec (Z.of_nat (length depth)) n) as [Hlt|Hge].
    + rewrite IH by (intros q Hq; apply Hc; by right).
      rewrite length_app. cbn [length].
      replace (Z.to_nat n - length depth)%nat
        with (S (Z.to_nat n - (length depth + 1)))%nat by lia.
      cbn [take]. by rewrite <- app_assoc.
    + replace (Z.to_nat n - length depth)%nat with 0%nat by lia.
      by rewrite take_0, app_nil_r.
Qed.

Lemma hm_depth_order_spec pt :
  hm_ok pt →
  StronglySorted (price_before (HashMapListPriceTree.descending pt)) (hm_depth_order pt)
  ∧ length (hm_depth_order pt) = length (HashMapListPriceTree.chain pt)
  ∧ ∀ l, l ∈ hm_depth_order pt ↔ ∃ p, HashMapListPriceTree.levels pt !! p = Some l.
Proof.
  intros [Hs Hc Hl]. unfold hm_depth_order.
  assert (Hstep : ∀ c, (∀ p, p ∈ c → p ∈ HashMapListPriceTree.chain pt) →
    StronglySorted (better (HashMapListPriceTree.descending pt)) c →
    StronglySorted (price_before (HashMapListPriceTree.descending pt))
      (omap (λ p, HashMapListPriceTree.levels pt !! p) c)
    ∧ length (omap (λ p, HashMapListPriceTree.levels pt !! p) c) = length c
    ∧ ∀ l, l ∈ omap (λ p, HashMapListPriceTree.levels pt !! p) c
           → PriceLevel_.Price l ∈ c).
  { induction c as [|p c IH]; intros Hsub Hsc.
    - split; [constructor|]. split; [done|]. by intros l ?%elem_of_nil.
    - apply StronglySorted_cons in Hsc as [Hp Hsc].
      destruct IH as (IH1 & IH2 & IH3); [intros q Hq; apply Hsub; by right|done|].
      destruct (proj1 (Hc p)) as [l Hpl]; [apply Hsub; by left|].
      cbn [omap list_omap]. rewrite Hpl. destruct (Hl _ _ Hpl) as [Hlp _].
      split; [|split].
      + apply StronglySorted_cons. split; [|done].
        apply Forall_forall. intros x Hx. unfold price_before. rewrite Hlp.
        eapply Forall_forall in Hp; [done|]. by apply IH3.
      + cbn [length]. by rewrite IH2.
      + intros x [->|Hx]%elem_of_cons; [rewrite Hlp; by left|]. right. by apply IH3. }
  destruct (Hstep _ (λ _ H, H) Hs) as (H1 & H2 & _).
  split; [done|]. split; [done|].
  intros l. rewrite list_elem_of_omap. split.
  - intros (p & _ & Hp). by exists p.
  - intros (p & Hp). exists p. split; [|done]. apply Hc. by rewrite Hp.
Qed.

Lemma hm_Size_chain pt :
  hm_ok pt → HashMapListPriceTree.Size pt = Z.of_nat (length (HashMapListPriceTree.chain pt)).
Proof.
  intros [Hs Hc Hl]. unfold HashMapListPriceTree.Size. f_equal.
  rewrite <- size_dom.
  assert (Hd : dom (HashMapListPriceTree.levels pt)
               = list_to_set (C := gset Z) (HashMapListPriceTree.chain pt)).
  { apply set_eq. intros p. rewrite elem_of_dom, elem_of_list_to_set. by rewrite Hc. }
  rewrite Hd. apply size_list_to_set. by eapply sorted_NoDup.
Qed.

Lemma hm_best pt :
  hm_ok pt →
  match HashMapListPriceTree.chain pt with
  | [] => HashMapListPriceTree.levels pt = ∅
  | q :: _ => ∃ lb, HashMapListPriceTree.GetBestLevel pt = Some lb
                    ∧ PriceLevel_.Price lb = q
                    ∧ ∀ p, is_Some (HashMapListPriceTree.levels pt !! p) →
                        isBetter (HashMapListPriceTree.descending pt) p q = false
  end.
Proof.
  intros [Hs Hc Hl]. unfold HashMapListPriceTree.GetBestLevel, HashMapListPriceTree.bestPrice.
  destruct (HashMapListPriceTree.chain pt) as [|q c] eqn:Ec.
  - apply map_empty. intros p. apply eq_None_not_Some. rewrite <- Hc. by intros ?%elem_of_nil.
  - destruct (proj1 (Hc q)) as [lb Hlb]; [by left|].
    exists lb. cbn [head mbind option_bind]. split; [done|].
    split; [by destruct (Hl _ _ Hlb)|].
    intros p Hp%Hc. by eapply (sorted_head_best _ (q :: c)).
Qed.

Lemma hash_ladder_reach : hm_reach true hash_ladder.1.
Proof.
  unfold hash_ladder. cbv zeta.
  apply hm_remove. apply hm_insert. apply hm_insert. apply hm_insert. apply hm_new.
Qed.

(** ** The two price trees side by side *)

Lemma sorted_ext {A} (R : A → A → Prop) (l1 l2 : list A) :
  (∀ x y, R x y → R y x → False) →
  StronglySorted R l1 → StronglySorted R l2 →
  (∀ x, x ∈ l1 ↔ x ∈ l2) → l1 = l2.
Proof.
  intros Hasym H1. revert l2. induction H1 as [|x l1 H1 IH Hx]; intros l2 H2 He.
  - destruct l2 as [|y l2]; [done|]. exfalso. eapply elem_of_nil, He. by left.
  - destruct H2 as [|y l2 H2 Hy].
    { exfalso. eapply elem_of_nil, He. by left. }
    rewrite Forall_forall in Hx, Hy.
    assert (x = y) as <-.
    { assert (Hxy : x ∈ y :: l2) by (apply He; by left).
      assert (Hyx : y ∈ x :: l1) by (apply He; by left).
      apply elem_of_cons in Hxy as [|Hxy]; [done|].
      apply elem_of_cons in Hyx as [|Hyx]; [done|].
      exfalso. eauto. }
    f_equal. apply IH; [done|]. intros z. split; intros Hz.
    + assert (Hz' : z ∈ x :: l2) by (apply He; by right).
      apply elem_of_cons in Hz' as [->|]; [|done]. exfalso. eauto.
    + assert (Hz' : z ∈ x :: l1) by (apply He; by right).
      apply elem_of_cons in Hz' as [->|]; [|done]. exfalso. eauto.
Qed.

Lemma agree_new descending :
  agree (ShardedPriceTreeAdapter.NewShardedPriceTreeFromInterface descending 128)
        (HashMapListPriceTree.NewHashMapListPriceTree descending).
Proof.
  split.
  - apply new_tree_ok.
  - apply hm_new_ok.
  - done.
  - intros p _. done.
  - intros p [? H]. simpl in H. by rewrite lookup_empty in H.
Qed.

(** Two well-formed ladders whose levels are described by the same
    predicate answer [level_at] alike. *)
Lemma level_at_Some_iff s q x :
  tree_shape s → 0 < q →
  ShardedPriceTree.level_at s q = Some x ↔ level_in s x ∧ PriceLevel_.Price x = q.
Proof.
  intros Hs Hq. split.
  - intros H. destruct (level_at_price _ Hs _ _ Hq H). done.
  - intros [Hx <-]. by apply (level_in_at _ Hs) in Hx as [_ ?].
Qed.

Lemma agree_level_in s pt x :
  agree s pt → level_in s x ↔ ∃ p, HashMapListPriceTree.levels pt !! p = Some x.
Proof.
  intros [Hok Hhm Hside Hlv Hpos]. rewrite (level_in_at _ (tr_shape _ Hok)). split.
  - intros [Hp Hx]. exists (PriceLevel_.Price x). by rewrite <- Hlv.
  - intros [p Hp]. destruct (hm_levels _ Hhm _ _ Hp) as [<- _].
    assert (0 < PriceLevel_.Price x) by (apply Hpos; by rewrite Hp).
    split; [done|]. by rewrite Hlv.
Qed.

Lemma agree_Insert a s pt m :
  agree s pt → 0 < Order.Price (Mem.load m a) →
  agree (ShardedPriceTreeAdapter.Insert a s m).1 (HashMapListPriceTree.Insert a pt m).1
  ∧ (ShardedPriceTreeAdapter.Insert a s m).2 = (HashMapListPriceTree.Insert a pt m).2.
Proof.
  intros Hag Hp. pose proof Hag as [Hok Hhm Hside Hlv Hpos].
  destruct (Insert_spec a s m Hok Hp) as (s' & -> & Hok' & Hbuy & Hl0p & Hin).
  pose proof (hm_Insert_ok a pt m Hhm) as Hhm'.
  rewrite hm_Insert_spec in *. cbv zeta in *. cbn [fst snd] in *.
  set (p := Order.Price (Mem.load m a)) in *.
  assert (Hpush : pushed s p (Mem.next_elem m) a (Order.RemainingQuantity (Mem.load m a))
                  = hm_pushed pt p (Mem.next_elem m) a (Order.RemainingQuantity (Mem.load m a))).
  { unfold pushed, hm_pushed. by rewrite Hlv. }
  rewrite Hpush in *.
  set (l0 := hm_pushed pt p (Mem.next_elem m) a (Order.RemainingQuantity (Mem.load m a))) in *.
  split; [|done]. split; [done|done|by rewrite Hbuy| |]; cbn [HashMapListPriceTree.levels].
  - intros q Hq. destruct (decide (q = p)) as [->|Hne].
    + rewrite lookup_insert_eq. apply (level_at_Some_iff _ _ _ (tr_shape _ Hok') Hq).
      split; [|done]. apply Hin. by left.
    + rewrite lookup_insert_ne by done. rewrite <- Hlv by done.
      destruct (ShardedPriceTree.level_at s q) as [x|] eqn:E.
      * apply (level_at_Some_iff _ _ _ (tr_shape _ Hok) Hq) in E as [Hx Hxq].
        apply (level_at_Some_iff _ _ _ (tr_shape _ Hok') Hq). split; [|done].
        apply Hin. right. split; [done|].
        intros [_ Hxp]%(level_at_Some_iff _ _ _ (tr_shape _ Hok) Hp). congruence.
      * apply eq_None_not_Some. intros [x Hx].
        apply (level_at_Some_iff _ _ _ (tr_shape _ Hok') Hq) in Hx as [Hx Hxq].
        apply Hin in Hx as [->|[Hx _]]; [congruence|].
        assert (ShardedPriceTree.level_at s q = Some x)
          by (by apply (level_at_Some_iff _ _ _ (tr_shape _ Hok) Hq)).
        congruence.
  - intros q. destruct (decide (q = p)) as [->|Hne]; [done|].
    rewrite lookup_insert_ne by done. apply Hpos.
Qed.

Lemma agree_Remove a s pt m :
  agree s pt → 0 < Order.Price (Mem.load m a) →
  agree (ShardedPriceTreeAdapter.Remove a s m).1 (HashMapListPriceTree.Remove a pt m).1
  ∧ (ShardedPriceTreeAdapter.Remove a s m).2 = (HashMapListPriceTree.Remove a pt m).2.
Proof.
  intros Hag Hp. pose proof Hag as [Hok Hhm Hside Hlv Hpos].
  pose proof (Remove_spec a s m Hok Hp) as Hr. cbv zeta in Hr.
  pose proof (hm_Remove_spec a pt m Hhm) as Hh. cbv zeta in Hh.
  pose proof (hm_Remove_ok a pt m Hhm) as Hhm'.
  set (p := Order.Price (Mem.load m a)) in *.
  rewrite (Hlv p Hp) in Hr.
  destruct (HashMapListPriceTree.levels pt !! p) as [l|] eqn:E.
  2:{ rewrite Hr, Hh. done. }
  destruct Hr as (s' & Hr & Hok' & Hbuy & Hin). rewrite Hr, Hh in *. cbn [fst snd] in *.
  split; [|done].
  assert (Hl : level_in s l ∧ PriceLevel_.Price l = p).
  { apply (level_at_Some_iff _ _ _ (tr_shape _ Hok) Hp). by rewrite Hlv. }
  assert (Hup : PriceLevel_.Price (unlinked l (Mem.load m a)) = p).
  { unfold unlinked. destruct (Order.ListElement _); [apply Hl|apply Hl]. }
  assert (Hside' : ShardedPriceTree.isBuy s'
    = HashMapListPriceTree.descending
        (if Nat.eqb (length (PriceLevel_.Orders (unlinked l (Mem.load m a)))) 0
         then HashMapListPriceTree.mk (delete p (HashMapListPriceTree.levels pt))
                (Bucket.unlink p (HashMapListPriceTree.chain pt))
                (HashMapListPriceTree.descending pt)
         else HashMapListPriceTree.mk
                (<[p := unlinked l (Mem.load m a)]> (HashMapListPriceTree.levels pt))
                (HashMapListPriceTree.chain pt) (HashMapListPriceTree.descending pt))).
  { rewrite Hbuy, Hside. by destruct (Nat.eqb _ 0). }
  assert (Hother : ∀ q, 0 < q → q ≠ p →
            ShardedPriceTree.level_at s' q = ShardedPriceTree.level_at s q).
  { intros q Hq Hne. destruct (ShardedPriceTree.level_at s q) as [x|] eqn:Eq.
    - apply (level_at_Some_iff _ _ _ (tr_shape _ Hok) Hq) in Eq as [Hx Hxq].
      apply (level_at_Some_iff _ _ _ (tr_shape _ Hok') Hq). split; [|done].
      apply Hin. right. split; [done|]. intros ->. destruct Hl. congruence.
    - apply eq_None_not_Some. intros [x Hx].
      apply (level_at_Some_iff _ _ _ (tr_shape _ Hok') Hq) in Hx as [Hx Hxq].
      apply Hin in Hx as [[-> _]|[Hx _]]; [congruence|].
      assert (ShardedPriceTree.level_at s q = Some x)
        by (by apply (level_at_Some_iff _ _ _ (tr_shape _ Hok) Hq)).
      congruence. }
  split; [done|done|done| |].
  - intros q Hq. destruct (decide (q = p)) as [->|Hne].
    + destruct (Nat.eqb_spec (length (PriceLevel_.Orders (unlinked l (Mem.load m a)))) 0)
        as [Hz|Hnz]; cbn [HashMapListPriceTree.levels].
      * rewrite lookup_delete_eq. apply eq_None_not_Some. intros [x Hx].
        apply (level_at_Some_iff _ _ _ (tr_shape _ Hok') Hq) in Hx as [Hx Hxq].
        apply Hin in Hx as [[-> Hne]|[Hx Hxl]].
        -- by destruct (PriceLevel_.Orders (unlinked l (Mem.load m a))).
        -- apply Hxl. apply (level_in_inj _ (tr_shape _ Hok)); [done|apply Hl|].
           destruct Hl. congruence.
      * rewrite lookup_insert_eq.
        apply (level_at_Some_iff _ _ _ (tr_shape _ Hok') Hq). split; [|done].
        apply Hin. left. split; [done|]. intros Hnil. by rewrite Hnil in Hnz.
    + rewrite (Hother q Hq Hne), (Hlv q Hq).
      destruct (Nat.eqb _ 0); cbn [HashMapListPriceTree.levels].
      * by rewrite lookup_delete_ne.
      * by rewrite lookup_insert_ne.
  - intros q. destruct (Nat.eqb _ 0); cbn [HashMapListPriceTree.levels].
    + intros [x [_ Hx]%lookup_delete_Some]. apply Hpos. by rewrite Hx.
    + destruct (decide (q = p)) as [->|Hne]; [done|].
      rewrite lookup_insert_ne by done. apply Hpos.
Qed.

Lemma same_ladder_agree descending s pt :
  same_ladder descending s pt → agree s pt ∧ ShardedPriceTree.isBuy s = descending.
Proof.
  induction 1 as [|s pt m a _ [IH Hd] Hp|s pt m a _ [IH Hd] Hp].
  - split; [apply agree_new|done].
  - split; [by apply agree_Insert|].
    destruct (Insert_spec a s m (ag_tree _ _ IH) Hp) as (s' & -> & _ & Hbuy & _).
    cbn [fst]. congruence.
  - split; [by apply agree_Remove|].
    pose proof (Remove_spec a s m (ag_tree _ _ IH) Hp) as Hr. cbv zeta in Hr.
    destruct (ShardedPriceTree.level_at s _); [|by rewrite Hr].
    destruct Hr as (s' & -> & _ & Hbuy & _). cbn [fst]. congruence.
Qed.

Lemma agree_depth_order s pt : agree s pt → depth_order s = hm_depth_order pt.
Proof.
  intros Hag. pose proof Hag as [Hok Hhm Hside Hlv Hpos].
  destruct (depth_order_spec s (tr_shape _ Hok)) as [Hs He].
  destruct (hm_depth_order_spec pt Hhm) as (Hs' & _ & He'). rewrite <- Hside in Hs'.
  eapply sorted_ext; [|done|done|].
  - intros x y. unfold price_before. apply better_asym.
  - intros x. by rewrite He, He', (agree_level_in s pt x Hag).
Qed.

Lemma hm_head_depth_order pt :
  hm_ok pt → head (hm_depth_order pt) = HashMapListPriceTree.GetBestLevel pt.
Proof.
  intros Hhm. pose proof (hm_best pt Hhm) as Hb.
  unfold hm_depth_order, HashMapListPriceTree.GetBestLevel, HashMapListPriceTree.bestPrice in *.
  destruct (HashMapListPriceTree.chain pt) as [|q c]; [done|].
  destruct Hb as (lb & Hlb & _). cbn [head mbind option_bind omap list_omap] in *.
  by rewrite Hlb.
Qed.

Lemma hm_GetDepth_take pt n :
  hm_ok pt →
  HashMapListPriceTree.GetDepth n pt
  = if negb (HashMapListPriceTree.IsEmpty pt) && negb (makeslice_ok PriceLevel_size n)
    then None else Some (take (Z.to_nat n) (hm_depth_order pt)).
Proof.
  intros Hhm. unfold HashMapListPriceTree.GetDepth, HashMapListPriceTree.IsEmpty,
    HashMapListPriceTree.bestPrice.
  assert (Hw : HashMapListPriceTree.walk pt (HashMapListPriceTree.chain pt) n []
               = take (Z.to_nat n) (hm_depth_order pt)).
  { rewrite hm_walk_take by (intros p Hp; by apply (hm_chain _ Hhm)).
    cbn [app length]. by rewrite Nat.sub_0_r. }
  unfold hm_depth_order in *.
  destruct (HashMapListPriceTree.chain pt) as [|q c]; cbn [head negb andb].
  - cbn [omap list_omap]. by rewrite take_nil.
  - destruct (makeslice_ok PriceLevel_size n); cbn [negb]; [by rewrite Hw|done].
Qed.

Lemma GetBestPrice_head s :
  tree_ok s →
  ShardedPriceTreeAdapter.GetBestPrice s
  = match ShardedPriceTreeAdapter.GetBestLevel s with
    | None => 0
    | Some l => PriceLevel_.Price l
    end.
Proof.
  intros Hok.
  destruct (decide (ShardedPriceTreeAdapter.GetBestPrice s = 0)) as [Hz|Hnz].
  - rewrite Hz. destruct (ShardedPriceTreeAdapter.GetBestLevel s) as [l|] eqn:E; [|done].
    rewrite <- (head_depth_order s Hok) in E.
    destruct (depth_order_spec s (tr_shape _ Hok)) as [_ He].
    assert (Hl : level_in s l).
    { apply He. destruct (depth_order s); simplify_eq/=. by left. }
    by destruct (best_bounds _ _ Hok Hl).
  - destruct (best_level _ Hok Hnz) as (l & -> & _ & Hp & _). done.
Qed.

Lemma IsEmpty_depth_order s :
  tree_ok s → ShardedPriceTreeAdapter.IsEmpty s = true ↔ depth_order s = [].
Proof.
  intros Hok. unfold ShardedPriceTreeAdapter.IsEmpty. rewrite bool_decide_eq_true.
  destruct (depth_order_spec s (tr_shape _ Hok)) as [_ He]. split.
  - intros Hemp. destruct (depth_order s) as [|l r] eqn:E; [done|].
    assert (Hl : level_in s l) by (apply He; by left).
    destruct Hl as (id & b & i & Hb & _). by rewrite Hemp, lookup_empty in Hb.
  - intros Hnil. destruct (decide (ShardedPriceTree.buckets s = ∅)) as [|Hne]; [done|].
    destruct (best_bucket_nonempty _ (tr_shape _ Hok) Hne) as (k & b & p & HL & _ & _ & Hhd).
    apply Left_Some in HL as [Hk _].
    destruct (tr_buckets _ (tr_shape _ Hok) _ _ Hk) as [Hb _].
    assert (Hp : p ∈ Bucket.chain b) by (destruct (Bucket.chain b); simplify_eq/=; by left).
    destruct (bk_chain _ _ _ Hb _ Hp) as (l & Hl & _).
    assert (Hin : level_in s l) by (by exists k, b, (Z.land p 127)).
    apply He in Hin. rewrite Hnil in Hin. by apply elem_of_nil in Hin.
Qed.

Lemma boundary_ladders_same : same_ladder false boundary_ladder.1 boundary_hash_ladder.1.
Proof.
  unfold boundary_ladder, boundary_hash_ladder. cbv zeta.
  set (s0 := ShardedPriceTreeAdapter.NewShardedPriceTreeFromInterface false 128).
  set (p0 := HashMapListPriceTree.NewHashMapListPriceTree false).
  assert (H0 : same_ladder false s0 p0) by apply same_new.
  assert (P0 : 0 < Order.Price (Mem.load boundary_orders 0)) by (vm_compute; reflexivity).
  pose proof (same_insert false s0 p0 boundary_orders 0%nat H0 P0) as H1.
  destruct (agree_Insert 0 s0 p0 boundary_orders
              (proj1 (same_ladder_agree _ _ _ H0)) P0) as [_ E1].
  change (s0, boundary_orders).1 with s0. change (s0, boundary_orders).2 with boundary_orders.
  change (p0, boundary_orders).1 with p0. change (p0, boundary_orders).2 with boundary_orders.
  set (S1 := ShardedPriceTreeAdapter.Insert 0 s0 boundary_orders) in *.
  set (Q1 := HashMapListPriceTree.Insert 0 p0 boundary_orders) in *.
  rewrite <- E1.
  assert (P1 : 0 < Order.Price (Mem.load S1.2 1)) by (vm_compute; reflexivity).
  pose proof (same_insert false S1.1 Q1.1 S1.2 1%nat H1 P1) as H2.
  destruct (agree_Insert 1 S1.1 Q1.1 S1.2 (proj1 (same_ladder_agree _ _ _ H1)) P1) as [_ E2].
  set (S2 := ShardedPriceTreeAdapter.Insert 1 S1.1 S1.2) in *.
  set (Q2 := HashMapListPriceTree.Insert 1 Q1.1 S1.2) in *.
  rewrite <- E2.
  assert (P2 : 0 < Order.Price (Mem.load S2.2 2)) by (vm_compute; reflexivity).
  pose proof (same_insert false S2.1 Q2.1 S2.2 2%nat H2 P2) as H3.
  destruct (agree_Insert 2 S2.1 Q2.1 S2.2 (proj1 (same_ladder_agree _ _ _ H2)) P2) as [_ E3].
  set (S3 := ShardedPriceTreeAdapter.Insert 2 S2.1 S2.2) in *.
  set (Q3 := HashMapListPriceTree.Insert 2 Q2.1 S2.2) in *.
  rewrite <- E3.
  apply same_remove; [done|]. vm_compute; reflexivity.
Qed.

(** ** The matching thread *)

(** Matching does not look at the order queue. *)
Lemma matchBuy_with_orderBuffer rb b : ∀ fuel trades me m,
  MatchingEngine.matchBuyOrder_loop fuel b trades (MatchingEngine.with_orderBuffer rb me) m
  = (λ r : list Trade.t * MatchingEngine.t * Mem.t,
       (r.1.1, MatchingEngine.with_orderBuffer rb r.1.2, r.2))
    <$> MatchingEngine.matchBuyOrder_loop fuel b trades me m.
Proof.
  induction fuel as [|fuel IH]; intros trades me m; [done|].
  cbn [MatchingEngine.matchBuyOrder_loop].
  change (MatchingEngine.orderBook (MatchingEngine.with_orderBuffer rb me))
    with (MatchingEngine.orderBook me).
  destruct (Order.IsFilled _); [done|].
  destruct (_ || _); [done|].
  destruct (OrderBook.GetBestSellLevel _) as [l|]; [|done].
  destruct (PriceLevel_.Orders l) as [|[h s] ?]; [done|].
  unfold MatchingEngine.executeTrade.
  change (MatchingEngine.tradeIDGen (MatchingEngine.with_orderBuffer rb me))
    with (MatchingEngine.tradeIDGen me).
  destruct (IDGenerator.Next (MatchingEngine.tradeIDGen me)) as [id g].
  destruct (Order.IsFilled _).
  - unfold MatchingEngine.cancel.
    change (MatchingEngine.orderBook (MatchingEngine.with_tradeIDGen g
              (MatchingEngine.with_orderBuffer rb me)))
      with (MatchingEngine.orderBook (MatchingEngine.with_tradeIDGen g me)).
    destruct (OrderBook.CancelOrder _ _ _) as [ob m'].
    apply (IH _ (MatchingEngine.with_orderBook ob (MatchingEngine.with_tradeIDGen g me))).
  - apply (IH _ (MatchingEngine.with_tradeIDGen g me)).
Qed.

Lemma matchSell_with_orderBuffer rb b : ∀ fuel trades me m,
  MatchingEngine.matchSellOrder_loop fuel b trades (MatchingEngine.with_orderBuffer rb me) m
  = (λ r : list Trade.t * MatchingEngine.t * Mem.t,
       (r.1.1, MatchingEngine.with_orderBuffer rb r.1.2, r.2))
    <$> MatchingEngine.matchSellOrder_loop fuel b trades me m.
Proof.
  induction fuel as [|fuel IH]; intros trades me m; [done|].
  cbn [MatchingEngine.matchSellOrder_loop].
  change (MatchingEngine.orderBook (MatchingEngine.with_orderBuffer rb me))
    with (MatchingEngine.orderBook me).
  destruct (Order.IsFilled _); [done|].
  destruct (_ || _); [done|].
  destruct (OrderBook.GetBestBuyLevel _) as [l|]; [|done].
  destruct (PriceLevel_.Orders l) as [|[h s] ?]; [done|].
  unfold MatchingEngine.executeTrade.
  change (MatchingEngine.tradeIDGen (MatchingEngine.with_orderBuffer rb me))
    with (MatchingEngine.tradeIDGen me).
  destruct (IDGenerator.Next (MatchingEngine.tradeIDGen me)) as [id g].
  destruct (Order.IsFilled _).
  - unfold MatchingEngine.cancel.
    change (MatchingEngine.orderBook (MatchingEngine.with_tradeIDGen g
              (MatchingEngine.with_orderBuffer rb me)))
      with (MatchingEngine.orderBook (MatchingEngine.with_tradeIDGen g me)).
    destruct (OrderBook.CancelOrder _ _ _) as [ob m'].
    apply (IH _ (MatchingEngine.with_orderBook ob (MatchingEngine.with_tradeIDGen g me))).
  - apply (IH _ (MatchingEngine.with_tradeIDGen g me)).
Qed.

Lemma processOrder_with_orderBuffer rb fuel b me m :
  MatchingEngine.processOrder fuel b (MatchingEngine.with_orderBuffer rb me) m
  = (λ r : list Trade.t * MatchingEngine.t * Mem.t,
       (r.1.1, MatchingEngine.with_orderBuffer rb r.1.2, r.2))
    <$> MatchingEngine.processOrder fuel b me m.
Proof.
  unfold MatchingEngine.processOrder, MatchingEngine.matchBuyOrder,
    MatchingEngine.matchSellOrder.
  destruct (Order.Side (Mem.load m b) =? SideBuy).
  - rewrite matchBuy_with_orderBuffer.
    destruct (MatchingEngine.matchBuyOrder_loop fuel b [] me m) as [[[tr me1] m1]|]; [|done].
    cbn [fmap option_fmap option_map mbind option_bind fst snd].
    destruct (negb _ && _); [|done].
    change (MatchingEngine.orderBook (MatchingEngine.with_orderBuffer rb me1))
      with (MatchingEngine.orderBook me1).
    by destruct (OrderBook.AddOrder _ _ _).
  - rewrite matchSell_with_orderBuffer.
    destruct (MatchingEngine.matchSellOrder_loop fuel b [] me m) as [[[tr me1] m1]|]; [|done].
    cbn [fmap option_fmap option_map mbind option_bind fst snd].
    destruct (negb _ && _); [|done].
    change (MatchingEngine.orderBook (MatchingEngine.with_orderBuffer rb me1))
      with (MatchingEngine.orderBook me1).
    by destruct (OrderBook.AddOrder _ _ _).
Qed.

Lemma publish_all_list trades rb : MatchingEngine.publish_all trades rb = publish_list trades rb.
Proof. revert rb. induction trades as [|t trades IH]; intros rb; [done|]. simpl.
  destruct (RingBuffer.Publish t rb); [apply IH|done]. Qed.

Lemma publish_list_full {T} size : ∀ (xs : list T) q rb,
  rb_holds size q rb → size < Z.of_nat (length q) + Z.of_nat (length xs) →
  RingBuffer.writeSeq rb + Z.of_nat (length xs) < 2 ^ 63 →
  publish_list xs rb = None.
Proof.
  induction xs as [|x xs IH]; intros q rb Hh Hlen Hw.
  - pose proof (rh_count _ _ _ Hh). cbn [length] in Hlen. lia.
  - cbn [length publish_list] in *.
    destruct (decide (Z.of_nat (length q) = size)) as [Hfull|Hroom].
    + by rewrite (Publish_full size q rb x Hh Hfull).
    + pose proof (rh_count _ _ _ Hh).
      destruct (Publish_holds size q rb x Hh) as (rb1 & Hp & Hh1 & Hw1); [lia|lia|].
      rewrite Hp. cbn [mbind option_bind]. apply (IH (q ++ [x]) rb1 Hh1).
      * rewrite length_app. cbn [length]. lia.
      * lia.
Qed.

Lemma new_engine_queues symbol me :
  MatchingEngine.NewMatchingEngine symbol = Some me →
  rb_holds 65536 [] (MatchingEngine.orderBuffer me)
  ∧ rb_holds 65536 [] (MatchingEngine.tradeBuffer me)
  ∧ MatchingEngine.cancelChan me = []
  ∧ MatchingEngine.symbol me = symbol
  ∧ MatchingEngine.orderBook me = OrderBook.NewOrderBook symbol.
Proof.
  unfold MatchingEngine.NewMatchingEngine, NewRingBufferSemaphoreBatchSafe,
    NewTradeRingBufferBatchSafe.
  destruct (RingBuffer.New (T:=nat) 65536) as [ob|] eqn:Eo; [|done].
  destruct (RingBuffer.New (T:=Trade.t) 65536) as [tb|] eqn:Et; [|done].
  cbn [mbind option_bind]. intros [= <-].
  cbn [MatchingEngine.orderBuffer MatchingEngine.tradeBuffer MatchingEngine.cancelChan
       MatchingEngine.symbol MatchingEngine.orderBook].
  split; [by apply New_holds|]. split; [by apply New_holds|]. done.
Qed.

Lemma SubmitOrder_holds order me q :
  rb_holds 65536 q (MatchingEngine.orderBuffer me) →
  Z.of_nat (length q) < 65536 →
  RingBuffer.writeSeq (MatchingEngine.orderBuffer me) + 1 < 2 ^ 63 →
  ∃ rb, MatchingEngine.SubmitOrder order me = Some (MatchingEngine.with_orderBuffer rb me)
        ∧ rb_holds 65536 (q ++ [order]) rb.
Proof.
  intros Hq Hlen Hw. unfold MatchingEngine.SubmitOrder.
  destruct (Publish_holds 65536 q _ order Hq Hlen Hw) as (rb & -> & Hrb & _).
  by exists rb.
Qed.

Lemma two_asks_submitted_ready :
  MatchingEngine.cancelChan two_asks_submitted = []
  ∧ rb_holds 65536 [2%nat] (MatchingEngine.orderBuffer two_asks_submitted)
  ∧ rb_holds 65536 [] (MatchingEngine.tradeBuffer two_asks_submitted)
  ∧ engine_inv (MatchingEngine.orderBook two_asks_submitted) two_asks.2
  ∧ incoming_ok (MatchingEngine.orderBook two_asks_submitted) two_asks.2 2
  ∧ MatchingEngine.processOrder 16 2 two_asks_submitted two_asks.2
    = Some (two_asks_turn.1.1, two_asks_turn.1.2, two_asks_turn.2).
Proof.
  destruct (new_engine_queues _ _ new_engine_some) as (Ho & Ht & Hc & _).
  destruct two_asks_ready as (Hinv & Hin & _).
  destruct (SubmitOrder_holds 2 two_asks.1 [] Ho) as (rb & Hs & Hrb).
  { simpl. lia. }
  { vm_compute. reflexivity. }
  unfold two_asks_turn, two_asks_submitted. rewrite Hs. cbn [default].
  split; [exact Hc|]. split; [exact Hrb|]. split; [exact Ht|].
  split; [exact Hinv|]. split; [exact Hin|].
  apply (processOrder_run 16 2 (MatchingEngine.with_orderBuffer rb two_asks.1) two_asks.2 Hinv Hin).
  change (resting_set (MatchingEngine.orderBook (MatchingEngine.with_orderBuffer rb two_asks.1)))
    with (resting_set (MatchingEngine.orderBook two_asks.1)).
  vm_compute. reflexivity.
Qed.

(** ** The exchange *)

Lemma matchBuy_symbol b : ∀ fuel trades me m r,
  MatchingEngine.matchBuyOrder_loop fuel b trades me m = Some r →
  MatchingEngine.symbol r.1.2 = MatchingEngine.symbol me.
Proof.
  induction fuel as [|fuel IH]; intros trades me m r; [done|].
  cbn [MatchingEngine.matchBuyOrder_loop].
  destruct (Order.IsFilled _); [by intros [= <-]|].
  destruct (_ || _); [by intros [= <-]|].
  destruct (OrderBook.GetBestSellLevel _) as [l|]; [|by intros [= <-]].
  destruct (PriceLevel_.Orders l) as [|[h s] ?]; [by intros [= <-]|].
  unfold MatchingEngine.executeTrade.
  destruct (IDGenerator.Next (MatchingEngine.tradeIDGen me)) as [id g].
  destruct (Order.IsFilled _).
  - unfold MatchingEngine.cancel. destruct (OrderBook.CancelOrder _ _ _) as [ob m'].
    intros Hr. by rewrite (IH _ _ _ _ Hr).
  - intros Hr. by rewrite (IH _ _ _ _ Hr).
Qed.

Lemma matchSell_symbol b : ∀ fuel trades me m r,
  MatchingEngine.matchSellOrder_loop fuel b trades me m = Some r →
  MatchingEngine.symbol r.1.2 = MatchingEngine.symbol me.
Proof.
  induction fuel as [|fuel IH]; intros trades me m r; [done|].
  cbn [MatchingEngine.matchSellOrder_loop].
  destruct (Order.IsFilled _); [by intros [= <-]|].
  destruct (_ || _); [by intros [= <-]|].
  destruct (OrderBook.GetBestBuyLevel _) as [l|]; [|by intros [= <-]].
  destruct (PriceLevel_.Orders l) as [|[h s] ?]; [by intros [= <-]|].
  unfold MatchingEngine.executeTrade.
  destruct (IDGenerator.Next (MatchingEngine.tradeIDGen me)) as [id g].
  destruct (Order.IsFilled _).
  - unfold MatchingEngine.cancel. destruct (OrderBook.CancelOrder _ _ _) as [ob m'].
    intros Hr. by rewrite (IH _ _ _ _ Hr).
  - intros Hr. by rewrite (IH _ _ _ _ Hr).
Qed.

Lemma processOrder_symbol fuel b me m r :
  MatchingEngine.processOrder fuel b me m = Some r →
  MatchingEngine.symbol r.1.2 = MatchingEngine.symbol me.
Proof.
  unfold MatchingEngine.processOrder, MatchingEngine.matchBuyOrder,
    MatchingEngine.matchSellOrder.
  destruct (Order.Side (Mem.load m b) =? SideBuy).
  - destruct (MatchingEngine.matchBuyOrder_loop fuel b [] me m) as [[[tr me1] m1]|] eqn:E;
      [|done].
    apply matchBuy_symbol in E. cbn [mbind option_bind fst snd] in *.
    destruct (negb _ && _); [|by intros [= <-]].
    destruct (OrderBook.AddOrder _ _ _). by intros [= <-].
  - destruct (MatchingEngine.matchSellOrder_loop fuel b [] me m) as [[[tr me1] m1]|] eqn:E;
      [|done].
    apply matchSell_symbol in E. cbn [mbind option_bind fst snd] in *.
    destruct (negb _ && _); [|by intros [= <-]].
    destruct (OrderBook.AddOrder _ _ _). by intros [= <-].
Qed.

Lemma turn_symbol fuel cb me m cb' me' m' :
  MatchingEngine.turn fuel cb me m = Some (cb', me', m') →
  MatchingEngine.symbol me' = MatchingEngine.symbol me.
Proof.
  unfold MatchingEngine.turn. destruct (MatchingEngine.cancelChan me) as [|id rest].
  - destruct (RingBuffer.Consume cb _) as [[[x cb1] rb]|]; [|done]. cbn [mbind option_bind].
    destruct x as [order|]; [|done]. cbn [mbind option_bind].
    destruct (MatchingEngine.processOrder fuel order _ m) as [[[tr me1] m1]|] eqn:E; [|done].
    apply processOrder_symbol in E. cbn [mbind option_bind fst snd] in *.
    destruct (MatchingEngine.publish_all _ _); [|done]. by intros [= _ <- _].
  - unfold MatchingEngine.cancel. destruct (OrderBook.CancelOrder _ _ _) as [ob m1].
    by intros [= _ <- _].
Qed.

Lemma NewMatchingEngine_symbol symbol me :
  MatchingEngine.NewMatchingEngine symbol = Some me → MatchingEngine.symbol me = symbol.
Proof. intros H. by destruct (new_engine_queues _ _ H) as (_ & _ & _ & ? & _). Qed.

Lemma GetEngine_spec symbol e me e' :
  ExchangeEngine.GetEngine symbol e = Some (me, e') →
  ExchangeEngine.engines e' !! symbol = Some me
  ∧ (∀ s, s ≠ symbol → ExchangeEngine.engines e' !! s = ExchangeEngine.engines e !! s)
  ∧ (ExchangeEngine.engines e !! symbol = Some me ∧ e' = e
     ∨ ExchangeEngine.engines e !! symbol = None
       ∧ MatchingEngine.NewMatchingEngine symbol = Some me).
Proof.
  unfold ExchangeEngine.GetEngine.
  destruct (ExchangeEngine.engines e !! symbol) as [me0|] eqn:E.
  - intros [= <- <-]. split; [done|]. split; [done|]. by left.
  - destruct (MatchingEngine.NewMatchingEngine symbol) as [me0|]; [|done].
    cbn [mbind option_bind]. intros [= <- <-]. cbn [ExchangeEngine.engines].
    split; [by rewrite lookup_insert_eq|].
    split; [intros s Hs; by rewrite lookup_insert_ne|]. by right.
Qed.

Lemma exchange_keys e :
  exchange_reach e →
  ∀ s me, ExchangeEngine.engines e !! s = Some me → MatchingEngine.symbol me = s.
Proof.
  induction 1 as [|symbol e me e' _ IH Hg|order m e e' _ IH Hs|symbol id e e' _ IH Hc
                 |symbol e me fuel cb m cb' me' m' _ IH Hme Ht]; intros s me0.
  - cbn [ExchangeEngine.NewExchangeEngine ExchangeEngine.engines]. by rewrite lookup_empty.
  - destruct (GetEngine_spec _ _ _ _ Hg) as (H1 & H2 & [[H3 ->]|[H3 H4]]); [apply IH|].
    destruct (decide (s = symbol)) as [->|Hne].
    + rewrite H1. intros [= <-]. by apply NewMatchingEngine_symbol.
    + rewrite H2 by done. apply IH.
  - unfold ExchangeEngine.SubmitOrder in Hs. cbv zeta in Hs.
    destruct (ExchangeEngine.GetEngine _ e) as [[me1 e1]|] eqn:Hg; [|done].
    cbn [mbind option_bind] in Hs. unfold MatchingEngine.SubmitOrder in Hs.
    destruct (RingBuffer.Publish order _) as [rb|]; [|done].
    cbn [mbind option_bind] in Hs. injection Hs as <-. cbn [ExchangeEngine.engines].
    destruct (GetEngine_spec _ _ _ _ Hg) as (H1 & H2 & H3).
    destruct (decide (s = Order.Symbol (Mem.load m order))) as [->|Hne].
    + rewrite lookup_insert_eq. intros [= <-]. cbn [MatchingEngine.symbol MatchingEngine.with_orderBuffer].
      destruct H3 as [[H3 _]|[_ H3]]; [by apply IH|by apply NewMatchingEngine_symbol].
    + rewrite lookup_insert_ne, H2 by done. apply IH.
  - unfold ExchangeEngine.CancelOrder in Hc.
    destruct (ExchangeEngine.GetEngine _ e) as [[me1 e1]|] eqn:Hg; [|done].
    cbn [mbind option_bind] in Hc. unfold MatchingEngine.CancelOrder in Hc.
    destruct (_ <? _)%nat; [|done].
    cbn [mbind option_bind] in Hc. injection Hc as <-. cbn [ExchangeEngine.engines].
    destruct (GetEngine_spec _ _ _ _ Hg) as (H1 & H2 & H3).
    destruct (decide (s = symbol)) as [->|Hne].
    + rewrite lookup_insert_eq. intros [= <-]. cbn [MatchingEngine.symbol MatchingEngine.with_cancelChan].
      destruct H3 as [[H3 _]|[_ H3]]; [by apply IH|by apply NewMatchingEngine_symbol].
    + rewrite lookup_insert_ne, H2 by done. apply IH.
  - cbn [ExchangeEngine.engines]. destruct (decide (s = symbol)) as [->|Hne].
    + rewrite lookup_insert_eq. intros [= <-]. rewrite (turn_symbol _ _ _ _ _ _ _ Ht).
      by apply IH.
    + rewrite lookup_insert_ne by done. apply IH.
Qed.

Lemma first_submission_some :
  ExchangeEngine.SubmitOrder 2 ExchangeEngine.NewExchangeEngine two_asks.2
  = Some first_submission.
Proof.
  unfold first_submission.
  destruct (ExchangeEngine.SubmitOrder 2 ExchangeEngine.NewExchangeEngine two_asks.2)
    as [e|] eqn:E; [done|].
  assert (H : bool_decide (is_Some (ExchangeEngine.SubmitOrder 2
                ExchangeEngine.NewExchangeEngine two_asks.2)) = true)
    by (vm_compute; reflexivity).
  rewrite E in H. apply bool_decide_eq_true in H. by destruct H.
Qed.

(** ** The fills of a matching loop *)

(** One iteration that trades, as the code runs it. *)
Lemma matchBuy_fill b me m :
  engine_inv (MatchingEngine.orderBook me) m →
  incoming_ok (MatchingEngine.orderBook me) m b →
  Order.IsFilled (Mem.load m b) = false →
  stops true (MatchingEngine.orderBook me) (Mem.load m b) = false →
  ∃ lvl h s rest trade me1 m1,
    OrderBook.GetBestSellLevel (MatchingEngine.orderBook me) = Some lvl
    ∧ PriceLevel_.Orders lvl = (h, s) :: rest
    ∧ rests (MatchingEngine.orderBook me) false lvl h s
    ∧ MatchingEngine.executeTrade b s (OrderBook.GetBestAsk (MatchingEngine.orderBook me)) me m
      = (trade, me1, m1)
    ∧ fill_ok b m s trade m1
    ∧ let st := if Order.IsFilled (Mem.load m1 s)
                then MatchingEngine.cancel (Order.ID (Mem.load m1 s)) me1 m1 else (me1, m1) in
      (∀ fuel trades,
         MatchingEngine.matchBuyOrder_loop (S fuel) b trades me m
         = MatchingEngine.matchBuyOrder_loop fuel b (trades ++ [trade]) st.1 st.2)
      ∧ step_ok me m b s trade st.1 st.2.
Proof.
  intros Hinv Hin Hopen Hcross. unfold stops in Hcross.
  apply orb_false_iff in Hcross as [Hz Hlim]. apply Z.eqb_neq in Hz.
  destruct (book_wf_side _ _ false (inv_wf _ _ _ Hinv)) as (Hok & _ & _).
  cbn [side_of] in Hok.
  destruct (best_level _ Hok Hz) as (lvl & Hlvl & Hlin & Hlp & Hne).
  destruct (PriceLevel_.Orders lvl) as [|[h s] rest] eqn:Eo; [done|].
  assert (Hs : rests (MatchingEngine.orderBook me) false lvl h s).
  { split; [done|]. rewrite Eo. by left. }
  pose proof (incoming_not_resting _ _ _ _ Hinv Hin) as Hnr.
  assert (Hbs : b ≠ s) by (intros ->; apply Hnr; by exists false, lvl, h).
  destruct (executeTrade_spec b s (OrderBook.GetBestAsk (MatchingEngine.orderBook me)) me m Hbs)
    as (trade & g & Hex & Htq & Htp & Hbid & Hsid).
  destruct (trade_and_settle me m b false lvl h s Hinv Hin Hs Hopen trade g Htq)
    as (ob2 & m2 & Hc & Hstep); [by rewrite Htp|].
  destruct (fill_pair _ _ _ _ _ _ _ Hinv Hin Hs Hopen) as (_ & _ & _ & _ & Hfb & Hfs & _).
  exists lvl, h, s, rest, trade, (MatchingEngine.with_tradeIDGen g me),
    (Mem.update s (Order.Fill (Z.min (Order.RemainingQuantity (Mem.load m b))
                                      (Order.RemainingQuantity (Mem.load m s))))
       (Mem.update b (Order.Fill (Z.min (Order.RemainingQuantity (Mem.load m b))
                                         (Order.RemainingQuantity (Mem.load m s)))) m)).
  split; [done|]. split; [done|]. split; [done|]. split; [done|].
  split.
  { split; [done|]. split; [apply (st_price _ _ _ _ _ _ _ Hstep)|]. rewrite Htq. done. }
  apply (settle_engine ob2 m2 (MatchingEngine.with_tradeIDGen g me)) in Hc.
  cbv zeta. rewrite Hc. cbn [fst snd]. split; [|done].
  intros fuel trades.
  cbn [MatchingEngine.matchBuyOrder_loop]. rewrite Hopen.
  apply Z.eqb_neq in Hz. rewrite Hz, Hlim. cbn [orb].
  unfold OrderBook.GetBestSellLevel, OrderBook.GetBestAsk in *. rewrite Hlvl, Eo, Hex.
  by rewrite Hc.
Qed.

Lemma matchSell_fill b me m :
  engine_inv (MatchingEngine.orderBook me) m →
  incoming_ok (MatchingEngine.orderBook me) m b →
  Order.IsFilled (Mem.load m b) = false →
  stops false (MatchingEngine.orderBook me) (Mem.load m b) = false →
  ∃ lvl h s rest trade me1 m1,
    OrderBook.GetBestBuyLevel (MatchingEngine.orderBook me) = Some lvl
    ∧ PriceLevel_.Orders lvl = (h, s) :: rest
    ∧ rests (MatchingEngine.orderBook me) true lvl h s
    ∧ MatchingEngine.executeTrade s b (OrderBook.GetBestBid (MatchingEngine.orderBook me)) me m
      = (trade, me1, m1)
    ∧ fill_ok b m s trade m1
    ∧ let st := if Order.IsFilled (Mem.load m1 s)
                then MatchingEngine.cancel (Order.ID (Mem.load m1 s)) me1 m1 else (me1, m1) in
      (∀ fuel trades,
         MatchingEngine.matchSellOrder_loop (S fuel) b trades me m
         = MatchingEngine.matchSellOrder_loop fuel b (trades ++ [trade]) st.1 st.2)
      ∧ step_ok me m b s trade st.1 st.2.
Proof.
  intros Hinv Hin Hopen Hcross. unfold stops in Hcross.
  apply orb_false_iff in Hcross as [Hz Hlim]. apply Z.eqb_neq in Hz.
  destruct (book_wf_side _ _ true (inv_wf _ _ _ Hinv)) as (Hok & _ & _).
  cbn [side_of] in Hok.
  destruct (best_level _ Hok Hz) as (lvl & Hlvl & Hlin & Hlp & Hne).
  destruct (PriceLevel_.Orders lvl) as [|[h s] rest] eqn:Eo; [done|].
  assert (Hs : rests (MatchingEngine.orderBook me) true lvl h s).
  { split; [done|]. rewrite Eo. by left. }
  pose proof (incoming_not_resting _ _ _ _ Hinv Hin) as Hnr.
  assert (Hbs : s ≠ b) by (intros ->; apply Hnr; by exists true, lvl, h).
  destruct (executeTrade_spec s b (OrderBook.GetBestBid (MatchingEngine.orderBook me)) me m Hbs)
    as (trade & g & Hex & Htq & Htp & Hbid & Hsid).
  rewrite Z.min_comm in Htq, Hex. rewrite update_comm in Hex by done.
  destruct (trade_and_settle me m b true lvl h s Hinv Hin Hs Hopen trade g Htq)
    as (ob2 & m2 & Hc & Hstep); [by rewrite Htp|].
  destruct (fill_pair _ _ _ _ _ _ _ Hinv Hin Hs Hopen) as (_ & _ & _ & _ & Hfb & Hfs & _).
  exists lvl, h, s, rest, trade, (MatchingEngine.with_tradeIDGen g me),
    (Mem.update s (Order.Fill (Z.min (Order.RemainingQuantity (Mem.load m b))
                                      (Order.RemainingQuantity (Mem.load m s))))
       (Mem.update b (Order.Fill (Z.min (Order.RemainingQuantity (Mem.load m b))
                                         (Order.RemainingQuantity (Mem.load m s)))) m)).
  split; [done|]. split; [done|]. split; [done|]. split; [done|].
  split.
  { split; [done|]. split; [apply (st_price _ _ _ _ _ _ _ Hstep)|]. rewrite Htq. done. }
  apply (settle_engine ob2 m2 (MatchingEngine.with_tradeIDGen g me)) in Hc.
  cbv zeta. rewrite Hc. cbn [fst snd]. split; [|done].
  intros fuel trades.
  cbn [MatchingEngine.matchSellOrder_loop]. rewrite Hopen.
  apply Z.eqb_neq in Hz. rewrite Hz, Hlim. cbn [orb].
  unfold OrderBook.GetBestBuyLevel, OrderBook.GetBestBid in *. rewrite Hlvl, Eo, Hex.
  by rewrite Hc.
Qed.

(** The trades a loop returns are the trades of its fills, in order. *)
Lemma matchBuy_loop_fills b fuel : ∀ trades me m r,
  engine_inv (MatchingEngine.orderBook me) m →
  incoming_ok (MatchingEngine.orderBook me) m b →
  MatchingEngine.matchBuyOrder_loop fuel b trades me m = Some r →
  ∃ new, r.1.1 = trades ++ new
    ∧ fills (fill_ok b) b true me m new r.1.2 r.2
    ∧ (Order.IsFilled (Mem.load m b) = false →
       stops true (MatchingEngine.orderBook me) (Mem.load m b) = false → new ≠ []).
Proof.
  induction fuel as [|fuel IH]; intros trades me m r Hinv Hin Hr; [done|].
  destruct (Order.IsFilled (Mem.load m b)) eqn:Hopen.
  { cbn [MatchingEngine.matchBuyOrder_loop] in Hr. rewrite Hopen in Hr.
    injection Hr as <-. exists []. rewrite app_nil_r. split; [done|].
    split; [constructor|done]. }
  destruct (stops true (MatchingEngine.orderBook me) (Mem.load m b)) eqn:Hcross.
  { cbn [MatchingEngine.matchBuyOrder_loop] in Hr. unfold stops in Hcross.
    rewrite Hopen, Hcross in Hr.
    injection Hr as <-. exists []. rewrite app_nil_r. split; [done|].
    split; [constructor|done]. }
  destruct (matchBuy_fill b me m Hinv Hin Hopen Hcross)
    as (lvl & h & s & rest & trade & me1 & m1 & Hl & Ho & _ & Hex & Hfill & Heq & Hst).
  cbv zeta in Heq, Hst. rewrite Heq in Hr.
  destruct (IH _ _ _ _ (st_inv _ _ _ _ _ _ _ Hst) (st_in _ _ _ _ _ _ _ Hst) Hr)
    as (new & Hnew & Hfills & _).
  exists (trade :: new). split; [by rewrite Hnew, <- app_assoc|].
  split; [|done]. by eapply (fills_cons _ b true me m lvl h s rest trade me1 m1).
Qed.

Lemma matchSell_loop_fills b fuel : ∀ trades me m r,
  engine_inv (MatchingEngine.orderBook me) m →
  incoming_ok (MatchingEngine.orderBook me) m b →
  MatchingEngine.matchSellOrder_loop fuel b trades me m = Some r →
  ∃ new, r.1.1 = trades ++ new
    ∧ fills (fill_ok b) b false me m new r.1.2 r.2
    ∧ (Order.IsFilled (Mem.load m b) = false →
       stops false (MatchingEngine.orderBook me) (Mem.load m b) = false → new ≠ []).
Proof.
  induction fuel as [|fuel IH]; intros trades me m r Hinv Hin Hr; [done|].
  destruct (Order.IsFilled (Mem.load m b)) eqn:Hopen.
  { cbn [MatchingEngine.matchSellOrder_loop] in Hr. rewrite Hopen in Hr.
    injection Hr as <-. exists []. rewrite app_nil_r. split; [done|].
    split; [constructor|done]. }
  destruct (stops false (MatchingEngine.orderBook me) (Mem.load m b)) eqn:Hcross.
  { cbn [MatchingEngine.matchSellOrder_loop] in Hr. unfold stops in Hcross.
    rewrite Hopen, Hcross in Hr.
    injection Hr as <-. exists []. rewrite app_nil_r. split; [done|].
    split; [constructor|done]. }
  destruct (matchSell_fill b me m Hinv Hin Hopen Hcross)
    as (lvl & h & s & rest & trade & me1 & m1 & Hl & Ho & _ & Hex & Hfill & Heq & Hst).
  cbv zeta in Heq, Hst. rewrite Heq in Hr.
  destruct (IH _ _ _ _ (st_inv _ _ _ _ _ _ _ Hst) (st_in _ _ _ _ _ _ _ Hst) Hr)
    as (new & Hnew & Hfills & _).
  exists (trade :: new). split; [by rewrite Hnew, <- app_assoc|].
  split; [|done]. by eapply (fills_cons _ b false me m lvl h s rest trade me1 m1).
Qed.

(** [AddOrder] writes no [Filled] field. *)
Lemma AddOrder_filled a ob m x :
  Order.Filled (Mem.load (OrderBook.AddOrder a ob m).2 x) = Order.Filled (Mem.load m x).
Proof.
  rewrite AddOrder_eq. cbv zeta. cbn [snd]. rewrite Insert_unfold. cbv zeta. cbn [snd].
  destruct (decide (x = a)) as [->|Hne].
  - by rewrite load_update_eq.
  - by rewrite load_update_ne.
Qed.

(** ** Concrete scenarios *)

(** C6. Time priority within a level: after sells A, B, C of 10 at 50000 and
    a buy of 15 at 50000, exactly two trades are emitted, (A, 10) then
    (B, 5); A has left the book, B rests with 5 open and C with 10. *)
Theorem time_priority_within_level :
  Scenario.trades Scenario.time_priority
    = Some [("BUY", "A", 50000, 10); ("BUY", "B", 50000, 5)]
  ∧ Scenario.ask_fifo 50000 Scenario.time_priority = Some [("B", 5); ("C", 10)]
  ∧ (ob ← Scenario.book Scenario.time_priority;
     Some (OrderBook.orders ob !! "A", OrderBook.orders ob !! "B",
           OrderBook.orders ob !! "C", OrderBook.orders ob !! "BUY"))
    = Some (None, Some 1%nat, Some 2%nat, None)
  ∧ (ob ← Scenario.book Scenario.time_priority;
     Some (levels_of (OrderBook.bids ob), length (levels_of (OrderBook.asks ob))))
    = Some ([], 1%nat).
Proof. vm_compute. repeat split; reflexivity. Qed.

(** C1, at its failing input.  In scenario 2 the ask level at 50000 still
    reports the volume 100 it had when S1 was inserted, while the one order
    of its FIFO has 60 open: [executeTrade] fills the resting order without
    touching the level. *)
Theorem partial_fill_volume_is_stale :
  Scenario.trades Scenario.partial_fill = Some [("B1", "S1", 50000, 40)]
  ∧ Scenario.ask_fifo 50000 Scenario.partial_fill = Some [("S1", 60)]
  ∧ PriceLevel_.Volume <$> Scenario.ask_level 50000 Scenario.partial_fill = Some 100
  ∧ ('(_, _, m) ← Scenario.partial_fill;
     l ← Scenario.ask_level 50000 Scenario.partial_fill;
     Some (sum_remaining m l)) = Some 60.
Proof. vm_compute. repeat split; reflexivity. Qed.

(** C2, at its failing input.  In scenario 1 the resting sell S1 (address 0)
    is Filled by [executeTrade] and is then marked Cancelled, because the
    matching loop removes a filled resting order through [CancelOrder]; the
    incoming buy B1 (address 1), filled by the same trade, stays Filled. *)
Theorem filled_resting_order_becomes_cancelled :
  ('(_, me, m) ← Scenario.limit "S1" SideSell 50000 100 Scenario.start;
   let '(b1, m) := Mem.NewLimitOrder "B1" "BTCUSDT" "user" SideBuy 50000 100 m in
   let '(_, _, m) := MatchingEngine.executeTrade b1 0%nat 50000 me m in
   Some (Order.Status (Mem.load m 0%nat))) = Some OrderStatusFilled
  ∧ (λ o, (Order.ID o, Order.Quantity o, Order.Filled o, Order.Status o))
      <$> Scenario.order_at 0 Scenario.single_match
    = Some ("S1", 100, 100, OrderStatusCancelled)
  ∧ (λ o, (Order.ID o, Order.Quantity o, Order.Filled o, Order.Status o))
      <$> Scenario.order_at 1 Scenario.single_match
    = Some ("B1", 100, 100, OrderStatusFilled).
Proof. vm_compute. repeat split; reflexivity. Qed.

(** ** Best price *)

(** C5. On every ladder built by inserting and removing orders of positive
    price, the best-price query returns 0 when no order rests, and otherwise
    the price of a level that holds orders and that no such level beats:
    the greatest for bids, the least for asks. *)
Theorem best_price_is_extremum descending s :
  ladder_reach descending s →
  (resting_orders s = [] → ShardedPriceTreeAdapter.GetBestPrice s = 0)
  ∧ (resting_orders s ≠ [] →
       (∃ l, l ∈ levels_of s ∧ PriceLevel_.Orders l ≠ []
             ∧ PriceLevel_.Price l = ShardedPriceTreeAdapter.GetBestPrice s)
       ∧ ∀ l, l ∈ levels_of s → PriceLevel_.Orders l ≠ [] →
              if descending
              then PriceLevel_.Price l <= ShardedPriceTreeAdapter.GetBestPrice s
              else ShardedPriceTreeAdapter.GetBestPrice s <= PriceLevel_.Price l).
Proof.
  intros [Hok <-]%ladder_reach_ok. by apply best_price_of_tree_ok.
Qed.

Lemma best_price_is_extremum_witness :
  ladder_reach false boundary_ladder.1
  ∧ ShardedPriceTreeAdapter.GetBestPrice boundary_ladder.1 = 128
  ∧ (resting_orders boundary_ladder.1 = [] →
       ShardedPriceTreeAdapter.GetBestPrice boundary_ladder.1 = 0)
  ∧ (resting_orders boundary_ladder.1 ≠ [] →
       (∃ l, l ∈ levels_of boundary_ladder.1 ∧ PriceLevel_.Orders l ≠ []
             ∧ PriceLevel_.Price l = ShardedPriceTreeAdapter.GetBestPrice boundary_ladder.1)
       ∧ ∀ l, l ∈ levels_of boundary_ladder.1 → PriceLevel_.Orders l ≠ [] →
              ShardedPriceTreeAdapter.GetBestPrice boundary_ladder.1 <= PriceLevel_.Price l).
Proof.
  assert (Hr : ladder_reach false boundary_ladder.1).
  { unfold boundary_ladder. cbv zeta.
    apply reach_remove; [|vm_compute; reflexivity].
    apply reach_insert; [|vm_compute; reflexivity].
    apply reach_insert; [|vm_compute; reflexivity].
    apply reach_insert; [|vm_compute; reflexivity].
    apply reach_new. }
  split; [exact Hr|]. split; [vm_compute; reflexivity|].
  exact (best_price_is_extremum false boundary_ladder.1 Hr).
Defined.

(** C7. In a well-formed book, adding an order of positive price whose id
    is not in the index and cancelling that id gives back the very same
    book: both ladders with their levels, volumes and cached best pointers,
    and the id index. *)
Theorem add_cancel_round_trip ob m a :
  book_wf ob m →
  0 < Order.Price (Mem.load m a) →
  OrderBook.orders ob !! Order.ID (Mem.load m a) = None →
  (OrderBook.CancelOrder (Order.ID (Mem.load m a))
     (OrderBook.AddOrder a ob m).1 (OrderBook.AddOrder a ob m).2).1 = ob.
Proof.
  intros [Hb Hbb Ha Hab Hl] Hp Hid. unfold OrderBook.AddOrder.
  set (o := Mem.load m a) in *.
  destruct (Order.Side o =? SideBuy) eqn:Hside.
  - pose proof (Insert_Remove_id a (OrderBook.bids ob) m Hb ltac:(auto) Hp) as Hrt.
    destruct (Insert_spec a (OrderBook.bids ob) m Hb Hp) as (s' & Hins & _).
    rewrite Hins in Hrt |- *. cbn [fst snd].
    unfold OrderBook.CancelOrder. cbn [OrderBook.orders OrderBook.bids OrderBook.asks OrderBook.symbol].
    rewrite lookup_insert_eq, load_update_eq.
    change (Order.Side (Order.with_ListElement _ (Mem.load (Mem.new_elem m).2 a)))
      with (Order.Side o).
    rewrite Hside.
    destruct (ShardedPriceTreeAdapter.Remove a s' _) as [s2 m2]. simpl in Hrt. subst s2.
    cbn. rewrite delete_insert_id by done. by destruct ob.
  - pose proof (Insert_Remove_id a (OrderBook.asks ob) m Ha ltac:(auto) Hp) as Hrt.
    destruct (Insert_spec a (OrderBook.asks ob) m Ha Hp) as (s' & Hins & _).
    rewrite Hins in Hrt |- *. cbn [fst snd].
    unfold OrderBook.CancelOrder. cbn [OrderBook.orders OrderBook.bids OrderBook.asks OrderBook.symbol].
    rewrite lookup_insert_eq, load_update_eq.
    change (Order.Side (Order.with_ListElement _ (Mem.load (Mem.new_elem m).2 a)))
      with (Order.Side o).
    rewrite Hside.
    destruct (ShardedPriceTreeAdapter.Remove a s' _) as [s2 m2]. simpl in Hrt. subst s2.
    cbn. rewrite delete_insert_id by done. by destruct ob.
Qed.

Lemma add_cancel_round_trip_witness :
  book_wf round_trip_book.1 round_trip_book.2
  ∧ 0 < Order.Price (Mem.load round_trip_book.2 2)
  ∧ OrderBook.orders round_trip_book.1 !! Order.ID (Mem.load round_trip_book.2 2) = None
  ∧ (OrderBook.CancelOrder (Order.ID (Mem.load round_trip_book.2 2))
       (OrderBook.AddOrder 2 round_trip_book.1 round_trip_book.2).1
       (OrderBook.AddOrder 2 round_trip_book.1 round_trip_book.2).2).1 = round_trip_book.1.
Proof.
  assert (Hwf : book_wf round_trip_book.1 round_trip_book.2).
  { unfold round_trip_book. cbv zeta.
    apply AddOrder_wf; [|vm_compute; reflexivity].
    apply AddOrder_wf; [|vm_compute; reflexivity].
    apply new_book_wf. }
  assert (Hp : 0 < Order.Price (Mem.load round_trip_book.2 2)) by (vm_compute; reflexivity).
  assert (Hid : OrderBook.orders round_trip_book.1 !! Order.ID (Mem.load round_trip_book.2 2) = None)
    by (vm_compute; reflexivity).
  split; [exact Hwf|]. split; [exact Hp|]. split; [exact Hid|].
  exact (add_cancel_round_trip round_trip_book.1 round_trip_book.2 2 Hwf Hp Hid).
Defined.

(** ** Orders that are filled on arrival *)

(** C10. An order of quantity at most 0 with nothing filled is filled in
    the sense of [IsFilled]: the matching loop returns at once, nothing is
    traded, and the order is not added to the book. *)
Theorem nonpositive_quantity_discarded fuel order me m :
  Order.Quantity (Mem.load m order) <= 0 →
  Order.Filled (Mem.load m order) = 0 →
  MatchingEngine.processOrder (S fuel) order me m = Some ([], me, m).
Proof.
  intros Hq Hf.
  assert (Hfilled : Order.IsFilled (Mem.load m order) = true).
  { unfold Order.IsFilled. rewrite Hf. by apply Z.leb_le. }
  unfold MatchingEngine.processOrder, MatchingEngine.matchBuyOrder,
    MatchingEngine.matchSellOrder.
  destruct (Order.Side (Mem.load m order) =? SideBuy); simpl; rewrite Hfilled; simpl;
    by rewrite Hfilled.
Qed.

Lemma nonpositive_quantity_discarded_witness :
  let me := Scenario.engine in
  Order.Quantity (Mem.load zero_quantity_order.2 zero_quantity_order.1) <= 0
  ∧ Order.Filled (Mem.load zero_quantity_order.2 zero_quantity_order.1) = 0
  ∧ MatchingEngine.processOrder 1 zero_quantity_order.1 me zero_quantity_order.2
    = Some ([], me, zero_quantity_order.2).
Proof.
  intros me.
  assert (Hq : Order.Quantity (Mem.load zero_quantity_order.2 zero_quantity_order.1) <= 0)
    by (vm_compute; discriminate).
  assert (Hf : Order.Filled (Mem.load zero_quantity_order.2 zero_quantity_order.1) = 0)
    by (vm_compute; reflexivity).
  split; [exact Hq|]. split; [exact Hf|].
  exact (nonpositive_quantity_discarded 0 _ me _ Hq Hf).
Defined.

(** C9, at its failing input.  Capacity 0 is not a power of two, yet both
    constructors return: [0 & (0 - 1)] is 0.  The queue they build has no
    slot and an empty-slot semaphore at 0, so every [Publish] on it stays
    blocked. *)
Theorem ring_buffer_accepts_zero_capacity :
  ¬ is_power_of_two 0
  ∧ NewRingBufferSemaphoreBatchSafe 0 = Some (RingBuffer.mk [] (-1) 0 0 0 0)
  ∧ NewTradeRingBufferBatchSafe 0 = Some (RingBuffer.mk [] (-1) 0 0 0 0)
  ∧ ∀ order, RingBuffer.Publish order (RingBuffer.mk (T := nat) [] (-1) 0 0 0 0) = None.
Proof.
  split; [|by vm_compute].
  intros (k & Hk & H). pose proof (Z.pow_pos_nonneg 2 k ltac:(lia) Hk). lia.
Qed.

(** ** Submission *)

(** C3 fails on a malformed order: [SubmitOrder] publishes whatever it is
    given.  The order for ETHUSDT is consumed by the matching thread of
    the BTCUSDT engine and comes to rest in its book. *)
Lemma malformed_order_reaches_matching :
  malformed "BTCUSDT" foreign_order = true
  ∧ first_consumed "BTCUSDT" 0 = Some (Some 0%nat)
  ∧ ('(me, m) ← foreign_order_run;
     l ← ShardedPriceTreeAdapter.GetLevel 50000 (OrderBook.asks (MatchingEngine.orderBook me));
     Some (fifo_remaining m l, OrderBook.orders (MatchingEngine.orderBook me) !! "E1"))
    = Some ([("E1", 100)], Some 0%nat).
Proof. vm_compute. repeat split; reflexivity. Qed.

(** C3, amended.  [SubmitOrder] takes the pointer only and never looks at
    the order.  On an engine whose order queue holds the orders [q],
    submitting any order blocks exactly when the queue is full (65536
    orders pending); otherwise the call returns, changes nothing but the
    queue, and the queue holds [q] followed by the order.  From there on,
    whatever the matching thread has in its cache, it consumes the orders
    that were pending before, in their order, then this order, and in the
    turn in which it consumes this order it hands it to [processOrder]. *)
Theorem submit_does_not_validate me q order :
  rb_holds 65536 q (MatchingEngine.orderBuffer me) →
  RingBuffer.writeSeq (MatchingEngine.orderBuffer me) + 1 < 2 ^ 63 →
  (MatchingEngine.SubmitOrder order me = None ↔ Z.of_nat (length q) = 65536)
  ∧ (Z.of_nat (length q) < 65536 → is_Some (MatchingEngine.SubmitOrder order me))
  ∧ ∀ me', MatchingEngine.SubmitOrder order me = Some me' →
      me' = MatchingEngine.with_orderBuffer (MatchingEngine.orderBuffer me') me
      ∧ rb_holds 65536 (q ++ [order]) (MatchingEngine.orderBuffer me')
      ∧ ∀ c cb, cache_holds c cb →
          ∃ cb1 rb1 cb2 rb2,
            consume_n (length (c ++ q)) cb (MatchingEngine.orderBuffer me')
            = Some (Some <$> (c ++ q), cb1, rb1)
            ∧ RingBuffer.Consume cb1 rb1 = Some (Some order, cb2, rb2)
            ∧ ∀ fuel me1 m,
                MatchingEngine.cancelChan me1 = [] → MatchingEngine.orderBuffer me1 = rb1 →
                MatchingEngine.turn fuel cb1 me1 m
                = '(trades, me2, m2) ←
                    MatchingEngine.processOrder fuel order
                      (MatchingEngine.with_orderBuffer rb2 me1) m;
                  tb ← MatchingEngine.publish_all trades (MatchingEngine.tradeBuffer me2);
                  Some (cb2, MatchingEngine.with_tradeBuffer tb me2, m2).
Proof.
  intros Hq Hw. pose proof (rh_count _ _ _ Hq) as Hc.
  assert (Hsub : Z.of_nat (length q) < 65536 →
    ∃ rb, MatchingEngine.SubmitOrder order me = Some (MatchingEngine.with_orderBuffer rb me)
          ∧ rb_holds 65536 (q ++ [order]) rb).
  { intros Hlt. by apply SubmitOrder_holds. }
  assert (Hfull : Z.of_nat (length q) = 65536 → MatchingEngine.SubmitOrder order me = None).
  { intros Hlen. unfold MatchingEngine.SubmitOrder.
    by rewrite (Publish_full 65536 q _ order Hq Hlen). }
  split; [|split].
  - split; [|done]. intros Hnone.
    destruct (decide (Z.of_nat (length q) = 65536)) as [|Hne]; [done|].
    destruct Hsub as (rb & Hs & _); [lia|]. congruence.
  - intros Hlt. destruct (Hsub Hlt) as (rb & -> & _). by eexists.
  - intros me' Hme'.
    destruct (decide (Z.of_nat (length q) = 65536)) as [Hlen|Hne].
    { rewrite (Hfull Hlen) in Hme'. done. }
    destruct Hsub as (rb & Hs & Hrb); [lia|].
    rewrite Hs in Hme'. injection Hme' as <-.
    cbn [MatchingEngine.orderBuffer MatchingEngine.with_orderBuffer].
    split; [done|]. split; [done|].
    intros c cb Hcache.
    destruct (consume_n_holds 65536 (c ++ q) c (q ++ [order]) cb rb [order] Hcache Hrb)
      as (cb1 & rb1 & c1 & q1 & Hn & Hc1 & Hq1 & Hrest); [by rewrite app_assoc|].
    destruct (Consume_holds 65536 c1 q1 cb1 rb1 order [] Hc1 Hq1 Hrest)
      as (cb2 & rb2 & c2 & q2 & Hcons & _).
    exists cb1, rb1, cb2, rb2. split; [done|]. split; [done|].
    intros fuel me1 m Hcc Hob. unfold MatchingEngine.turn. rewrite Hcc, Hob, Hcons. done.
Qed.

Lemma submit_does_not_validate_witness :
  rb_holds 65536 [2%nat] (MatchingEngine.orderBuffer two_asks_submitted)
  ∧ RingBuffer.writeSeq (MatchingEngine.orderBuffer two_asks_submitted) + 1 < 2 ^ 63
  ∧ (MatchingEngine.SubmitOrder 7 two_asks_submitted = None
     ↔ Z.of_nat (length [2%nat]) = 65536)
  ∧ (Z.of_nat (length [2%nat]) < 65536
     → is_Some (MatchingEngine.SubmitOrder 7 two_asks_submitted))
  ∧ ∀ me', MatchingEngine.SubmitOrder 7 two_asks_submitted = Some me' →
      me' = MatchingEngine.with_orderBuffer (MatchingEngine.orderBuffer me') two_asks_submitted
      ∧ rb_holds 65536 ([2%nat] ++ [7%nat]) (MatchingEngine.orderBuffer me')
      ∧ ∀ c cb, cache_holds c cb →
          ∃ cb1 rb1 cb2 rb2,
            consume_n (length (c ++ [2%nat])) cb (MatchingEngine.orderBuffer me')
            = Some (Some <$> (c ++ [2%nat]), cb1, rb1)
            ∧ RingBuffer.Consume cb1 rb1 = Some (Some 7%nat, cb2, rb2)
            ∧ ∀ fuel me1 m,
                MatchingEngine.cancelChan me1 = [] → MatchingEngine.orderBuffer me1 = rb1 →
                MatchingEngine.turn fuel cb1 me1 m
                = '(trades, me2, m2) ←
                    MatchingEngine.processOrder fuel 7
                      (MatchingEngine.with_orderBuffer rb2 me1) m;
                  tb ← MatchingEngine.publish_all trades (MatchingEngine.tradeBuffer me2);
                  Some (cb2, MatchingEngine.with_tradeBuffer tb me2, m2).
Proof.
  destruct two_asks_submitted_ready as (_ & Hq & _).
  assert (Hw : RingBuffer.writeSeq (MatchingEngine.orderBuffer two_asks_submitted) + 1 < 2 ^ 63)
    by (vm_compute; reflexivity).
  split; [exact Hq|]. split; [exact Hw|].
  exact (submit_does_not_validate two_asks_submitted [2%nat] 7%nat Hq Hw).
Defined.

(** ** Fills *)

(** C4. In a well-formed engine, with more fuel than there are resting
    orders, the matching loop of the incoming order [b] returns, and
    [processOrder] returns the trades of the loop.  These trades are the
    trades of the fills the loop executed, one after the other ([fills]):
    each fill is made against the front order [s] of the best opposite
    level, its trade's quantity is the minimum of the two remaining
    quantities before the fill, its price is the resting order's price, and
    [executeTrade] raises both [Filled] fields by exactly that quantity.
    What [processOrder] does after the loop changes no [Filled] field.  An
    incoming order that is not filled and that the loop's exit test lets
    through is filled at least once. *)
Theorem fill_quantity_and_price fuel b me m :
  engine_inv (MatchingEngine.orderBook me) m →
  incoming_ok (MatchingEngine.orderBook me) m b →
  (size (resting_set (MatchingEngine.orderBook me)) < fuel)%nat →
  ∃ trades me1 m1 me' m',
    (if Order.Side (Mem.load m b) =? SideBuy
     then MatchingEngine.matchBuyOrder fuel b me m
     else MatchingEngine.matchSellOrder fuel b me m) = Some (trades, me1, m1)
    ∧ MatchingEngine.processOrder fuel b me m = Some (trades, me', m')
    ∧ (∀ a, Order.Filled (Mem.load m' a) = Order.Filled (Mem.load m1 a))
    ∧ fills (fill_ok b) b (Order.Side (Mem.load m b) =? SideBuy) me m trades me1 m1
    ∧ (Order.IsFilled (Mem.load m b) = false →
       stops (Order.Side (Mem.load m b) =? SideBuy) (MatchingEngine.orderBook me)
         (Mem.load m b) = false →
       trades ≠ []).
Proof.
  intros Hinv Hin Hfuel. unfold MatchingEngine.processOrder.
  assert (Hloop : ∃ r,
    (if Order.Side (Mem.load m b) =? SideBuy
     then MatchingEngine.matchBuyOrder fuel b me m
     else MatchingEngine.matchSellOrder fuel b me m) = Some r
    ∧ fills (fill_ok b) b (Order.Side (Mem.load m b) =? SideBuy) me m r.1.1 r.1.2 r.2
    ∧ (Order.IsFilled (Mem.load m b) = false →
       stops (Order.Side (Mem.load m b) =? SideBuy) (MatchingEngine.orderBook me)
         (Mem.load m b) = false → r.1.1 ≠ [])).
  { unfold MatchingEngine.matchBuyOrder, MatchingEngine.matchSellOrder.
    destruct (Order.Side (Mem.load m b) =? SideBuy).
    - destruct (matchBuy_loop_total b fuel [] me m Hinv Hin) as [r Hr]; [by left|].
      exists r. split; [done|].
      destruct (matchBuy_loop_fills b fuel [] me m r Hinv Hin Hr) as (new & Hnew & Hf & Hne).
      simpl in Hnew. by rewrite Hnew.
    - destruct (matchSell_loop_total b fuel [] me m Hinv Hin) as [r Hr]; [by left|].
      exists r. split; [done|].
      destruct (matchSell_loop_fills b fuel [] me m r Hinv Hin Hr) as (new & Hnew & Hf & Hne).
      simpl in Hnew. by rewrite Hnew. }
  destruct Hloop as ([[trades me1] m1] & Hr & Hf & Hne). cbn [fst snd] in *.
  rewrite Hr. cbn [mbind option_bind].
  destruct (negb (Order.IsFilled (Mem.load m1 b)) && (Order.Type_ (Mem.load m1 b) =? OrderTypeLimit)).
  - pose proof (AddOrder_filled b (MatchingEngine.orderBook me1) m1) as Hadd.
    destruct (OrderBook.AddOrder b (MatchingEngine.orderBook me1) m1) as [ob m'].
    by exists trades, me1, m1, (MatchingEngine.with_orderBook ob me1), m'.
  - by exists trades, me1, m1, me1, m1.
Qed.

Lemma fill_quantity_and_price_witness :
  engine_inv (MatchingEngine.orderBook two_asks.1) two_asks.2
  ∧ incoming_ok (MatchingEngine.orderBook two_asks.1) two_asks.2 2
  ∧ (size (resting_set (MatchingEngine.orderBook two_asks.1)) < 16)%nat
  ∧ (λ t, (Trade.BuyOrderID t, Trade.SellOrderID t, Trade.Price t, Trade.Quantity t))
      <$> two_asks_run.1.1
    = [("B1", "S1", 50000, 100); ("B1", "S2", 50100, 20)]
  ∧ ∃ trades me1 m1 me' m',
      (if Order.Side (Mem.load two_asks.2 2) =? SideBuy
       then MatchingEngine.matchBuyOrder 16 2 two_asks.1 two_asks.2
       else MatchingEngine.matchSellOrder 16 2 two_asks.1 two_asks.2) = Some (trades, me1, m1)
      ∧ MatchingEngine.processOrder 16 2 two_asks.1 two_asks.2 = Some (trades, me', m')
      ∧ (∀ a, Order.Filled (Mem.load m' a) = Order.Filled (Mem.load m1 a))
      ∧ fills (fill_ok 2) 2 (Order.Side (Mem.load two_asks.2 2) =? SideBuy)
          two_asks.1 two_asks.2 trades me1 m1
      ∧ (Order.IsFilled (Mem.load two_asks.2 2) = false →
         stops (Order.Side (Mem.load two_asks.2 2) =? SideBuy)
           (MatchingEngine.orderBook two_asks.1) (Mem.load two_asks.2 2) = false →
         trades ≠ []).
Proof.
  destruct two_asks_ready as (Hinv & Hin & _).
  assert (Hfuel : (size (resting_set (MatchingEngine.orderBook two_asks.1)) < 16)%nat).
  { apply Nat.ltb_lt. vm_compute. reflexivity. }
  split; [exact Hinv|]. split; [exact Hin|]. split; [exact Hfuel|].
  split; [vm_compute; reflexivity|].
  exact (fill_quantity_and_price 16 2 two_asks.1 two_asks.2 Hinv Hin Hfuel).
Defined.

(** ** Residuals *)

(** C8. In a well-formed engine, with more fuel than there are resting
    orders, [processOrder] returns, and afterwards: a limit order that is
    not fully filled sits at the back of the level of its price in the
    ladder of its side and is in the id index; an order that is not a limit
    order is nowhere in the book, whatever remains of it; and when the
    opposite side has no resting order, an order that is not a limit order
    produces no trade and leaves engine and memory as they were. *)
Theorem residual_handling fuel b me m :
  engine_inv (MatchingEngine.orderBook me) m →
  incoming_ok (MatchingEngine.orderBook me) m b →
  (size (resting_set (MatchingEngine.orderBook me)) < fuel)%nat →
  ∃ trades me' m',
    MatchingEngine.processOrder fuel b me m = Some (trades, me', m')
    ∧ (Order.Type_ (Mem.load m b) = OrderTypeLimit →
       Order.IsFilled (Mem.load m' b) = false →
       ∃ l h,
         level_in (side_of (MatchingEngine.orderBook me')
                     (Z.eqb (Order.Side (Mem.load m b)) SideBuy)) l
         ∧ PriceLevel_.Price l = Order.Price (Mem.load m b)
         ∧ last (PriceLevel_.Orders l) = Some (h, b)
         ∧ OrderBook.orders (MatchingEngine.orderBook me') !! Order.ID (Mem.load m b)
           = Some b)
    ∧ (Order.Type_ (Mem.load m b) ≠ OrderTypeLimit →
       ¬ resting (MatchingEngine.orderBook me') b
       ∧ OrderBook.orders (MatchingEngine.orderBook me') !! Order.ID (Mem.load m b) = None)
    ∧ (Order.Type_ (Mem.load m b) ≠ OrderTypeLimit →
       resting_orders
         (side_of (MatchingEngine.orderBook me)
            (negb (Z.eqb (Order.Side (Mem.load m b)) SideBuy))) = [] →
       trades = [] ∧ me' = me ∧ m' = m).
Proof.
  intros Hinv Hin Hfuel.
  destruct (processOrder_total fuel b me m Hinv Hin Hfuel) as (trades & me' & m' & Hp).
  exists trades, me', m'. split; [done|].
  destruct (processOrder_spec _ _ _ _ _ _ _ Hinv Hin Hp)
    as (_ & Hlim & Hmkt & Hid & Hpr & Hsd & Hty).
  rewrite Hid, Hpr, Hsd, Hty in *.
  split; [done|]. split; [done|].
  intros Hnl Hempty. destruct fuel as [|fuel]; [lia|].
  destruct (book_wf_side _ _ (negb (Z.eqb (Order.Side (Mem.load m b)) SideBuy))
              (inv_wf _ _ _ Hinv)) as (Hok & _ & _).
  destruct (best_price_of_tree_ok _ Hok) as [Hzero _].
  rewrite (market_order_no_counterparty fuel b me m Hnl (Hzero Hempty)) in Hp.
  by injection Hp as <- <- <-.
Qed.

Lemma residual_handling_witness :
  let me := market_buy_state.1 in
  let m := market_buy_state.2 in
  engine_inv (MatchingEngine.orderBook me) m
  ∧ incoming_ok (MatchingEngine.orderBook me) m 0
  ∧ (size (resting_set (MatchingEngine.orderBook me)) < 1)%nat
  ∧ ∃ trades me' m',
      MatchingEngine.processOrder 1 0 me m = Some (trades, me', m')
      ∧ (Order.Type_ (Mem.load m 0) = OrderTypeLimit →
         Order.IsFilled (Mem.load m' 0) = false →
         ∃ l h,
           level_in (side_of (MatchingEngine.orderBook me')
                       (Z.eqb (Order.Side (Mem.load m 0)) SideBuy)) l
           ∧ PriceLevel_.Price l = Order.Price (Mem.load m 0)
           ∧ last (PriceLevel_.Orders l) = Some (h, 0%nat)
           ∧ OrderBook.orders (MatchingEngine.orderBook me') !! Order.ID (Mem.load m 0)
             = Some 0%nat)
      ∧ (Order.Type_ (Mem.load m 0) ≠ OrderTypeLimit →
         ¬ resting (MatchingEngine.orderBook me') 0
         ∧ OrderBook.orders (MatchingEngine.orderBook me') !! Order.ID (Mem.load m 0) = None)
      ∧ (Order.Type_ (Mem.load m 0) ≠ OrderTypeLimit →
         resting_orders
           (side_of (MatchingEngine.orderBook me)
              (negb (Z.eqb (Order.Side (Mem.load m 0)) SideBuy))) = [] →
         trades = [] ∧ me' = me ∧ m' = m).
Proof.
  intros me m.
  assert (Hinv : engine_inv (MatchingEngine.orderBook me) m).
  { unfold me, m, market_buy_state.
    cbn [fst snd MatchingEngine.orderBook MatchingEngine.with_orderBook].
    apply new_book_inv. }
  assert (Hin : incoming_ok (MatchingEngine.orderBook me) m 0).
  { split; [vm_compute; reflexivity|vm_compute; discriminate|vm_compute; reflexivity|].
    intros H. vm_compute in H. discriminate. }
  assert (Hfuel : (size (resting_set (MatchingEngine.orderBook me)) < 1)%nat)
    by (vm_compute; lia).
  split; [exact Hinv|]. split; [exact Hin|]. split; [exact Hfuel|].
  exact (residual_handling 1 0 me m Hinv Hin Hfuel).
Defined.
(** * Properties of the code beyond the specification *)

(** ** The states of an engine *)

(** X1. Under valid input the book of an engine is never crossed.  In every
    state the engine reaches from a new engine by processing orders that
    arrive well formed (id not in the index, 0 <= filled, quantity < 2^63,
    a positive price on a limit order; the code does not check this) and
    by serving cancel requests, while nobody but the engine writes to a
    resting order, one of the two sides is empty (best price 0) or the
    best bid is strictly below the best ask. *)
Theorem book_never_crossed me m :
  valid_reach me m →
  OrderBook.GetBestBid (MatchingEngine.orderBook me) = 0
  ∨ OrderBook.GetBestAsk (MatchingEngine.orderBook me) = 0
  ∨ OrderBook.GetBestBid (MatchingEngine.orderBook me)
    < OrderBook.GetBestAsk (MatchingEngine.orderBook me).
Proof.
  intros Hr. pose proof (valid_reach_inv _ _ Hr) as Hinv.
  pose proof (em_uncrossed _ _ (valid_reach_more _ _ Hr)) as Hu.
  destruct (book_wf_side _ _ true (inv_wf _ _ _ Hinv)) as (Hb & _ & _).
  destruct (book_wf_side _ _ false (inv_wf _ _ _ Hinv)) as (Ha & _ & _).
  cbn [side_of] in Hb, Ha. unfold OrderBook.GetBestBid, OrderBook.GetBestAsk.
  destruct (decide (ShardedPriceTreeAdapter.GetBestPrice
                      (OrderBook.bids (MatchingEngine.orderBook me)) = 0)) as [|Hnb]; [by left|].
  destruct (decide (ShardedPriceTreeAdapter.GetBestPrice
                      (OrderBook.asks (MatchingEngine.orderBook me)) = 0)) as [|Hna];
    [right; by left|].
  right. right.
  destruct (best_level _ Hb Hnb) as (lb & _ & Hlb & <- & _).
  destruct (best_level _ Ha Hna) as (la & _ & Hla & <- & _).
  by apply Hu.
Qed.

Lemma book_never_crossed_witness :
  OrderBook.GetBestBid (MatchingEngine.orderBook quiet_book.1.2) = 0
  ∨ OrderBook.GetBestAsk (MatchingEngine.orderBook quiet_book.1.2) = 0
  ∨ OrderBook.GetBestBid (MatchingEngine.orderBook quiet_book.1.2)
    < OrderBook.GetBestAsk (MatchingEngine.orderBook quiet_book.1.2).
Proof. exact (book_never_crossed quiet_book.1.2 quiet_book.2 quiet_book_reach). Defined.

(** X2. Under valid input (every processed order arrived with an id not in
    the index, 0 <= filled, quantity < 2^63 and, for a limit order, a
    positive price, which the code does not check; nobody but the engine
    wrote to a resting order), an order found in the id index is stored
    under its own id, is a limit order that is not fully filled
    (0 <= filled < quantity), has a positive price, and sits in the FIFO of
    the level of its price, on the ladder of its side, under the list
    element it records. *)
Theorem indexed_orders_rest_open me m id a :
  valid_reach me m →
  OrderBook.orders (MatchingEngine.orderBook me) !! id = Some a →
  Order.ID (Mem.load m a) = id
  ∧ Order.Type_ (Mem.load m a) = OrderTypeLimit
  ∧ 0 <= Order.Filled (Mem.load m a) < Order.Quantity (Mem.load m a)
  ∧ 0 < Order.Price (Mem.load m a)
  ∧ ∃ l h,
      ShardedPriceTreeAdapter.GetLevel (Order.Price (Mem.load m a))
        (side_of (MatchingEngine.orderBook me) (Order.Side (Mem.load m a) =? SideBuy))
      = Some l
      ∧ PriceLevel_.Price l = Order.Price (Mem.load m a)
      ∧ (h, a) ∈ PriceLevel_.Orders l
      ∧ Order.ListElement (Mem.load m a) = Some h.
Proof.
  intros Hr Hid. pose proof (valid_reach_inv _ _ Hr) as Hinv.
  destruct (inv_index _ _ _ Hinv _ _ Hid) as [Hres Hi]. split; [done|].
  split; [by apply (em_limit _ _ (valid_reach_more _ _ Hr))|].
  destruct Hres as (isBuy & l & h & Hrests).
  destruct (inv_orders _ _ _ Hinv _ _ _ _ Hrests) as [H1 H2 H3 H4 H5 H6 H7].
  destruct Hrests as [Hl Hh].
  destruct (book_wf_side _ _ isBuy (inv_wf _ _ _ Hinv)) as ([Hsh _] & _ & _).
  pose proof (level_in_pos _ _ Hsh Hl) as Hpos.
  split; [specialize (H5 ltac:(done)); lia|]. split; [by rewrite H1|].
  exists l, h. rewrite H2, H1. split; [|done].
  by apply (level_in_at _ Hsh).
Qed.

Lemma indexed_orders_rest_open_witness :
  OrderBook.orders (MatchingEngine.orderBook quiet_book.1.2) !! "S1" = Some 0%nat
  ∧ Order.ID (Mem.load quiet_book.2 0) = "S1"
  ∧ Order.Type_ (Mem.load quiet_book.2 0) = OrderTypeLimit
  ∧ 0 <= Order.Filled (Mem.load quiet_book.2 0) < Order.Quantity (Mem.load quiet_book.2 0)
  ∧ 0 < Order.Price (Mem.load quiet_book.2 0)
  ∧ ∃ l h,
      ShardedPriceTreeAdapter.GetLevel (Order.Price (Mem.load quiet_book.2 0))
        (side_of (MatchingEngine.orderBook quiet_book.1.2)
           (Order.Side (Mem.load quiet_book.2 0) =? SideBuy))
      = Some l
      ∧ PriceLevel_.Price l = Order.Price (Mem.load quiet_book.2 0)
      ∧ (h, 0%nat) ∈ PriceLevel_.Orders l
      ∧ Order.ListElement (Mem.load quiet_book.2 0) = Some h.
Proof.
  assert (H : OrderBook.orders (MatchingEngine.orderBook quiet_book.1.2) !! "S1" = Some 0%nat)
    by (vm_compute; reflexivity).
  split; [exact H|].
  exact (indexed_orders_rest_open quiet_book.1.2 quiet_book.2 "S1" 0 quiet_book_reach H).
Defined.

(** X3. Under valid input (every processed order arrived with an id not in
    the index, 0 <= filled, quantity < 2^63 and, for a limit order, a
    positive price, which the code does not check; nobody but the engine
    wrote to a resting order), every order in the FIFO of a price level is
    in the id index under its own id, carries the price of the level and
    the side of the ladder, and is not fully filled: a filled order does
    not stay in the book. *)
Theorem queued_orders_are_indexed me m isBuy p l i h a :
  valid_reach me m →
  ShardedPriceTreeAdapter.GetLevel p (side_of (MatchingEngine.orderBook me) isBuy) = Some l →
  PriceLevel_.Orders l !! i = Some (h, a) →
  OrderBook.orders (MatchingEngine.orderBook me) !! Order.ID (Mem.load m a) = Some a
  ∧ Order.Price (Mem.load m a) = PriceLevel_.Price l
  ∧ (Order.Side (Mem.load m a) =? SideBuy) = isBuy
  ∧ Order.IsFilled (Mem.load m a) = false.
Proof.
  intros Hr Hl Hi. pose proof (valid_reach_inv _ _ Hr) as Hinv.
  assert (Hrests : rests (MatchingEngine.orderBook me) isBuy l h a).
  { split; [by eapply level_at_in|by eapply list_elem_of_lookup_2]. }
  destruct (inv_orders _ _ _ Hinv _ _ _ _ Hrests) as [H1 H2 H3 H4 H5 H6 H7].
  split; [done|]. split; [done|]. split; [done|].
  unfold Order.IsFilled. apply Z.leb_gt. by apply H5.
Qed.

Lemma queued_orders_are_indexed_witness :
  ShardedPriceTreeAdapter.GetLevel 50000 (side_of (MatchingEngine.orderBook quiet_book.1.2) false)
  = Some quiet_ask_level
  ∧ PriceLevel_.Orders quiet_ask_level !! 0%nat = Some (0%nat, 0%nat)
  ∧ OrderBook.orders (MatchingEngine.orderBook quiet_book.1.2)
      !! Order.ID (Mem.load quiet_book.2 0) = Some 0%nat
  ∧ Order.Price (Mem.load quiet_book.2 0) = PriceLevel_.Price quiet_ask_level
  ∧ (Order.Side (Mem.load quiet_book.2 0) =? SideBuy) = false
  ∧ Order.IsFilled (Mem.load quiet_book.2 0) = false.
Proof.
  assert (H1 : ShardedPriceTreeAdapter.GetLevel 50000
                 (side_of (MatchingEngine.orderBook quiet_book.1.2) false)
               = Some quiet_ask_level) by (vm_compute; reflexivity).
  assert (H2 : PriceLevel_.Orders quiet_ask_level !! 0%nat = Some (0%nat, 0%nat))
    by (vm_compute; reflexivity).
  split; [exact H1|]. split; [exact H2|].
  exact (queued_orders_are_indexed quiet_book.1.2 quiet_book.2 false 50000 quiet_ask_level
           0 0 0 quiet_book_reach H1 H2).
Defined.

(** ** One order processed *)

(** X4. Every trade that [processOrder] returns for an incoming order has a
    positive quantity and a positive price and names the incoming order on
    its own side (as buyer for a buy, as seller otherwise); for a limit
    order the trade price is never worse than the limit: at most the limit
    price for a buy, at least the limit price for a sell. *)
Theorem trades_respect_limit fuel b me m trades me' m' t :
  engine_inv (MatchingEngine.orderBook me) m →
  incoming_ok (MatchingEngine.orderBook me) m b →
  MatchingEngine.processOrder fuel b me m = Some (trades, me', m') →
  t ∈ trades →
  0 < Trade.Quantity t ∧ 0 < Trade.Price t
  ∧ (if Order.Side (Mem.load m b) =? SideBuy
     then Trade.BuyOrderID t = Order.ID (Mem.load m b)
     else Trade.SellOrderID t = Order.ID (Mem.load m b))
  ∧ (Order.Type_ (Mem.load m b) = OrderTypeLimit →
     if Order.Side (Mem.load m b) =? SideBuy
     then Trade.Price t <= Order.Price (Mem.load m b)
     else Order.Price (Mem.load m b) <= Trade.Price t).
Proof.
  intros Hinv Hin Hp Ht.
  pose proof (po_trades _ _ _ _ _ _ (processOrder_frame _ _ _ _ _ _ _ Hinv Hin Hp)) as Hall.
  pose proof (proj1 (Forall_forall _ _) Hall t Ht) as (H1 & H2 & H3 & H4).
  split; [done|]. split; [done|].
  destruct (Order.Side (Mem.load m b) =? SideBuy); done.
Qed.

Lemma trades_respect_limit_witness :
  let t := default (Trade.mk 0 0 0 "" false "" "" "" "" "") (last two_asks_run.1.1) in
  engine_inv (MatchingEngine.orderBook two_asks.1) two_asks.2
  ∧ incoming_ok (MatchingEngine.orderBook two_asks.1) two_asks.2 2
  ∧ t ∈ two_asks_run.1.1
  ∧ 0 < Trade.Quantity t ∧ 0 < Trade.Price t
  ∧ (if Order.Side (Mem.load two_asks.2 2) =? SideBuy
     then Trade.BuyOrderID t = Order.ID (Mem.load two_asks.2 2)
     else Trade.SellOrderID t = Order.ID (Mem.load two_asks.2 2))
  ∧ (Order.Type_ (Mem.load two_asks.2 2) = OrderTypeLimit →
     if Order.Side (Mem.load two_asks.2 2) =? SideBuy
     then Trade.Price t <= Order.Price (Mem.load two_asks.2 2)
     else Order.Price (Mem.load two_asks.2 2) <= Trade.Price t).
Proof.
  intros t. destruct two_asks_ready as (H1 & H2 & H3).
  assert (Ht : t ∈ two_asks_run.1.1).
  { assert (E : last two_asks_run.1.1 = Some t) by (vm_compute; reflexivity).
    apply last_Some in E as [l' ->]. apply elem_of_app. right. by left. }
  split; [exact H1|]. split; [exact H2|]. split; [exact Ht|].
  exact (trades_respect_limit 16 2 two_asks.1 two_asks.2 _ _ _ t H1 H2 H3 Ht).
Defined.

(** X5. The quantities of the trades that [processOrder] returns add up to
    what the incoming order was filled by, and an order that was not
    overfilled before is not overfilled after: filled stays at most
    quantity. *)
Theorem fills_add_up fuel b me m trades me' m' :
  engine_inv (MatchingEngine.orderBook me) m →
  incoming_ok (MatchingEngine.orderBook me) m b →
  MatchingEngine.processOrder fuel b me m = Some (trades, me', m') →
  Order.Filled (Mem.load m' b)
  = Order.Filled (Mem.load m b) + foldr Z.add 0 (Trade.Quantity <$> trades)
  ∧ Order.Quantity (Mem.load m' b) = Order.Quantity (Mem.load m b)
  ∧ (Order.Filled (Mem.load m b) <= Order.Quantity (Mem.load m b) →
     Order.Filled (Mem.load m' b) <= Order.Quantity (Mem.load m' b)).
Proof.
  intros Hinv Hin Hp.
  pose proof (processOrder_frame _ _ _ _ _ _ _ Hinv Hin Hp) as Hpo.
  destruct (po_static _ _ _ _ _ _ Hpo b) as (_ & _ & Hq & _).
  split; [apply Hpo|]. split; [done|]. rewrite Hq. apply Hpo.
Qed.

Lemma fills_add_up_witness :
  engine_inv (MatchingEngine.orderBook two_asks.1) two_asks.2
  ∧ incoming_ok (MatchingEngine.orderBook two_asks.1) two_asks.2 2
  ∧ Order.Filled (Mem.load two_asks_run.2 2)
    = Order.Filled (Mem.load two_asks.2 2)
      + foldr Z.add 0 (Trade.Quantity <$> two_asks_run.1.1)
  ∧ Order.Quantity (Mem.load two_asks_run.2 2) = Order.Quantity (Mem.load two_asks.2 2)
  ∧ (Order.Filled (Mem.load two_asks.2 2) <= Order.Quantity (Mem.load two_asks.2 2) →
     Order.Filled (Mem.load two_asks_run.2 2) <= Order.Quantity (Mem.load two_asks_run.2 2)).
Proof.
  destruct two_asks_ready as (H1 & H2 & H3).
  split; [exact H1|]. split; [exact H2|].
  exact (fills_add_up 16 2 two_asks.1 two_asks.2 _ _ _ H1 H2 H3).
Defined.

(** X6. [processOrder] writes only [Filled], [Status] and [ListElement]:
    no order changes its id, price, quantity, side, type, symbol, user or
    timestamp.  An order that is neither the incoming one nor resting on
    the opposite side is not written at all, and the two queues, the
    cancel channel and the symbol of the engine are left as they were. *)
Theorem processing_frame fuel b me m trades me' m' :
  engine_inv (MatchingEngine.orderBook me) m →
  incoming_ok (MatchingEngine.orderBook me) m b →
  MatchingEngine.processOrder fuel b me m = Some (trades, me', m') →
  (∀ a, same_order (Mem.load m a) (Mem.load m' a))
  ∧ (∀ a, a ≠ b →
       (∀ l h, ¬ rests (MatchingEngine.orderBook me)
                 (negb (Order.Side (Mem.load m b) =? SideBuy)) l h a) →
       Mem.load m' a = Mem.load m a)
  ∧ MatchingEngine.symbol me' = MatchingEngine.symbol me
  ∧ MatchingEngine.orderBuffer me' = MatchingEngine.orderBuffer me
  ∧ MatchingEngine.cancelChan me' = MatchingEngine.cancelChan me
  ∧ MatchingEngine.tradeBuffer me' = MatchingEngine.tradeBuffer me.
Proof.
  intros Hinv Hin Hp.
  pose proof (processOrder_frame _ _ _ _ _ _ _ Hinv Hin Hp) as Hpo.
  split; [apply Hpo|]. split; [apply Hpo|]. apply Hpo.
Qed.

Lemma processing_frame_witness :
  engine_inv (MatchingEngine.orderBook two_asks.1) two_asks.2
  ∧ incoming_ok (MatchingEngine.orderBook two_asks.1) two_asks.2 2
  ∧ (∀ a, same_order (Mem.load two_asks.2 a) (Mem.load two_asks_run.2 a))
  ∧ (∀ a, a ≠ 2%nat →
       (∀ l h, ¬ rests (MatchingEngine.orderBook two_asks.1)
                 (negb (Order.Side (Mem.load two_asks.2 2) =? SideBuy)) l h a) →
       Mem.load two_asks_run.2 a = Mem.load two_asks.2 a)
  ∧ MatchingEngine.symbol two_asks_run.1.2 = MatchingEngine.symbol two_asks.1
  ∧ MatchingEngine.orderBuffer two_asks_run.1.2 = MatchingEngine.orderBuffer two_asks.1
  ∧ MatchingEngine.cancelChan two_asks_run.1.2 = MatchingEngine.cancelChan two_asks.1
  ∧ MatchingEngine.tradeBuffer two_asks_run.1.2 = MatchingEngine.tradeBuffer two_asks.1.
Proof.
  destruct two_asks_ready as (H1 & H2 & H3).
  split; [exact H1|]. split; [exact H2|].
  exact (processing_frame 16 2 two_asks.1 two_asks.2 _ _ _ H1 H2 H3).
Defined.

(** X7. [processOrder] leaves the queues of the incoming order's own side
    in place: every level that [GetLevel] finds on that side at a positive
    price is still found there afterwards, with the same price and the
    same FIFO, except that the incoming order may have been appended at the
    back of the level of its price. *)
Theorem own_side_keeps_its_queues fuel b me m trades me' m' p l :
  engine_inv (MatchingEngine.orderBook me) m →
  incoming_ok (MatchingEngine.orderBook me) m b →
  MatchingEngine.processOrder fuel b me m = Some (trades, me', m') →
  0 < p →
  ShardedPriceTreeAdapter.GetLevel p
    (side_of (MatchingEngine.orderBook me) (Order.Side (Mem.load m b) =? SideBuy)) = Some l →
  ∃ l', ShardedPriceTreeAdapter.GetLevel p
          (side_of (MatchingEngine.orderBook me') (Order.Side (Mem.load m b) =? SideBuy))
        = Some l'
    ∧ PriceLevel_.Price l' = p
    ∧ (PriceLevel_.Orders l' = PriceLevel_.Orders l
       ∨ ∃ h, p = Order.Price (Mem.load m b)
              ∧ PriceLevel_.Orders l' = PriceLevel_.Orders l ++ [(h, b)]).
Proof.
  intros Hinv Hin Hp Hpos Hl.
  pose proof (processOrder_frame _ _ _ _ _ _ _ Hinv Hin Hp) as Hpo.
  pose proof (po_own _ _ _ _ _ _ Hpo) as Hown. cbv zeta in Hown.
  set (sd := Order.Side (Mem.load m b) =? SideBuy) in *.
  destruct (book_wf_side _ _ sd (inv_wf _ _ _ Hinv)) as ([Hsh0 _] & _ & _).
  destruct (level_at_price _ Hsh0 _ _ Hpos Hl) as [<- Hin0].
  destruct (Hown l Hin0) as (l' & H1 & H2 & H3).
  exists l'. split; [|done].
  destruct (book_wf_side _ _ sd (inv_wf _ _ _ (po_inv _ _ _ _ _ _ Hpo))) as ([Hsh _] & _ & _).
  rewrite <- H2. by apply (level_in_at _ Hsh).
Qed.

Lemma own_side_keeps_its_queues_witness :
  engine_inv (MatchingEngine.orderBook joining_buy.1) joining_buy.2
  ∧ incoming_ok (MatchingEngine.orderBook joining_buy.1) joining_buy.2 1
  ∧ ShardedPriceTreeAdapter.GetLevel 49000
      (side_of (MatchingEngine.orderBook joining_buy.1)
         (Order.Side (Mem.load joining_buy.2 1) =? SideBuy)) = Some joining_level
  ∧ ∃ l', ShardedPriceTreeAdapter.GetLevel 49000
            (side_of (MatchingEngine.orderBook joining_buy_run.1.2)
               (Order.Side (Mem.load joining_buy.2 1) =? SideBuy))
          = Some l'
      ∧ PriceLevel_.Price l' = 49000
      ∧ (PriceLevel_.Orders l' = PriceLevel_.Orders joining_level
         ∨ ∃ h, 49000 = Order.Price (Mem.load joining_buy.2 1)
                ∧ PriceLevel_.Orders l' = PriceLevel_.Orders joining_level ++ [(h, 1%nat)]).
Proof.
  destruct joining_buy_ready as (H1 & H2 & H3).
  assert (H4 : ShardedPriceTreeAdapter.GetLevel 49000
      (side_of (MatchingEngine.orderBook joining_buy.1)
         (Order.Side (Mem.load joining_buy.2 1) =? SideBuy)) = Some joining_level)
    by (vm_compute; reflexivity).
  split; [exact H1|]. split; [exact H2|]. split; [exact H4|].
  exact (own_side_keeps_its_queues 16 1 joining_buy.1 joining_buy.2 _ _ _ 49000 joining_level
           H1 H2 H3 ltac:(lia) H4).
Defined.

(** X8. [processOrder] matches as far as it can: when it returns, the
    incoming order is fully filled, or nothing is left on the opposite
    side that it could trade with: a level that is left there belongs to
    the book of a limit order whose price it does not reach (it is above
    the limit of a buy, below the limit of a sell).  An order that is not a
    limit order thus stops only when filled or when the opposite side is
    empty. *)
Theorem matching_runs_to_completion fuel b me m trades me' m' :
  engine_inv (MatchingEngine.orderBook me) m →
  incoming_ok (MatchingEngine.orderBook me) m b →
  MatchingEngine.processOrder fuel b me m = Some (trades, me', m') →
  Order.IsFilled (Mem.load m' b) = true
  ∨ ∀ p l,
      ShardedPriceTreeAdapter.GetLevel p
        (side_of (MatchingEngine.orderBook me')
           (negb (Order.Side (Mem.load m b) =? SideBuy))) = Some l →
      Order.Type_ (Mem.load m b) = OrderTypeLimit
      ∧ if Order.Side (Mem.load m b) =? SideBuy
        then Order.Price (Mem.load m b) < PriceLevel_.Price l
        else PriceLevel_.Price l < Order.Price (Mem.load m b).
Proof.
  intros Hinv Hin Hp.
  pose proof (processOrder_frame _ _ _ _ _ _ _ Hinv Hin Hp) as Hpo.
  pose proof (po_exit _ _ _ _ _ _ Hpo) as Hex. cbv zeta in Hex.
  set (sd := Order.Side (Mem.load m b) =? SideBuy) in *.
  destruct Hex as [Hex|Hex]; [by left|right]. intros p l Hl.
  apply level_at_in in Hl.
  destruct (book_wf_side _ _ (negb sd) (inv_wf _ _ _ (po_inv _ _ _ _ _ _ Hpo)))
    as (Hok & Hb & _).
  destruct (best_bounds _ _ Hok Hl) as [Hnz Hbd]. rewrite Hb in Hbd.
  destruct Hex as [Hex|[Hty Hex]]; [done|]. split; [done|].
  destruct sd; cbn [negb] in *; lia.
Qed.

Lemma matching_runs_to_completion_witness :
  engine_inv (MatchingEngine.orderBook two_asks.1) two_asks.2
  ∧ incoming_ok (MatchingEngine.orderBook two_asks.1) two_asks.2 2
  ∧ (Order.IsFilled (Mem.load two_asks_run.2 2) = true
     ∨ ∀ p l,
         ShardedPriceTreeAdapter.GetLevel p
           (side_of (MatchingEngine.orderBook two_asks_run.1.2)
              (negb (Order.Side (Mem.load two_asks.2 2) =? SideBuy))) = Some l →
         Order.Type_ (Mem.load two_asks.2 2) = OrderTypeLimit
         ∧ if Order.Side (Mem.load two_asks.2 2) =? SideBuy
           then Order.Price (Mem.load two_asks.2 2) < PriceLevel_.Price l
           else PriceLevel_.Price l < Order.Price (Mem.load two_asks.2 2)).
Proof.
  destruct two_asks_ready as (H1 & H2 & H3).
  split; [exact H1|]. split; [exact H2|].
  exact (matching_runs_to_completion 16 2 two_asks.1 two_asks.2 _ _ _ H1 H2 H3).
Defined.

(** X9. The trades of one [processOrder] carry the ids the engine's
    generator hands out next, in order, and the generator has advanced by
    their number; as long as the 64-bit counter does not wrap these are
    the prefix followed by the decimal counter values, and no two of them
    are equal. *)
Theorem trade_ids_are_consecutive fuel b me m trades me' m' :
  engine_inv (MatchingEngine.orderBook me) m →
  incoming_ok (MatchingEngine.orderBook me) m b →
  MatchingEngine.processOrder fuel b me m = Some (trades, me', m') →
  let g := MatchingEngine.tradeIDGen me in
  0 <= IDGenerator.counter g →
  IDGenerator.counter g + Z.of_nat (length trades) < 2 ^ 64 →
  Trade.ID <$> trades
  = (λ i : nat, IDGenerator.prefix g +:+ pretty (Z.to_N (IDGenerator.counter g + Z.of_nat i)))
      <$> seq 1 (length trades)
  ∧ NoDup (Trade.ID <$> trades)
  ∧ MatchingEngine.tradeIDGen me'
    = IDGenerator.mk (IDGenerator.prefix g)
        (IDGenerator.counter g + Z.of_nat (length trades)).
Proof.
  intros Hinv Hin Hp g H0 H1.
  pose proof (processOrder_frame _ _ _ _ _ _ _ Hinv Hin Hp) as Hpo.
  rewrite (po_ids _ _ _ _ _ _ Hpo), (po_gen _ _ _ _ _ _ Hpo). fold g.
  split; [by apply next_ids_closed|]. split; [by apply next_ids_NoDup|by apply advance_closed].
Qed.

Lemma trade_ids_are_consecutive_witness :
  let g := MatchingEngine.tradeIDGen two_asks.1 in
  engine_inv (MatchingEngine.orderBook two_asks.1) two_asks.2
  ∧ incoming_ok (MatchingEngine.orderBook two_asks.1) two_asks.2 2
  ∧ 0 <= IDGenerator.counter g
  ∧ IDGenerator.counter g + Z.of_nat (length two_asks_run.1.1) < 2 ^ 64
  ∧ Trade.ID <$> two_asks_run.1.1
    = (λ i : nat, IDGenerator.prefix g +:+ pretty (Z.to_N (IDGenerator.counter g + Z.of_nat i)))
        <$> seq 1 (length two_asks_run.1.1)
  ∧ NoDup (Trade.ID <$> two_asks_run.1.1)
  ∧ MatchingEngine.tradeIDGen two_asks_run.1.2
    = IDGenerator.mk (IDGenerator.prefix g)
        (IDGenerator.counter g + Z.of_nat (length two_asks_run.1.1)).
Proof.
  intros g. destruct two_asks_ready as (H1 & H2 & H3).
  assert (H4 : 0 <= IDGenerator.counter g) by (vm_compute; discriminate).
  assert (H5 : IDGenerator.counter g + Z.of_nat (length two_asks_run.1.1) < 2 ^ 64)
    by (vm_compute; reflexivity).
  split; [exact H1|]. split; [exact H2|]. split; [exact H4|]. split; [exact H5|].
  exact (trade_ids_are_consecutive 16 2 two_asks.1 two_asks.2 _ _ _ H1 H2 H3 H4 H5).
Defined.

(** ** The id generator *)

(** X10. The ids of [n] calls of [Next] in a row are the prefix followed by
    the decimal values counter+1, ..., counter+n, and are pairwise
    distinct, as long as the 64-bit counter does not wrap. *)
Theorem generated_ids_are_distinct n g :
  0 <= IDGenerator.counter g →
  IDGenerator.counter g + Z.of_nat n < 2 ^ 64 →
  next_ids n g
  = (λ i : nat, IDGenerator.prefix g +:+ pretty (Z.to_N (IDGenerator.counter g + Z.of_nat i)))
      <$> seq 1 n
  ∧ NoDup (next_ids n g)
  ∧ advance n g = IDGenerator.mk (IDGenerator.prefix g) (IDGenerator.counter g + Z.of_nat n).
Proof.
  intros H0 H1.
  split; [by apply next_ids_closed|]. split; [by apply next_ids_NoDup|by apply advance_closed].
Qed.

Lemma generated_ids_are_distinct_witness :
  let g := IDGenerator.NewIDGenerator "T" in
  0 <= IDGenerator.counter g
  ∧ IDGenerator.counter g + Z.of_nat 3 < 2 ^ 64
  ∧ next_ids 3 g
    = (λ i : nat, IDGenerator.prefix g +:+ pretty (Z.to_N (IDGenerator.counter g + Z.of_nat i)))
        <$> seq 1 3
  ∧ NoDup (next_ids 3 g)
  ∧ advance 3 g = IDGenerator.mk (IDGenerator.prefix g) (IDGenerator.counter g + Z.of_nat 3).
Proof.
  intros g.
  assert (H0 : 0 <= IDGenerator.counter g) by (vm_compute; discriminate).
  assert (H1 : IDGenerator.counter g + Z.of_nat 3 < 2 ^ 64) by (vm_compute; reflexivity).
  split; [exact H0|]. split; [exact H1|].
  exact (generated_ids_are_distinct 3 g H0 H1).
Defined.

(** ** Cancelling *)

(** X11. Cancelling an id that is not in the index changes nothing, and
    cancelling the same id a second time changes nothing more: the first
    [CancelOrder] takes the id out of the index. *)
Theorem cancel_twice id ob m :
  (OrderBook.orders ob !! id = None → OrderBook.CancelOrder id ob m = (ob, m))
  ∧ OrderBook.CancelOrder id (OrderBook.CancelOrder id ob m).1 (OrderBook.CancelOrder id ob m).2
    = OrderBook.CancelOrder id ob m.
Proof.
  split; [apply CancelOrder_unknown|].
  rewrite CancelOrder_unknown; [by destruct (OrderBook.CancelOrder id ob m)|].
  rewrite CancelOrder_orders. apply lookup_delete_eq.
Qed.

(** X12. In a well-formed book, cancelling the id of a resting order takes
    exactly that order out: the order ends [Cancelled] with no list element
    and its other fields as they were, it is no longer in the index nor in
    any FIFO, no other order is written, every other resting order stays
    on its side at its price under its list element, nothing new rests,
    and the book is well formed again. *)
Theorem cancel_removes_one_order id a ob m :
  engine_inv ob m → OrderBook.orders ob !! id = Some a →
  let r := OrderBook.CancelOrder id ob m in
  engine_inv r.1 r.2
  ∧ OrderBook.orders r.1 = delete id (OrderBook.orders ob)
  ∧ Mem.load r.2 a = Order.Cancel (Order.with_ListElement None (Mem.load m a))
  ∧ (∀ a', a' ≠ a → Mem.load r.2 a' = Mem.load m a')
  ∧ ¬ resting r.1 a
  ∧ (∀ isBuy x h a', a' ≠ a → rests ob isBuy x h a' →
       ∃ x', rests r.1 isBuy x' h a' ∧ PriceLevel_.Price x' = PriceLevel_.Price x)
  ∧ (∀ isBuy x h a', rests r.1 isBuy x h a' →
       ∃ x0, rests ob isBuy x0 h a' ∧ PriceLevel_.Price x0 = PriceLevel_.Price x).
Proof.
  intros Hinv Hid r. unfold r. clear r.
  destruct (CancelOrder_spec None id a ob m Hinv Hid ltac:(done))
    as (ob' & m' & -> & Hinv' & Hix & _ & Hld & Hlda & Hgone & _ & Hback).
  cbn [fst snd]. split; [done|]. split; [done|]. split; [done|]. split; [done|].
  split; [done|]. split.
  - intros isBuy x h a' Hne Hr.
    pose proof (inv_orders _ _ _ Hinv _ _ _ _ Hr) as [H1 H2 H3 _ _ _ H7].
    assert (Hix' : OrderBook.orders ob' !! Order.ID (Mem.load m a') = Some a').
    { rewrite Hix. rewrite lookup_delete_ne; [done|]. intros ->. congruence. }
    destruct (inv_index _ _ _ Hinv' _ _ Hix') as [(isBuy' & x' & h' & Hr') _].
    destruct (Hback _ _ _ _ Hr') as (x0 & Hr0 & Hp0 & _).
    pose proof (inv_orders _ _ _ Hinv _ _ _ _ Hr0) as [G1 G2 G3 _ _ _ _].
    assert (isBuy' = isBuy) as -> by congruence.
    assert (h' = h) as -> by congruence.
    exists x'. split; [done|]. congruence.
  - intros isBuy x h a' Hr. destruct (Hback _ _ _ _ Hr) as (x0 & Hr0 & Hp0 & _). by exists x0.
Qed.

Lemma cancel_removes_one_order_witness :
  let ob := MatchingEngine.orderBook two_asks.1 in
  let m := two_asks.2 in
  let r := OrderBook.CancelOrder "S1" ob m in
  engine_inv ob m ∧ OrderBook.orders ob !! "S1" = Some 0%nat
  ∧ engine_inv r.1 r.2
  ∧ OrderBook.orders r.1 = delete "S1" (OrderBook.orders ob)
  ∧ Mem.load r.2 0 = Order.Cancel (Order.with_ListElement None (Mem.load m 0))
  ∧ (∀ a', a' ≠ 0%nat → Mem.load r.2 a' = Mem.load m a')
  ∧ ¬ resting r.1 0
  ∧ (∀ isBuy x h a', a' ≠ 0%nat → rests ob isBuy x h a' →
       ∃ x', rests r.1 isBuy x' h a' ∧ PriceLevel_.Price x' = PriceLevel_.Price x)
  ∧ (∀ isBuy x h a', rests r.1 isBuy x h a' →
       ∃ x0, rests ob isBuy x0 h a' ∧ PriceLevel_.Price x0 = PriceLevel_.Price x).
Proof.
  intros ob m r. destruct two_asks_ready as (H1 & _ & _).
  assert (H2 : OrderBook.orders ob !! "S1" = Some 0%nat) by (vm_compute; reflexivity).
  split; [exact H1|]. split; [exact H2|].
  exact (cancel_removes_one_order "S1" 0 ob m H1 H2).
Defined.

(** ** The ring buffers *)

(** X13. [Publish] on a ring buffer that holds the items [q] appends the
    item at the back when fewer than [size] items are pending, and blocks
    (does not return) when the buffer is full. *)
Theorem publish_enqueues_or_blocks {T} size (q : list T) rb x :
  rb_holds size q rb → RingBuffer.writeSeq rb + 1 < 2 ^ 63 →
  if decide (Z.of_nat (length q) < size)
  then ∃ rb', RingBuffer.Publish x rb = Some rb' ∧ rb_holds size (q ++ [x]) rb'
  else RingBuffer.Publish x rb = None.
Proof.
  intros Hh Hw. destruct (decide (Z.of_nat (length q) < size)) as [Hlt|Hge].
  - destruct (Publish_holds size q rb x Hh Hlt Hw) as (rb' & Hp & Hh' & _). by exists rb'.
  - apply (Publish_full size q); [done|]. pose proof (rh_count _ _ _ Hh). lia.
Qed.

Lemma publish_enqueues_or_blocks_witness :
  rb_holds 4 [7%nat] small_queue_one
  ∧ RingBuffer.writeSeq small_queue_one + 1 < 2 ^ 63
  ∧ if decide (Z.of_nat (length [7%nat]) < 4)
    then ∃ rb', RingBuffer.Publish 8%nat small_queue_one = Some rb'
                ∧ rb_holds 4 ([7%nat] ++ [8%nat]) rb'
    else RingBuffer.Publish 8%nat small_queue_one = None.
Proof.
  assert (H : RingBuffer.writeSeq small_queue_one + 1 < 2 ^ 63) by (vm_compute; reflexivity).
  split; [exact small_queue_one_holds|]. split; [exact H|].
  exact (publish_enqueues_or_blocks 4 [7%nat] small_queue_one 8%nat small_queue_one_holds H).
Defined.

(** X14. [Consume] returns the oldest item that is pending, first from the
    consumer's local cache and then from the buffer, and takes it out; the
    items behind it keep their order.  With nothing pending it blocks. *)
Theorem consume_takes_oldest {T} size (c q : list T) cb rb :
  cache_holds c cb → rb_holds size q rb →
  match c ++ q with
  | [] => RingBuffer.Consume cb rb = None
  | x :: rest =>
      ∃ cb' rb' c' q',
        RingBuffer.Consume cb rb = Some (Some x, cb', rb')
        ∧ cache_holds c' cb' ∧ rb_holds size q' rb' ∧ c' ++ q' = rest
  end.
Proof.
  intros Hc Hq. destruct (c ++ q) as [|x rest] eqn:E.
  - apply app_eq_nil in E as [-> ->]. by apply (Consume_empty size).
  - by apply (Consume_holds size c q).
Qed.

Lemma consume_takes_oldest_witness :
  cache_holds [] (RingBuffer.NewConsumer (T:=nat))
  ∧ rb_holds 4 [7%nat] small_queue_one
  ∧ match [] ++ [7%nat] with
    | [] => RingBuffer.Consume RingBuffer.NewConsumer small_queue_one = None
    | x :: rest =>
        ∃ cb' rb' c' q',
          RingBuffer.Consume RingBuffer.NewConsumer small_queue_one = Some (Some x, cb', rb')
          ∧ cache_holds c' cb' ∧ rb_holds 4 q' rb' ∧ c' ++ q' = rest
    end.
Proof.
  split; [exact NewConsumer_holds|]. split; [exact small_queue_one_holds|].
  exact (consume_takes_oldest 4 [] [7%nat] RingBuffer.NewConsumer small_queue_one
           NewConsumer_holds small_queue_one_holds).
Defined.

(** X15. A new ring buffer of a power-of-two capacity hands the items out
    in the order they were published: after [Publish] of the items [xs]
    (no more than the capacity), [length xs] calls of [Consume] return
    exactly [xs], and the next [Consume] blocks. *)
Theorem published_items_come_out_in_order {T} size (xs : list T) :
  0 < size < 2 ^ 32 → is_power_of_two size → Z.of_nat (length xs) <= size →
  ∃ rb0 rb1 cb rb2,
    RingBuffer.New size = Some rb0
    ∧ publish_list xs rb0 = Some rb1
    ∧ consume_n (length xs) RingBuffer.NewConsumer rb1 = Some (Some <$> xs, cb, rb2)
    ∧ RingBuffer.Consume cb rb2 = None.
Proof.
  intros Hs Hpow Hlen.
  destruct (New_positive (T:=T) size Hs) as [Hnone _].
  destruct (RingBuffer.New size) as [rb0|] eqn:Hnew; [|by apply Hnone in Hpow].
  pose proof (New_holds size rb0 Hs Hnew) as Hh0.
  pose proof (rh_write _ _ _ Hh0) as Hw0. pose proof (rh_read _ _ _ Hh0) as Hr0.
  assert (Hz : RingBuffer.writeSeq rb0 = 0).
  { unfold RingBuffer.New in Hnew. destruct (negb _); [done|]. destruct (size <? 0); [done|].
    by injection Hnew as <-. }
  destruct (publish_list_holds size xs [] rb0 Hh0) as (rb1 & Hp & Hh1);
    [simpl; lia|lia|]. simpl in Hh1.
  destruct (consume_n_holds size xs [] xs RingBuffer.NewConsumer rb1 [] NewConsumer_holds Hh1)
    as (cb & rb2 & c' & q' & Hn & Hc' & Hq' & Hnil); [by rewrite app_nil_r|].
  apply app_eq_nil in Hnil as [-> ->].
  exists rb0, rb1, cb, rb2. split; [done|]. split; [done|]. split; [done|].
  by apply (Consume_empty size).
Qed.

Lemma published_items_come_out_in_order_witness :
  0 < 4 < 2 ^ 32 ∧ is_power_of_two 4 ∧ Z.of_nat (length [1%nat; 2%nat; 3%nat]) <= 4
  ∧ ∃ rb0 rb1 cb rb2,
      RingBuffer.New 4 = Some rb0
      ∧ publish_list [1%nat; 2%nat; 3%nat] rb0 = Some rb1
      ∧ consume_n (length [1%nat; 2%nat; 3%nat]) RingBuffer.NewConsumer rb1
        = Some (Some <$> [1%nat; 2%nat; 3%nat], cb, rb2)
      ∧ RingBuffer.Consume cb rb2 = None.
Proof.
  assert (H1 : 0 < 4 < 2 ^ 32) by lia.
  assert (H2 : is_power_of_two 4) by (exists 2; split; [lia|reflexivity]).
  assert (H3 : Z.of_nat (length [1%nat; 2%nat; 3%nat]) <= 4) by (simpl; lia).
  split; [exact H1|]. split; [exact H2|]. split; [exact H3|].
  exact (published_items_come_out_in_order 4 [1%nat; 2%nat; 3%nat] H1 H2 H3).
Defined.

(** X16. [TryConsume] never blocks: with nothing pending it returns nil and
    [false] and changes nothing; otherwise it returns the oldest pending
    item and [true], and takes the item out. *)
Theorem try_consume_never_blocks {T} size (c q : list T) cb rb :
  cache_holds c cb → rb_holds size q rb →
  match c ++ q with
  | [] => RingBuffer.TryConsume cb rb = Some (None, false, cb, rb)
  | x :: rest =>
      ∃ cb' rb' c' q',
        RingBuffer.TryConsume cb rb = Some (Some x, true, cb', rb')
        ∧ cache_holds c' cb' ∧ rb_holds size q' rb' ∧ c' ++ q' = rest
  end.
Proof.
  intros Hc Hq. destruct (c ++ q) as [|x rest] eqn:E.
  - apply app_eq_nil in E as [-> ->]. by apply (TryConsume_empty size).
  - by apply (TryConsume_holds size c q).
Qed.

Lemma try_consume_never_blocks_witness :
  cache_holds [] (RingBuffer.NewConsumer (T:=nat))
  ∧ rb_holds 4 [] small_queue
  ∧ match [] ++ [] with
    | [] => RingBuffer.TryConsume RingBuffer.NewConsumer small_queue
            = Some (None, false, RingBuffer.NewConsumer, small_queue)
    | x :: rest =>
        ∃ cb' rb' c' q',
          RingBuffer.TryConsume RingBuffer.NewConsumer small_queue
          = Some (Some x, true, cb', rb')
          ∧ cache_holds c' cb' ∧ rb_holds 4 q' rb' ∧ c' ++ q' = rest
    end.
Proof.
  split; [exact NewConsumer_holds|]. split; [exact small_queue_holds|].
  exact (try_consume_never_blocks 4 [] [] RingBuffer.NewConsumer small_queue
           NewConsumer_holds small_queue_holds).
Defined.

(** ** Depth *)

(** X17. On every ladder built by inserting and removing orders of positive
    price, [GetDepth] panics exactly when [maxLevels] is positive, the
    ladder is not empty and [maxLevels] slots of 40 bytes exceed what the
    runtime allocates (2^48 bytes on a 64-bit platform).  Otherwise it
    returns the first levels of the ladder in price priority: together with
    some list [rest] it lists every level of the ladder exactly once, best
    price first, and it is cut after [maxLevels] levels (nothing for
    [maxLevels <= 0]); for [maxLevels > 0] its first level is the best
    level. *)
Theorem depth_lists_the_best_levels descending s n :
  ladder_reach descending s →
  (ShardedPriceTreeAdapter.GetDepth n s = None
   ↔ 0 < n ∧ ShardedPriceTreeAdapter.IsEmpty s = false ∧ maxAlloc < PriceLevel_size * n)
  ∧ ∀ depth, ShardedPriceTreeAdapter.GetDepth n s = Some depth →
      ∃ rest,
        (∀ l, l ∈ depth ++ rest ↔ l ∈ levels_of s)
        ∧ StronglySorted (price_before descending) (depth ++ rest)
        ∧ length depth = (Z.to_nat n `min` length (depth ++ rest))%nat
        ∧ (0 < n → head depth = ShardedPriceTreeAdapter.GetBestLevel s).
Proof.
  intros [Hok <-]%ladder_reach_ok.
  destruct (depth_order_spec s (tr_shape _ Hok)) as [Hs He].
  destruct (GetDepth_cases n s (tr_shape _ Hok)) as [[-> Hc]|[-> Hc]].
  { split; [done|]. by intros depth. }
  split; [split; [done|by intros ?]|]. intros depth [= <-].
  exists (drop (Z.to_nat n) (depth_order s)). rewrite take_drop.
  split; [intros l; by rewrite elem_of_levels_of|]. split; [done|].
  split; [apply length_take|]. intros Hn.
  rewrite <- (head_depth_order s Hok).
  destruct (depth_order s) as [|l0 r]; [by rewrite take_nil|].
  destruct (Z.to_nat n) as [|k] eqn:E; [lia|]. done.
Qed.

Lemma depth_lists_the_best_levels_witness :
  ladder_reach false boundary_ladder.1
  ∧ ShardedPriceTreeAdapter.GetDepth (2 ^ 63 - 1) boundary_ladder.1 = None
  ∧ PriceLevel_.Price <$> default [] (ShardedPriceTreeAdapter.GetDepth 1 boundary_ladder.1)
    = [128]
  ∧ (ShardedPriceTreeAdapter.GetDepth 1 boundary_ladder.1 = None
     ↔ 0 < 1 ∧ ShardedPriceTreeAdapter.IsEmpty boundary_ladder.1 = false
       ∧ maxAlloc < PriceLevel_size * 1)
  ∧ ∀ depth, ShardedPriceTreeAdapter.GetDepth 1 boundary_ladder.1 = Some depth →
      ∃ rest,
        (∀ l, l ∈ depth ++ rest ↔ l ∈ levels_of boundary_ladder.1)
        ∧ StronglySorted (price_before false) (depth ++ rest)
        ∧ length depth = (Z.to_nat 1 `min` length (depth ++ rest))%nat
        ∧ (0 < 1 → head depth = ShardedPriceTreeAdapter.GetBestLevel boundary_ladder.1).
Proof.
  split; [exact boundary_ladder_reach|]. split; [vm_compute; reflexivity|].
  split; [vm_compute; reflexivity|].
  exact (depth_lists_the_best_levels false boundary_ladder.1 1 boundary_ladder_reach).
Defined.

(** X18. [Size] does not count price levels: on every ladder built by
    inserting and removing orders of positive price it returns 128 for
    each 128-wide price range in which the ladder has a level, and 0
    exactly when the ladder has no level. *)
Theorem size_counts_slots descending s :
  ladder_reach descending s →
  ShardedPriceTreeAdapter.Size s = 128 * Z.of_nat (size (price_ranges s))
  ∧ (ShardedPriceTreeAdapter.Size s = 0 ↔ levels_of s = []).
Proof.
  intros [Hok _]%ladder_reach_ok. pose proof (tr_shape _ Hok) as Hsh.
  rewrite Size_buckets, (price_ranges_dom s Hsh), size_dom. split; [done|].
  split.
  - intros Hz. assert (He : ShardedPriceTree.buckets s = ∅) by (apply map_size_empty_iff; lia).
    destruct (levels_of s) as [|l r] eqn:E; [done|].
    assert (Hl : l ∈ levels_of s) by (rewrite E; by left).
    apply elem_of_levels_of in Hl as (id & b & i & Hid & _). by rewrite He in Hid.
  - intros Hnil. destruct (decide (ShardedPriceTree.buckets s = ∅)) as [->|Hne]; [done|].
    apply map_choose in Hne as (k & b & Hk). destruct (tr_buckets _ Hsh _ _ Hk) as [Hb Hne].
    destruct (Bucket.chain b) as [|p c] eqn:E; [done|].
    destruct (bk_chain _ _ _ Hb p ltac:(rewrite E; by left)) as (l & Hl & Hlp).
    assert (Hin : l ∈ levels_of s) by (apply elem_of_levels_of; by exists k, b, (Z.land p 127)).
    rewrite Hnil in Hin. by apply elem_of_nil in Hin.
Qed.

Lemma size_counts_slots_witness :
  ladder_reach false boundary_ladder.1
  ∧ length (levels_of boundary_ladder.1) = 2%nat
  ∧ ShardedPriceTreeAdapter.Size boundary_ladder.1 = 256
  ∧ ShardedPriceTreeAdapter.Size boundary_ladder.1
    = 128 * Z.of_nat (size (price_ranges boundary_ladder.1))
  ∧ (ShardedPriceTreeAdapter.Size boundary_ladder.1 = 0 ↔ levels_of boundary_ladder.1 = []).
Proof.
  split; [exact boundary_ladder_reach|]. split; [vm_compute; reflexivity|].
  split; [vm_compute; reflexivity|].
  exact (size_counts_slots false boundary_ladder.1 boundary_ladder_reach).
Defined.

(** X19. [OrderBook.GetDepth] on a book reached under valid input (every
    processed order arrived with an id not in the index, 0 <= filled,
    quantity < 2^63 and, for a limit order, a positive price; nobody but
    the engine wrote to a resting order).  It panics exactly when [levels]
    is positive, one side is not empty and [levels] slots of 40 bytes
    exceed what the runtime allocates (2^48 bytes on a 64-bit platform).
    Otherwise it reports at most [levels] entries per side, the bids by
    strictly falling price and the asks by strictly rising price; every
    entry stands for a level of that side with at least one order in it
    and carries its price, volume and number of orders; for [levels > 0]
    the first entries are at the best bid and the best ask. *)
Theorem market_depth_is_ordered me m n :
  valid_reach me m →
  (OrderBook.GetDepth n (MatchingEngine.orderBook me) = None
   ↔ 0 < n ∧ maxAlloc < PriceLevel_size * n
     ∧ (ShardedPriceTreeAdapter.IsEmpty (OrderBook.bids (MatchingEngine.orderBook me)) = false
        ∨ ShardedPriceTreeAdapter.IsEmpty (OrderBook.asks (MatchingEngine.orderBook me))
          = false))
  ∧ ∀ d, OrderBook.GetDepth n (MatchingEngine.orderBook me) = Some d →
      StronglySorted (λ x y, OrderBook.Price y < OrderBook.Price x) d.1
      ∧ StronglySorted (λ x y, OrderBook.Price x < OrderBook.Price y) d.2
      ∧ (length d.1 <= Z.to_nat n)%nat ∧ (length d.2 <= Z.to_nat n)%nat
      ∧ (∀ isBuy x, x ∈ (if isBuy : bool then d.1 else d.2) →
           0 < OrderBook.Orders x
           ∧ ∃ l, ShardedPriceTreeAdapter.GetLevel (OrderBook.Price x)
                    (side_of (MatchingEngine.orderBook me) isBuy) = Some l
                  ∧ OrderBook.export l = x)
      ∧ (0 < n →
         default 0 (OrderBook.Price <$> head d.1)
         = OrderBook.GetBestBid (MatchingEngine.orderBook me)
         ∧ default 0 (OrderBook.Price <$> head d.2)
           = OrderBook.GetBestAsk (MatchingEngine.orderBook me)).
Proof.
  intros Hr. pose proof (valid_reach_inv _ _ Hr) as Hinv.
  assert (Hside : ∀ isBuy,
    let s := side_of (MatchingEngine.orderBook me) isBuy in
    let dd := take (Z.to_nat n) (depth_order s) in
    StronglySorted (price_before isBuy) dd ∧ (length dd <= Z.to_nat n)%nat
    ∧ (∀ l, l ∈ dd → level_in s l ∧ PriceLevel_.Orders l ≠ [])
    ∧ (0 < n → default 0 (PriceLevel_.Price <$> head dd)
               = ShardedPriceTreeAdapter.GetBestPrice s)).
  { intros isBuy s dd.
    destruct (book_wf_side _ _ isBuy (inv_wf _ _ _ Hinv)) as (Hok & Hb & _). fold s in Hok, Hb.
    destruct (depth_order_spec s (tr_shape _ Hok)) as [Hs He]. rewrite Hb in Hs.
    unfold dd.
    split; [|split; [|split]].
    - rewrite <- (take_drop (Z.to_nat n) (depth_order s)) in Hs.
      by apply StronglySorted_app_1_l in Hs.
    - rewrite length_take. lia.
    - intros l Hl. apply elem_of_take in Hl as (i & Hl & _).
      apply list_elem_of_lookup_2, He in Hl. split; [done|by apply (tr_fifo _ Hok)].
    - intros Hn. pose proof (head_depth_order s Hok) as Hh.
      assert (Hhd : head (take (Z.to_nat n) (depth_order s)) = head (depth_order s)).
      { destruct (depth_order s); [by rewrite take_nil|].
        destruct (Z.to_nat n) eqn:E; [lia|done]. }
      rewrite Hhd, Hh. unfold ShardedPriceTreeAdapter.GetBestPrice,
        ShardedPriceTreeAdapter.GetBestLevel, ShardedPriceTree.GetBestPrice.
      destruct (ShardedPriceTree.bestPrice s) as [p|] eqn:Ep; [|done]. cbn [mbind option_bind].
      destruct (decide (ShardedPriceTree.buckets s = ∅)) as [Hemp|Hne].
      { destruct (best_empty _ (tr_shape _ Hok) Hemp) as [_ Hbp]. congruence. }
      assert (Hnz : ShardedPriceTreeAdapter.GetBestPrice s ≠ 0).
      { destruct (depth_order s) as [|l0 r] eqn:E.
        - destruct (best_bucket_nonempty _ (tr_shape _ Hok) Hne)
            as (k & b & p' & HL & _ & _ & Hhd').
          apply Left_Some in HL as [Hk _].
          destruct (tr_buckets _ (tr_shape _ Hok) _ _ Hk) as [Hbk _].
          assert (Hp : p' ∈ Bucket.chain b)
            by (destruct (Bucket.chain b); simplify_eq/=; by left).
          destruct (bk_chain _ _ _ Hbk _ Hp) as (l & Hl & _).
          assert (Hin : level_in s l) by (by exists k, b, (Z.land p' 127)).
          apply He in Hin. by apply elem_of_nil in Hin.
        - assert (Hl0 : level_in s l0) by (apply He; by left).
          by destruct (best_bounds _ _ Hok Hl0). }
      destruct (best_level _ Hok Hnz) as (lb & Hlb & _ & Hp & _).
      unfold ShardedPriceTreeAdapter.GetBestLevel, ShardedPriceTree.GetBestPrice in Hlb.
      rewrite Ep in Hlb. cbn [mbind option_bind] in Hlb. rewrite Hlb. cbn [fmap option_fmap option_map default].
      rewrite Hp. unfold ShardedPriceTreeAdapter.GetBestPrice, ShardedPriceTree.GetBestPrice.
      by rewrite Ep. }
  destruct (Hside true) as (B1 & B2 & B3 & B4). destruct (Hside false) as (A1 & A2 & A3 & A4).
  cbn [side_of] in *. unfold OrderBook.GetDepth.
  destruct (book_wf_side _ _ true (inv_wf _ _ _ Hinv)) as (Hokb & _ & _).
  destruct (book_wf_side _ _ false (inv_wf _ _ _ Hinv)) as (Hoka & _ & _).
  cbn [side_of] in *.
  destruct (GetDepth_cases n _ (tr_shape _ Hokb)) as [[-> Hcb]|[-> Hcb]].
  { split; [split; [intros _; split; [apply Hcb|split; [apply Hcb|left; apply Hcb]]|done]|].
    by intros d. }
  destruct (GetDepth_cases n _ (tr_shape _ Hoka)) as [[-> Hca]|[-> Hca]].
  { split; [split; [intros _; split; [apply Hca|split; [apply Hca|right; apply Hca]]|done]|].
    by intros d. }
  split.
  { split; [done|]. intros (Hn & Hbig & [He|He]); [by destruct Hcb|by destruct Hca]. }
  intros d [= <-]. cbn [fst snd].
  split; [|split; [|split; [|split; [|split]]]].
  - apply export_sorted in B1. eapply StronglySorted_weaken; [|exact B1].
    intros x y Hxy. unfold better, isBetter in Hxy. by apply Z.ltb_lt in Hxy.
  - apply export_sorted in A1. eapply StronglySorted_weaken; [|exact A1].
    intros x y Hxy. unfold better, isBetter in Hxy. by apply Z.ltb_lt in Hxy.
  - by rewrite length_fmap.
  - by rewrite length_fmap.
  - intros isBuy x Hx.
    assert (Hl : ∃ l, OrderBook.export l = x ∧ level_in (side_of (MatchingEngine.orderBook me) isBuy) l
                      ∧ PriceLevel_.Orders l ≠ []).
    { destruct isBuy; apply list_elem_of_fmap in Hx as (l & -> & Hl); exists l;
        (split; [done|]); [by apply B3|by apply A3]. }
    destruct Hl as (l & <- & Hl & Hne).
    destruct (book_wf_side _ _ isBuy (inv_wf _ _ _ Hinv)) as (Hok & _ & _).
    split.
    + cbn [OrderBook.export OrderBook.Orders]. destruct (PriceLevel_.Orders l); [done|].
      cbn [length]. lia.
    + exists l. split; [|done]. cbn [OrderBook.export OrderBook.Price].
      by apply (level_in_at _ (tr_shape _ Hok)).
  - intros Hn. specialize (B4 Hn). specialize (A4 Hn).
    unfold OrderBook.GetBestBid, OrderBook.GetBestAsk. rewrite <- B4, <- A4.
    split.
    + by destruct (take (Z.to_nat n) (depth_order (OrderBook.bids (MatchingEngine.orderBook me)))).
    + by destruct (take (Z.to_nat n) (depth_order (OrderBook.asks (MatchingEngine.orderBook me)))).
Qed.

Lemma market_depth_is_ordered_witness :
  valid_reach quiet_book.1.2 quiet_book.2
  ∧ OrderBook.GetDepth (2 ^ 63 - 1) (MatchingEngine.orderBook quiet_book.1.2) = None
  ∧ ((λ d : list OrderBook.PriceLevel * list OrderBook.PriceLevel,
        (OrderBook.Price <$> d.1, OrderBook.Price <$> d.2))
       <$> OrderBook.GetDepth 5 (MatchingEngine.orderBook quiet_book.1.2))
    = Some ([49000], [50000])
  ∧ (OrderBook.GetDepth 5 (MatchingEngine.orderBook quiet_book.1.2) = None
     ↔ 0 < 5 ∧ maxAlloc < PriceLevel_size * 5
       ∧ (ShardedPriceTreeAdapter.IsEmpty
            (OrderBook.bids (MatchingEngine.orderBook quiet_book.1.2)) = false
          ∨ ShardedPriceTreeAdapter.IsEmpty
              (OrderBook.asks (MatchingEngine.orderBook quiet_book.1.2)) = false))
  ∧ ∀ d, OrderBook.GetDepth 5 (MatchingEngine.orderBook quiet_book.1.2) = Some d →
      StronglySorted (λ x y, OrderBook.Price y < OrderBook.Price x) d.1
      ∧ StronglySorted (λ x y, OrderBook.Price x < OrderBook.Price y) d.2
      ∧ (length d.1 <= Z.to_nat 5)%nat ∧ (length d.2 <= Z.to_nat 5)%nat
      ∧ (∀ isBuy x, x ∈ (if isBuy : bool then d.1 else d.2) →
           0 < OrderBook.Orders x
           ∧ ∃ l, ShardedPriceTreeAdapter.GetLevel (OrderBook.Price x)
                    (side_of (MatchingEngine.orderBook quiet_book.1.2) isBuy) = Some l
                  ∧ OrderBook.export l = x)
      ∧ (0 < 5 →
         default 0 (OrderBook.Price <$> head d.1)
         = OrderBook.GetBestBid (MatchingEngine.orderBook quiet_book.1.2)
         ∧ default 0 (OrderBook.Price <$> head d.2)
           = OrderBook.GetBestAsk (MatchingEngine.orderBook quiet_book.1.2)).
Proof.
  split; [exact quiet_book_reach|]. split; [vm_compute; reflexivity|].
  split; [vm_compute; reflexivity|].
  exact (market_depth_is_ordered quiet_book.1.2 quiet_book.2 5 quiet_book_reach).
Defined.

(** ** The HashMap + list price tree *)

(** X20. On every HashMap + list tree built by inserting and removing
    orders, a stored level is found under its own price and holds at least
    one order; when there is one, [GetBestLevel] is a stored level, its
    price is [GetBestPrice], and no stored price is better: none is higher
    on a descending (bid) tree, none is lower on an ascending (ask) tree.
    [IsEmpty] holds exactly when [Size] is 0, and then [GetBestPrice]
    is 0. *)
Theorem hashmap_best_price_is_extremum descending pt :
  hm_reach descending pt →
  (HashMapListPriceTree.IsEmpty pt = true ↔ HashMapListPriceTree.Size pt = 0)
  ∧ (HashMapListPriceTree.IsEmpty pt = true → HashMapListPriceTree.GetBestPrice pt = 0)
  ∧ ∀ p l, HashMapListPriceTree.GetLevel p pt = Some l →
      PriceLevel_.Price l = p ∧ PriceLevel_.Orders l ≠ []
      ∧ ∃ lb, HashMapListPriceTree.GetBestLevel pt = Some lb
          ∧ HashMapListPriceTree.GetLevel (PriceLevel_.Price lb) pt = Some lb
          ∧ HashMapListPriceTree.GetBestPrice pt = PriceLevel_.Price lb
          ∧ if descending then p <= PriceLevel_.Price lb else PriceLevel_.Price lb <= p.
Proof.
  intros [Hok Hd]%hm_reach_ok.
  pose proof (hm_best pt Hok) as Hb. pose proof (hm_Size_chain pt Hok) as Hsz.
  unfold HashMapListPriceTree.IsEmpty, HashMapListPriceTree.GetBestPrice,
    HashMapListPriceTree.GetLevel, HashMapListPriceTree.bestPrice in *.
  destruct (HashMapListPriceTree.chain pt) as [|q c] eqn:Ec.
  - rewrite Hsz. cbn [head length]. split; [done|].
    unfold HashMapListPriceTree.GetBestLevel, HashMapListPriceTree.bestPrice. rewrite Ec.
    split; [done|]. intros p l. by rewrite Hb, lookup_empty.
  - rewrite Hsz. cbn [head length]. split; [split; [done|lia]|]. split; [done|].
    intros p l Hl. destruct (hm_levels _ Hok _ _ Hl) as [Hp Hne].
    split; [done|]. split; [done|].
    destruct Hb as (lb & Hlb & Hq & Hbest). exists lb. rewrite Hlb.
    split; [done|]. split.
    + unfold HashMapListPriceTree.GetBestLevel, HashMapListPriceTree.bestPrice in Hlb.
      rewrite Ec in Hlb. cbn [head mbind option_bind] in Hlb. by rewrite Hq.
    + split; [done|]. specialize (Hbest p). rewrite Hl in Hbest.
      specialize (Hbest (ltac:(by eexists))). rewrite Hd in Hbest. rewrite Hq.
      unfold isBetter in Hbest. destruct descending; apply Z.ltb_ge in Hbest; lia.
Qed.

Lemma hashmap_best_price_is_extremum_witness :
  hm_reach true hash_ladder.1
  ∧ HashMapListPriceTree.GetBestPrice hash_ladder.1 = 128
  ∧ (HashMapListPriceTree.IsEmpty hash_ladder.1 = true
     ↔ HashMapListPriceTree.Size hash_ladder.1 = 0)
  ∧ (HashMapListPriceTree.IsEmpty hash_ladder.1 = true
     → HashMapListPriceTree.GetBestPrice hash_ladder.1 = 0)
  ∧ ∀ p l, HashMapListPriceTree.GetLevel p hash_ladder.1 = Some l →
      PriceLevel_.Price l = p ∧ PriceLevel_.Orders l ≠ []
      ∧ ∃ lb, HashMapListPriceTree.GetBestLevel hash_ladder.1 = Some lb
          ∧ HashMapListPriceTree.GetLevel (PriceLevel_.Price lb) hash_ladder.1 = Some lb
          ∧ HashMapListPriceTree.GetBestPrice hash_ladder.1 = PriceLevel_.Price lb
          ∧ p <= PriceLevel_.Price lb.
Proof.
  split; [apply hash_ladder_reach|]. split; [vm_compute; reflexivity|].
  apply (hashmap_best_price_is_extremum true hash_ladder.1 hash_ladder_reach).
Defined.

(** X21. On every HashMap + list tree built by inserting and removing
    orders, [GetDepth] panics exactly when the tree is not empty and
    [maxLevels] is negative or [maxLevels] slots of 40 bytes exceed what
    the runtime allocates (2^48 bytes on a 64-bit platform).  Otherwise it
    returns the first [maxLevels] levels of the tree in price priority:
    together with some list [rest] it lists every stored level exactly
    once, best price first, and for [maxLevels > 0] it starts with the best
    level.  [Size] is the number of stored levels. *)
Theorem hashmap_depth_lists_the_best_levels descending pt n :
  hm_reach descending pt →
  (HashMapListPriceTree.GetDepth n pt = None
   ↔ HashMapListPriceTree.IsEmpty pt = false
     ∧ (n < 0 ∨ maxAlloc < PriceLevel_size * n))
  ∧ ∀ depth, HashMapListPriceTree.GetDepth n pt = Some depth →
      ∃ rest,
        (∀ l, l ∈ depth ++ rest ↔ ∃ p, HashMapListPriceTree.GetLevel p pt = Some l)
        ∧ StronglySorted (price_before descending) (depth ++ rest)
        ∧ length depth = (Z.to_nat n `min` length (depth ++ rest))%nat
        ∧ HashMapListPriceTree.Size pt = Z.of_nat (length (depth ++ rest))
        ∧ head depth = (if 0 <? n then HashMapListPriceTree.GetBestLevel pt else None).
Proof.
  intros [Hok Hd]%hm_reach_ok.
  destruct (hm_depth_order_spec pt Hok) as (Hs & Hlen & He). rewrite Hd in Hs.
  pose proof (hm_Size_chain pt Hok) as Hsz. pose proof (hm_best pt Hok) as Hb.
  unfold HashMapListPriceTree.GetDepth, HashMapListPriceTree.IsEmpty,
    HashMapListPriceTree.bestPrice, HashMapListPriceTree.GetLevel, makeslice_ok.
  assert (Hall : ∀ k, ∃ rest,
     (∀ l, l ∈ take k (hm_depth_order pt) ++ rest
           ↔ ∃ p, HashMapListPriceTree.levels pt !! p = Some l)
     ∧ StronglySorted (price_before descending) (take k (hm_depth_order pt) ++ rest)
     ∧ length (take k (hm_depth_order pt))
       = (k `min` length (take k (hm_depth_order pt) ++ rest))%nat
     ∧ HashMapListPriceTree.Size pt
       = Z.of_nat (length (take k (hm_depth_order pt) ++ rest))).
  { intros k. exists (drop k (hm_depth_order pt)). rewrite take_drop.
    split; [done|]. split; [done|]. split; [apply length_take|]. by rewrite Hsz, Hlen. }
  assert (Hw : HashMapListPriceTree.walk pt (HashMapListPriceTree.chain pt) n []
               = take (Z.to_nat n) (hm_depth_order pt)).
  { rewrite hm_walk_take by (intros p Hp; by apply (hm_chain _ Hok)).
    cbn [app length]. by rewrite Nat.sub_0_r. }
  destruct (HashMapListPriceTree.chain pt) as [|q c] eqn:Ec; cbn [head].
  - split; [split; [done|by intros [? _]]|]. intros depth [= <-].
    exists []. cbn [app length]. rewrite Hb.
    split; [intros l; split; [by intros ?%elem_of_nil|intros [p Hp]; by rewrite lookup_empty in Hp]|].
    split; [constructor|]. split; [lia|]. split; [by rewrite Hsz|].
    unfold HashMapListPriceTree.GetBestLevel, HashMapListPriceTree.bestPrice. rewrite Ec.
    by destruct (0 <? n).
  - destruct (Z.leb_spec 0 n) as [Hn|Hn]; cbn [andb].
    2:{ split; [split; [intros _; split; [done|lia]|done]|]. by intros depth. }
    destruct (Z.leb_spec (PriceLevel_size * n) maxAlloc) as [Hle|Hgt].
    2:{ split; [split; [intros _; split; [done|lia]|done]|]. by intros depth. }
    split; [split; [done|intros [_ [?|?]]; lia]|]. intros depth Hdp.
    rewrite Hw in Hdp. injection Hdp as <-.
    destruct (Hall (Z.to_nat n)) as (rest & H1 & H2 & H3 & H4).
    exists rest. split; [done|]. split; [done|]. split; [done|]. split; [done|].
    destruct Hb as (lb & Hlb & Hq & _).
    unfold HashMapListPriceTree.GetBestLevel, HashMapListPriceTree.bestPrice in Hlb |- *.
    rewrite Ec in Hlb |- *. cbn [head mbind option_bind] in Hlb |- *.
    unfold hm_depth_order. rewrite Ec. cbn [omap list_omap]. rewrite Hlb.
    destruct (Z.ltb_spec 0 n) as [Hpos|Hz].
    + destruct (Z.to_nat n) as [|k] eqn:E; [lia|]. done.
    + replace (Z.to_nat n) with 0%nat by lia. done.
Qed.

Lemma hashmap_depth_lists_the_best_levels_witness :
  hm_reach true hash_ladder.1
  ∧ HashMapListPriceTree.GetDepth (-1) hash_ladder.1 = None
  ∧ HashMapListPriceTree.GetDepth (2 ^ 63 - 1) hash_ladder.1 = None
  ∧ PriceLevel_.Price <$> default [] (HashMapListPriceTree.GetDepth 1 hash_ladder.1) = [128]
  ∧ HashMapListPriceTree.Size hash_ladder.1 = 2
  ∧ (HashMapListPriceTree.GetDepth 1 hash_ladder.1 = None
     ↔ HashMapListPriceTree.IsEmpty hash_ladder.1 = false
       ∧ (1 < 0 ∨ maxAlloc < PriceLevel_size * 1))
  ∧ ∀ depth, HashMapListPriceTree.GetDepth 1 hash_ladder.1 = Some depth →
      ∃ rest,
        (∀ l, l ∈ depth ++ rest ↔ ∃ p, HashMapListPriceTree.GetLevel p hash_ladder.1 = Some l)
        ∧ StronglySorted (price_before true) (depth ++ rest)
        ∧ length depth = (Z.to_nat 1 `min` length (depth ++ rest))%nat
        ∧ HashMapListPriceTree.Size hash_ladder.1 = Z.of_nat (length (depth ++ rest))
        ∧ head depth = (if 0 <? 1 then HashMapListPriceTree.GetBestLevel hash_ladder.1
                        else None).
Proof.
  split; [apply hash_ladder_reach|]. split; [vm_compute; reflexivity|].
  split; [vm_compute; reflexivity|]. split; [vm_compute; reflexivity|].
  split; [vm_compute; reflexivity|].
  apply (hashmap_depth_lists_the_best_levels true hash_ladder.1 1 hash_ladder_reach).
Defined.

(** ** The two price trees side by side *)

(** X22. The two implementations of the price tree interface are
    interchangeable for orders of positive price.  A sharded tree and a
    HashMap + list tree that went through the same insertions and removals
    answer alike: the same best price, best level and best orders, the same
    emptiness, the same level at every positive price; for every
    [maxLevels >= 0] [GetDepth] panics on both or returns the same levels
    on both; and the next [Insert] or [Remove] of an order leaves the same
    order memory behind. *)
Theorem price_trees_agree descending s pt :
  same_ladder descending s pt →
  ShardedPriceTreeAdapter.GetBestPrice s = HashMapListPriceTree.GetBestPrice pt
  ∧ ShardedPriceTreeAdapter.GetBestLevel s = HashMapListPriceTree.GetBestLevel pt
  ∧ ShardedPriceTreeAdapter.GetBestOrders s = HashMapListPriceTree.GetBestOrders pt
  ∧ ShardedPriceTreeAdapter.IsEmpty s = HashMapListPriceTree.IsEmpty pt
  ∧ (∀ p, 0 < p →
       ShardedPriceTreeAdapter.GetLevel p s = HashMapListPriceTree.GetLevel p pt)
  ∧ (∀ n, 0 <= n →
       ShardedPriceTreeAdapter.GetDepth n s = HashMapListPriceTree.GetDepth n pt)
  ∧ ∀ m a, 0 < Order.Price (Mem.load m a) →
      (ShardedPriceTreeAdapter.Insert a s m).2 = (HashMapListPriceTree.Insert a pt m).2
      ∧ (ShardedPriceTreeAdapter.Remove a s m).2 = (HashMapListPriceTree.Remove a pt m).2.
Proof.
  intros [Hag _]%same_ladder_agree. pose proof Hag as [Hok Hhm Hside Hlv Hpos].
  pose proof (agree_depth_order s pt Hag) as Hd.
  assert (Hbl : ShardedPriceTreeAdapter.GetBestLevel s = HashMapListPriceTree.GetBestLevel pt).
  { by rewrite <- (head_depth_order s Hok), <- (hm_head_depth_order pt Hhm), Hd. }
  assert (Hemp : ShardedPriceTreeAdapter.IsEmpty s = HashMapListPriceTree.IsEmpty pt).
  { pose proof (IsEmpty_depth_order s Hok) as He. rewrite Hd in He.
    unfold HashMapListPriceTree.IsEmpty, HashMapListPriceTree.bestPrice.
    destruct (hm_depth_order_spec pt Hhm) as (_ & Hlen & _).
    destruct (HashMapListPriceTree.chain pt) as [|q c]; cbn [head].
    + apply He. by apply nil_length_inv.
    + apply not_true_is_false. intros Ht%He. by rewrite Ht in Hlen. }
  split; [|split; [done|split; [|split; [done|split; [|split]]]]].
  - rewrite (GetBestPrice_head s Hok), Hbl. done.
  - unfold ShardedPriceTreeAdapter.GetBestOrders, HashMapListPriceTree.GetBestOrders.
    by rewrite Hbl.
  - intros p Hp. by apply Hlv.
  - intros n Hn. rewrite (hm_GetDepth_take pt n Hhm).
    rewrite (GetDepth_take n s (tr_shape _ Hok)), Hd, Hemp.
    destruct (Z.ltb_spec 0 n) as [Hnpos|Hz]; cbn [andb]; [done|].
    assert (n = 0) as -> by lia.
    change (makeslice_ok PriceLevel_size 0) with true. cbn [negb].
    by rewrite andb_false_r.
  - intros m a Hp. split; [by apply agree_Insert|by apply agree_Remove].
Qed.

Lemma price_trees_agree_witness :
  same_ladder false boundary_ladder.1 boundary_hash_ladder.1
  ∧ HashMapListPriceTree.GetBestPrice boundary_hash_ladder.1 = 128
  ∧ PriceLevel_.Price <$> default [] (HashMapListPriceTree.GetDepth 5 boundary_hash_ladder.1)
    = [128; 300]
  ∧ ShardedPriceTreeAdapter.GetBestPrice boundary_ladder.1
    = HashMapListPriceTree.GetBestPrice boundary_hash_ladder.1
  ∧ ShardedPriceTreeAdapter.GetBestLevel boundary_ladder.1
    = HashMapListPriceTree.GetBestLevel boundary_hash_ladder.1
  ∧ ShardedPriceTreeAdapter.GetBestOrders boundary_ladder.1
    = HashMapListPriceTree.GetBestOrders boundary_hash_ladder.1
  ∧ ShardedPriceTreeAdapter.IsEmpty boundary_ladder.1
    = HashMapListPriceTree.IsEmpty boundary_hash_ladder.1
  ∧ (∀ p, 0 < p →
       ShardedPriceTreeAdapter.GetLevel p boundary_ladder.1
       = HashMapListPriceTree.GetLevel p boundary_hash_ladder.1)
  ∧ (∀ n, 0 <= n →
       ShardedPriceTreeAdapter.GetDepth n boundary_ladder.1
       = HashMapListPriceTree.GetDepth n boundary_hash_ladder.1)
  ∧ ∀ m a, 0 < Order.Price (Mem.load m a) →
      (ShardedPriceTreeAdapter.Insert a boundary_ladder.1 m).2
      = (HashMapListPriceTree.Insert a boundary_hash_ladder.1 m).2
      ∧ (ShardedPriceTreeAdapter.Remove a boundary_ladder.1 m).2
        = (HashMapListPriceTree.Remove a boundary_hash_ladder.1 m).2.
Proof.
  split; [apply boundary_ladders_same|]. split; [vm_compute; reflexivity|].
  split; [vm_compute; reflexivity|].
  apply (price_trees_agree false _ _ boundary_ladders_same).
Defined.

(** ** The matching thread *)

(** X23. One turn of the matching thread when no cancel request is pending:
    the thread takes the oldest submitted order, processes it as
    [processOrder] does, keeps the later submissions queued in their order,
    and appends the trades of the order, in their order, to the trade
    queue.  It blocks when the trade queue has no room for all of them. *)
Theorem turn_processes_oldest_order fuel cb me m c q tq order rest trades me1 m1 :
  MatchingEngine.cancelChan me = [] →
  cache_holds c cb → rb_holds 65536 q (MatchingEngine.orderBuffer me) →
  c ++ q = order :: rest →
  rb_holds 65536 tq (MatchingEngine.tradeBuffer me) →
  RingBuffer.writeSeq (MatchingEngine.tradeBuffer me) + Z.of_nat (length trades) < 2 ^ 63 →
  engine_inv (MatchingEngine.orderBook me) m →
  incoming_ok (MatchingEngine.orderBook me) m order →
  MatchingEngine.processOrder fuel order me m = Some (trades, me1, m1) →
  (Z.of_nat (length tq) + Z.of_nat (length trades) <= 65536 →
     ∃ cb' me' c' q',
       MatchingEngine.turn fuel cb me m = Some (cb', me', m1)
       ∧ MatchingEngine.orderBook me' = MatchingEngine.orderBook me1
       ∧ MatchingEngine.tradeIDGen me' = MatchingEngine.tradeIDGen me1
       ∧ MatchingEngine.symbol me' = MatchingEngine.symbol me
       ∧ MatchingEngine.cancelChan me' = []
       ∧ cache_holds c' cb'
       ∧ rb_holds 65536 q' (MatchingEngine.orderBuffer me')
       ∧ c' ++ q' = rest
       ∧ rb_holds 65536 (tq ++ trades) (MatchingEngine.tradeBuffer me'))
  ∧ (65536 < Z.of_nat (length tq) + Z.of_nat (length trades) → MatchingEngine.turn fuel cb me m = None).
Proof.
  intros Hcc Hc Hq Hx Htq Hw Hinv Hin Hp.
  destruct (po_engine _ _ _ _ _ _ (processOrder_frame _ _ _ _ _ _ _ Hinv Hin Hp))
    as (Hsym & _ & Hcan & Htb).
  destruct (Consume_holds 65536 c q cb _ order rest Hc Hq Hx)
    as (cb' & rb' & c' & q' & Hcons & Hc' & Hq' & Hrest).
  unfold MatchingEngine.turn. rewrite Hcc, Hcons. cbn [mbind option_bind].
  rewrite processOrder_with_orderBuffer, Hp.
  cbn [fmap option_fmap option_map mbind option_bind fst snd].
  change (MatchingEngine.tradeBuffer (MatchingEngine.with_orderBuffer rb' me1))
    with (MatchingEngine.tradeBuffer me1).
  rewrite Htb, publish_all_list. split.
  - intros Hroom.
    destruct (publish_list_holds 65536 trades tq _ Htq) as (tb' & Hpub & Htb'); [lia|done|].
    rewrite Hpub. cbn [mbind option_bind].
    exists cb', (MatchingEngine.with_tradeBuffer tb' (MatchingEngine.with_orderBuffer rb' me1)),
      c', q'.
    split; [done|]. split; [done|]. split; [done|]. split; [done|].
    split; [by rewrite <- Hcc, <- Hcan|]. done.
  - intros Hfull. rewrite (publish_list_full 65536 trades tq _ Htq); [done|lia|done].
Qed.

Lemma turn_processes_oldest_order_witness :
  MatchingEngine.cancelChan two_asks_submitted = []
  ∧ cache_holds (T:=nat) [] RingBuffer.NewConsumer
  ∧ rb_holds 65536 [2%nat] (MatchingEngine.orderBuffer two_asks_submitted)
  ∧ rb_holds 65536 [] (MatchingEngine.tradeBuffer two_asks_submitted)
  ∧ engine_inv (MatchingEngine.orderBook two_asks_submitted) two_asks.2
  ∧ incoming_ok (MatchingEngine.orderBook two_asks_submitted) two_asks.2 2
  ∧ MatchingEngine.processOrder 16 2 two_asks_submitted two_asks.2
    = Some (two_asks_turn.1.1, two_asks_turn.1.2, two_asks_turn.2)
  ∧ length two_asks_turn.1.1 = 2%nat
  ∧ ∃ cb' me' c' q',
      MatchingEngine.turn 16 RingBuffer.NewConsumer two_asks_submitted two_asks.2
      = Some (cb', me', two_asks_turn.2)
      ∧ MatchingEngine.orderBook me' = MatchingEngine.orderBook two_asks_turn.1.2
      ∧ MatchingEngine.tradeIDGen me' = MatchingEngine.tradeIDGen two_asks_turn.1.2
      ∧ MatchingEngine.symbol me' = MatchingEngine.symbol two_asks_submitted
      ∧ MatchingEngine.cancelChan me' = []
      ∧ cache_holds c' cb'
      ∧ rb_holds 65536 q' (MatchingEngine.orderBuffer me')
      ∧ c' ++ q' = []
      ∧ rb_holds 65536 ([] ++ two_asks_turn.1.1) (MatchingEngine.tradeBuffer me').
Proof.
  destruct two_asks_submitted_ready as (H1 & H2 & H3 & H4 & H5 & H6).
  assert (Hlen : length two_asks_turn.1.1 = 2%nat) by (vm_compute; reflexivity).
  assert (Hw : RingBuffer.writeSeq (MatchingEngine.tradeBuffer two_asks_submitted)
               + Z.of_nat (length two_asks_turn.1.1) < 2 ^ 63).
  { rewrite Hlen. vm_compute. reflexivity. }
  split; [exact H1|]. split; [exact NewConsumer_holds|]. split; [exact H2|].
  split; [exact H3|]. split; [exact H4|]. split; [exact H5|]. split; [exact H6|].
  split; [exact Hlen|].
  apply (turn_processes_oldest_order 16 RingBuffer.NewConsumer two_asks_submitted two_asks.2
           [] [2%nat] [] 2%nat [] two_asks_turn.1.1 two_asks_turn.1.2 two_asks_turn.2
           H1 NewConsumer_holds H2 eq_refl H3 Hw H4 H5 H6).
  rewrite Hlen. simpl. lia.
Defined.

(** ** The exchange *)

(** X24. An order submitted to the exchange is appended to the order queue
    of the engine registered under the order's symbol, which is an engine
    for that symbol and is created first when the exchange has none; the
    engines of the other symbols, and the book, the cancel requests, the
    trade queue and the trade ids of that engine, are left as they are. *)
Theorem exchange_routes_by_symbol e order m e' :
  exchange_reach e →
  ExchangeEngine.SubmitOrder order e m = Some e' →
  let symbol := Order.Symbol (Mem.load m order) in
  (∀ s, s ≠ symbol → ExchangeEngine.engines e' !! s = ExchangeEngine.engines e !! s)
  ∧ ∃ me me',
      (ExchangeEngine.engines e !! symbol = Some me
       ∨ ExchangeEngine.engines e !! symbol = None
         ∧ MatchingEngine.NewMatchingEngine symbol = Some me)
      ∧ ExchangeEngine.engines e' !! symbol = Some me'
      ∧ MatchingEngine.symbol me' = symbol
      ∧ MatchingEngine.orderBook me' = MatchingEngine.orderBook me
      ∧ MatchingEngine.cancelChan me' = MatchingEngine.cancelChan me
      ∧ MatchingEngine.tradeBuffer me' = MatchingEngine.tradeBuffer me
      ∧ MatchingEngine.tradeIDGen me' = MatchingEngine.tradeIDGen me
      ∧ ∀ q, rb_holds 65536 q (MatchingEngine.orderBuffer me) →
             RingBuffer.writeSeq (MatchingEngine.orderBuffer me) + 1 < 2 ^ 63 →
             rb_holds 65536 (q ++ [order]) (MatchingEngine.orderBuffer me').
Proof.
  intros Hreach Hs symbol. pose proof (exchange_keys e Hreach) as Hkeys.
  unfold ExchangeEngine.SubmitOrder in Hs. cbv zeta in Hs. fold symbol in Hs.
  destruct (ExchangeEngine.GetEngine symbol e) as [[me e1]|] eqn:Hg; [|done].
  cbn [mbind option_bind] in Hs. unfold MatchingEngine.SubmitOrder in Hs.
  destruct (RingBuffer.Publish order (MatchingEngine.orderBuffer me)) as [rb|] eqn:Hp; [|done].
  cbn [mbind option_bind] in Hs. injection Hs as <-. cbn [ExchangeEngine.engines].
  destruct (GetEngine_spec _ _ _ _ Hg) as (H1 & H2 & H3).
  split; [intros s Hne; by rewrite lookup_insert_ne, H2|].
  exists me, (MatchingEngine.with_orderBuffer rb me).
  split; [destruct H3 as [[H3 _]|H3]; [by left|by right]|].
  split; [by rewrite lookup_insert_eq|].
  split.
  { cbn [MatchingEngine.symbol MatchingEngine.with_orderBuffer].
    destruct H3 as [[H3 _]|[_ H3]]; [by apply Hkeys|by apply NewMatchingEngine_symbol]. }
  split; [done|]. split; [done|]. split; [done|]. split; [done|].
  intros q Hq Hw. cbn [MatchingEngine.orderBuffer MatchingEngine.with_orderBuffer].
  pose proof (rh_count _ _ _ Hq) as Hc.
  destruct (decide (Z.of_nat (length q) = 65536)) as [Hfull|Hroom].
  - rewrite (Publish_full 65536 q _ order Hq Hfull) in Hp. done.
  - destruct (Publish_holds 65536 q _ order Hq) as (rb' & Hp' & Hh & _); [lia|done|].
    rewrite Hp in Hp'. by injection Hp' as <-.
Qed.

Lemma exchange_routes_by_symbol_witness :
  exchange_reach ExchangeEngine.NewExchangeEngine
  ∧ ExchangeEngine.SubmitOrder 2 ExchangeEngine.NewExchangeEngine two_asks.2
    = Some first_submission
  ∧ Order.Symbol (Mem.load two_asks.2 2) = "BTCUSDT"
  ∧ (∀ s, s ≠ Order.Symbol (Mem.load two_asks.2 2) →
       ExchangeEngine.engines first_submission !! s
       = ExchangeEngine.engines ExchangeEngine.NewExchangeEngine !! s)
  ∧ ∃ me me',
      (ExchangeEngine.engines ExchangeEngine.NewExchangeEngine
         !! Order.Symbol (Mem.load two_asks.2 2) = Some me
       ∨ ExchangeEngine.engines ExchangeEngine.NewExchangeEngine
           !! Order.Symbol (Mem.load two_asks.2 2) = None
         ∧ MatchingEngine.NewMatchingEngine (Order.Symbol (Mem.load two_asks.2 2)) = Some me)
      ∧ ExchangeEngine.engines first_submission !! Order.Symbol (Mem.load two_asks.2 2)
        = Some me'
      ∧ MatchingEngine.symbol me' = Order.Symbol (Mem.load two_asks.2 2)
      ∧ MatchingEngine.orderBook me' = MatchingEngine.orderBook me
      ∧ MatchingEngine.cancelChan me' = MatchingEngine.cancelChan me
      ∧ MatchingEngine.tradeBuffer me' = MatchingEngine.tradeBuffer me
      ∧ MatchingEngine.tradeIDGen me' = MatchingEngine.tradeIDGen me
      ∧ ∀ q, rb_holds 65536 q (MatchingEngine.orderBuffer me) →
             RingBuffer.writeSeq (MatchingEngine.orderBuffer me) + 1 < 2 ^ 63 →
             rb_holds 65536 (q ++ [2%nat]) (MatchingEngine.orderBuffer me').
Proof.
  split; [exact ex_new|]. split; [exact first_submission_some|].
  split; [vm_compute; reflexivity|].
  exact (exchange_routes_by_symbol ExchangeEngine.NewExchangeEngine 2 two_asks.2
           first_submission ex_new first_submission_some).
Defined.

